(** * Grove sensors and actuators: a shallow embedding of
      [src/grove-sensors-actuators.cpp] and the properties of its
      calibration, rendering, routing and publish-throttle code.

    C++ [float] is IEEE-754 binary32 and [double] is binary64; both are
    modelled with the executable [spec_float] operations of the standard
    library ([SpecFloat]), instantiated at (prec, emax) = (24, 128) and
    (53, 1024).  Every implicit conversion the C++ expressions perform
    (float to double for a double literal operand, double to float on
    assignment or return, int to float in mixed comparisons) is written
    out. *)

From Stdlib Require Import ZArith Lia List Bool.
From Stdlib Require Import Floats.SpecFloat.
Import ListNotations.
Local Open Scope Z_scope.

(** ** Machine numbers *)

Module CFloat.

(** binary32, the C++ [float]. *)
Definition prec32 : Z := 24.
Definition emax32 : Z := 128.
(** binary64, the C++ [double]. *)
Definition prec64 : Z := 53.
Definition emax64 : Z := 1024.

Definition f32 := spec_float.
Definition f64 := spec_float.

Definition valid32 (x : f32) : bool := valid_binary prec32 emax32 x.
Definition valid64 (x : f64) : bool := valid_binary prec64 emax64 x.

(** Conversions.  float -> double is exact; double -> float rounds to
    nearest even and overflows to an infinity. *)
Definition f32_to_f64 (x : f32) : f64 :=
  match x with
  | S754_finite s m e => binary_round prec64 emax64 s m e
  | _ => x
  end.

Definition f64_to_f32 (x : f64) : f32 :=
  match x with
  | S754_finite s m e => binary_round prec32 emax32 s m e
  | _ => x
  end.

(** [(float)n] and [(double)n] for an integer [n]. *)
Definition f32_of_int (n : Z) : f32 := binary_normalize prec32 emax32 n 0 false.
Definition f64_of_int (n : Z) : f64 := binary_normalize prec64 emax64 n 0 false.

Definition f32_sub : f32 -> f32 -> f32 := SFsub prec32 emax32.
Definition f32_div : f32 -> f32 -> f32 := SFdiv prec32 emax32.
Definition f64_sub : f64 -> f64 -> f64 := SFsub prec64 emax64.
Definition f64_mul : f64 -> f64 -> f64 := SFmul prec64 emax64.
Definition f64_div : f64 -> f64 -> f64 := SFdiv prec64 emax64.

(** [x < y] and [x <= y]; both are false as soon as an operand is NaN. *)
Definition flt (x y : spec_float) : bool := SFltb x y.
Definition fle (x y : spec_float) : bool := SFleb x y.

Definition isnan (x : spec_float) : bool :=
  match x with S754_nan => true | _ => false end.

(** [round] of <cmath>: to the nearest integer, halfway cases away from
    zero.  The sign of a zero result is the sign of the argument. *)
Definition f64_round (x : f64) : f64 :=
  match x with
  | S754_finite s m e =>
      if 0 <=? e then x
      else
        let n := - e in
        let q := Zpos m / 2 ^ n in
        let r := Zpos m mod 2 ^ n in
        let q' := if 2 ^ n <=? 2 * r then q + 1 else q in
        binary_normalize prec64 emax64 (cond_Zopp s q') 0 s
  | _ => x
  end.

Definition INT_MIN : Z := - 2 ^ 31.
Definition INT_MAX : Z := 2 ^ 31 - 1.

(** [(int)x]: truncation toward zero.  The conversion is undefined
    (C++ [conv.fpint]) when the truncated value does not fit in [int],
    and for NaN and the infinities; [None] stands for that. *)
Definition to_int (x : spec_float) : option Z :=
  match x with
  | S754_zero _ => Some 0
  | S754_finite s m e =>
      let t := if 0 <=? e then Zpos m * 2 ^ e else Zpos m / 2 ^ (- e) in
      let t := cond_Zopp s t in
      if (INT_MIN <=? t) && (t <=? INT_MAX) then Some t else None
  | _ => None
  end.

(** [x] lies in the closed interval [lo, hi] (so [x] is not NaN). *)
Definition between (lo hi x : spec_float) : bool := fle lo x && fle x hi.

End CFloat.
Import CFloat.

(** ** Constants of the sketch *)

Definition ACTUATOR_7SEG : Z := 1.
Definition ACTUATOR_BUZZ : Z := 2.
Definition ACTUATOR_LED : Z := 3.

Definition SENSOR_BUTTON : Z := 1.
Definition SENSOR_LIGHT : Z := 2.
Definition SENSOR_ROTARY : Z := 3.
Definition SENSOR_ULTRASONIC : Z := 4.
Definition SENSOR_DHT_HUMIDITY : Z := 5.
Definition SENSOR_DHT_TEMPERATURE : Z := 6.

Definition INTERVAL : Z := 10.
Definition PUBLISH_WAIT : Z := 100.

Definition TEMP_MIN : Z := 10.
Definition TEMP_RANGE : Z := 20.

(** The pins the sketch names. *)
Inductive pin := D2 | D3 | D4 | D5 | A0 | A2 | A4.

Definition SENSOR_BUTTON_PIN := D4.
Definition SENSOR_DHT_PIN := D2.
Definition SENSOR_LIGHT_PIN := A4.
Definition SENSOR_ROTARY_PIN := A2.
Definition SENSOR_ULTRASONIC_PIN := D2.
Definition ACTUATOR_BUZZ_PIN := A0.

(** Modelled from the spec: the level constant [HIGH] of the device
    interface ("boolean level; 1.0 if asserted else 0.0") is declared in
    the platform header, not in the sketch. *)
Definition HIGH : Z := 1.

(** The literals of the sketch.  A literal with a decimal point is a
    [double]; an integer that meets a [float] operand is converted to
    [float]. *)
Definition d0 : f64 := S754_zero false.
Definition d1 : f64 := f64_of_int 1.
Definition d10 : f64 := f64_of_int 10.
Definition d100 : f64 := f64_of_int 100.
Definition d255 : f64 := f64_of_int 255.
Definition d1023 : f64 := f64_of_int 1023.
Definition d4096 : f64 := f64_of_int 4096.
Definition d100000 : f64 := f64_of_int 100000.

Definition f0 : f32 := S754_zero false.
Definition f1 : f32 := f32_of_int 1.
Definition f26 : f32 := f32_of_int 26.
Definition f255 : f32 := f32_of_int 255.

(** The canonical interval. *)
Definition in01 (x : f32) : bool := between f0 f1 x.

(** ** Configuration, state, hardware *)

(** [const int SENSOR], [const int ACTUATOR], [const bool REVERSE]. *)
Record Config := {
  SENSOR : Z;
  ACTUATOR : Z;
  REVERSE : bool
}.

(** The selection of the generated [grove-sensors-actuators.cpp]. *)
Definition shipped : Config :=
  {| SENSOR := SENSOR_ROTARY; ACTUATOR := ACTUATOR_BUZZ; REVERSE := false |}.

(** The two globals. *)
Record State := {
  SensorValue : f32;
  PublishWaitCount : Z
}.

(** [float SensorValue = 0; int PublishWaitCount = PUBLISH_WAIT;] *)
Definition init_state (W : Z) : State :=
  {| SensorValue := f0; PublishWaitCount := W |}.

(** What the device drivers answer during one cycle. *)
Record Readings := {
  digital_level : Z;       (* digitalRead(SENSOR_BUTTON_PIN) *)
  analog_light : Z;        (* analogRead(SENSOR_LIGHT_PIN) *)
  analog_rotary : Z;       (* analogRead(SENSOR_ROTARY_PIN) *)
  range_cm : Z;            (* ultrasonic.MeasureInCentimeters() *)
  dht_humidity : f32;      (* dht.readHumidity(true) *)
  dht_temperature : f32    (* dht.readTemperature(false, true) *)
}.

(** What the sketch does to the outside world, call by call.
    [EvPublish] carries the number whose text [publishNumber] hands to
    [Particle.publish]; [EvAnalogWrite] carries the
    [float] the sketch passes, before the platform converts it to the
    parameter type of [analogWrite]. *)
Inductive event :=
| EvDigitalRead (p : pin)
| EvAnalogRead (p : pin)
| EvMeasureInCentimeters
| EvReadHumidity
| EvReadTemperature
| EvPublish (number : f32)
| EvDisplay (position digit : Z)
| EvAnalogWrite (p : pin) (value : f32)
| EvSetColorRGB (led r g b : Z)
| EvDelay (ms : Z).

(** ** The publish throttle *)

(** [int] arithmetic wraps here as on the target; the counter of the
    sketch stays far below the wrap. *)
Definition wrap_int (n : Z) : Z := (n + 2 ^ 31) mod 2 ^ 32 - 2 ^ 31.

(** The number of decimal digits of [k >= 0], one for 0.  A number has no
    more decimal digits than bits, which bounds the recursion. *)
Fixpoint dec_digits_fuel (fuel : nat) (k : Z) : Z :=
  match fuel with
  | O => 1
  | S fuel => if k <? 10 then 1 else 1 + dec_digits_fuel fuel (k / 10)
  end.

Definition dec_digits (k : Z) : Z := dec_digits_fuel (Z.to_nat (Z.log2 k)) k.

(** [m * 2 ^ e] in millionths, rounded to the nearest integer, ties to
    even: the digits that ["%f"] prints, the point left out. *)
Definition micro (m : positive) (e : Z) : Z :=
  if 0 <=? e then Zpos m * 2 ^ e * 1000000
  else
    let n := Zpos m * 1000000 in
    let d := 2 ^ (- e) in
    let q := n / d in
    let r := n mod d in
    if (d <? 2 * r) || ((d =? 2 * r) && Z.odd q) then q + 1 else q.

(** What [sprintf(valueStr, "%f", number)] returns: the number of
    characters it writes, the terminating NUL not counted.  The [float] is
    passed as a [double] of the same value; the text is an optional [-],
    the integer part, the point and six decimals, or [inf] and [nan] in
    the style of the target's C library. *)
Definition sprintf_f (number : f32) : Z :=
  match number with
  | S754_nan => 3
  | S754_infinity s => (if s then 1 else 0) + 3
  | S754_zero s => (if s then 1 else 0) + 8
  | S754_finite s m e => (if s then 1 else 0) + dec_digits (micro m e / 1000000) + 7
  end.

(** [char valueStr[10];] *)
Definition VALUE_STR_SIZE : Z := 10.

(** The text and its NUL stay inside [valueStr]. *)
Definition fits_valueStr (number : f32) : bool := sprintf_f number + 1 <=? VALUE_STR_SIZE.

(** [publishNumber] for a window [W]: the new counter and the events.
    Writing past the end of [valueStr] is undefined behaviour: [None]. *)
Definition publishNumber_W (W : Z) (number : f32) (count : Z) : option (Z * list event) :=
  let count := wrap_int (count + 1) in
  if W <? count then
    if fits_valueStr number then Some (0, [EvPublish number]) else None
  else Some (count, []).

Definition publishNumber (number : f32) (st : State) : option (State * list event) :=
  match publishNumber_W PUBLISH_WAIT number (PublishWaitCount st) with
  | Some (c, evs) => Some ({| SensorValue := SensorValue st; PublishWaitCount := c |}, evs)
  | None => None
  end.

(** Successive calls, one per number; the events of each call in order,
    and the final counter. *)
Fixpoint publish_run (W : Z) (numbers : list f32) (count : Z)
  : option (list (list event) * Z) :=
  match numbers with
  | [] => Some ([], count)
  | number :: rest =>
      match publishNumber_W W number count with
      | Some (c, evs) =>
          match publish_run W rest c with
          | Some (out, c') => Some (evs :: out, c')
          | None => None
          end
      | None => None
      end
  end.

(** ** Calibration functions *)

Definition readButton (level : Z) : f32 :=
  f64_to_f32 (if level =? HIGH then d1 else d0).

Definition readDhtHumidity (raw : f32) (previousValue : f32) : f32 :=
  let value := raw in
  f64_to_f32 (if isnan value then f32_to_f64 previousValue
              else f64_div (f32_to_f64 value) d100).

Definition clamp01 (value : f32) : f32 :=
  if flt value f0 then f0 else if flt f1 value then f1 else value.

Definition readDhtTemperature (raw : f32) (previousValue : f32) : f32 :=
  let value := raw in
  if isnan value then previousValue
  else
    let value := f32_sub value (f32_of_int TEMP_MIN) in
    let value := f32_div value (f32_of_int TEMP_RANGE) in
    clamp01 value.

Definition readLight (raw : Z) : f32 :=
  let value := f64_to_f32 (f64_sub d1 (f64_div (f32_to_f64 (f32_of_int raw)) d1023)) in
  clamp01 value.

Definition readRotary (raw : Z) : f32 :=
  let value := f32_of_int raw in
  let value := if flt value f26 then f0 else value in
  f64_to_f32 (f64_div (f32_to_f64 value) d4096).

(** The part of [readUltrasonic] after the cast of the driver's answer. *)
Definition readUltrasonic_of (cm : f32) : f32 :=
  let range := f64_to_f32 (f64_div (f32_to_f64 cm) d100) in
  if flt f1 range then f1 else if flt range f0 then f0 else range.

Definition readUltrasonic (cm : Z) : f32 := readUltrasonic_of (f32_of_int cm).

(** ** Rendering functions *)

(** [(int)(round(value * 100000.0 / 10.0))] *)
Definition scaled (value : f32) : option Z :=
  to_int (f64_round (f64_div (f64_mul (f32_to_f64 value) d100000) d10)).

Definition clamp9999 (displayValue : Z) : Z :=
  if 9999 <? displayValue then 9999 else if displayValue <? 0 then 0 else displayValue.

(** [/] and [%] of C++ truncate toward zero: [Z.quot] and [Z.rem]. *)
Definition digits7 (displayValue : Z) : list event :=
  [ EvDisplay 0 (Z.rem (Z.quot displayValue 1000) 10);
    EvDisplay 1 (Z.rem (Z.quot displayValue 100) 10);
    EvDisplay 2 (Z.rem (Z.quot displayValue 10) 10);
    EvDisplay 3 (Z.rem displayValue 10) ].

Definition write7Seg (value : f32) : option (list event) :=
  match scaled value with
  | Some displayValue => Some (digits7 (clamp9999 displayValue))
  | None => None
  end.

(** [value *= 255.0; value = value < 0 ? 0 : (value > 255 ? 255 : value);] *)
Definition scale255 (value : f32) : f32 :=
  let value := f64_to_f32 (f64_mul (f32_to_f64 value) d255) in
  if flt value f0 then f0 else if flt f255 value then f255 else value.

Definition writeBuzz (value : f32) : option (list event) :=
  Some [EvAnalogWrite ACTUATOR_BUZZ_PIN (scale255 value)].

Definition writeLed (value : f32) : option (list event) :=
  match to_int (scale255 value) with
  | Some c => Some [EvSetColorRGB 0 c c c]
  | None => None
  end.

(** ** The router *)

(** The first [switch] of [loop]: the new [SensorValue] and the driver
    call made.  A selector that matches no [case] reads nothing. *)
Definition read_sensor (cfg : Config) (hw : Readings) (prev : f32) : f32 * list event :=
  let s := SENSOR cfg in
  if s =? SENSOR_BUTTON then (readButton (digital_level hw), [EvDigitalRead SENSOR_BUTTON_PIN])
  else if s =? SENSOR_DHT_HUMIDITY then (readDhtHumidity (dht_humidity hw) prev, [EvReadHumidity])
  else if s =? SENSOR_DHT_TEMPERATURE then (readDhtTemperature (dht_temperature hw) prev, [EvReadTemperature])
  else if s =? SENSOR_LIGHT then (readLight (analog_light hw), [EvAnalogRead SENSOR_LIGHT_PIN])
  else if s =? SENSOR_ROTARY then (readRotary (analog_rotary hw), [EvAnalogRead SENSOR_ROTARY_PIN])
  else if s =? SENSOR_ULTRASONIC then (readUltrasonic (range_cm hw), [EvMeasureInCentimeters])
  else (prev, []).

(** [if (REVERSE) SensorValue = 1 - SensorValue;] *)
Definition invert (cfg : Config) (v : f32) : f32 :=
  if REVERSE cfg then f32_sub f1 v else v.

(** The second [switch]. *)
Definition write_actuator (cfg : Config) (v : f32) : option (list event) :=
  let a := ACTUATOR cfg in
  if a =? ACTUATOR_7SEG then write7Seg v
  else if a =? ACTUATOR_BUZZ then writeBuzz v
  else if a =? ACTUATOR_LED then writeLed v
  else Some [].

(** One pass through [loop()].  The call [publishNumber(SensorValue)] is
    commented out in the sketch, so no step touches [PublishWaitCount]. *)
Definition loop (cfg : Config) (hw : Readings) (st : State) : option (State * list event) :=
  let '(v, rd) := read_sensor cfg hw (SensorValue st) in
  let v := invert cfg v in
  match write_actuator cfg v with
  | Some wr =>
      Some ({| SensorValue := v; PublishWaitCount := PublishWaitCount st |},
            rd ++ wr ++ [EvDelay INTERVAL])
  | None => None
  end.

(** [loop] over a list of successive readings. *)
Fixpoint run (cfg : Config) (hws : list Readings) (st : State) : option (State * list event) :=
  match hws with
  | [] => Some (st, [])
  | hw :: rest =>
      match loop cfg hw st with
      | Some (st', evs) =>
          match run cfg rest st' with
          | Some (st'', evs') => Some (st'', evs ++ evs')
          | None => None
          end
      | None => None
      end
  end.

(** ** Start-up *)

(** The second argument of [pinMode]. *)
Inductive pin_mode := INPUT | OUTPUT.

(** The two constants of the display driver that [setup] passes on. *)
Inductive brightness := BRIGHT_TYPICAL.
Inductive point_flag := POINT_OFF.

(** What [setup()] asks of the platform and the drivers, call by call. *)
Inductive init_event :=
| InPinMode (p : pin) (m : pin_mode)
| InDhtBegin
| InTm1637Init
| InTm1637Set (b : brightness)
| InTm1637Point (f : point_flag)
| InLedsInit.

(** [setup()]: the two [switch] statements, in order.  There is no
    [case SENSOR_ULTRASONIC]. *)
Definition setup (cfg : Config) : list init_event :=
  let s := SENSOR cfg in
  let a := ACTUATOR cfg in
  (if s =? SENSOR_BUTTON then [InPinMode SENSOR_BUTTON_PIN INPUT]
   else if s =? SENSOR_DHT_HUMIDITY then [InDhtBegin]
   else if s =? SENSOR_DHT_TEMPERATURE then [InDhtBegin]
   else if s =? SENSOR_LIGHT then [InPinMode SENSOR_LIGHT_PIN INPUT]
   else if s =? SENSOR_ROTARY then [InPinMode SENSOR_ROTARY_PIN INPUT]
   else [])
  ++
  (if a =? ACTUATOR_7SEG
   then [InTm1637Init; InTm1637Set BRIGHT_TYPICAL; InTm1637Point POINT_OFF]
   else if a =? ACTUATOR_BUZZ then [InPinMode ACTUATOR_BUZZ_PIN OUTPUT]
   else if a =? ACTUATOR_LED then [InLedsInit]
   else []).

(** The pins the driver objects are constructed on. *)
Definition ACTUATOR_7SEG_CLK := D2.
Definition ACTUATOR_7SEG_DIO := D3.
Definition ACTUATOR_LED_1 := D4.
Definition ACTUATOR_LED_2 := D5.

(** The pins the sketch names for a sensor and for an actuator:
    [digitalRead(SENSOR_BUTTON_PIN)], [DHT dht(SENSOR_DHT_PIN, ...)],
    [analogRead(SENSOR_LIGHT_PIN)], [analogRead(SENSOR_ROTARY_PIN)],
    [Ultrasonic ultrasonic(SENSOR_ULTRASONIC_PIN)];
    [TM1637 tm1637(ACTUATOR_7SEG_CLK, ACTUATOR_7SEG_DIO)],
    [analogWrite(ACTUATOR_BUZZ_PIN, ...)],
    [ChainableLED leds(ACTUATOR_LED_1, ACTUATOR_LED_2, 1)]. *)
Definition sensor_pins (s : Z) : list pin :=
  if s =? SENSOR_BUTTON then [SENSOR_BUTTON_PIN]
  else if s =? SENSOR_DHT_HUMIDITY then [SENSOR_DHT_PIN]
  else if s =? SENSOR_DHT_TEMPERATURE then [SENSOR_DHT_PIN]
  else if s =? SENSOR_LIGHT then [SENSOR_LIGHT_PIN]
  else if s =? SENSOR_ROTARY then [SENSOR_ROTARY_PIN]
  else if s =? SENSOR_ULTRASONIC then [SENSOR_ULTRASONIC_PIN]
  else [].

Definition actuator_pins (a : Z) : list pin :=
  if a =? ACTUATOR_7SEG then [ACTUATOR_7SEG_CLK; ACTUATOR_7SEG_DIO]
  else if a =? ACTUATOR_BUZZ then [ACTUATOR_BUZZ_PIN]
  else if a =? ACTUATOR_LED then [ACTUATOR_LED_1; ACTUATOR_LED_2]
  else [].

(** ** Rounding in normal form

    The standard library states the rounding step [binary_round_aux]
    operationally (shift, round, shift again).  The proofs below use the
    following closed form of its result and a few order predicates on
    floating-point data. *)

(** The last step of a rounding: overflow check on a non-negative
    mantissa. *)
Definition finish (prec emax : Z) (s : bool) (m e : Z) : spec_float :=
  match m with
  | Z0 => S754_zero s
  | Zpos p => if e <=? emax - prec then S754_finite s p e else S754_infinity s
  | Zneg _ => S754_nan
  end.

(** A mantissa that reached [2 ^ prec] is renormalised. *)
Definition pack (prec emax : Z) (s : bool) (m e : Z) : spec_float :=
  if m =? 2 ^ prec then finish prec emax s (2 ^ (prec - 1)) (e + 1)
  else finish prec emax s m e.

(** [|x| <= 2 ^ k], for finite [x]. *)
Definition fle_pow2 (k : Z) (x : spec_float) : Prop :=
  match x with
  | S754_zero _ => True
  | S754_finite _ m e => e <= k /\ Zpos m <= 2 ^ (k - e)
  | _ => False
  end.

(** [|x| >= 2 ^ k]; infinities qualify. *)
Definition fge_pow2 (k : Z) (x : spec_float) : Prop :=
  match x with
  | S754_finite _ m e => k < e \/ 2 ^ (k - e) <= Zpos m
  | S754_infinity _ => True
  | _ => False
  end.

(** The sign bit of a number that is not NaN. *)
Definition sign_is (s : bool) (x : spec_float) : Prop :=
  match x with
  | S754_zero s' | S754_infinity s' | S754_finite s' _ _ => s' = s
  | S754_nan => False
  end.

(** The magnitude of a valid number, in units of [2 ^ emin]. *)
Definition Zmag (prec emax : Z) (x : spec_float) : Z :=
  match x with
  | S754_finite _ m e => Zpos m * 2 ^ (e - emin prec emax)
  | _ => 0
  end.

(** A lower bound on the exponent of a finite number. *)
Definition exp_ge (b : Z) (x : spec_float) : Prop :=
  match x with
  | S754_finite _ _ e => b <= e
  | _ => True
  end.

(** [v <= |x|], with [v] counted in units of [2 ^ emin]; an infinity is
    above every bound. *)
Definition mag_ge (prec emax : Z) (v : Z) (x : spec_float) : Prop :=
  match x with
  | S754_finite _ m e => v <= Zpos m * 2 ^ (e - emin prec emax)
  | S754_infinity _ => True
  | _ => False
  end.

(** A negative number that is not zero. *)
Definition is_negative (x : spec_float) : Prop :=
  match x with
  | S754_finite true _ _ | S754_infinity true => True
  | _ => False
  end.

(** ** Named inputs used in the statements below *)

(** The literal [0.12345]: a [double], converted to [float] when it is
    passed to [write7Seg]. *)
Definition f_0_12345 : f32 :=
  f64_to_f32 (f64_div (f64_of_int 12345) (f64_of_int 100000)).

(** 100 percent, the top of the humidity domain. *)
Definition h100 : f32 := f32_of_int 100.

(** 26/4096, the smallest non-zero answer of [readRotary]. *)
Definition rotary_threshold : f32 := f64_to_f32 (f64_div (f64_of_int 26) d4096).

Definition rotary_gap_ok (raw : Z) : bool :=
  match readRotary raw with
  | S754_zero false => true
  | r => fle rotary_threshold r
  end.

(** Drivers that answer zero everywhere, and a humidity probe that
    fails. *)
Definition quiet : Readings :=
  {| digital_level := 0; analog_light := 0; analog_rotary := 0; range_cm := 0;
     dht_humidity := f0; dht_temperature := f0 |}.

Definition probe_failed : Readings :=
  {| digital_level := 0; analog_light := 0; analog_rotary := 0; range_cm := 0;
     dht_humidity := S754_nan; dht_temperature := S754_nan |}.

Definition humidity_reversed : Config :=
  {| SENSOR := SENSOR_DHT_HUMIDITY; ACTUATOR := ACTUATOR_BUZZ; REVERSE := true |}.

Definition rotary_reversed : Config :=
  {| SENSOR := SENSOR_ROTARY; ACTUATOR := ACTUATOR_BUZZ; REVERSE := true |}.

(** A configuration with the humidity probe and the flag clear. *)
Definition humidity_plain : Config :=
  {| SENSOR := SENSOR_DHT_HUMIDITY; ACTUATOR := ACTUATOR_BUZZ; REVERSE := false |}.

(** ... and one with no sensor selected and the flag set. *)
Definition nothing_reversed : Config :=
  {| SENSOR := 0; ACTUATOR := ACTUATOR_LED; REVERSE := true |}.



Definition light_led_reversed : Config :=
  {| SENSOR := SENSOR_LIGHT; ACTUATOR := ACTUATOR_LED; REVERSE := true |}.

Definition bright : Readings :=
  {| digital_level := 0; analog_light := 1023; analog_rotary := 0; range_cm := 0;
     dht_humidity := f0; dht_temperature := f0 |}.

(** ** The router invariant *)

(** What the selected sensor may answer (the documented raw domains that
    the unclamped calibrations depend on). *)
Definition readings_ok (cfg : Config) (hw : Readings) : Prop :=
  (SENSOR cfg = SENSOR_ROTARY -> 0 <= analog_rotary hw <= 4096)
  /\ (SENSOR cfg = SENSOR_DHT_HUMIDITY ->
      valid32 (dht_humidity hw) = true
      /\ (isnan (dht_humidity hw) = true \/ between f0 h100 (dht_humidity hw) = true)).

(** The router invariant: the stored value is a well-formed [float] in
    the canonical interval. *)
Definition canonical (v : f32) : Prop := valid32 v = true /\ in01 v = true.

(** What a cycle reads afresh: nothing when no [case] matches the
    selector, nothing either when the selected DHT read fails. *)
Definition reads_nothing (cfg : Config) (hw : Readings) : Prop :=
  (SENSOR cfg <> SENSOR_BUTTON /\ SENSOR cfg <> SENSOR_DHT_HUMIDITY
   /\ SENSOR cfg <> SENSOR_DHT_TEMPERATURE /\ SENSOR cfg <> SENSOR_LIGHT
   /\ SENSOR cfg <> SENSOR_ROTARY /\ SENSOR cfg <> SENSOR_ULTRASONIC)
  \/ (SENSOR cfg = SENSOR_DHT_HUMIDITY /\ isnan (dht_humidity hw) = true)
  \/ (SENSOR cfg = SENSOR_DHT_TEMPERATURE /\ isnan (dht_temperature hw) = true).

(** Readings at which the selected sensor is at the bottom of its
    range: the button released, 0 percent of humidity, a temperature of
    [TEMP_MIN] or less, full light (a raw 1023 or more), the knob inside
    its dead zone, an object at 0 cm. *)
Definition reads_zero (cfg : Config) (hw : Readings) : Prop :=
  (SENSOR cfg = SENSOR_BUTTON /\ digital_level hw <> HIGH)
  \/ (SENSOR cfg = SENSOR_DHT_HUMIDITY /\ dht_humidity hw = f0)
  \/ (SENSOR cfg = SENSOR_LIGHT /\ 1023 <= analog_light hw)
  \/ (SENSOR cfg = SENSOR_ROTARY /\ analog_rotary hw < 26)
  \/ (SENSOR cfg = SENSOR_ULTRASONIC /\ range_cm hw <= 0)
  \/ (SENSOR cfg = SENSOR_DHT_TEMPERATURE
      /\ valid32 (dht_temperature hw) = true
      /\ fle (dht_temperature hw) (f32_of_int TEMP_MIN) = true).

(** ... and at the top: the button pressed, 100 percent of humidity, a
    temperature of [TEMP_MIN + TEMP_RANGE] or more, no light (a raw 0),
    the knob at the 4096 its calibration divides by, an object at 100 cm
    or beyond. *)
Definition reads_one (cfg : Config) (hw : Readings) : Prop :=
  (SENSOR cfg = SENSOR_BUTTON /\ digital_level hw = HIGH)
  \/ (SENSOR cfg = SENSOR_DHT_HUMIDITY /\ dht_humidity hw = h100)
  \/ (SENSOR cfg = SENSOR_LIGHT /\ analog_light hw <= 0)
  \/ (SENSOR cfg = SENSOR_ROTARY /\ analog_rotary hw = 4096)
  \/ (SENSOR cfg = SENSOR_ULTRASONIC /\ 100 <= range_cm hw)
  \/ (SENSOR cfg = SENSOR_DHT_TEMPERATURE
      /\ valid32 (dht_temperature hw) = true
      /\ fle (f32_of_int (TEMP_MIN + TEMP_RANGE)) (dht_temperature hw) = true).

(** A probe that answers 100 percent. *)
Definition saturated_air : Readings :=
  {| digital_level := 0; analog_light := 0; analog_rotary := 0; range_cm := 0;
     dht_humidity := h100; dht_temperature := f0 |}.

(** ** Position codes

    A shift record [(m, r, s)] locates a real number on the grid of half
    units: [2 m + r] half units exactly when the sticky bit [s] is clear,
    strictly between that and the next half unit when it is set.  Its code
    orders the records as the numbers they locate. *)
Definition code (mrs : shr_record) : Z :=
  4 * shr_m mrs + 2 * Z.b2z (shr_r mrs) + Z.b2z (shr_s mrs).

(** The code of the rational [N / D], counted in half units. *)
Definition cell (N D : Z) : Z := 2 * (N / D) + (if N mod D =? 0 then 0 else 1).

(** The place of a number on the extended line, in units of [2 ^ emin]:
    an infinity sits just above every finite number of the format. *)
Definition Zord (prec emax : Z) (x : spec_float) : Z :=
  match x with
  | S754_zero _ | S754_nan => 0
  | S754_infinity s => cond_Zopp s (2 ^ (emax - emin prec emax))
  | S754_finite s m e => cond_Zopp s (Zpos m * 2 ^ (e - emin prec emax))
  end.

(** A zero or a finite number. *)
Definition is_finite (x : spec_float) : Prop :=
  match x with
  | S754_zero _ | S754_finite _ _ _ => True
  | _ => False
  end.

(** The raw reading of [hw2] is at least that of [hw1] on the sensor
    that [cfg] selects: the button no less pressed, the air no less humid
    or warm, the count of the light sensor and of the knob no smaller, the
    object no nearer.  The answers of the DHT probe are numbers. *)
Definition reading_le (cfg : Config) (hw1 hw2 : Readings) : Prop :=
  (SENSOR cfg = SENSOR_BUTTON /\ (digital_level hw1 = HIGH -> digital_level hw2 = HIGH))
  \/ (SENSOR cfg = SENSOR_DHT_HUMIDITY
      /\ valid32 (dht_humidity hw1) = true /\ valid32 (dht_humidity hw2) = true
      /\ fle (dht_humidity hw1) (dht_humidity hw2) = true)
  \/ (SENSOR cfg = SENSOR_DHT_TEMPERATURE
      /\ valid32 (dht_temperature hw1) = true /\ valid32 (dht_temperature hw2) = true
      /\ fle (dht_temperature hw1) (dht_temperature hw2) = true)
  \/ (SENSOR cfg = SENSOR_LIGHT /\ analog_light hw1 <= analog_light hw2)
  \/ (SENSOR cfg = SENSOR_ROTARY /\ analog_rotary hw1 <= analog_rotary hw2)
  \/ (SENSOR cfg = SENSOR_ULTRASONIC /\ range_cm hw1 <= range_cm hw2).

(** ** The display value of the specification *)

(** The integer nearest to [num / den], halfway cases up, for
    [0 <= num] and [0 < den]. *)
Definition nearest_half_up (num den : Z) : Z := (2 * num + den) / (2 * den).

(** [round(value x 10000)] as the specification words it: the exact
    product of the number [m * 2 ^ e] and 10000, rounded to the nearest
    integer, halfway cases away from zero. *)
Definition spec_round_x10000 (value : f32) : Z :=
  match value with
  | S754_finite s m e =>
      cond_Zopp s (if 0 <=? e then Zpos m * 2 ^ e * 10000
                   else nearest_half_up (Zpos m * 10000) (2 ^ (- e)))
  | _ => 0
  end.

(** * Proofs *)

(** ** Binary digits and right shifts *)

Lemma digits2_pos_bounds (m : positive) :
  2 ^ (Zpos (digits2_pos m) - 1) <= Zpos m < 2 ^ Zpos (digits2_pos m).
Proof.
  induction m as [m IH | m IH |]; cbn [digits2_pos].
  - rewrite Pos2Z.inj_succ, (Pos2Z.inj_xI m).
    replace (Z.succ (Zpos (digits2_pos m)) - 1) with (Z.succ (Zpos (digits2_pos m) - 1)) by lia.
    rewrite !Z.pow_succ_r by lia.
    destruct IH as [IH1 IH2]. revert IH1 IH2.
    generalize (2 ^ (Zpos (digits2_pos m) - 1)) (2 ^ Zpos (digits2_pos m)). intros; lia.
  - rewrite Pos2Z.inj_succ, (Pos2Z.inj_xO m).
    replace (Z.succ (Zpos (digits2_pos m)) - 1) with (Z.succ (Zpos (digits2_pos m) - 1)) by lia.
    rewrite !Z.pow_succ_r by lia.
    destruct IH as [IH1 IH2]. revert IH1 IH2.
    generalize (2 ^ (Zpos (digits2_pos m) - 1)) (2 ^ Zpos (digits2_pos m)). intros; lia.
  - cbn. lia.
Qed.

Lemma Zdigits2_bounds (m : Z) :
  0 < m -> 2 ^ (Zdigits2 m - 1) <= m < 2 ^ Zdigits2 m.
Proof. destruct m; try lia. intros _. apply digits2_pos_bounds. Qed.

Lemma Zdigits2_pos (m : Z) : 0 < m -> 0 < Zdigits2 m.
Proof. destruct m; cbn; lia. Qed.

Lemma Zdigits2_le (m k : Z) : 0 < m -> m < 2 ^ k -> Zdigits2 m <= k.
Proof.
  intros Hm Hk. pose proof (Zdigits2_bounds m Hm) as [Hlo _].
  destruct (Z_lt_le_dec k (Zdigits2 m)) as [Hlt|]; [|assumption].
  exfalso. assert (0 <= k) by (destruct (Z_lt_le_dec k 0); [rewrite Z.pow_neg_r in Hk by lia; lia|lia]).
  assert (2 ^ k <= 2 ^ (Zdigits2 m - 1)) by (apply Z.pow_le_mono_r; lia). lia.
Qed.

Lemma Zdigits2_gt (m k : Z) : 0 <= k -> 2 ^ k <= m -> k < Zdigits2 m.
Proof.
  intros Hk Hm. assert (0 < m) by (pose proof (Z.pow_pos_nonneg 2 k); lia).
  pose proof (Zdigits2_bounds m H) as [_ Hhi].
  destruct (Z_lt_le_dec k (Zdigits2 m)) as [|Hle]; [assumption|].
  exfalso. assert (2 ^ Zdigits2 m <= 2 ^ k) by (apply Z.pow_le_mono_r; lia). lia.
Qed.

(** [shr] is an iterated halving that remembers what it dropped. *)
Lemma iter_pos_nat {A} (f : A -> A) (p : positive) (x : A) :
  iter_pos f p x = Nat.iter (Pos.to_nat p) f x.
Proof.
  revert x. induction p as [p IH | p IH |]; intros x; cbn [iter_pos].
  - rewrite !IH, Pos2Nat.inj_xI.
    replace (S (2 * Pos.to_nat p)) with (Pos.to_nat p + (Pos.to_nat p + 1))%nat by lia.
    rewrite !Nat.iter_add. cbn. reflexivity.
  - rewrite !IH, Pos2Nat.inj_xO.
    replace (2 * Pos.to_nat p)%nat with (Pos.to_nat p + Pos.to_nat p)%nat by lia.
    rewrite Nat.iter_add. reflexivity.
  - reflexivity.
Qed.

Lemma shr_1_m (mrs : shr_record) :
  0 <= shr_m mrs -> shr_m (shr_1 mrs) = shr_m mrs / 2.
Proof.
  destruct mrs as [m r s]; cbn [shr_m]. intros Hm.
  destruct m as [|p|p]; [reflexivity| |lia].
  destruct p as [p|p|]; cbn [shr_1 shr_m].
  - apply Z.div_unique with 1; lia.
  - apply Z.div_unique with 0; lia.
  - reflexivity.
Qed.

Lemma shr_iter_m (n : nat) (mrs : shr_record) :
  0 <= shr_m mrs -> shr_m (Nat.iter n shr_1 mrs) = shr_m mrs / 2 ^ Z.of_nat n.
Proof.
  induction n as [|n IH]; intros Hm.
  - cbn. now rewrite Z.div_1_r.
  - rewrite Nat.iter_succ, shr_1_m.
    + rewrite IH by assumption. rewrite Nat2Z.inj_succ, Z.pow_succ_r by lia.
      rewrite Z.div_div by (try apply Z.pow_pos_nonneg; lia). f_equal. lia.
    + rewrite IH by assumption. apply Z.div_pos; [assumption|apply Z.pow_pos_nonneg; lia].
Qed.

Lemma shr_1_exact (m : Z) :
  0 <= m -> m mod 2 = 0 ->
  shr_1 (Build_shr_record m false false) = Build_shr_record (m / 2) false false.
Proof.
  intros Hm Hev. destruct m as [|p|p]; [reflexivity| |lia].
  destruct p as [p|p|]; cbn [shr_1 orb].
  - exfalso. rewrite Pos2Z.inj_xI in Hev. 
    rewrite Z.add_comm, Z.mul_comm, Z.mod_add in Hev by lia. cbn in Hev. lia.
  - f_equal. apply Z.div_unique with 0; lia.
  - cbn in Hev. lia.
Qed.

Lemma shr_iter_exact (n : nat) (m : Z) :
  0 <= m -> m mod 2 ^ Z.of_nat n = 0 ->
  Nat.iter n shr_1 (Build_shr_record m false false)
  = Build_shr_record (m / 2 ^ Z.of_nat n) false false.
Proof.
  revert m. induction n as [|n IH]; intros m Hm Hdiv.
  - cbn. now rewrite Z.div_1_r.
  - rewrite Nat.iter_succ_r.
    rewrite Nat2Z.inj_succ, Z.pow_succ_r in Hdiv |- * by lia.
    assert (Hp : 0 < 2 ^ Z.of_nat n) by (apply Z.pow_pos_nonneg; lia).
    assert (Hm2 : m = 2 * (2 ^ Z.of_nat n * (m / (2 * 2 ^ Z.of_nat n)))).
    { pose proof (Z.div_mod m (2 * 2 ^ Z.of_nat n)). lia. }
    rewrite shr_1_exact.
    + rewrite IH.
      * rewrite Z.div_div by lia. reflexivity.
      * apply Z.div_pos; lia.
      * rewrite Hm2 at 1. rewrite (Z.mul_comm 2), Z.div_mul by lia.
        rewrite Z.mul_comm. apply Z.mod_mul. lia.
    + assumption.
    + rewrite Hm2. rewrite Z.mul_comm. apply Z.mod_mul. lia.
Qed.

Lemma rne_bounds (m : Z) (l : location) :
  m <= round_nearest_even m l <= m + 1.
Proof.
  destruct l as [|[| |]]; cbn [round_nearest_even]; try lia.
  destruct (Z.even m); lia.
Qed.

Lemma loc_record_loc (m : Z) (l : location) :
  loc_of_shr_record (shr_record_of_loc m l) = l.
Proof. destruct l as [|[| |]]; reflexivity. Qed.

Lemma shr_m_record (m : Z) (l : location) : shr_m (shr_record_of_loc m l) = m.
Proof. destruct l as [|[| |]]; reflexivity. Qed.

(** ** The rounding step *)

Section RoundingStep.
Variables prec emax : Z.
Hypothesis prec_pos : 0 < prec.

Local Abbreviation emin := (emin prec emax).
Local Abbreviation fexp := (fexp prec emax).

Lemma fexp_ge_emin k : emin <= fexp k.
Proof. unfold SpecFloat.fexp. lia. Qed.

Lemma fexp_ge k : k - prec <= fexp k.
Proof. unfold SpecFloat.fexp. lia. Qed.

Lemma shr_spec (m e n : Z) (l : location) :
  0 <= m -> 0 <= n ->
  exists mrs, shr (shr_record_of_loc m l) e n = (mrs, e + n)
    /\ shr_m mrs = m / 2 ^ n
    /\ (l = loc_Exact -> m mod 2 ^ n = 0 -> loc_of_shr_record mrs = loc_Exact).
Proof.
  intros Hm Hn. destruct n as [|p|p]; [| |lia].
  - exists (shr_record_of_loc m l). cbn [shr]. rewrite Z.add_0_r, shr_m_record, Z.div_1_r.
    repeat split. intros -> _. reflexivity.
  - exists (iter_pos shr_1 p (shr_record_of_loc m l)). cbn [shr].
    split; [reflexivity|]. rewrite iter_pos_nat.
    rewrite <- (positive_nat_Z p). split.
    + rewrite shr_iter_m; rewrite shr_m_record; [reflexivity|assumption].
    + intros -> Hdiv. cbn [shr_record_of_loc]. rewrite shr_iter_exact by assumption. reflexivity.
Qed.

Lemma pow2_pos k : 0 <= k -> 0 < 2 ^ k.
Proof. intros. apply Z.pow_pos_nonneg; lia. Qed.

Lemma second_shift (s : bool) (m2 et : Z) :
  0 <= m2 <= 2 ^ prec -> emin <= et ->
  (let '(mrs, e2) := shr_fexp prec emax m2 et loc_Exact in
   match shr_m mrs with
   | Z0 => S754_zero s
   | Zpos m => if e2 <=? emax - prec then S754_finite s m e2 else S754_infinity s
   | Zneg _ => S754_nan
   end) = pack prec emax s m2 et.
Proof.
  intros [Hlo Hhi] Het. unfold pack, shr_fexp.
  destruct (Z.eqb_spec m2 (2 ^ prec)) as [->|Hne].
  - assert (Hd : Zdigits2 (2 ^ prec) = prec + 1).
    { pose proof (pow2_pos prec ltac:(lia)). apply Z.le_antisymm.
      - apply Zdigits2_le; [assumption|]. apply Z.pow_lt_mono_r; lia.
      - pose proof (Zdigits2_gt (2 ^ prec) prec ltac:(lia) ltac:(lia)). lia. }
    rewrite Hd. replace (fexp (prec + 1 + et) - et) with 1 by (unfold SpecFloat.fexp; lia).
    cbn [shr shr_record_of_loc iter_pos].
    rewrite shr_1_m by (cbn [shr_m]; lia). cbn [shr_m].
    replace (2 ^ prec / 2) with (2 ^ (prec - 1)).
    2:{ replace prec with (Z.succ (prec - 1)) at 2 by lia. rewrite Z.pow_succ_r by lia.
        rewrite Z.mul_comm, Z.div_mul; lia. }
    reflexivity.
  - destruct (Z.eq_dec m2 0) as [->|Hnz].
    + cbn [Zdigits2]. destruct (fexp (0 + et) - et) eqn:E.
      * reflexivity.
      * exfalso. unfold SpecFloat.fexp in E. lia.
      * reflexivity.
    + assert (Hd : Zdigits2 m2 <= prec) by (apply Zdigits2_le; lia).
      destruct (fexp (Zdigits2 m2 + et) - et) eqn:E.
      * cbn [shr]. rewrite shr_m_record. reflexivity.
      * exfalso. unfold SpecFloat.fexp in E. lia.
      * cbn [shr]. rewrite shr_m_record. reflexivity.
Qed.

(** The rounding step in normal form: the mantissa is divided by
    [2 ^ n] and rounded to one of the two neighbours. *)
Lemma binary_round_aux_spec (s : bool) (m e : Z) (l : location) :
  0 < m -> e <= fexp (Zdigits2 m + e) ->
  let et := fexp (Zdigits2 m + e) in
  let n := et - e in
  exists m2,
    m / 2 ^ n <= m2 <= m / 2 ^ n + 1
    /\ (l = loc_Exact -> m mod 2 ^ n = 0 -> m2 = m / 2 ^ n)
    /\ m2 <= 2 ^ prec
    /\ (emin <= Zdigits2 m + e - prec -> 2 ^ (prec - 1) <= m2)
    /\ binary_round_aux prec emax s m e l = pack prec emax s m2 et.
Proof.
  intros Hm He et n.
  assert (Hn : 0 <= n) by (unfold n, et; lia).
  unfold binary_round_aux. unfold shr_fexp at 1. fold et. fold n.
  destruct (shr_spec m e n l ltac:(lia) Hn) as (mrs & Hshr & Hmrs & Hex).
  rewrite Hshr. replace (e + n) with et by (unfold n; lia).
  set (m2 := round_nearest_even (shr_m mrs) (loc_of_shr_record mrs)).
  pose proof (rne_bounds (shr_m mrs) (loc_of_shr_record mrs)) as Hb. fold m2 in Hb.
  rewrite Hmrs in Hb.
  pose proof (Zdigits2_bounds m Hm) as [Hdlo Hdhi].
  pose proof (Zdigits2_pos m Hm) as Hdpos.
  pose proof (pow2_pos n Hn) as Hpn.
  assert (Hq0 : 0 <= m / 2 ^ n) by (apply Z.div_pos; lia).
  assert (Hq : m / 2 ^ n < 2 ^ prec).
  { apply Z.div_lt_upper_bound; [assumption|]. rewrite <- Z.pow_add_r by lia.
    eapply Z.lt_le_trans; [exact Hdhi|]. apply Z.pow_le_mono_r; [lia|].
    unfold n, et. pose proof (fexp_ge (Zdigits2 m + e)). lia. }
  exists m2. split; [assumption|]. split.
  { intros Hl Hdiv. unfold m2. rewrite (Hex Hl Hdiv). cbn. assumption. }
  split; [lia|]. split.
  { intros Hge. assert (Hf : fexp (Zdigits2 m + e) = Zdigits2 m + e - prec)
      by (unfold SpecFloat.fexp; lia).
    apply Z.le_trans with (m / 2 ^ n); [|lia].
    apply Z.div_le_lower_bound; [assumption|]. rewrite <- Z.pow_add_r by lia.
    replace (n + (prec - 1)) with (Zdigits2 m - 1) by (unfold n, et; lia). assumption. }
  apply second_shift; [lia|apply fexp_ge_emin].
Qed.

Lemma shr_m_nonneg (m e n : Z) (l : location) :
  0 <= m -> 0 <= shr_m (fst (shr (shr_record_of_loc m l) e n)).
Proof.
  intros Hm. destruct (Z_le_gt_dec 0 n) as [Hn|Hn].
  - destruct (shr_spec m e n l Hm Hn) as (mrs & Hs & Hmr & _). rewrite Hs. cbn [fst].
    rewrite Hmr. apply Z.div_pos; [assumption|apply pow2_pos; assumption].
  - destruct n; try lia. cbn [shr fst]. now rewrite shr_m_record.
Qed.

(** The rounding step never produces NaN from a non-negative mantissa. *)
Lemma binary_round_aux_not_nan (s : bool) (m e : Z) (l : location) :
  0 <= m -> binary_round_aux prec emax s m e l <> S754_nan.
Proof.
  intros Hm. unfold binary_round_aux, shr_fexp.
  pose proof (shr_m_nonneg m e (fexp (Zdigits2 m + e) - e) l Hm) as H1.
  destruct (shr (shr_record_of_loc m l) e (fexp (Zdigits2 m + e) - e)) as [mrs e1].
  cbn [fst] in H1.
  pose proof (rne_bounds (shr_m mrs) (loc_of_shr_record mrs)) as Hb.
  set (m2 := round_nearest_even (shr_m mrs) (loc_of_shr_record mrs)) in *.
  pose proof (shr_m_nonneg m2 e1 (fexp (Zdigits2 m2 + e1) - e1) loc_Exact ltac:(lia)) as H2.
  destruct (shr (shr_record_of_loc m2 loc_Exact) e1 (fexp (Zdigits2 m2 + e1) - e1)) as [mrs2 e2].
  cbn [fst] in H2. destruct (shr_m mrs2); [discriminate| |lia].
  destruct (e2 <=? emax - prec); discriminate.
Qed.
End RoundingStep.

(** ** Rounding and powers of two *)

Lemma pow2_add (a b : Z) : 0 <= a -> 0 <= b -> 2 ^ (a + b) = 2 ^ a * 2 ^ b.
Proof. intros. apply Z.pow_add_r; assumption. Qed.

Lemma pow2_le (a b : Z) : a <= b -> 2 ^ a <= 2 ^ b.
Proof. intros. apply Z.pow_le_mono_r; lia. Qed.

Lemma pow2_lt (a b : Z) : 0 <= b -> a < b -> 2 ^ a < 2 ^ b.
Proof.
  intros Hb Hab. destruct (Z_lt_le_dec a 0).
  - rewrite (Z.pow_neg_r 2 a) by assumption. apply Z.pow_pos_nonneg; lia.
  - apply Z.pow_lt_mono_r; lia.
Qed.

Lemma pow2_le_inv (a b : Z) : 0 <= a -> 2 ^ a <= 2 ^ b -> a <= b.
Proof.
  intros Ha H. destruct (Z_lt_le_dec b a) as [Hlt|]; [|assumption].
  pose proof (pow2_lt b a Ha Hlt). lia.
Qed.

Lemma pow2_lt_inv (a b : Z) : 0 <= a -> 2 ^ a < 2 ^ b -> a < b.
Proof.
  intros Ha H. destruct (Z_lt_le_dec a b) as [|Hle]; [assumption|].
  pose proof (pow2_le b a Hle). lia.
Qed.

Section RoundingBounds.
Variables prec emax : Z.
Hypothesis prec_pos : 0 < prec.
Hypothesis prec_lt_emax : prec < emax.

Local Abbreviation emin := (emin prec emax).
Local Abbreviation fexp := (fexp prec emax).
Local Abbreviation valid := (valid_binary prec emax).

Lemma canonical_facts (m : positive) (e : Z) :
  canonical_mantissa prec emax m e = true ->
  emin <= e /\ Zpos m < 2 ^ prec /\ (emin < e -> 2 ^ (prec - 1) <= Zpos m).
Proof.
  unfold canonical_mantissa. intros H. apply Z.eqb_eq in H.
  pose proof (digits2_pos_bounds m) as [Hlo Hhi].
  assert (Hd : Zpos (digits2_pos m) <= prec) by (unfold SpecFloat.fexp in H; lia).
  split; [unfold SpecFloat.fexp in H; lia|]. split.
  - eapply Z.lt_le_trans; [exact Hhi|]. apply pow2_le. assumption.
  - intros He. assert (Zpos (digits2_pos m) = prec) by (unfold SpecFloat.fexp in H; lia).
    rewrite <- H0. assumption.
Qed.

Lemma canonical_intro (m : positive) (e : Z) :
  emin <= e -> Zpos m < 2 ^ prec -> (e = emin \/ 2 ^ (prec - 1) <= Zpos m) ->
  canonical_mantissa prec emax m e = true.
Proof.
  intros He Hhi Hlo. unfold canonical_mantissa. apply Z.eqb_eq.
  assert (Hd : Zpos (digits2_pos m) <= prec) by (apply (Zdigits2_le (Zpos m)); lia).
  destruct Hlo as [->|Hlo]; [unfold SpecFloat.fexp; lia|].
  pose proof (Zdigits2_gt (Zpos m) (prec - 1) ltac:(lia) Hlo) as Hg. cbn [Zdigits2] in Hg.
  unfold SpecFloat.fexp. lia.
Qed.

Lemma valid_facts (s : bool) (m : positive) (e : Z) :
  valid (S754_finite s m e) = true ->
  emin <= e <= emax - prec /\ Zpos m < 2 ^ prec /\ (emin < e -> 2 ^ (prec - 1) <= Zpos m).
Proof.
  cbn [valid_binary]. unfold bounded. intros H. apply andb_true_iff in H as [Hc Hb].
  apply Z.leb_le in Hb. apply canonical_facts in Hc. lia.
Qed.

Lemma finish_valid (s : bool) (m e : Z) :
  emin <= e -> 0 <= m < 2 ^ prec -> (e = emin \/ 2 ^ (prec - 1) <= m) ->
  valid (finish prec emax s m e) = true /\ sign_is s (finish prec emax s m e).
Proof.
  intros He Hm Hlo. unfold finish. destruct m as [|p|p]; [split; reflexivity| |lia].
  destruct (Z.leb_spec e (emax - prec)) as [Hb|Hb]; [|split; reflexivity].
  split; [|reflexivity]. cbn [valid_binary]. unfold bounded. apply andb_true_iff. split.
  - apply canonical_intro; lia.
  - apply Z.leb_le. assumption.
Qed.

Lemma pack_valid (s : bool) (m e : Z) :
  emin <= e -> 0 <= m <= 2 ^ prec -> (e = emin \/ 2 ^ (prec - 1) <= m) ->
  valid (pack prec emax s m e) = true /\ sign_is s (pack prec emax s m e).
Proof.
  intros He Hm Hlo. unfold pack. destruct (Z.eqb_spec m (2 ^ prec)) as [->|Hne].
  - apply finish_valid; [lia| |right; lia].
    split; [apply Z.pow_nonneg; lia|apply pow2_lt; lia].
  - apply finish_valid; [assumption|lia|assumption].
Qed.

Lemma pack_cases (s : bool) (m e : Z) :
  0 <= m ->
  (m = 0 /\ pack prec emax s m e = S754_zero s)
  \/ (exists m' e', pack prec emax s m e = S754_finite s m' e' /\ e <= e' /\ m = Zpos m' * 2 ^ (e' - e))
  \/ (0 < m /\ pack prec emax s m e = S754_infinity s).
Proof.
  intros Hm. unfold pack. destruct (Z.eqb_spec m (2 ^ prec)) as [->|Hne].
  - pose proof (Z.pow_pos_nonneg 2 (prec - 1) ltac:(lia) ltac:(lia)) as Hp.
    pose proof (Z.pow_pos_nonneg 2 prec ltac:(lia) ltac:(lia)) as Hp'.
    unfold finish. destruct (2 ^ (prec - 1)) as [|p|p] eqn:E; try lia.
    destruct (e + 1 <=? emax - prec); [right; left|right; right; split; [lia|reflexivity]].
    exists p, (e + 1). split; [reflexivity|]. split; [lia|].
    replace (e + 1 - e) with 1 by lia. rewrite <- E.
    replace prec with (prec - 1 + 1) at 1 by lia. rewrite pow2_add by lia. reflexivity.
  - unfold finish. destruct m as [|p|p]; [left; split; reflexivity| |lia].
    destruct (e <=? emax - prec); [right; left|right; right; split; [lia|reflexivity]].
    exists p, e. split; [reflexivity|]. split; [lia|]. rewrite Z.sub_diag. lia.
Qed.

(** Rounding never crosses a power of two from below. *)
Lemma round_aux_le_pow2 (s : bool) (m e : Z) (l : location) (k : Z) :
  0 < m -> e <= fexp (Zdigits2 m + e) ->
  emin <= k -> k < emax -> e <= k ->
  (m < 2 ^ (k - e) \/ (m = 2 ^ (k - e) /\ l = loc_Exact)) ->
  let x := binary_round_aux prec emax s m e l in
  fle_pow2 k x /\ valid x = true /\ sign_is s x.
Proof.
  intros Hm He Hk Hkmax Hek Hb x.
  destruct (binary_round_aux_spec prec emax prec_pos s m e l Hm He)
    as (m2 & Hm2 & Hex & Hm2hi & Hnorm & Hx).
  set (et := fexp (Zdigits2 m + e)) in *. set (n := et - e) in *.
  assert (Hn : 0 <= n) by (unfold n; lia).
  assert (Hd : Zdigits2 m + e <= k + 1).
  { assert (m < 2 ^ (k - e + 1)).
    { replace (2 ^ (k - e + 1)) with (2 ^ (k - e) * 2) by (rewrite pow2_add by lia; reflexivity).
      pose proof (Z.pow_pos_nonneg 2 (k - e) ltac:(lia) ltac:(lia)). lia. }
    pose proof (Zdigits2_le m (k - e + 1) Hm H). lia. }
  assert (Het : emin <= et <= k) by (unfold et, SpecFloat.fexp; lia).
  assert (Hsplit : 2 ^ (k - e) = 2 ^ n * 2 ^ (k - et)).
  { rewrite <- pow2_add by lia. f_equal. unfold n. lia. }
  pose proof (Z.pow_pos_nonneg 2 n ltac:(lia) Hn) as Hpn.
  pose proof (Z.pow_pos_nonneg 2 (k - et) ltac:(lia) ltac:(lia)) as Hpk.
  assert (Hq0 : 0 <= m / 2 ^ n) by (apply Z.div_pos; lia).
  assert (Hle : m2 <= 2 ^ (k - et)).
  { destruct Hb as [Hlt|[Heq Hl]].
    - assert (m / 2 ^ n < 2 ^ (k - et)) by (apply Z.div_lt_upper_bound; lia). lia.
    - rewrite Hex; [|assumption|].
      + rewrite Heq, Hsplit, Z.mul_comm, Z.div_mul by lia. lia.
      + rewrite Heq, Hsplit, Z.mul_comm. apply Z.mod_mul. lia. }
  assert (Hv : et = emin \/ 2 ^ (prec - 1) <= m2).
  { destruct (Z.eq_dec et emin); [left; assumption|right].
    apply Hnorm. unfold et, SpecFloat.fexp in *. lia. }
  unfold x. rewrite Hx.
  destruct (pack_valid s m2 et ltac:(lia) ltac:(lia) Hv) as [Hval Hsg].
  split; [|split; assumption].
  destruct (pack_cases s m2 et ltac:(lia)) as [[_ ->]|[(m' & e' & Hp & He' & Hm')|[Hpos Hp]]].
  - exact I.
  - rewrite Hp. cbn [fle_pow2].
    pose proof (Z.pow_pos_nonneg 2 (e' - et) ltac:(lia) ltac:(lia)) as Hpe.
    assert (Hee : e' <= k).
    { destruct (Z_lt_le_dec k e') as [Hlt|]; [exfalso|assumption].
      assert (2 ^ (k - et) < 2 ^ (e' - et)) by (apply pow2_lt; lia). nia. }
    split; [assumption|].
    assert (Hs2 : 2 ^ (k - et) = 2 ^ (e' - et) * 2 ^ (k - e')).
    { rewrite <- pow2_add by lia. f_equal. lia. }
    rewrite Hs2, Hm' in Hle. nia.
  - exfalso. unfold pack in Hp.
    destruct (Z.eqb_spec m2 (2 ^ prec)) as [Heq|Hne].
    + assert (prec <= k - et) by (apply pow2_le_inv; [lia|]; rewrite <- Heq; assumption).
      unfold finish in Hp.
      pose proof (Z.pow_pos_nonneg 2 (prec - 1) ltac:(lia) ltac:(lia)) as Hp1.
      destruct (2 ^ (prec - 1)); try lia.
      destruct (Z.leb_spec (et + 1) (emax - prec)); [discriminate|lia].
    + unfold finish in Hp. destruct m2; try lia.
      destruct (Z.leb_spec et (emax - prec)) as [|Hgt]; [discriminate|].
      destruct Hv as [Hv|Hv]; [unfold SpecFloat.emin in *; lia|].
      assert (prec - 1 <= k - et) by (apply pow2_le_inv; lia). lia.
Qed.

(** ... nor from above, in the normal range. *)
Lemma round_aux_ge_pow2 (s : bool) (m e : Z) (l : location) (k : Z) :
  0 < m -> e <= fexp (Zdigits2 m + e) ->
  emin + prec - 1 <= k ->
  (k < e \/ 2 ^ (k - e) <= m) ->
  let x := binary_round_aux prec emax s m e l in
  fge_pow2 k x /\ valid x = true /\ sign_is s x.
Proof.
  intros Hm He Hk Hb x.
  destruct (binary_round_aux_spec prec emax prec_pos s m e l Hm He)
    as (m2 & Hm2 & Hex & Hm2hi & Hnorm & Hx).
  set (et := fexp (Zdigits2 m + e)) in *. set (n := et - e) in *.
  pose proof (Zdigits2_pos m Hm) as Hdpos.
  assert (Hd : k + 1 <= Zdigits2 m + e).
  { destruct Hb as [Hlt|Hge]; [lia|].
    destruct (Z_lt_le_dec (k - e) 0); [lia|].
    pose proof (Zdigits2_gt m (k - e) ltac:(lia) Hge). lia. }
  assert (Het : et = Zdigits2 m + e - prec) by (unfold et, SpecFloat.fexp; lia).
  assert (Hlo : 2 ^ (prec - 1) <= m2) by (apply Hnorm; lia).
  pose proof (Z.pow_pos_nonneg 2 (prec - 1) ltac:(lia) ltac:(lia)) as Hp1.
  unfold x. rewrite Hx.
  destruct (pack_valid s m2 et ltac:(lia) ltac:(lia) ltac:(right; assumption)) as [Hval Hsg].
  split; [|split; assumption].
  destruct (pack_cases s m2 et ltac:(lia)) as [[H0 _]|[(m' & e' & Hp & He' & Hm')|[Hpos Hp]]].
  - lia.
  - rewrite Hp. cbn [fge_pow2].
    destruct (Z_lt_le_dec k e') as [|Hle]; [left; assumption|right].
    pose proof (Z.pow_pos_nonneg 2 (e' - et) ltac:(lia) ltac:(lia)) as Hpe.
    assert (Hs2 : 2 ^ (k - e') * 2 ^ (e' - et) <= 2 ^ (prec - 1)).
    { rewrite <- pow2_add by lia. apply pow2_le. lia. }
    pose proof (Z.pow_pos_nonneg 2 (k - e') ltac:(lia) ltac:(lia)) as Hpk.
    nia.
  - rewrite Hp. exact I.
Qed.

Lemma iter_xO (m : positive) (d : positive) :
  Zpos (Pos.iter xO m d) = Zpos m * 2 ^ Zpos d.
Proof.
  induction d as [|d IH] using Pos.peano_ind.
  - cbn. lia.
  - rewrite Pos.iter_succ, Pos2Z.inj_xO, IH, Pos2Z.inj_succ, Z.pow_succ_r by lia. lia.
Qed.

Lemma shl_align_spec (m : positive) (e : Z) :
  let '(mz, ez) := shl_align m e (fexp (Zpos (digits2_pos m) + e)) in
  ez <= e /\ Zpos mz = Zpos m * 2 ^ (e - ez)
  /\ ez <= fexp (Zdigits2 (Zpos mz) + ez)
  /\ (fexp (Zpos (digits2_pos m) + e) <= e -> ez = fexp (Zpos (digits2_pos m) + e))
  /\ (e <= fexp (Zpos (digits2_pos m) + e) -> ez = e).
Proof.
  unfold shl_align. set (et := fexp (Zpos (digits2_pos m) + e)).
  destruct (et - e) as [|p|p] eqn:E.
  - rewrite Z.sub_diag, Z.mul_1_r. cbn [Zdigits2]. fold et. lia.
  - rewrite Z.sub_diag, Z.mul_1_r. cbn [Zdigits2]. fold et. lia.
  - pose proof (iter_xO m p) as Hit. set (mz := Pos.iter xO m p) in *.
    replace (e - et) with (Zpos p) by lia.
    split; [lia|]. split; [assumption|]. split; [|lia].
    cbn [Zdigits2].
    assert (Hd : Zpos (digits2_pos mz) = Zpos (digits2_pos m) + Zpos p).
    { pose proof (digits2_pos_bounds m) as [Hlo Hhi].
      pose proof (Z.pow_pos_nonneg 2 (Zpos p) ltac:(lia) ltac:(lia)) as Hpp.
      apply Z.le_antisymm.
      - apply (Zdigits2_le (Zpos mz)); [lia|].
        rewrite Hit, pow2_add by lia. nia.
      - pose proof (Zdigits2_gt (Zpos mz) (Zpos (digits2_pos m) - 1 + Zpos p)
                      ltac:(lia)) as Hg.
        cbn [Zdigits2] in Hg. rewrite Hit, pow2_add in Hg by lia.
        assert (2 ^ (Zpos (digits2_pos m) - 1) * 2 ^ Zpos p <= Zpos m * 2 ^ Zpos p) by nia.
        specialize (Hg H). lia. }
    rewrite Hd. replace (Zpos (digits2_pos m) + Zpos p + et) with (Zpos (digits2_pos m) + e) by lia.
    fold et. lia.
Qed.

Lemma round_le_pow2 (s : bool) (m : positive) (e k : Z) :
  emin <= k -> k < emax -> e <= k -> Zpos m <= 2 ^ (k - e) ->
  let x := binary_round prec emax s m e in
  fle_pow2 k x /\ valid x = true /\ sign_is s x.
Proof.
  intros Hk Hkmax Hek Hb. unfold binary_round.
  pose proof (shl_align_spec m e) as H.
  destruct (shl_align m e (fexp (Zpos (digits2_pos m) + e))) as [mz ez].
  destruct H as (Hez & Hmz & Hfe & _ & _).
  apply round_aux_le_pow2; try lia.
  assert (Hs : 2 ^ (k - ez) = 2 ^ (k - e) * 2 ^ (e - ez)).
  { rewrite <- pow2_add by lia. f_equal. lia. }
  pose proof (Z.pow_pos_nonneg 2 (e - ez) ltac:(lia) ltac:(lia)) as Hp.
  rewrite Hs, Hmz. destruct (Z.eq_dec (Zpos m) (2 ^ (k - e))) as [Heq|Hne].
  - right. split; [rewrite Heq; reflexivity|reflexivity].
  - left. nia.
Qed.

Lemma round_ge_pow2 (s : bool) (m : positive) (e k : Z) :
  emin + prec - 1 <= k -> (k < e \/ 2 ^ (k - e) <= Zpos m) ->
  let x := binary_round prec emax s m e in
  fge_pow2 k x /\ valid x = true /\ sign_is s x.
Proof.
  intros Hk Hb. unfold binary_round.
  pose proof (shl_align_spec m e) as H.
  destruct (shl_align m e (fexp (Zpos (digits2_pos m) + e))) as [mz ez].
  destruct H as (Hez & Hmz & Hfe & Hshl & Hkeep).
  apply round_aux_ge_pow2; try lia.
  destruct (Z_lt_le_dec k ez) as [|Hle]; [left; assumption|right].
  pose proof (Z.pow_pos_nonneg 2 (e - ez) ltac:(lia) ltac:(lia)) as Hp.
  rewrite Hmz. destruct Hb as [Hlt|Hge].
  - assert (2 ^ (k - ez) <= 2 ^ (e - ez)) by (apply pow2_le; lia). nia.
  - destruct (Z_lt_le_dec (k - e) 0).
    + assert (2 ^ (k - ez) <= 2 ^ (e - ez)) by (apply pow2_le; lia). nia.
    + assert (Hs : 2 ^ (k - ez) = 2 ^ (k - e) * 2 ^ (e - ez)).
      { rewrite <- pow2_add by lia. f_equal. lia. }
      rewrite Hs. nia.
Qed.

Lemma binary_round_not_nan (s : bool) (m : positive) (e : Z) :
  binary_round prec emax s m e <> S754_nan.
Proof.
  unfold binary_round. destruct (shl_align m e _) as [mz ez].
  apply binary_round_aux_not_nan. lia.
Qed.

(** Comparison of valid positive numbers is comparison of magnitudes. *)
Lemma SFcompare_pos (m1 m2 : positive) (e1 e2 : Z) :
  valid (S754_finite false m1 e1) = true -> valid (S754_finite false m2 e2) = true ->
  SFcompare (S754_finite false m1 e1) (S754_finite false m2 e2)
  = Some (Zmag prec emax (S754_finite false m1 e1) ?= Zmag prec emax (S754_finite false m2 e2)).
Proof.
  intros H1 H2. apply valid_facts in H1 as ([He1 _] & Hhi1 & Hlo1).
  apply valid_facts in H2 as ([He2 _] & Hhi2 & Hlo2).
  cbn [SFcompare Zmag]. f_equal.
  pose proof (Z.pow_pos_nonneg 2 (prec - 1) ltac:(lia) ltac:(lia)) as Hp1.
  assert (Hpp : 2 ^ prec = 2 * 2 ^ (prec - 1)).
  { replace prec with (1 + (prec - 1)) at 1 by lia. rewrite pow2_add by lia. reflexivity. }
  destruct (Z.compare_spec e1 e2) as [Heq|Hlt|Hgt].
  - subst e2. change (Pos.compare_cont Eq m1 m2) with (m1 ?= m2)%positive.
    pose proof (Z.pow_pos_nonneg 2 (e1 - emin) ltac:(lia) ltac:(lia)) as Hp.
    symmetry. destruct (Pos.compare_spec m1 m2) as [Heq|Hlt|Hgt].
    + subst m2. apply Z.compare_refl.
    + apply Z.compare_lt_iff. nia.
    + apply Z.compare_gt_iff. nia.
  - symmetry. apply Z.compare_lt_iff.
    pose proof (Z.pow_pos_nonneg 2 (e1 - emin) ltac:(lia) ltac:(lia)) as Hp.
    assert (Hs : 2 ^ (e2 - emin) = 2 ^ (e1 - emin) * 2 ^ (e2 - e1)).
    { rewrite <- pow2_add by lia. f_equal. lia. }
    assert (2 <= 2 ^ (e2 - e1)) by (change 2 with (2 ^ 1) at 1; apply pow2_le; lia).
    specialize (Hlo2 ltac:(lia)). rewrite Hs. nia.
  - symmetry. apply Z.compare_gt_iff.
    pose proof (Z.pow_pos_nonneg 2 (e2 - emin) ltac:(lia) ltac:(lia)) as Hp.
    assert (Hs : 2 ^ (e1 - emin) = 2 ^ (e2 - emin) * 2 ^ (e1 - e2)).
    { rewrite <- pow2_add by lia. f_equal. lia. }
    assert (2 <= 2 ^ (e1 - e2)) by (change 2 with (2 ^ 1) at 1; apply pow2_le; lia).
    specialize (Hlo1 ltac:(lia)). rewrite Hs. nia.
Qed.

Lemma fle_pow2_mag (k : Z) (x : spec_float) :
  valid x = true -> emin <= k -> fle_pow2 k x -> Zmag prec emax x <= 2 ^ (k - emin).
Proof.
  intros Hv Hk Hx. destruct x as [s|s| |s m e]; cbn [fle_pow2 Zmag] in *;
    try (apply Z.pow_nonneg; lia); try contradiction.
  apply valid_facts in Hv as ([He _] & _). destruct Hx as [Hek Hm].
  replace (k - emin) with ((k - e) + (e - emin)) by lia. rewrite pow2_add by lia.
  pose proof (Z.pow_pos_nonneg 2 (e - emin) ltac:(lia) ltac:(lia)). nia.
Qed.

Lemma fge_pow2_mag (k : Z) (s : bool) (m : positive) (e : Z) :
  valid (S754_finite s m e) = true -> emin <= k -> fge_pow2 k (S754_finite s m e) ->
  2 ^ (k - emin) <= Zmag prec emax (S754_finite s m e).
Proof.
  intros Hv Hk Hx. cbn [fge_pow2 Zmag] in *.
  apply valid_facts in Hv as ([He _] & _).
  pose proof (Z.pow_pos_nonneg 2 (e - emin) ltac:(lia) ltac:(lia)).
  destruct Hx as [Hlt|Hge].
  - assert (2 ^ (k - emin) <= 2 ^ (e - emin)) by (apply pow2_le; lia). nia.
  - destruct (Z_lt_le_dec (k - e) 0).
    + assert (2 ^ (k - emin) <= 2 ^ (e - emin)) by (apply pow2_le; lia). nia.
    + replace (k - emin) with ((k - e) + (e - emin)) by lia. rewrite pow2_add by lia. nia.
Qed.

Lemma SFleb_pow2 (k : Z) (a b : spec_float) :
  valid a = true -> valid b = true -> emin <= k ->
  fle_pow2 k a -> fge_pow2 k b -> sign_is false b ->
  SFleb a b = true.
Proof.
  intros Ha Hb Hk Hle Hge Hs.
  destruct b as [sb|sb| |sb mb eb]; cbn [fge_pow2 sign_is] in Hge, Hs; try contradiction; subst sb.
  - destruct a as [sa|sa| |sa ma ea]; cbn [fle_pow2] in Hle; try contradiction.
    + reflexivity.
    + destruct sa; reflexivity.
  - destruct a as [sa|sa| |sa ma ea]; try contradiction.
    + reflexivity.
    + destruct sa; [reflexivity|].
      unfold SFleb. rewrite SFcompare_pos by assumption.
      pose proof (fle_pow2_mag k _ Ha Hk Hle). pose proof (fge_pow2_mag k _ _ _ Hb Hk Hge).
      destruct (Z.compare_spec (Zmag prec emax (S754_finite false ma ea))
                               (Zmag prec emax (S754_finite false mb eb))); try reflexivity. lia.
Qed.
End RoundingBounds.

(** ** Arithmetic operations *)

Section Operations.
Variables prec emax : Z.
Hypothesis prec_pos : 0 < prec.
Hypothesis prec_lt_emax : prec < emax.

Local Abbreviation emin := (emin prec emax).
Local Abbreviation fexp := (fexp prec emax).
Local Abbreviation valid := (valid_binary prec emax).

Lemma round_aux_valid (s : bool) (m e : Z) (l : location) :
  0 < m -> e <= fexp (Zdigits2 m + e) ->
  let x := binary_round_aux prec emax s m e l in
  valid x = true /\ sign_is s x /\ exp_ge e x.
Proof.
  intros Hm He x.
  destruct (binary_round_aux_spec prec emax prec_pos s m e l Hm He)
    as (m2 & Hm2 & Hex & Hm2hi & Hnorm & Hx).
  set (et := fexp (Zdigits2 m + e)) in *.
  assert (Hq0 : 0 <= m / 2 ^ (et - e)).
  { apply Z.div_pos; [lia|apply Z.pow_pos_nonneg; lia]. }
  assert (Hv : et = emin \/ 2 ^ (prec - 1) <= m2).
  { destruct (Z.eq_dec et emin); [left; assumption|right].
    apply Hnorm. unfold et, SpecFloat.fexp in *. lia. }
  unfold x. rewrite Hx.
  destruct (pack_valid prec emax prec_pos s m2 et) as [Hval Hsg];
    [unfold et, SpecFloat.fexp; lia|lia|assumption|].
  split; [assumption|]. split; [assumption|].
  destruct (pack_cases prec emax prec_pos s m2 et ltac:(lia))
    as [[_ ->]|[(m' & e' & -> & He' & _)|[_ ->]]]; cbn [exp_ge]; lia.
Qed.

Lemma round_valid (s : bool) (m : positive) (e : Z) :
  let x := binary_round prec emax s m e in
  valid x = true /\ sign_is s x /\ exp_ge (e + 1 - prec) x.
Proof.
  unfold binary_round.
  pose proof (shl_align_spec prec emax m e) as H.
  destruct (shl_align m e (fexp (Zpos (digits2_pos m) + e))) as [mz ez].
  destruct H as (Hez & Hmz & Hfe & Hshl & Hkeep).
  destruct (round_aux_valid s (Zpos mz) ez loc_Exact ltac:(lia) Hfe) as (Hv & Hs & He).
  split; [assumption|]. split; [assumption|].
  assert (e + 1 - prec <= ez).
  { destruct (Z_le_gt_dec (fexp (Zpos (digits2_pos m) + e)) e) as [Hc|Hc].
    - rewrite (Hshl Hc). unfold SpecFloat.fexp. lia.
    - rewrite Hkeep; lia. }
  destruct (binary_round_aux prec emax s (Zpos mz) ez loc_Exact); cbn [exp_ge] in *; lia.
Qed.

(** Rounding a number that already fits is the identity on values. *)
Lemma round_exact (s : bool) (m : positive) (e : Z) :
  let et := fexp (Zpos (digits2_pos m) + e) in
  et <= e -> et <= emax - prec ->
  exists m', binary_round prec emax s m e = S754_finite s m' et
             /\ Zpos m' = Zpos m * 2 ^ (e - et).
Proof.
  intros et Het Hmax. unfold binary_round.
  pose proof (shl_align_spec prec emax m e) as H.
  destruct (shl_align m e (fexp (Zpos (digits2_pos m) + e))) as [mz ez].
  destruct H as (Hez & Hmz & Hfe & Hshl & _). specialize (Hshl Het). fold et in Hshl. subst ez.
  destruct (binary_round_aux_spec prec emax prec_pos s (Zpos mz) et loc_Exact ltac:(lia) Hfe)
    as (m2 & Hm2 & Hex & Hm2hi & Hnorm & Hx).
  pose proof (digits2_pos_bounds m) as [Hlo Hhi].
  pose proof (Z.pow_pos_nonneg 2 (e - et) ltac:(lia) ltac:(lia)) as Hp.
  assert (Hlt : Zpos mz < 2 ^ prec).
  { rewrite Hmz. apply Z.lt_le_trans with (2 ^ Zpos (digits2_pos m) * 2 ^ (e - et)); [nia|].
    rewrite <- pow2_add by lia. apply pow2_le. unfold et, SpecFloat.fexp. lia. }
  assert (Hd : Zdigits2 (Zpos mz) <= prec) by (apply Zdigits2_le; lia).
  pose proof (Zdigits2_pos (Zpos mz) ltac:(lia)) as Hdp.
  assert (Hn : fexp (Zdigits2 (Zpos mz) + et) - et = 0).
  { pose proof (fexp_ge_emin prec emax (Zpos (digits2_pos m) + e)). fold et in H.
    unfold SpecFloat.fexp in *. lia. }
  rewrite Hn in Hm2, Hex. rewrite Z.pow_0_r, Z.div_1_r in Hm2, Hex.
  specialize (Hex eq_refl (Z.mod_1_r _)). subst m2.
  rewrite Hx. unfold pack. destruct (Z.eqb_spec (Zpos mz) (2 ^ prec)) as [Heq|_]; [lia|].
  cbn [finish]. replace (fexp (Zdigits2 (Zpos mz) + et)) with et by lia.
  destruct (Z.leb_spec et (emax - prec)); [|lia].
  exists mz. split; [reflexivity|assumption].
Qed.

Lemma div_eucl_div_mod (a b : Z) : Z.div_eucl a b = (a / b, a mod b).
Proof. unfold Z.div, Z.modulo. destruct (Z.div_eucl a b). reflexivity. Qed.

Lemma new_location_0 (n : Z) : new_location n 0 = loc_Exact.
Proof. unfold new_location, new_location_even, new_location_odd. destruct (Z.even n); reflexivity. Qed.

(** Division of two finite numbers, away from underflow. *)
Lemma SFdiv_finite (s1 s2 : bool) (m1 m2 : positive) (e1 e2 : Z) :
  let d1 := Zpos (digits2_pos m1) in
  let sh := 2 * prec - d1 in
  let e' := e1 - e2 - sh in
  let q := (Zpos m1 * 2 ^ sh) / Zpos m2 in
  let r := (Zpos m1 * 2 ^ sh) mod Zpos m2 in
  d1 <= prec -> Zpos (digits2_pos m2) = prec -> emin <= e' ->
  SFdiv prec emax (S754_finite s1 m1 e1) (S754_finite s2 m2 e2)
  = binary_round_aux prec emax (xorb s1 s2) q e' (new_location (Zpos m2) r)
  /\ 2 ^ (prec - 1) <= q /\ e' <= fexp (Zdigits2 q + e').
Proof.
  intros d1 sh e' q r Hd1 Hd2 He'.
  assert (Hsh : 0 < sh) by (unfold sh; lia).
  pose proof (digits2_pos_bounds m1) as [Hlo1 Hhi1]. fold d1 in Hlo1, Hhi1.
  pose proof (digits2_pos_bounds m2) as [Hlo2 Hhi2]. rewrite Hd2 in Hlo2, Hhi2.
  assert (Hq : 2 ^ (prec - 1) <= q).
  { unfold q. apply Z.div_le_lower_bound; [lia|].
    assert (d1pos : 0 < d1) by (unfold d1; lia).
    apply Z.le_trans with (2 ^ prec * 2 ^ (prec - 1)).
    - pose proof (Z.pow_pos_nonneg 2 (prec - 1) ltac:(lia) ltac:(lia)). nia.
    - rewrite <- pow2_add by lia. replace (prec + (prec - 1)) with ((d1 - 1) + sh) by (unfold sh; lia).
      rewrite pow2_add by lia. pose proof (Z.pow_pos_nonneg 2 sh ltac:(lia) ltac:(lia)). nia. }
  split; [|split; [assumption|]].
  - unfold SFdiv, SFdiv_core_binary. cbn [Zdigits2]. fold d1. rewrite Hd2.
    assert (Hf : fexp (d1 + e1 - (prec + e2)) = e').
    { unfold SpecFloat.fexp, e', sh in *. lia. }
    rewrite Hf. replace (Z.min e' (e1 - e2)) with e' by (unfold e'; lia).
    replace (e1 - e2 - e') with sh by (unfold e'; lia).
    destruct sh as [|p|p] eqn:Esh; try lia.
    rewrite Z.shiftl_mul_pow2 by lia. rewrite div_eucl_div_mod. reflexivity.
  - pose proof (Z.pow_pos_nonneg 2 (prec - 1) ltac:(lia) ltac:(lia)) as Hp.
    pose proof (Zdigits2_gt q (prec - 1) ltac:(lia) Hq). unfold SpecFloat.fexp. lia.
Qed.

Lemma SFdiv_le_pow2 (s1 s2 : bool) (m1 m2 : positive) (e1 e2 k : Z) :
  let d1 := Zpos (digits2_pos m1) in
  let sh := 2 * prec - d1 in
  let e' := e1 - e2 - sh in
  d1 <= prec -> Zpos (digits2_pos m2) = prec -> emin <= e' ->
  emin <= k -> k < emax -> e' <= k ->
  Zpos m1 * 2 ^ sh <= 2 ^ (k - e') * Zpos m2 ->
  let x := SFdiv prec emax (S754_finite s1 m1 e1) (S754_finite s2 m2 e2) in
  fle_pow2 k x /\ valid x = true /\ sign_is (xorb s1 s2) x /\ exp_ge e' x.
Proof.
  intros d1 sh e' Hd1 Hd2 He' Hk Hkmax Hek Hb x.
  destruct (SFdiv_finite s1 s2 m1 m2 e1 e2 Hd1 Hd2 He') as (Hx & Hq & Hfe).
  fold d1 sh e' in Hx, Hq, Hfe.
  set (q := Zpos m1 * 2 ^ sh / Zpos m2) in *. set (r := (Zpos m1 * 2 ^ sh) mod Zpos m2) in *.
  pose proof (Z.pow_pos_nonneg 2 (prec - 1) ltac:(lia) ltac:(lia)) as Hp.
  pose proof (Z.div_mod (Zpos m1 * 2 ^ sh) (Zpos m2) ltac:(lia)) as Hdm. fold q r in Hdm.
  pose proof (Z.mod_pos_bound (Zpos m1 * 2 ^ sh) (Zpos m2) ltac:(lia)) as Hr. fold r in Hr.
  unfold x. rewrite Hx.
  destruct (round_aux_le_pow2 prec emax prec_pos prec_lt_emax (xorb s1 s2) q e'
              (new_location (Zpos m2) r) k ltac:(lia) Hfe Hk Hkmax Hek) as (H1 & H2 & H3).
  { destruct (Z_lt_le_dec q (2 ^ (k - e'))) as [|Hge]; [left; assumption|right].
    assert (q = 2 ^ (k - e')) by nia. split; [assumption|].
    assert (r = 0) by nia. rewrite H0. apply new_location_0. }
  repeat split; try assumption.
  apply (round_aux_valid (xorb s1 s2) q e' (new_location (Zpos m2) r) ltac:(lia) Hfe).
Qed.

Lemma SFdiv_ge_pow2 (s1 s2 : bool) (m1 m2 : positive) (e1 e2 k : Z) :
  let d1 := Zpos (digits2_pos m1) in
  let sh := 2 * prec - d1 in
  let e' := e1 - e2 - sh in
  d1 <= prec -> Zpos (digits2_pos m2) = prec -> emin <= e' ->
  emin + prec - 1 <= k ->
  (k < e' \/ 2 ^ (k - e') * Zpos m2 <= Zpos m1 * 2 ^ sh) ->
  let x := SFdiv prec emax (S754_finite s1 m1 e1) (S754_finite s2 m2 e2) in
  fge_pow2 k x /\ valid x = true /\ sign_is (xorb s1 s2) x.
Proof.
  intros d1 sh e' Hd1 Hd2 He' Hk Hb x.
  destruct (SFdiv_finite s1 s2 m1 m2 e1 e2 Hd1 Hd2 He') as (Hx & Hq & Hfe).
  fold d1 sh e' in Hx, Hq, Hfe.
  set (q := Zpos m1 * 2 ^ sh / Zpos m2) in *.
  pose proof (Z.pow_pos_nonneg 2 (prec - 1) ltac:(lia) ltac:(lia)) as Hp.
  unfold x. rewrite Hx.
  apply (round_aux_ge_pow2 prec emax prec_pos); try lia.
  destruct Hb as [Hlt|Hge]; [left; assumption|right].
  unfold q. apply Z.div_le_lower_bound; lia.
Qed.

Lemma SFmul_le_pow2 (s1 s2 : bool) (m1 m2 : positive) (e1 e2 k1 k2 : Z) :
  2 ^ (prec - 1) <= Zpos m1 ->
  fle_pow2 k1 (S754_finite s1 m1 e1) -> fle_pow2 k2 (S754_finite s2 m2 e2) ->
  emin <= k1 + k2 -> k1 + k2 < emax ->
  let x := SFmul prec emax (S754_finite s1 m1 e1) (S754_finite s2 m2 e2) in
  fle_pow2 (k1 + k2) x /\ valid x = true /\ sign_is (xorb s1 s2) x /\ exp_ge (e1 + e2) x.
Proof.
  intros Hn [He1 Hm1] [He2 Hm2] Hk Hkmax x. unfold x. cbn [SFmul].
  pose proof (Z.pow_pos_nonneg 2 (prec - 1) ltac:(lia) ltac:(lia)) as Hp.
  assert (Hfe : e1 + e2 <= fexp (Zdigits2 (Zpos (m1 * m2)) + (e1 + e2))).
  { pose proof (Zdigits2_gt (Zpos (m1 * m2)) (prec - 1) ltac:(lia)) as Hg.
    rewrite Pos2Z.inj_mul in Hg. specialize (Hg ltac:(nia)).
    rewrite Pos2Z.inj_mul. unfold SpecFloat.fexp. lia. }
  destruct (round_aux_le_pow2 prec emax prec_pos prec_lt_emax (xorb s1 s2) (Zpos (m1 * m2))
              (e1 + e2) loc_Exact (k1 + k2) ltac:(lia) Hfe Hk Hkmax ltac:(lia)) as (H1 & H2 & H3).
  { assert (Hs : 2 ^ (k1 + k2 - (e1 + e2)) = 2 ^ (k1 - e1) * 2 ^ (k2 - e2)).
    { rewrite <- pow2_add by lia. f_equal. lia. }
    rewrite Hs, Pos2Z.inj_mul.
    destruct (Z.eq_dec (Zpos m1 * Zpos m2) (2 ^ (k1 - e1) * 2 ^ (k2 - e2))) as [Heq|Hne].
    - right. split; [assumption|reflexivity].
    - left. nia. }
  repeat split; try assumption.
  apply (round_aux_valid (xorb s1 s2) (Zpos (m1 * m2)) (e1 + e2) loc_Exact ltac:(lia) Hfe).
Qed.

Lemma SFcompare_antisym (x y : spec_float) :
  SFcompare y x = option_map CompOpp (SFcompare x y).
Proof.
  destruct x as [sx|sx| |sx mx ex], y as [sy|sy| |sy my ey]; cbn [SFcompare option_map];
    try reflexivity; try (destruct sx; reflexivity); try (destruct sy; reflexivity);
    try (destruct sx, sy; reflexivity).
  destruct sx, sy; try reflexivity; f_equal; rewrite (Z.compare_antisym ex ey);
    destruct (ex ?= ey); cbn [CompOpp]; try reflexivity;
    change (Pos.compare_cont Eq my mx) with (my ?= mx)%positive;
    change (Pos.compare_cont Eq mx my) with (mx ?= my)%positive;
    rewrite (Pos.compare_antisym mx my); destruct (mx ?= my)%positive; reflexivity.
Qed.

Lemma not_lt_le (x y : spec_float) :
  x <> S754_nan -> y <> S754_nan -> SFltb x y = false -> SFleb y x = true.
Proof.
  intros Hx Hy. unfold SFltb, SFleb. rewrite (SFcompare_antisym x y).
  destruct (SFcompare x y) as [[| |]|] eqn:E; cbn; try reflexivity; try discriminate.
  destruct x, y; try congruence; discriminate.
Qed.
End Operations.

(** ** Division and subtraction never leave the format *)

Section DivisionValid.
Variables prec emax : Z.
Hypothesis prec_pos : 0 < prec.
Hypothesis prec_lt_emax : prec < emax.

Local Abbreviation emin := (emin prec emax).
Local Abbreviation fexp := (fexp prec emax).
Local Abbreviation valid := (valid_binary prec emax).

Lemma shr_iter_zero (n : nat) (r s : bool) :
  exists s', Nat.iter (S n) shr_1 (Build_shr_record 0 r s) = Build_shr_record 0 false s'.
Proof.
  induction n as [|n [s' IH]].
  - exists (r || s). reflexivity.
  - exists (false || s'). rewrite Nat.iter_succ, IH. reflexivity.
Qed.

(** Rounding a quotient that is below one unit of the working exponent. *)
Lemma round_aux_zero_mantissa (s : bool) (e : Z) (l : location) :
  e <= emin ->
  let x := binary_round_aux prec emax s 0 e l in
  valid x = true /\ sign_is s x.
Proof.
  intros He x.
  assert (Hf : fexp (0 + e) = emin) by (unfold SpecFloat.fexp; lia).
  pose proof (Z.pow_pos_nonneg 2 prec ltac:(lia) ltac:(lia)) as Hpp.
  assert (Hx : exists m2, 0 <= m2 <= 1 /\ x = pack prec emax s m2 emin).
  { unfold x, binary_round_aux. unfold shr_fexp at 1. cbn [Zdigits2]. rewrite Hf.
    destruct (Z.eq_dec e emin) as [->|Hne].
    - rewrite Z.sub_diag. cbn [shr]. rewrite shr_m_record, loc_record_loc.
      pose proof (rne_bounds 0 l) as Hb. exists (round_nearest_even 0 l).
      split; [lia|]. apply (second_shift prec emax prec_pos); lia.
    - destruct (emin - e) as [|p|p] eqn:E; try lia.
      cbn [shr]. rewrite iter_pos_nat.
      destruct (Pos2Nat.is_succ p) as [n Hn]. rewrite Hn.
      assert (Hrec : exists r0 s0, shr_record_of_loc 0 l = Build_shr_record 0 r0 s0).
      { destruct l as [|[| |]]; cbn; eauto. }
      destruct Hrec as (r0 & s0 & ->).
      destruct (shr_iter_zero n r0 s0) as [s' ->].
      replace (e + Zpos p) with emin by lia.
      assert (Hr : round_nearest_even (shr_m {| shr_m := 0; shr_r := false; shr_s := s' |})
                     (loc_of_shr_record {| shr_m := 0; shr_r := false; shr_s := s' |}) = 0).
      { destruct s'; reflexivity. }
      rewrite Hr. exists 0. split; [lia|]. apply (second_shift prec emax prec_pos); lia. }
  destruct Hx as (m2 & Hm2 & ->).
  apply (pack_valid prec emax prec_pos); [lia|lia|left; reflexivity].
Qed.

Lemma fexp_mono (a b : Z) : a <= b -> fexp a <= fexp b.
Proof. unfold SpecFloat.fexp. lia. Qed.

(** Division never leaves the format. *)
Lemma SFdiv_finite_valid (s1 s2 : bool) (m1 m2 : positive) (e1 e2 : Z) :
  let x := SFdiv prec emax (S754_finite s1 m1 e1) (S754_finite s2 m2 e2) in
  valid x = true /\ sign_is (xorb s1 s2) x.
Proof.
  intros x. unfold x. cbn [SFdiv]. unfold SFdiv_core_binary. cbn [Zdigits2].
  set (d1 := Zpos (digits2_pos m1)). set (d2 := Zpos (digits2_pos m2)).
  set (M0 := d1 + e1 - (d2 + e2)).
  set (e' := Z.min (fexp M0) (e1 - e2)).
  set (sh := e1 - e2 - e').
  assert (Hsh : 0 <= sh) by (unfold sh, e'; lia).
  set (m' := match sh with Zpos _ => Z.shiftl (Zpos m1) sh | Z0 => Zpos m1 | Zneg _ => 0 end).
  assert (Hm' : m' = Zpos m1 * 2 ^ sh).
  { unfold m'. destruct sh as [|p|p] eqn:E; try lia.
    rewrite Z.shiftl_mul_pow2 by lia. reflexivity. }
  rewrite div_eucl_div_mod.
  pose proof (digits2_pos_bounds m1) as [Hlo1 Hhi1]. fold d1 in Hlo1, Hhi1.
  pose proof (digits2_pos_bounds m2) as [Hlo2 Hhi2]. fold d2 in Hlo2, Hhi2.
  assert (Hd1 : 0 < d1) by (unfold d1; lia). assert (Hd2 : 0 < d2) by (unfold d2; lia).
  pose proof (Z.pow_pos_nonneg 2 sh ltac:(lia) Hsh) as Hps.
  assert (Hq0 : 0 <= m' / Zpos m2) by (apply Z.div_pos; lia).
  destruct (Z.eq_dec (m' / Zpos m2) 0) as [Hz|Hnz].
  - rewrite Hz. apply round_aux_zero_mantissa.
    assert (Hlt : m' < Zpos m2).
    { pose proof (Z.div_mod m' (Zpos m2) ltac:(lia)).
      pose proof (Z.mod_pos_bound m' (Zpos m2) ltac:(lia)). lia. }
    assert (Hdd : d1 - 1 + sh < d2).
    { apply pow2_lt_inv; [lia|]. rewrite pow2_add by lia. nia. }
    assert (M0 <= e') by (unfold M0, sh in *; lia).
    unfold e' in *. unfold SpecFloat.fexp in *. lia.
  - set (q := m' / Zpos m2) in *.
    assert (Hq : 0 < q) by lia.
    assert (Hdq : M0 <= Zdigits2 q + e').
    { pose proof (Zdigits2_pos q Hq) as Hdp.
      destruct (Z_lt_le_dec (d1 - 1 + sh - d2) 0) as [Hneg|Hpos].
      - unfold M0, sh in *. lia.
      - assert (2 ^ (d1 - 1 + sh - d2) <= q).
        { unfold q. apply Z.div_le_lower_bound; [lia|].
          pose proof (Z.pow_pos_nonneg 2 (d1 - 1 + sh - d2) ltac:(lia) Hpos).
          apply Z.le_trans with (2 ^ d2 * 2 ^ (d1 - 1 + sh - d2)); [nia|].
          rewrite <- pow2_add by lia. replace (d2 + (d1 - 1 + sh - d2)) with ((d1 - 1) + sh) by lia.
          rewrite pow2_add by lia. nia. }
        pose proof (Zdigits2_gt q (d1 - 1 + sh - d2) Hpos H). unfold M0, sh in *. lia. }
    assert (Hfe : e' <= fexp (Zdigits2 q + e')).
    { apply Z.le_trans with (fexp M0); [unfold e'; lia|apply fexp_mono; assumption]. }
    destruct (round_aux_valid prec emax prec_pos (xorb s1 s2) q e'
                (new_location (Zpos m2) (m' mod Zpos m2)) Hq Hfe) as (H1 & H2 & _).
    split; assumption.
Qed.

Lemma SFdiv_valid (x y : spec_float) : valid (SFdiv prec emax x y) = true.
Proof.
  destruct x as [sx|sx| |sx mx ex], y as [sy|sy| |sy my ey]; try reflexivity.
  apply SFdiv_finite_valid.
Qed.

End DivisionValid.

(** ** The error of one rounding *)

Lemma Zdigits2_shift (m k : Z) : 0 < m -> 0 <= k -> Zdigits2 (m * 2 ^ k) = Zdigits2 m + k.
Proof.
  intros Hm Hk. pose proof (Zdigits2_bounds m Hm) as [Hlo Hhi].
  pose proof (Zdigits2_pos m Hm) as Hd.
  pose proof (Z.pow_pos_nonneg 2 k ltac:(lia) Hk) as Hp.
  apply Z.le_antisymm.
  - apply Zdigits2_le; [nia|]. rewrite pow2_add by lia. nia.
  - pose proof (Zdigits2_gt (m * 2 ^ k) (Zdigits2 m - 1 + k) ltac:(lia)) as Hg.
    rewrite pow2_add in Hg by lia.
    assert (2 ^ (Zdigits2 m - 1) * 2 ^ k <= m * 2 ^ k) by nia. specialize (Hg H). lia.
Qed.

Section RoundingError.
Variables prec emax : Z.
Hypothesis prec_pos : 0 < prec.

Local Abbreviation emin := (emin prec emax).
Local Abbreviation fexp := (fexp prec emax).

(** One rounding moves a number by less than one unit of the target
    exponent.  Magnitudes are counted in units of [2 ^ emin]. *)
Lemma round_error (s : bool) (m : positive) (e : Z) :
  emin <= e ->
  let x := binary_round prec emax s m e in
  let et := fexp (Zpos (digits2_pos m) + e) in
  x = S754_infinity s
  \/ Z.abs (Zmag prec emax x - Zpos m * 2 ^ (e - emin)) < 2 ^ (et - emin).
Proof.
  intros He x et. unfold x, binary_round.
  pose proof (shl_align_spec prec emax m e) as H. fold et in H |- *.
  destruct (shl_align m e et) as [mz ez].
  destruct H as (Hez & Hmz & Hfe & Hshl & Hkeep).
  assert (Hez' : emin <= ez).
  { destruct (Z_le_gt_dec et e) as [Hc|Hc]; [rewrite (Hshl Hc)|rewrite Hkeep by lia; lia].
    apply fexp_ge_emin. }
  assert (Hmag : Zdigits2 (Zpos mz) + ez = Zpos (digits2_pos m) + e).
  { rewrite Hmz, Zdigits2_shift by lia. cbn [Zdigits2]. lia. }
  destruct (binary_round_aux_spec prec emax prec_pos s (Zpos mz) ez loc_Exact ltac:(lia) Hfe)
    as (m2 & Hm2 & Hex & Hm2hi & Hnorm & Hx).
  rewrite Hmag in Hm2, Hex, Hx, Hfe. fold et in Hm2, Hex, Hx, Hfe.
  set (n := et - ez) in *. assert (Hn : 0 <= n) by (unfold n; lia).
  pose proof (Z.pow_pos_nonneg 2 n ltac:(lia) Hn) as HN.
  pose proof (Z.pow_pos_nonneg 2 (ez - emin) ltac:(lia) ltac:(lia)) as HU.
  pose proof (Z.pow_pos_nonneg 2 (e - ez) ltac:(lia) ltac:(lia)) as HS.
  pose proof (Z.div_mod (Zpos mz) (2 ^ n) ltac:(lia)) as Hdm.
  pose proof (Z.mod_pos_bound (Zpos mz) (2 ^ n) ltac:(lia)) as Hr.
  assert (Hq0 : 0 <= Zpos mz / 2 ^ n) by (apply Z.div_pos; lia).
  assert (HV : Zpos m * 2 ^ (e - emin) = Zpos mz * 2 ^ (ez - emin)).
  { rewrite Hmz. replace (e - emin) with ((e - ez) + (ez - emin)) by lia.
    rewrite pow2_add by lia. ring. }
  assert (HT : 2 ^ (et - emin) = 2 ^ n * 2 ^ (ez - emin)).
  { rewrite <- pow2_add by lia. f_equal. unfold n. lia. }
  assert (Herr : Z.abs (m2 * 2 ^ (et - emin) - Zpos mz * 2 ^ (ez - emin)) < 2 ^ (et - emin)).
  { rewrite HT. destruct (Z.eq_dec (Zpos mz mod 2 ^ n) 0) as [Hz|Hnz].
    - rewrite (Hex eq_refl Hz). nia.
    - nia. }
  rewrite Hx, HV.
  destruct (pack_cases prec emax prec_pos s m2 et ltac:(lia))
    as [[H0 ->]|[(m' & e' & -> & He' & Hm')|[_ ->]]].
  - right. cbn [Zmag]. rewrite H0 in Herr. exact Herr.
  - right. cbn [Zmag].
    assert (Zpos m' * 2 ^ (e' - emin) = m2 * 2 ^ (et - emin)).
    { rewrite Hm'. replace (e' - emin) with ((e' - et) + (et - emin))
        by lia. rewrite pow2_add by (pose proof (fexp_ge_emin prec emax (Zpos (digits2_pos m) + e));
                                     fold et in H; lia). ring. }
    rewrite H. exact Herr.
  - left. reflexivity.
Qed.
End RoundingError.

(** ** The two formats of the sketch *)

(** Side conditions on exponents become linear arithmetic once the format
    parameters are unfolded. *)
Ltac fmt_lia :=
  unfold SpecFloat.fexp, SpecFloat.emin, prec32, emax32, prec64, emax64; lia.

Lemma prec32_pos : 0 < prec32. Proof. reflexivity. Qed.
Lemma prec64_pos : 0 < prec64. Proof. reflexivity. Qed.
Lemma prec32_lt_emax : prec32 < emax32. Proof. reflexivity. Qed.
Lemma prec64_lt_emax : prec64 < emax64. Proof. reflexivity. Qed.

(** *** NaN never arises from the arithmetic of the sketch *)

Lemma binary_normalize_not_nan (prec emax m e : Z) (sz : bool) :
  0 < prec -> binary_normalize prec emax m e sz <> S754_nan.
Proof.
  intros Hp. destruct m; cbn [binary_normalize]; [discriminate| |];
    apply binary_round_not_nan.
Qed.

Lemma f32_to_f64_not_nan (x : f32) : x <> S754_nan -> f32_to_f64 x <> S754_nan.
Proof. destruct x; cbn [f32_to_f64]; try congruence. intros _. apply binary_round_not_nan. Qed.

Lemma f64_to_f32_not_nan (x : f64) : x <> S754_nan -> f64_to_f32 x <> S754_nan.
Proof. destruct x; cbn [f64_to_f32]; try congruence. intros _. apply binary_round_not_nan. Qed.

Lemma f32_of_int_not_nan (n : Z) : f32_of_int n <> S754_nan.
Proof. apply binary_normalize_not_nan. reflexivity. Qed.

Lemma SFdiv_finite_not_nan (prec emax : Z) (x : spec_float) (s : bool) (m : positive) (e : Z) :
  x <> S754_nan -> SFdiv prec emax x (S754_finite s m e) <> S754_nan.
Proof.
  intros Hx. destruct x as [sx|sx| |sx mx ex]; cbn [SFdiv]; try congruence.
  unfold SFdiv_core_binary. rewrite div_eucl_div_mod.
  apply binary_round_aux_not_nan. apply Z.div_pos; [|lia].
  destruct (ex - e - _) as [|p|p]; try lia. rewrite Z.shiftl_mul_pow2 by lia.
  pose proof (Z.pow_pos_nonneg 2 (Zpos p) ltac:(lia) ltac:(lia)). lia.
Qed.

Lemma SFmul_finite_not_nan (prec emax : Z) (x : spec_float) (s : bool) (m : positive) (e : Z) :
  x <> S754_nan -> SFmul prec emax x (S754_finite s m e) <> S754_nan.
Proof.
  intros Hx. destruct x as [sx|sx| |sx mx ex]; cbn [SFmul]; try congruence.
  apply binary_round_aux_not_nan. lia.
Qed.

Lemma SFsub_finite_l_not_nan (prec emax : Z) (x : spec_float) (s : bool) (m : positive) (e : Z) :
  0 < prec -> x <> S754_nan -> SFsub prec emax (S754_finite s m e) x <> S754_nan.
Proof.
  intros Hp Hx. destruct x as [sx|sx| |sx mx ex]; cbn [SFsub]; try congruence.
  apply binary_normalize_not_nan. assumption.
Qed.

Lemma SFsub_finite_r_not_nan (prec emax : Z) (x : spec_float) (s : bool) (m : positive) (e : Z) :
  0 < prec -> x <> S754_nan -> SFsub prec emax x (S754_finite s m e) <> S754_nan.
Proof.
  intros Hp Hx. destruct x as [sx|sx| |sx mx ex]; cbn [SFsub]; try congruence.
  apply binary_normalize_not_nan. assumption.
Qed.

(** *** The clamps *)

Lemma between_clamp (lo hi v : spec_float) :
  lo <> S754_nan -> hi <> S754_nan -> v <> S754_nan -> fle lo hi = true ->
  between lo hi (if flt v lo then lo else if flt hi v then hi else v) = true.
Proof.
  intros Hlo Hhi Hv Hlh. unfold between, fle, flt in *.
  assert (Hrefl : forall x, x <> S754_nan -> SFleb x x = true).
  { intros x Hx. apply (not_lt_le x x Hx Hx). unfold SFltb.
    pose proof (SFcompare_antisym x x) as Ha. destruct (SFcompare x x) as [[| |]|]; try reflexivity.
    discriminate. }
  destruct (SFltb v lo) eqn:E1.
  - rewrite Hrefl, Hlh by assumption. reflexivity.
  - destruct (SFltb hi v) eqn:E2.
    + rewrite Hlh, Hrefl by assumption. reflexivity.
    + rewrite (not_lt_le v lo), (not_lt_le hi v) by assumption. reflexivity.
Qed.

Lemma between_clamp' (lo hi v : spec_float) :
  lo <> S754_nan -> hi <> S754_nan -> v <> S754_nan -> fle lo hi = true ->
  between lo hi (if flt hi v then hi else if flt v lo then lo else v) = true.
Proof.
  intros Hlo Hhi Hv Hlh. unfold between, fle, flt in *.
  assert (Hrefl : forall x, x <> S754_nan -> SFleb x x = true).
  { intros x Hx. apply (not_lt_le x x Hx Hx). unfold SFltb.
    pose proof (SFcompare_antisym x x) as Ha. destruct (SFcompare x x) as [[| |]|]; try reflexivity.
    discriminate. }
  destruct (SFltb hi v) eqn:E1.
  - rewrite Hrefl, Hlh by assumption. reflexivity.
  - destruct (SFltb v lo) eqn:E2.
    + rewrite Hlh, Hrefl by assumption. reflexivity.
    + rewrite (not_lt_le v lo), (not_lt_le hi v) by assumption. reflexivity.
Qed.

Lemma clamp01_in01 (v : f32) : v <> S754_nan -> in01 (clamp01 v) = true.
Proof. intros Hv. apply between_clamp; try discriminate; [assumption|reflexivity]. Qed.

Lemma in01_not_nan (v : f32) : in01 v = true -> v <> S754_nan.
Proof. intros H ->. discriminate. Qed.

(** *** float -> double -> float *)

Lemma f32_to_f64_finite (s : bool) (m : positive) (e : Z) :
  valid32 (S754_finite s m e) = true ->
  let j := prec64 - Zpos (digits2_pos m) in
  exists m', f32_to_f64 (S754_finite s m e) = S754_finite s m' (e - j)
             /\ Zpos m' = Zpos m * 2 ^ j /\ 29 <= j /\ Zpos (digits2_pos m') = prec64.
Proof.
  intros Hv j. apply (valid_facts prec32 emax32) in Hv as ([He1 He2] & Hhi & Hlo).
  pose proof (digits2_pos_bounds m) as [Hdlo Hdhi].
  assert (Hd : Zpos (digits2_pos m) <= 24) by (apply (Zdigits2_le (Zpos m)); [lia|exact Hhi]).
  unfold SpecFloat.emin, prec32, emax32 in *.
  cbn [f32_to_f64].
  destruct (round_exact prec64 emax64 prec64_pos s m e) as (m' & Hr & Hm').
  { fmt_lia. }
  { fmt_lia. }
  assert (Hf : SpecFloat.fexp prec64 emax64 (Zpos (digits2_pos m) + e) = e - j).
  { unfold j, SpecFloat.fexp, SpecFloat.emin, prec64, emax64. lia. }
  rewrite Hf in Hr, Hm'. replace (e - (e - j)) with j in Hm' by lia.
  exists m'. split; [assumption|]. split; [assumption|]. split; [unfold j, prec64; lia|].
  assert (0 <= j) by (unfold j, prec64; lia).
  pose proof (Z.pow_pos_nonneg 2 j ltac:(lia) H) as Hpj.
  apply Z.le_antisymm.
  - apply (Zdigits2_le (Zpos m')); [lia|]. rewrite Hm'.
    apply Z.lt_le_trans with (2 ^ Zpos (digits2_pos m) * 2 ^ j); [nia|].
    rewrite <- pow2_add by lia. apply pow2_le. unfold j. lia.
  - pose proof (Zdigits2_gt (Zpos m') (prec64 - 1) ltac:(unfold prec64; lia)) as Hg.
    cbn [Zdigits2] in Hg. enough (2 ^ (prec64 - 1) <= Zpos m') by lia.
    rewrite Hm'. replace (prec64 - 1) with ((Zpos (digits2_pos m) - 1) + j) by (unfold j; lia).
    rewrite pow2_add by lia. nia.
Qed.

Lemma f32_f64_roundtrip (p : f32) :
  valid32 p = true -> f64_to_f32 (f32_to_f64 p) = p.
Proof.
  destruct p as [s|s| |s m e]; try reflexivity. intros Hv.
  destruct (f32_to_f64_finite s m e Hv) as (m' & Hr & Hm' & Hj & Hd).
  set (j := prec64 - Zpos (digits2_pos m)) in *. rewrite Hr. cbn [f64_to_f32].
  pose proof Hv as Hv'.
  apply (valid_facts prec32 emax32) in Hv' as ([He1 He2] & Hhi & Hlo).
  cbn [valid32 valid_binary] in Hv. unfold bounded in Hv. apply andb_true_iff in Hv as [Hc _].
  unfold canonical_mantissa in Hc. apply Z.eqb_eq in Hc.
  unfold binary_round.
  pose proof (shl_align_spec prec32 emax32 m' (e - j)) as Hsh.
  assert (Hf : SpecFloat.fexp prec32 emax32 (Zpos (digits2_pos m') + (e - j)) = e).
  { rewrite Hd. unfold j. rewrite <- Hc at 2. f_equal. lia. }
  rewrite Hf in Hsh |- *.
  destruct (shl_align m' (e - j) e) as [mz ez]. destruct Hsh as (Hez & Hmz & Hfe & _ & Hkeep).
  specialize (Hkeep ltac:(lia)). subst ez. rewrite Z.sub_diag, Z.mul_1_r in Hmz.
  injection Hmz as ->.
  destruct (binary_round_aux_spec prec32 emax32 prec32_pos s (Zpos m') (e - j) loc_Exact
              ltac:(lia) Hfe) as (m2 & Hm2 & Hex & Hm2hi & Hnorm & Hx).
  cbn [Zdigits2] in *. rewrite Hf in *. replace (e - (e - j)) with j in * by lia.
  pose proof (Z.pow_pos_nonneg 2 j ltac:(lia) ltac:(lia)) as Hpj.
  assert (Hdiv : Zpos m' / 2 ^ j = Zpos m) by (rewrite Hm'; apply Z.div_mul; lia).
  assert (Hmod : Zpos m' mod 2 ^ j = 0) by (rewrite Hm'; apply Z.mod_mul; lia).
  rewrite (Hex eq_refl Hmod), Hdiv in Hx. rewrite Hx.
  unfold pack. destruct (Z.eqb_spec (Zpos m) (2 ^ prec32)); [lia|].
  cbn [finish]. destruct (Z.leb_spec e (emax32 - prec32)); [reflexivity|lia].
Qed.

Lemma forall_range (P : Z -> bool) (n : nat) :
  forallb P (map Z.of_nat (seq 0 n)) = true ->
  forall z, 0 <= z < Z.of_nat n -> P z = true.
Proof.
  intros H z Hz. rewrite forallb_forall in H. apply H.
  apply in_map_iff. exists (Z.to_nat z). split; [lia|]. apply in_seq. lia.
Qed.

Lemma le_not_lt (x y : spec_float) : SFleb y x = true -> SFltb x y = false.
Proof.
  unfold SFleb, SFltb. rewrite (SFcompare_antisym y x).
  destruct (SFcompare y x) as [[| |]|]; cbn; congruence.
Qed.

Lemma le1_in01 (x : f32) :
  valid32 x = true -> fle_pow2 0 x -> sign_is false x -> in01 x = true.
Proof.
  intros Hv Hle Hs. destruct x as [s|s| |s m e]; cbn [fle_pow2 sign_is] in *; try contradiction; subst s.
  - reflexivity.
  - unfold in01, between, fle. apply andb_true_iff. split; [reflexivity|].
    apply (SFleb_pow2 prec32 emax32 prec32_pos 0); try assumption; try reflexivity.
    + fmt_lia.
    + cbn. right. lia.
Qed.

(** *** Humidity, on its documented domain *)

Lemma humidity_quotient_le1 (m : positive) (e : Z) :
  valid32 (S754_finite false m e) = true ->
  fle (S754_finite false m e) h100 = true ->
  in01 (f64_to_f32 (f64_div (f32_to_f64 (S754_finite false m e)) d100)) = true.
Proof.
  intros Hv Hle.
  destruct (f32_to_f64_finite false m e Hv) as (m' & Hr & Hm' & Hj & Hd).
  set (j := prec64 - Zpos (digits2_pos m)) in *. rewrite Hr.
  pose proof Hv as Hv'. apply (valid_facts prec32 emax32) in Hv' as ([He1 He2] & Hhi & Hlo).
  unfold fle, SFleb in Hle. change h100 with (S754_finite false 13107200 (-17)) in Hle.
  rewrite (SFcompare_pos prec32 emax32 prec32_pos) in Hle by (assumption || reflexivity).
  cbn [Zmag] in Hle. unfold SpecFloat.emin, prec32, emax32 in *.
  assert (Hmag : Zpos m * 2 ^ (e + 149) <= 100 * 2 ^ 149).
  { replace (e - (3 - 128 - 24)) with (e + 149) in Hle by lia.
    change (13107200 * 2 ^ (-17 - (3 - 128 - 24))) with (100 * 2 ^ 149) in Hle.
    destruct (Z.compare_spec (Zpos m * 2 ^ (e + 149)) (100 * 2 ^ 149)); try lia; discriminate. }
  clear Hle.
  assert (He0 : e <= 0).
  { destruct (Z_le_gt_dec e 0) as [|Hgt]; [assumption|exfalso].
    specialize (Hlo ltac:(lia)). change (2 ^ (24 - 1)) with 8388608 in Hlo.
    assert (2 ^ 149 * 2 <= 2 ^ (e + 149)).
    { change (2 ^ 149 * 2) with (2 ^ 150). apply pow2_le. lia. }
    pose proof (Z.pow_pos_nonneg 2 149 ltac:(lia) ltac:(lia)). nia. }
  assert (Hm100 : Zpos m <= 100 * 2 ^ (- e)).
  { pose proof (Z.pow_pos_nonneg 2 (e + 149) ltac:(lia) ltac:(lia)) as Hp.
    assert (Hs : 2 ^ 149 = 2 ^ (e + 149) * 2 ^ (- e)).
    { rewrite <- pow2_add by lia. f_equal. lia. }
    rewrite Hs in Hmag. nia. }
  assert (Hjhi : j <= 52) by (unfold j, prec64; lia).
  change d100 with (S754_finite false 7036874417766400 (-46)).
  pose proof (SFdiv_le_pow2 prec64 emax64 prec64_pos prec64_lt_emax false false m'
                7036874417766400 (e - j) (-46) 0) as HB.
  cbv zeta in HB. rewrite Hd in HB. unfold prec64, emax64, SpecFloat.emin in HB.
  replace (2 * 53 - 53) with 53 in HB by lia.
  replace (e - j - -46 - 53) with (e - j - 7) in HB by lia.
  specialize (HB ltac:(lia) ltac:(reflexivity) ltac:(lia) ltac:(lia) ltac:(lia) ltac:(lia)).
  destruct HB as (HB1 & HB2 & HB3 & _).
  { replace (0 - (e - j - 7)) with ((- e) + (j + 7)) by lia.
    rewrite pow2_add by lia. rewrite Hm'.
    change 7036874417766400 with (100 * 2 ^ 46).
    replace (2 ^ (j + 7)) with (2 ^ j * 2 ^ 7) by (rewrite pow2_add by lia; reflexivity).
    pose proof (Z.pow_pos_nonneg 2 j ltac:(lia) ltac:(lia)).
    pose proof (Z.pow_pos_nonneg 2 (- e) ltac:(lia) ltac:(lia)).
    change (2 ^ 53) with (2 ^ 46 * 2 ^ 7). nia. }
  unfold f64_div, prec64, emax64.
  destruct (SFdiv 53 1024 (S754_finite false m' (e - j)) (S754_finite false 7036874417766400 (-46)))
    as [sB|sB| |sB mB eB]; cbn [fle_pow2 sign_is xorb] in HB1, HB3; try contradiction; subst sB.
  - reflexivity.
  - cbn [f64_to_f32]. destruct HB1 as [HeB HmB].
    destruct (round_le_pow2 prec32 emax32 prec32_pos prec32_lt_emax false mB eB 0)
      as (H1 & H2 & H3); try assumption; try fmt_lia.
    apply le1_in01; assumption.
Qed.

Lemma readDhtHumidity_domain (raw previousValue : f32) :
  valid32 raw = true -> valid32 previousValue = true -> in01 previousValue = true ->
  isnan raw = true \/ between f0 h100 raw = true ->
  in01 (readDhtHumidity raw previousValue) = true.
Proof.
  intros Hv Hvp Hp Hdom. unfold readDhtHumidity.
  destruct raw as [s|s| |s m e]; cbn [isnan].
  - destruct s; reflexivity.
  - destruct Hdom as [Hn|Hb]; [discriminate|]. destruct s; discriminate.
  - rewrite f32_f64_roundtrip by assumption. assumption.
  - destruct Hdom as [Hn|Hb]; [discriminate|].
    unfold between in Hb. apply andb_true_iff in Hb as [H0 H100].
    destruct s; [discriminate|]. apply humidity_quotient_le1; assumption.
Qed.

(** *** Rotary readings below and above the dead zone *)

Lemma rotary_small (raw : Z) : 0 <= raw < 32 -> rotary_gap_ok raw = true.
Proof. apply (forall_range rotary_gap_ok 32). vm_compute. reflexivity. Qed.

Lemma rotary_negative (p : positive) : readRotary (Zneg p) = f0.
Proof.
  unfold readRotary.
  assert (H : flt (f32_of_int (Zneg p)) f26 = true).
  { unfold f32_of_int. cbn [binary_normalize].
    destruct (round_valid prec32 emax32 prec32_pos true p 0) as (_ & Hs & _).
    destruct (binary_round prec32 emax32 true p 0) as [s|s| |s m e]; cbn [sign_is] in Hs;
      try contradiction; subst s; reflexivity. }
  rewrite H. reflexivity.
Qed.

Lemma rotary_large (p : positive) :
  32 <= Zpos p -> fle rotary_threshold (readRotary (Zpos p)) = true.
Proof.
  intros Hp. unfold readRotary, f32_of_int. cbn [binary_normalize].
  destruct (round_ge_pow2 prec32 emax32 prec32_pos prec32_lt_emax false p 0 5)
    as (HA1 & HA2 & HA3).
  { fmt_lia. }
  { right. exact Hp. }
  destruct (binary_round prec32 emax32 false p 0) as [sA|sA| |sA mA eA];
    cbn [fge_pow2 sign_is] in HA1, HA3; try contradiction; subst sA.
  - reflexivity.
  - assert (Hnlt : flt (S754_finite false mA eA) f26 = false).
    { apply le_not_lt. apply (SFleb_pow2 prec32 emax32 prec32_pos 5); try assumption; try reflexivity.
      - fmt_lia.
      - cbn. lia. }
    rewrite Hnlt.
    destruct (f32_to_f64_finite false mA eA HA2) as (m' & Hr & Hm' & Hj & Hd).
    set (j := prec64 - Zpos (digits2_pos mA)) in *. rewrite Hr.
    pose proof HA2 as Hv'. apply (valid_facts prec32 emax32) in Hv' as ([He1 He2] & Hhi & Hlo).
    unfold SpecFloat.emin, prec32, emax32 in He1, He2.
    assert (Hjhi : j <= 52) by (unfold j, prec64; lia).
    change d4096 with (S754_finite false 4503599627370496 (-40)).
    pose proof (SFdiv_ge_pow2 prec64 emax64 prec64_pos prec64_lt_emax false false m'
                  4503599627370496 (eA - j) (-40) (-7)) as HC.
    cbv zeta in HC. rewrite Hd in HC. unfold prec64, emax64, SpecFloat.emin in HC.
    replace (2 * 53 - 53) with 53 in HC by lia.
    replace (eA - j - -40 - 53) with (eA - j - 13) in HC by lia.
    specialize (HC ltac:(lia) ltac:(reflexivity) ltac:(lia) ltac:(lia)).
    destruct HC as (HC1 & HC2 & HC3).
    { right. replace (-7 - (eA - j - 13)) with (6 + j - eA) by lia.
      change 4503599627370496 with (2 ^ 52). change (2 ^ 53) with (2 * 2 ^ 52).
      rewrite Hm'. pose proof (Z.pow_pos_nonneg 2 j ltac:(lia) ltac:(lia)) as Hpj.
      assert (2 ^ (6 + j - eA) <= 2 * (Zpos mA * 2 ^ j)).
      { destruct HA1 as [Hlt|Hge].
        - assert (2 ^ (6 + j - eA) <= 2 ^ j) by (apply pow2_le; lia). nia.
        - destruct (Z_lt_le_dec (5 - eA) 0).
          + assert (2 ^ (6 + j - eA) <= 2 ^ j) by (apply pow2_le; lia). nia.
          + replace (6 + j - eA) with (1 + (j + (5 - eA))) by lia.
            rewrite !pow2_add by lia. change (2 ^ 1) with 2. nia. }
      nia. }
    unfold f64_div, prec64, emax64.
    destruct (SFdiv 53 1024 (S754_finite false m' (eA - j)) (S754_finite false 4503599627370496 (-40)))
      as [sC|sC| |sC mC eC]; cbn [fge_pow2 sign_is xorb] in HC1, HC3; try contradiction; subst sC.
    + reflexivity.
    + cbn [f64_to_f32].
      destruct (round_ge_pow2 prec32 emax32 prec32_pos prec32_lt_emax false mC eC (-7))
        as (HD1 & HD2 & HD3); try assumption.
      { fmt_lia. }
      apply (SFleb_pow2 prec32 emax32 prec32_pos (-7)); try assumption; try reflexivity.
      * fmt_lia.
      * cbn. lia.
Qed.

(** *** PWM and LED scaling *)

Lemma int_range_some (t : Z) :
  - 2147483648 <= t <= 2147483647 ->
  (if (INT_MIN <=? t) && (t <=? INT_MAX) then Some t else None) = Some t.
Proof.
  intros [H1 H2].
  assert (E1 : (INT_MIN <=? t) = true)
    by (apply Z.leb_le; unfold INT_MIN; change (2 ^ 31) with 2147483648; lia).
  assert (E2 : (t <=? INT_MAX) = true)
    by (apply Z.leb_le; unfold INT_MAX; change (2 ^ 31) with 2147483648; lia).
  rewrite E1, E2. reflexivity.
Qed.

Lemma scale255_not_nan_arg (value : f32) :
  value <> S754_nan -> f64_to_f32 (f64_mul (f32_to_f64 value) d255) <> S754_nan.
Proof.
  intros Hv. apply f64_to_f32_not_nan.
  change d255 with (S754_finite false 8972014882652160 (-45)).
  apply SFmul_finite_not_nan. apply f32_to_f64_not_nan. assumption.
Qed.

Lemma scale255_between (value : f32) :
  value <> S754_nan -> between f0 f255 (scale255 value) = true.
Proof.
  intros Hv. unfold scale255. apply between_clamp; try discriminate; [|reflexivity].
  apply scale255_not_nan_arg. assumption.
Qed.

Lemma f64_to_f32_valid (x : f64) : valid32 (f64_to_f32 x) = true.
Proof.
  destruct x as [s|s| |s m e]; try reflexivity. cbn [f64_to_f32].
  apply (round_valid prec32 emax32 prec32_pos).
Qed.

Lemma scale255_valid (value : f32) : valid32 (scale255 value) = true.
Proof.
  unfold scale255. destruct (flt _ f0); [reflexivity|].
  destruct (flt f255 _); [reflexivity|]. apply f64_to_f32_valid.
Qed.

Lemma to_int_0_255 (x : f32) :
  valid32 x = true -> between f0 f255 x = true ->
  exists c, to_int x = Some c /\ 0 <= c <= 255.
Proof.
  intros Hv Hb. unfold between in Hb. apply andb_true_iff in Hb as [H0 H255].
  destruct x as [s|s| |s m e].
  - exists 0. split; [reflexivity|lia].
  - destruct s; discriminate.
  - discriminate.
  - destruct s; [discriminate|].
    pose proof Hv as Hv'. apply (valid_facts prec32 emax32) in Hv' as ([He1 He2] & Hhi & Hlo).
    unfold fle, SFleb in H255. change f255 with (S754_finite false 16711680 (-16)) in H255.
    rewrite (SFcompare_pos prec32 emax32 prec32_pos) in H255 by (assumption || reflexivity).
    cbn [Zmag] in H255. unfold SpecFloat.emin, prec32, emax32 in *.
    assert (Hmag : Zpos m * 2 ^ (e + 149) <= 255 * 2 ^ 149).
    { replace (e - (3 - 128 - 24)) with (e + 149) in H255 by lia.
      change (16711680 * 2 ^ (-16 - (3 - 128 - 24))) with (255 * 2 ^ 149) in H255.
      destruct (Z.compare_spec (Zpos m * 2 ^ (e + 149)) (255 * 2 ^ 149)); try lia; discriminate. }
    clear H255. cbn [to_int cond_Zopp].
    pose proof (Z.pow_pos_nonneg 2 149 ltac:(lia) ltac:(lia)) as H149.
    destruct (Z.leb_spec 0 e) as [Hpos|Hneg].
    + assert (Ht : Zpos m * 2 ^ e <= 255).
      { replace (e + 149) with (e + 149) in Hmag by lia.
        rewrite pow2_add in Hmag by lia. nia. }
      pose proof (Z.pow_pos_nonneg 2 e ltac:(lia) Hpos).
      exists (Zpos m * 2 ^ e). split; [|lia].
      apply int_range_some. lia.
    + pose proof (Z.pow_pos_nonneg 2 (- e) ltac:(lia) ltac:(lia)) as Hq.
      assert (Hm : Zpos m <= 255 * 2 ^ (- e)).
      { pose proof (Z.pow_pos_nonneg 2 (e + 149) ltac:(lia) ltac:(lia)) as Hp.
        assert (Hs : 2 ^ 149 = 2 ^ (e + 149) * 2 ^ (- e)).
        { rewrite <- pow2_add by lia. f_equal. lia. }
        rewrite Hs in Hmag. nia. }
      assert (Ht : 0 <= Zpos m / 2 ^ (- e) <= 255).
      { split; [apply Z.div_pos; lia|]. apply Z.div_le_upper_bound; lia. }
      exists (Zpos m / 2 ^ (- e)). split; [|lia].
      apply int_range_some. lia.
Qed.

(** *** The invert step stays inside the canonical interval *)

Lemma in01_finite (m : positive) (e : Z) :
  valid32 (S754_finite false m e) = true -> in01 (S754_finite false m e) = true ->
  e <= 0 /\ Zpos m <= 2 ^ (- e).
Proof.
  intros Hv Hb. unfold in01, between in Hb. apply andb_true_iff in Hb as [_ H1].
  pose proof Hv as Hv'. apply (valid_facts prec32 emax32) in Hv' as ([He1 He2] & Hhi & Hlo).
  unfold fle, SFleb in H1. change f1 with (S754_finite false 8388608 (-23)) in H1.
  rewrite (SFcompare_pos prec32 emax32 prec32_pos) in H1 by (assumption || reflexivity).
  cbn [Zmag] in H1. unfold SpecFloat.emin, prec32, emax32 in *.
  assert (Hmag : Zpos m * 2 ^ (e + 149) <= 2 ^ 149).
  { replace (e - (3 - 128 - 24)) with (e + 149) in H1 by lia.
    change (8388608 * 2 ^ (-23 - (3 - 128 - 24))) with (2 ^ 149) in H1.
    destruct (Z.compare_spec (Zpos m * 2 ^ (e + 149)) (2 ^ 149)); try lia; discriminate. }
  assert (He0 : e <= 0).
  { destruct (Z_le_gt_dec e 0) as [|Hgt]; [assumption|exfalso].
    assert (2 ^ 149 < 2 ^ (e + 149)) by (apply pow2_lt; lia). nia. }
  split; [assumption|].
  pose proof (Z.pow_pos_nonneg 2 (e + 149) ltac:(lia) ltac:(lia)) as Hp.
  assert (Hs : 2 ^ 149 = 2 ^ (e + 149) * 2 ^ (- e)).
  { rewrite <- pow2_add by lia. f_equal. lia. }
  rewrite Hs in Hmag. nia.
Qed.

Lemma in01_cases (x : f32) :
  in01 x = true -> (exists s, x = S754_zero s) \/ exists m e, x = S754_finite false m e.
Proof.
  unfold in01, between. intros H. apply andb_true_iff in H as [H0 H1].
  destruct x as [s|s| |s m e].
  - left. eauto.
  - exfalso. destruct s; [discriminate H0|vm_compute in H1; discriminate H1].
  - discriminate H0.
  - destruct s; [discriminate H0|right; eauto].
Qed.

Lemma invert_in01 (c : f32) :
  valid32 c = true -> in01 c = true ->
  in01 (f32_sub f1 c) = true /\ valid32 (f32_sub f1 c) = true.
Proof.
  intros Hv Hc. destruct (in01_cases c Hc) as [[s ->]|(m & e & ->)].
  - destruct s; split; reflexivity.
  - destruct (in01_finite m e Hv Hc) as [He Hm].
    pose proof Hv as Hv'. apply (valid_facts prec32 emax32) in Hv' as ([He1 He2] & Hhi & Hlo).
    unfold SpecFloat.emin, prec32, emax32 in He1, He2, Hhi, Hlo.
    assert (He23 : e <= -23).
    { destruct (Z_le_gt_dec e (-23)) as [|Hgt]; [assumption|exfalso].
      specialize (Hlo ltac:(lia)). change (2 ^ (24 - 1)) with (2 ^ 23) in Hlo.
      assert (2 ^ (- e) < 2 ^ 23) by (apply pow2_lt; lia). lia. }
    unfold f32_sub. change f1 with (S754_finite false 8388608 (-23)). cbn [SFsub cond_Zopp].
    replace (Z.min (-23) e) with e by lia.
    assert (Hal1 : Zpos (fst (shl_align 8388608 (-23) e)) = 2 ^ (- e)).
    { unfold shl_align. destruct (e - -23) as [|p|p] eqn:E; cbn [fst]; try lia.
      - replace e with (-23) by lia. reflexivity.
      - rewrite iter_xO. change 8388608 with (2 ^ 23). rewrite <- pow2_add by lia. f_equal. lia. }
    assert (Hal2 : fst (shl_align m e e) = m).
    { unfold shl_align. rewrite Z.sub_diag. reflexivity. }
    rewrite Hal1, Hal2.
    destruct (2 ^ (- e) - Zpos m) as [|d|d] eqn:Ed; try lia.
    + split; reflexivity.
    + cbn [binary_normalize].
      destruct (round_le_pow2 prec32 emax32 prec32_pos prec32_lt_emax false d e 0)
        as (H1 & H2 & H3); try fmt_lia.
      { replace (0 - e) with (- e) by lia. lia. }
      split; [apply le1_in01|]; assumption.
Qed.

(** The invert step: [1 - c] is off the exact difference by less than
    [2 ^ -24]; in units of [2 ^ -149] that is [2 ^ 125]. *)
Lemma invert_error (c : f32) :
  valid32 c = true -> in01 c = true ->
  Z.abs (Zmag prec32 emax32 (f32_sub f1 c)
         - (Zmag prec32 emax32 f1 - Zmag prec32 emax32 c)) < 2 ^ 125.
Proof.
  intros Hv Hc. destruct (in01_cases c Hc) as [[s ->]|(m & e & ->)].
  - destruct s; vm_compute; reflexivity.
  - destruct (in01_finite m e Hv Hc) as [He Hm].
    pose proof Hv as Hv'. apply (valid_facts prec32 emax32) in Hv' as ([He1 He2] & Hhi & Hlo).
    unfold SpecFloat.emin, prec32, emax32 in He1, He2, Hhi, Hlo.
    assert (He23 : e <= -23).
    { destruct (Z_le_gt_dec e (-23)) as [|Hgt]; [assumption|exfalso].
      specialize (Hlo ltac:(lia)). change (2 ^ (24 - 1)) with (2 ^ 23) in Hlo.
      assert (2 ^ (- e) < 2 ^ 23) by (apply pow2_lt; lia). lia. }
    unfold f32_sub. change f1 with (S754_finite false 8388608 (-23)). cbn [SFsub cond_Zopp].
    replace (Z.min (-23) e) with e by lia.
    assert (Hal1 : Zpos (fst (shl_align 8388608 (-23) e)) = 2 ^ (- e)).
    { unfold shl_align. destruct (e - -23) as [|p|p] eqn:E; cbn [fst]; try lia.
      - replace e with (-23) by lia. reflexivity.
      - rewrite iter_xO. change 8388608 with (2 ^ 23). rewrite <- pow2_add by lia. f_equal. lia. }
    assert (Hal2 : fst (shl_align m e e) = m).
    { unfold shl_align. rewrite Z.sub_diag. reflexivity. }
    rewrite Hal1, Hal2.
    assert (Hone : Zmag prec32 emax32 (S754_finite false 8388608 (-23)) = 2 ^ 149) by reflexivity.
    rewrite Hone. cbn [Zmag]. unfold SpecFloat.emin, prec32, emax32.
    replace (e - (3 - 128 - 24)) with (e + 149) by lia.
    pose proof (Z.pow_pos_nonneg 2 (e + 149) ltac:(lia) ltac:(lia)) as HP.
    assert (Hs : 2 ^ 149 = 2 ^ (- e) * 2 ^ (e + 149)).
    { rewrite <- pow2_add by lia. f_equal. lia. }
    destruct (2 ^ (- e) - Zpos m) as [|d|d] eqn:Ed; try lia.
    + cbn [binary_normalize Zmag]. rewrite Hs.
      replace (0 - (2 ^ (- e) * 2 ^ (e + 149) - Zpos m * 2 ^ (e + 149))) with 0 by nia.
      reflexivity.
    + cbn [binary_normalize].
      destruct (round_error prec32 emax32 prec32_pos false d e) as [Hinf|Herr].
      { fmt_lia. }
      { exfalso.
        destruct (round_le_pow2 prec32 emax32 prec32_pos prec32_lt_emax false d e 0)
          as (H1 & _); try fmt_lia.
        { replace (0 - e) with (- e) by lia. lia. }
        rewrite Hinf in H1. exact H1. }
      unfold SpecFloat.emin, prec32, emax32 in Herr.
      replace (e - (3 - 128 - 24)) with (e + 149) in Herr by lia.
      assert (Hd : Zpos (digits2_pos d) + e <= 0).
      { assert (Zpos d < 2 ^ (- e)) by lia.
        pose proof (Zdigits2_le (Zpos d) (- e) ltac:(lia) H). cbn [Zdigits2] in H0. lia. }
      assert (Hb : 2 ^ (SpecFloat.fexp 24 128 (Zpos (digits2_pos d) + e) - (3 - 128 - 24)) <= 2 ^ 125).
      { apply pow2_le. unfold SpecFloat.fexp, SpecFloat.emin. lia. }
      replace (2 ^ 149 - Zpos m * 2 ^ (e + 149)) with (Zpos d * 2 ^ (e + 149)) by (rewrite Hs; nia).
      unfold prec32, emax32. lia.
Qed.

(** *** The seven-segment scaling is defined on the canonical interval *)

Lemma pos_int_round_trip (p : positive) :
  Zpos p < 2 ^ 31 ->
  to_int (binary_round prec64 emax64 false p 0) = Some (Zpos p).
Proof.
  intros Hp. pose proof (digits2_pos_bounds p) as [Hlo Hhi].
  assert (Hd : Zpos (digits2_pos p) <= 31) by (apply (Zdigits2_le (Zpos p)); lia).
  destruct (round_exact prec64 emax64 prec64_pos false p 0) as (m' & Hr & Hm').
  { fmt_lia. }
  { fmt_lia. }
  rewrite Hr. 
  assert (Hf : SpecFloat.fexp prec64 emax64 (Zpos (digits2_pos p) + 0) = Zpos (digits2_pos p) - 53).
  { fmt_lia. }
  rewrite Hf in *. set (d := Zpos (digits2_pos p)) in *.
  cbn [to_int cond_Zopp]. destruct (Z.leb_spec 0 (d - 53)); [lia|].
  replace (0 - (d - 53)) with (53 - d) in Hm' by lia. replace (- (d - 53)) with (53 - d) by lia.
  rewrite Hm', Z.div_mul by (pose proof (Z.pow_pos_nonneg 2 (53 - d) ltac:(lia) ltac:(lia)); lia).
  apply int_range_some. change (2 ^ 31) with 2147483648 in Hp. lia.
Qed.

Lemma round_to_int (x : f64) :
  valid64 x = true -> fle_pow2 14 x -> sign_is false x ->
  exists n, to_int (f64_round x) = Some n /\ 0 <= n <= 2 ^ 14.
Proof.
  intros Hv Hle Hs. destruct x as [s|s| |s m e]; cbn [fle_pow2 sign_is] in *; try contradiction; subst s.
  - exists 0. split; [reflexivity|lia].
  - destruct Hle as [He Hm]. cbn [f64_round].
    destruct (Z.leb_spec 0 e) as [Hpos|Hneg].
    + cbn [to_int cond_Zopp]. destruct (Z.leb_spec 0 e); [|lia].
      pose proof (Z.pow_pos_nonneg 2 e ltac:(lia) Hpos) as Hpe.
      assert (Ht : Zpos m * 2 ^ e <= 2 ^ 14).
      { replace 14 with ((14 - e) + e) at 1 by lia. rewrite pow2_add by lia. nia. }
      exists (Zpos m * 2 ^ e). split; [|lia].
      change (2 ^ 14) with 16384 in Ht.
      apply int_range_some. lia.
    + set (n := - e). set (q := Zpos m / 2 ^ n). set (r := Zpos m mod 2 ^ n).
      pose proof (Z.pow_pos_nonneg 2 n ltac:(lia) ltac:(unfold n; lia)) as Hpn.
      pose proof (Z.div_mod (Zpos m) (2 ^ n) ltac:(lia)) as Hdm. fold q r in Hdm.
      pose proof (Z.mod_pos_bound (Zpos m) (2 ^ n) ltac:(lia)) as Hr. fold r in Hr.
      assert (Hq0 : 0 <= q) by (apply Z.div_pos; lia).
      assert (Hs : 2 ^ (14 - e) = 2 ^ 14 * 2 ^ n).
      { rewrite <- pow2_add by (unfold n; lia). f_equal; unfold n; lia. }
      rewrite Hs in Hm. change (2 ^ 14) with 16384 in *.
      set (q' := if 2 ^ n <=? 2 * r then q + 1 else q).
      assert (Hq' : 0 <= q' <= 16384).
      { unfold q'. destruct (Z.leb_spec (2 ^ n) (2 * r)); nia. }
      cbn [cond_Zopp]. destruct q' as [|p|p] eqn:Eq; try lia.
      * exists 0. split; [reflexivity|lia].
      * exists (Zpos p). split; [|lia]. cbn [binary_normalize].
        apply pos_int_round_trip. lia.
Qed.

Lemma scaled_defined (value : f32) :
  valid32 value = true -> in01 value = true ->
  exists n, scaled value = Some n /\ 0 <= n <= 2 ^ 14.
Proof.
  intros Hv Hc. destruct (in01_cases value Hc) as [[s ->]|(m & e & ->)].
  - exists 0. split; [destruct s; reflexivity|lia].
  - destruct (in01_finite m e Hv Hc) as [He Hm].
    destruct (f32_to_f64_finite false m e Hv) as (m' & Hr & Hm' & Hj & Hd).
    set (j := prec64 - Zpos (digits2_pos m)) in *.
    pose proof Hv as Hv'. apply (valid_facts prec32 emax32) in Hv' as ([He1 He2] & Hhi & Hlo).
    unfold SpecFloat.emin, prec32, emax32 in He1, He2.
    assert (Hjhi : j <= 52) by (unfold j, prec64; lia).
    pose proof (digits2_pos_bounds m') as [Hlo' Hhi']. rewrite Hd in Hlo', Hhi'.
    unfold scaled. rewrite Hr.
    change d100000 with (S754_finite false 6871947673600000 (-36)).
    destruct (SFmul_le_pow2 prec64 emax64 prec64_pos prec64_lt_emax false false m'
                6871947673600000 (e - j) (-36) 0 17) as (HB1 & HB2 & HB3 & HB4).
    { exact Hlo'. }
    { cbn [fle_pow2]. split; [lia|]. rewrite Hm'. replace (0 - (e - j)) with ((- e) + j) by lia.
      rewrite pow2_add by lia. pose proof (Z.pow_pos_nonneg 2 j ltac:(lia) ltac:(lia)). nia. }
    { cbn. lia. }
    { fmt_lia. }
    { fmt_lia. }
    unfold f64_mul.
    destruct (SFmul prec64 emax64 (S754_finite false m' (e - j)) (S754_finite false 6871947673600000 (-36)))
      as [sB|sB| |sB mB eB]; cbn [fle_pow2 sign_is xorb exp_ge] in HB1, HB3, HB4; try contradiction; subst sB.
    + exists 0. split; [reflexivity|lia].
    + destruct HB1 as [HeB HmB]. change (0 + 17) with 17 in HeB, HmB.
      pose proof HB2 as HvB. apply (valid_facts prec64 emax64) in HvB as ([HeB1 HeB2] & HhiB & HloB).
      pose proof (digits2_pos_bounds mB) as [HdloB HdhiB].
      assert (HdB : Zpos (digits2_pos mB) <= 53) by (apply (Zdigits2_le (Zpos mB)); [lia|exact HhiB]).
      assert (HdB2 : Zpos (digits2_pos mB) + eB <= 18).
      { assert (Zpos mB < 2 ^ (18 - eB)).
        { replace (18 - eB) with ((17 - eB) + 1) by lia. rewrite pow2_add by lia.
          change (2 ^ 1) with 2. pose proof (Z.pow_pos_nonneg 2 (17 - eB) ltac:(lia) ltac:(lia)). lia. }
        pose proof (Zdigits2_le (Zpos mB) (18 - eB) ltac:(lia) H). cbn [Zdigits2] in H0. lia. }
      change d10 with (S754_finite false 5629499534213120 (-49)).
      pose proof (SFdiv_le_pow2 prec64 emax64 prec64_pos prec64_lt_emax false false mB
                    5629499534213120 eB (-49) 14) as HC.
      cbv zeta in HC. set (dB := Zpos (digits2_pos mB)) in *.
      unfold prec64, emax64, SpecFloat.emin in HC.
      specialize (HC ltac:(lia) ltac:(reflexivity) ltac:(lia) ltac:(lia) ltac:(lia) ltac:(lia)).
      destruct HC as (HC1 & HC2 & HC3 & _).
      { replace (14 - (eB - -49 - (2 * 53 - dB))) with ((17 - eB) + (106 - dB - 52)) by lia.
        rewrite pow2_add by lia. replace (2 * 53 - dB) with ((106 - dB - 52) + 52) by lia.
        rewrite (pow2_add (106 - dB - 52) 52) by lia.
        pose proof (Z.pow_pos_nonneg 2 (106 - dB - 52) ltac:(lia) ltac:(lia)).
        pose proof (Z.pow_pos_nonneg 2 (17 - eB) ltac:(lia) ltac:(lia)).
        change (2 ^ 52) with 4503599627370496. nia. }
      unfold f64_div. apply round_to_int; assumption.
Qed.

(** * The properties of the sketch *)

(** ** Calibration *)

(** The model at the points the sketch documents: [round] goes away from
    zero at a half, the light sensor maps 1023 to 0.0 and 0 to 1.0, the
    rotary sensor maps 25 to 0.0 and 26 to 26/4096. *)
Example round_half_away_from_zero :
  to_int (f64_round (f64_div (f64_of_int 12345) d10)) = Some 1235
  /\ to_int (f64_round (f64_div (f64_of_int (-12345)) d10)) = Some (-1235)
  /\ to_int (f64_round (f64_div (f64_of_int 12344) d10)) = Some 1234
  /\ to_int (f64_div (f64_of_int (-12349)) d10) = Some (-1234).
Proof. repeat split; vm_compute; reflexivity. Qed.

Example readLight_ends : readLight 1023 = f0 /\ readLight 0 = f1.
Proof. split; vm_compute; reflexivity. Qed.

Example readRotary_dead_zone : readRotary 25 = f0 /\ readRotary 26 = rotary_threshold.
Proof. split; vm_compute; reflexivity. Qed.

Lemma isnan_false (x : spec_float) : isnan x = false -> x <> S754_nan.
Proof. intros H ->. discriminate H. Qed.

Lemma readButton_in01 (level : Z) : in01 (readButton level) = true.
Proof. unfold readButton. destruct (level =? HIGH); reflexivity. Qed.

Lemma readLight_in01 (raw : Z) : in01 (readLight raw) = true.
Proof.
  unfold readLight. apply clamp01_in01. apply f64_to_f32_not_nan.
  change d1 with (S754_finite false 4503599627370496 (-52)).
  apply SFsub_finite_l_not_nan; [reflexivity|].
  change d1023 with (S754_finite false 8998403161718784 (-43)).
  apply SFdiv_finite_not_nan. apply f32_to_f64_not_nan. apply f32_of_int_not_nan.
Qed.

Lemma readUltrasonic_of_in01 (cm : f32) :
  isnan cm = false -> in01 (readUltrasonic_of cm) = true.
Proof.
  intros Hn. unfold readUltrasonic_of. apply between_clamp'; try discriminate; [|reflexivity].
  apply f64_to_f32_not_nan. change d100 with (S754_finite false 7036874417766400 (-46)).
  apply SFdiv_finite_not_nan. apply f32_to_f64_not_nan. apply isnan_false. assumption.
Qed.

Lemma readUltrasonic_in01 (cm : Z) : in01 (readUltrasonic cm) = true.
Proof.
  unfold readUltrasonic. apply readUltrasonic_of_in01.
  pose proof (f32_of_int_not_nan cm) as H. destruct (f32_of_int cm); try reflexivity.
  exfalso. apply H. reflexivity.
Qed.

Lemma readDhtTemperature_in01 (raw previousValue : f32) :
  in01 previousValue = true -> in01 (readDhtTemperature raw previousValue) = true.
Proof.
  intros Hp. unfold readDhtTemperature. destruct (isnan raw) eqn:En; [assumption|].
  apply clamp01_in01. unfold f32_div.
  change (f32_of_int TEMP_RANGE) with (S754_finite false 10485760 (-19)).
  apply SFdiv_finite_not_nan. unfold f32_sub.
  change (f32_of_int TEMP_MIN) with (S754_finite false 10485760 (-20)).
  apply SFsub_finite_r_not_nan; [reflexivity|]. apply isnan_false. assumption.
Qed.

Lemma readRotary_domain (raw : Z) : 0 <= raw <= 4096 -> in01 (readRotary raw) = true.
Proof.
  intros H. apply (forall_range (fun raw => in01 (readRotary raw)) 4097); [|lia].
  vm_compute. reflexivity.
Qed.

(** C5, as stated, fails: neither [readDhtHumidity] nor [readRotary]
    clamps.  A probe answer of 200 (percent) gives 2.0, and a raw rotary
    reading of 8192 gives 2.0. *)
Lemma humidity_and_rotary_do_not_clamp :
  in01 f0 = true
  /\ readDhtHumidity (f32_of_int 200) f0 = f32_of_int 2
  /\ in01 (readDhtHumidity (f32_of_int 200) f0) = false
  /\ readRotary 8192 = f32_of_int 2
  /\ in01 (readRotary 8192) = false.
Proof. repeat split; vm_compute; reflexivity. Qed.

(** C5 (amended): the calibration functions that clamp -- [readButton],
    [readLight], [readUltrasonic] and [readDhtTemperature] -- return a
    value in [0,1], hence never NaN, for every raw reading whatsoever
    (given a previous value in [0,1] for [readDhtTemperature]). *)
Theorem clamping_calibrations_in01
        (level light cm : Z) (temperature previousValue : f32) :
  in01 previousValue = true ->
  in01 (readButton level) = true
  /\ in01 (readLight light) = true
  /\ in01 (readUltrasonic cm) = true
  /\ in01 (readDhtTemperature temperature previousValue) = true
  /\ isnan (readDhtTemperature temperature previousValue) = false.
Proof.
  intros Hp. split; [apply readButton_in01|]. split; [apply readLight_in01|].
  split; [apply readUltrasonic_in01|].
  pose proof (readDhtTemperature_in01 temperature previousValue Hp) as H.
  split; [assumption|]. destruct (readDhtTemperature temperature previousValue); try reflexivity.
  discriminate H.
Qed.

Lemma clamping_calibrations_in01_witness :
  in01 (readButton 7) = true
  /\ in01 (readLight (-5000)) = true
  /\ in01 (readUltrasonic 100000) = true
  /\ in01 (readDhtTemperature (S754_infinity true) f1) = true
  /\ isnan (readDhtTemperature (S754_infinity true) f1) = false.
Proof.
  apply (clamping_calibrations_in01 7 (-5000) 100000 (S754_infinity true) f1). reflexivity.
Defined.

(** C6: when the probe answers NaN, both stateful calibration functions
    return their [previousValue] argument itself. *)
Theorem dht_fallback_returns_previous (raw previousValue : f32) :
  valid32 previousValue = true -> isnan raw = true ->
  readDhtHumidity raw previousValue = previousValue
  /\ readDhtTemperature raw previousValue = previousValue.
Proof.
  intros Hv Hn. destruct raw; try discriminate Hn. split.
  - unfold readDhtHumidity. cbn [isnan]. apply f32_f64_roundtrip. assumption.
  - reflexivity.
Qed.

Lemma dht_fallback_returns_previous_witness :
  readDhtHumidity S754_nan f_0_12345 = f_0_12345
  /\ readDhtTemperature S754_nan f_0_12345 = f_0_12345.
Proof. apply (dht_fallback_returns_previous S754_nan f_0_12345); reflexivity. Defined.

(** C7: on its documented raw domain every calibration function
    returns a value in [0,1], the ends of the domain included. *)
Theorem calibration_in01_on_domain
        (level light rotary cm : Z) (cmf humidity temperature previousValue : f32) :
  0 <= light <= 1023 ->
  0 <= rotary <= 4096 ->
  isnan cmf = false ->
  valid32 humidity = true ->
  isnan humidity = true \/ between f0 h100 humidity = true ->
  valid32 previousValue = true ->
  in01 previousValue = true ->
  in01 (readButton level) = true
  /\ in01 (readLight light) = true
  /\ in01 (readRotary rotary) = true
  /\ in01 (readUltrasonic cm) = true
  /\ in01 (readUltrasonic_of cmf) = true
  /\ in01 (readDhtHumidity humidity previousValue) = true
  /\ in01 (readDhtTemperature temperature previousValue) = true.
Proof.
  intros Hl Hr Hc Hvh Hh Hvp Hp.
  split; [apply readButton_in01|]. split; [apply readLight_in01|].
  split; [apply readRotary_domain; assumption|].
  split; [apply readUltrasonic_in01|]. split; [apply readUltrasonic_of_in01; assumption|].
  split; [apply readDhtHumidity_domain; assumption|].
  apply readDhtTemperature_in01; assumption.
Qed.

Lemma calibration_in01_on_domain_witness :
  in01 (readButton 1) = true
  /\ in01 (readLight 1023) = true
  /\ in01 (readRotary 4096) = true
  /\ in01 (readUltrasonic 250) = true
  /\ in01 (readUltrasonic_of (S754_infinity false)) = true
  /\ in01 (readDhtHumidity h100 f1) = true
  /\ in01 (readDhtTemperature (f32_of_int 30) f1) = true.
Proof.
  apply (calibration_in01_on_domain 1 1023 4096 250 (S754_infinity false) h100
           (f32_of_int 30) f1); try reflexivity; try lia.
  right. reflexivity.
Defined.

(** ** The rotary dead zone *)

(** C10: [readRotary] answers either exactly 0 or at least 26/4096,
    whatever the raw reading; nothing strictly in between is ever
    returned. *)
Theorem rotary_dead_zone_gap (raw : Z) :
  rotary_threshold = readRotary 26
  /\ (readRotary raw = f0 \/ fle rotary_threshold (readRotary raw) = true)
  /\ ~ (flt f0 (readRotary raw) = true /\ flt (readRotary raw) rotary_threshold = true).
Proof.
  split; [vm_compute; reflexivity|].
  assert (H : readRotary raw = f0 \/ fle rotary_threshold (readRotary raw) = true).
  { destruct (Z_lt_le_dec raw 0) as [Hneg|Hpos].
    - destruct raw as [|p|p]; try lia. left. apply rotary_negative.
    - destruct (Z_lt_le_dec raw 32) as [Hs|Hl].
      + pose proof (rotary_small raw ltac:(lia)) as Hok. unfold rotary_gap_ok in Hok.
        destruct (readRotary raw) as [[|]| | |]; try (right; exact Hok). left. reflexivity.
      + destruct raw as [|p|p]; try lia. right. apply rotary_large. assumption. }
  split; [assumption|]. intros [H0 Ht]. destruct H as [E|Hle].
  - rewrite E in H0. discriminate H0.
  - unfold flt in Ht. rewrite (le_not_lt _ _ Hle) in Ht. discriminate Ht.
Qed.

(** ** Seven-segment digits *)

Lemma rem_quot_digit (c k : Z) : 0 <= c -> 0 < k -> 0 <= Z.rem (Z.quot c k) 10 <= 9.
Proof.
  intros Hc Hk. assert (0 <= Z.quot c k) by (apply Z.quot_pos; lia).
  pose proof (Z.rem_bound_pos (Z.quot c k) 10 H ltac:(lia)). lia.
Qed.

Lemma clamp9999_range (n : Z) : 0 <= clamp9999 n <= 9999.
Proof.
  unfold clamp9999. destruct (Z.ltb_spec 9999 n); [lia|].
  destruct (Z.ltb_spec n 0); lia.
Qed.

Lemma clamp9999_spec (n : Z) : clamp9999 n = Z.max 0 (Z.min 9999 n).
Proof.
  unfold clamp9999. destruct (Z.ltb_spec 9999 n); [lia|].
  destruct (Z.ltb_spec n 0); lia.
Qed.

Lemma digits_recompose (c : Z) :
  0 <= c <= 9999 ->
  c = Z.rem (Z.quot c 1000) 10 * 1000 + Z.rem (Z.quot c 100) 10 * 100
      + Z.rem (Z.quot c 10) 10 * 10 + Z.rem c 10.
Proof.
  intros Hc. rewrite !Z.quot_div_nonneg by lia.
  rewrite !Z.rem_mod_nonneg by (try apply Z.div_pos; lia).
  pose proof (Z.div_mod c 10 ltac:(lia)). pose proof (Z.div_mod (c / 10) 10 ltac:(lia)).
  pose proof (Z.div_mod (c / 10 / 10) 10 ltac:(lia)).
  pose proof (Z.mod_pos_bound c 10 ltac:(lia)).
  pose proof (Z.mod_pos_bound (c / 10) 10 ltac:(lia)).
  pose proof (Z.mod_pos_bound (c / 10 / 10) 10 ltac:(lia)).
  replace (c / 100) with (c / 10 / 10) by (rewrite Z.div_div by lia; reflexivity).
  replace (c / 1000) with (c / 10 / 10 / 10) by (rewrite !Z.div_div by lia; reflexivity).
  assert (c / 10 / 10 / 10 < 10).
  { apply Z.div_lt_upper_bound; [lia|]. apply Z.div_lt_upper_bound; [lia|].
    apply Z.div_lt_upper_bound; lia. }
  assert (0 <= c / 10 / 10 / 10) by (repeat apply Z.div_pos; lia).
  rewrite (Z.mod_small (c / 10 / 10 / 10) 10) by lia. lia.
Qed.

(** C4, as stated, fails at its third example: the [float] nearest to
    0.12345 scales to 1234.50003..., which [round] takes to 1235. *)
Lemma write7Seg_0_12345_is_not_1234 :
  write7Seg f_0_12345
  <> Some [EvDisplay 0 1; EvDisplay 1 2; EvDisplay 2 3; EvDisplay 3 4].
Proof. vm_compute. discriminate. Qed.

(** ** Rendering *)

(** C9, as stated, fails: NaN slips through both comparisons of the
    clamp, so [writeBuzz] hands NaN to [analogWrite], and the two
    conversions to [int] are undefined. *)
Lemma nan_is_not_clamped :
  writeBuzz S754_nan = Some [EvAnalogWrite ACTUATOR_BUZZ_PIN S754_nan]
  /\ between f0 f255 S754_nan = false
  /\ writeLed S754_nan = None
  /\ write7Seg S754_nan = None.
Proof. repeat split. Qed.

(** C9 (amended): for every input other than NaN, [writeBuzz] passes a
    duty in [0,255] and [writeLed] writes equal R, G, B in [0,255];
    [write7Seg] shows only digits 0..9 at positions 0..3 whenever the
    conversion of the scaled value to [int] is defined -- it clamps after
    that conversion -- and it is defined for every value in [0,1]. *)
Theorem rendering_ranges (value : f32) :
  isnan value = false ->
  (exists duty, writeBuzz value = Some [EvAnalogWrite ACTUATOR_BUZZ_PIN duty]
                /\ between f0 f255 duty = true)
  /\ (exists c, writeLed value = Some [EvSetColorRGB 0 c c c] /\ 0 <= c <= 255)
  /\ match write7Seg value with
     | Some evs =>
         exists a b c d, evs = [EvDisplay 0 a; EvDisplay 1 b; EvDisplay 2 c; EvDisplay 3 d]
                         /\ 0 <= a <= 9 /\ 0 <= b <= 9 /\ 0 <= c <= 9 /\ 0 <= d <= 9
     | None => scaled value = None
     end
  /\ (valid32 value = true /\ in01 value = true -> write7Seg value <> None).
Proof.
  intros Hn. apply isnan_false in Hn. split; [|split; [|split]].
  - exists (scale255 value). split; [reflexivity|]. apply scale255_between. assumption.
  - destruct (to_int_0_255 (scale255 value) (scale255_valid value) (scale255_between value Hn))
      as (c & Hc & Hr).
    exists c. unfold writeLed. rewrite Hc. split; [reflexivity|assumption].
  - unfold write7Seg. destruct (scaled value) as [n|]; [|reflexivity].
    pose proof (clamp9999_range n) as Hc. unfold digits7.
    eexists _, _, _, _. split; [reflexivity|].
    repeat split; try (apply rem_quot_digit; lia);
      try (pose proof (Z.rem_bound_pos (clamp9999 n) 10 ltac:(lia) ltac:(lia)); lia).
  - intros [Hv Hc]. destruct (scaled_defined value Hv Hc) as (n & Hs & _).
    unfold write7Seg. rewrite Hs. discriminate.
Qed.

Lemma rendering_ranges_witness :
  (exists duty, writeBuzz (S754_infinity false) = Some [EvAnalogWrite ACTUATOR_BUZZ_PIN duty]
                /\ between f0 f255 duty = true)
  /\ (exists c, writeLed (S754_infinity false) = Some [EvSetColorRGB 0 c c c] /\ 0 <= c <= 255)
  /\ match write7Seg (S754_infinity false) with
     | Some evs =>
         exists a b c d, evs = [EvDisplay 0 a; EvDisplay 1 b; EvDisplay 2 c; EvDisplay 3 d]
                         /\ 0 <= a <= 9 /\ 0 <= b <= 9 /\ 0 <= c <= 9 /\ 0 <= d <= 9
     | None => scaled (S754_infinity false) = None
     end
  /\ (valid32 (S754_infinity false) = true /\ in01 (S754_infinity false) = true ->
      write7Seg (S754_infinity false) <> None).
Proof. apply (rendering_ranges (S754_infinity false)). reflexivity. Defined.

(** ** The router cycle *)

Lemma read_sensor_no_publish (cfg : Config) (hw : Readings) (prev : f32) (x : f32) :
  ~ In (EvPublish x) (snd (read_sensor cfg hw prev)).
Proof.
  unfold read_sensor.
  repeat match goal with
         | |- context [if ?b then _ else _] => destruct b
         end; cbn; intros H; repeat (destruct H as [H|H]; [discriminate H|]); exact H.
Qed.

Lemma write_actuator_no_publish (cfg : Config) (v : f32) (wr : list event) (x : f32) :
  write_actuator cfg v = Some wr -> ~ In (EvPublish x) wr.
Proof.
  unfold write_actuator, write7Seg, writeBuzz, writeLed, digits7.
  repeat match goal with
         | |- context [if ?b then _ else _] => destruct b
         | |- context [match ?o with Some _ => _ | None => _ end] => destruct o
         end; intros E; try discriminate E; injection E as <-; cbn;
    intros H; repeat (destruct H as [H|H]; [discriminate H|]); exact H.
Qed.

Lemma loop_steps (cfg : Config) (hw : Readings) (st st' : State) (evs : list event) :
  loop cfg hw st = Some (st', evs) ->
  exists wr,
    write_actuator cfg (invert cfg (fst (read_sensor cfg hw (SensorValue st)))) = Some wr
    /\ evs = snd (read_sensor cfg hw (SensorValue st)) ++ wr ++ [EvDelay INTERVAL]
    /\ SensorValue st' = invert cfg (fst (read_sensor cfg hw (SensorValue st)))
    /\ PublishWaitCount st' = PublishWaitCount st
    /\ (forall x, ~ In (EvPublish x) evs).
Proof.
  unfold loop. intros H.
  pose proof (read_sensor_no_publish cfg hw (SensorValue st)) as Hrd.
  destruct (read_sensor cfg hw (SensorValue st)) as [c rd]. cbn [fst snd] in *.
  destruct (write_actuator cfg (invert cfg c)) as [wr|] eqn:Ew; [|discriminate H].
  injection H as <- <-. exists wr. repeat split; try assumption.
  intros x Hin. apply in_app_or in Hin as [Hin|Hin]; [exact (Hrd x Hin)|].
  apply in_app_or in Hin as [Hin|Hin].
  - exact (write_actuator_no_publish cfg _ wr x Ew Hin).
  - destruct Hin as [Hin|[]]. discriminate Hin.
Qed.

(** With the buzzer selected nothing in the cycle can be undefined. *)
Lemma loop_buzz_total (cfg : Config) (hw : Readings) (st : State) :
  ACTUATOR cfg = ACTUATOR_BUZZ -> loop cfg hw st <> None.
Proof.
  intros Ha. unfold loop. destruct (read_sensor cfg hw (SensorValue st)) as [c rd].
  unfold write_actuator. rewrite Ha. cbn. discriminate.
Qed.

Lemma clamp01_valid (v : f32) : valid32 v = true -> valid32 (clamp01 v) = true.
Proof.
  intros Hv. unfold clamp01. destruct (flt v f0); [reflexivity|].
  destruct (flt f1 v); [reflexivity|assumption].
Qed.

Lemma readUltrasonic_valid (cm : Z) : valid32 (readUltrasonic cm) = true.
Proof.
  unfold readUltrasonic, readUltrasonic_of. destruct (flt f1 _); [reflexivity|].
  destruct (flt _ f0); [reflexivity|]. apply f64_to_f32_valid.
Qed.

Lemma readDhtTemperature_valid (raw previousValue : f32) :
  valid32 previousValue = true -> valid32 (readDhtTemperature raw previousValue) = true.
Proof.
  intros Hp. unfold readDhtTemperature. destruct (isnan raw); [assumption|].
  apply clamp01_valid. apply (SFdiv_valid prec32 emax32 prec32_pos).
Qed.

Lemma read_sensor_canonical (cfg : Config) (hw : Readings) (prev : f32) :
  readings_ok cfg hw -> canonical prev -> canonical (fst (read_sensor cfg hw prev)).
Proof.
  intros [Hrot Hhum] [Hv Hc]. unfold read_sensor.
  destruct (Z.eqb_spec (SENSOR cfg) SENSOR_BUTTON) as [_|_].
  { cbn [fst]. unfold readButton. destruct (digital_level hw =? HIGH); split; reflexivity. }
  destruct (Z.eqb_spec (SENSOR cfg) SENSOR_DHT_HUMIDITY) as [Es|_].
  { cbn [fst]. destruct (Hhum Es) as [Hvh Hd]. split.
    - apply f64_to_f32_valid.
    - apply readDhtHumidity_domain; assumption. }
  destruct (Z.eqb_spec (SENSOR cfg) SENSOR_DHT_TEMPERATURE) as [_|_].
  { cbn [fst]. split; [apply readDhtTemperature_valid|apply readDhtTemperature_in01]; assumption. }
  destruct (Z.eqb_spec (SENSOR cfg) SENSOR_LIGHT) as [_|_].
  { cbn [fst]. split; [|apply readLight_in01].
    unfold readLight. apply clamp01_valid. apply f64_to_f32_valid. }
  destruct (Z.eqb_spec (SENSOR cfg) SENSOR_ROTARY) as [Es|_].
  { cbn [fst]. split; [apply f64_to_f32_valid|apply readRotary_domain; auto]. }
  destruct (Z.eqb_spec (SENSOR cfg) SENSOR_ULTRASONIC) as [_|_].
  { cbn [fst]. split; [apply readUltrasonic_valid|apply readUltrasonic_in01]. }
  cbn [fst]. split; assumption.
Qed.

Lemma invert_canonical (cfg : Config) (c : f32) : canonical c -> canonical (invert cfg c).
Proof.
  intros [Hv Hc]. unfold invert. destruct (REVERSE cfg); [|split; assumption].
  destruct (invert_in01 c Hv Hc). split; assumption.
Qed.

Lemma write_actuator_defined (cfg : Config) (v : f32) :
  canonical v -> write_actuator cfg v <> None.
Proof.
  intros [Hv Hc]. unfold write_actuator.
  destruct (ACTUATOR cfg =? ACTUATOR_7SEG).
  { destruct (scaled_defined v Hv Hc) as (n & Hs & _). unfold write7Seg. rewrite Hs. discriminate. }
  destruct (ACTUATOR cfg =? ACTUATOR_BUZZ); [discriminate|].
  destruct (ACTUATOR cfg =? ACTUATOR_LED); [|discriminate].
  destruct (to_int_0_255 (scale255 v) (scale255_valid v)
              (scale255_between v (in01_not_nan v Hc))) as (c & Hi & _).
  unfold writeLed. rewrite Hi. discriminate.
Qed.

(** Inside the documented domains a cycle always completes, and it
    re-establishes the invariant. *)
Lemma loop_total (cfg : Config) (hw : Readings) (st : State) :
  readings_ok cfg hw -> canonical (SensorValue st) ->
  exists st' evs, loop cfg hw st = Some (st', evs) /\ canonical (SensorValue st').
Proof.
  intros Hok Hst.
  pose proof (invert_canonical cfg _ (read_sensor_canonical cfg hw _ Hok Hst)) as Hc.
  pose proof (write_actuator_defined cfg _ Hc) as Hw.
  unfold loop. destruct (read_sensor cfg hw (SensorValue st)) as [c rd]. cbn [fst] in *.
  destruct (write_actuator cfg (invert cfg c)) as [wr|]; [|congruence].
  eexists _, _. split; [reflexivity|exact Hc].
Qed.

(** X13: inside the documented raw domains any number of cycles
    completes; the stored value stays a well-formed [float] in [0,1], the
    throttle counter keeps its initial value, and nothing is ever
    published. *)
Lemma run_total (cfg : Config) (hws : list Readings) :
  Forall (readings_ok cfg) hws ->
  forall st, canonical (SensorValue st) ->
  exists st' evs, run cfg hws st = Some (st', evs)
                  /\ canonical (SensorValue st')
                  /\ PublishWaitCount st' = PublishWaitCount st
                  /\ (forall x, ~ In (EvPublish x) evs).
Proof.
  induction 1 as [|hw rest Hok _ IH]; intros st Hst.
  - exists st, []. repeat split; try apply Hst. intros x [].
  - destruct (loop_total cfg hw st Hok Hst) as (st1 & evs1 & H1 & Hc1).
    destruct (loop_steps cfg hw st st1 evs1 H1) as (_ & _ & _ & _ & Hp1 & Hn1).
    destruct (IH st1 Hc1) as (st2 & evs2 & H2 & Hc2 & Hp2 & Hn2).
    exists st2, (evs1 ++ evs2). cbn [run]. rewrite H1, H2.
    split; [reflexivity|]. split; [assumption|]. split; [congruence|].
    intros x Hin. apply in_app_or in Hin as [Hin|Hin]; [exact (Hn1 x Hin)|exact (Hn2 x Hin)].
Qed.

(** C2, as stated, fails: one cycle of the shipped configuration emits
    no publish event and leaves the throttle counter where it was, while a
    call of [publishNumber] in the same state publishes and resets it. *)
Lemma cycle_does_not_publish :
  loop shipped quiet (init_state PUBLISH_WAIT)
  = Some ({| SensorValue := f0; PublishWaitCount := 100 |},
          [EvAnalogRead A2; EvAnalogWrite A0 f0; EvDelay 10])
  /\ publishNumber f0 (init_state PUBLISH_WAIT)
     = Some ({| SensorValue := f0; PublishWaitCount := 0 |}, [EvPublish f0]).
Proof. split; vm_compute; reflexivity. Qed.

(** C2 (amended): inside the documented raw domains every cycle
    completes and performs, in this order, one sensor read with its
    normalization, the optional invert, the render on the actuator and the
    fixed sleep; it stores the routed value, emits no publish event and
    does not touch the throttle counter. *)
Theorem loop_cycle_order (cfg : Config) (hw : Readings) (st : State) :
  readings_ok cfg hw -> canonical (SensorValue st) ->
  exists st' evs c rd wr,
    loop cfg hw st = Some (st', evs)
    /\ read_sensor cfg hw (SensorValue st) = (c, rd)
    /\ write_actuator cfg (invert cfg c) = Some wr
    /\ evs = rd ++ wr ++ [EvDelay INTERVAL]
    /\ SensorValue st' = invert cfg c
    /\ PublishWaitCount st' = PublishWaitCount st
    /\ (forall x, ~ In (EvPublish x) evs).
Proof.
  intros Hok Hst. destruct (loop_total cfg hw st Hok Hst) as (st' & evs & H & _).
  destruct (loop_steps cfg hw st st' evs H) as (wr & Hwr & Hev & Hsv & Hpc & Hnp).
  exists st', evs, (fst (read_sensor cfg hw (SensorValue st))),
    (snd (read_sensor cfg hw (SensorValue st))), wr.
  repeat split; try assumption. destruct (read_sensor cfg hw (SensorValue st)); reflexivity.
Qed.

Lemma loop_cycle_order_witness :
  exists st' evs c rd wr,
    loop shipped quiet (init_state PUBLISH_WAIT) = Some (st', evs)
    /\ read_sensor shipped quiet (SensorValue (init_state PUBLISH_WAIT)) = (c, rd)
    /\ write_actuator shipped (invert shipped c) = Some wr
    /\ evs = rd ++ wr ++ [EvDelay INTERVAL]
    /\ SensorValue st' = invert shipped c
    /\ PublishWaitCount st' = PublishWaitCount (init_state PUBLISH_WAIT)
    /\ (forall x, ~ In (EvPublish x) evs).
Proof.
  apply (loop_cycle_order shipped quiet (init_state PUBLISH_WAIT)).
  - split; [intros _; cbn; lia|intros H; discriminate H].
  - split; reflexivity.
Defined.

(** ** The invert step *)

(** C8: with the invert flag set, the value stored and handed to the
    actuator is [1 - canonical] (the [float] subtraction of the sketch),
    for every canonical value in [0,1] that calibration produces; the
    result stays in [0,1], is within one rounding (less than [2 ^ -24],
    counted here in units of [2 ^ -149]) of the exact difference, and
    0 goes to 1 and 1 to 0. *)
Theorem invert_law (cfg : Config) (hw : Readings) (st : State) :
  REVERSE cfg = true -> readings_ok cfg hw -> canonical (SensorValue st) ->
  let c := fst (read_sensor cfg hw (SensorValue st)) in
  in01 c = true
  /\ (exists st' evs wr,
        loop cfg hw st = Some (st', evs)
        /\ SensorValue st' = f32_sub f1 c
        /\ write_actuator cfg (f32_sub f1 c) = Some wr
        /\ evs = snd (read_sensor cfg hw (SensorValue st)) ++ wr ++ [EvDelay INTERVAL])
  /\ in01 (f32_sub f1 c) = true
  /\ Z.abs (Zmag prec32 emax32 (f32_sub f1 c)
            - (Zmag prec32 emax32 f1 - Zmag prec32 emax32 c)) < 2 ^ 125
  /\ (forall v, invert cfg v = f32_sub f1 v)
  /\ f32_sub f1 f0 = f1
  /\ f32_sub f1 f1 = f0.
Proof.
  intros Hr Hok Hst c.
  destruct (read_sensor_canonical cfg hw (SensorValue st) Hok Hst) as [Hv Hc]. fold c in Hv, Hc.
  split; [assumption|]. split.
  - destruct (loop_total cfg hw st Hok Hst) as (st' & evs & H & _).
    destruct (loop_steps cfg hw st st' evs H) as (wr & Hwr & Hev & Hsv & _).
    fold c in Hwr, Hsv. unfold invert in Hwr, Hsv. rewrite Hr in Hwr, Hsv.
    exists st', evs, wr. repeat split; assumption.
  - split; [apply invert_in01; assumption|]. split; [apply invert_error; assumption|].
    split; [|split; reflexivity].
    intros v. unfold invert. rewrite Hr. reflexivity.
Qed.

Lemma invert_law_witness :
  let c := fst (read_sensor rotary_reversed quiet (SensorValue (init_state PUBLISH_WAIT))) in
  in01 c = true
  /\ (exists st' evs wr,
        loop rotary_reversed quiet (init_state PUBLISH_WAIT) = Some (st', evs)
        /\ SensorValue st' = f32_sub f1 c
        /\ write_actuator rotary_reversed (f32_sub f1 c) = Some wr
        /\ evs = snd (read_sensor rotary_reversed quiet (SensorValue (init_state PUBLISH_WAIT)))
                 ++ wr ++ [EvDelay INTERVAL])
  /\ in01 (f32_sub f1 c) = true
  /\ Z.abs (Zmag prec32 emax32 (f32_sub f1 c)
            - (Zmag prec32 emax32 f1 - Zmag prec32 emax32 c)) < 2 ^ 125
  /\ (forall v, invert rotary_reversed v = f32_sub f1 v)
  /\ f32_sub f1 f0 = f1
  /\ f32_sub f1 f1 = f0.
Proof.
  apply (invert_law rotary_reversed quiet (init_state PUBLISH_WAIT)).
  - reflexivity.
  - split; [intros _; cbn; lia|intros H; discriminate H].
  - split; reflexivity.
Defined.

(** ** The calibration memory *)

(** C3: the code breaks the claim.  With the humidity sensor and the
    invert flag set, a cycle whose read fails turns the stored 0 into
    1: the invert step rewrites the very global that serves as the
    fallback memory. *)
Theorem memory_flips_on_failed_read_when_reversed :
  SensorValue (init_state PUBLISH_WAIT) = f0
  /\ isnan (dht_humidity probe_failed) = true
  /\ exists st' evs,
       loop humidity_reversed probe_failed (init_state PUBLISH_WAIT) = Some (st', evs)
       /\ SensorValue st' = f1
       /\ SensorValue st' <> SensorValue (init_state PUBLISH_WAIT).
Proof.
  split; [reflexivity|]. split; [reflexivity|].
  eexists. eexists. split; [vm_compute; reflexivity|]. split; [reflexivity|]. discriminate.
Qed.

(** The memory is kept when the invert flag is clear. *)
Lemma memory_kept_without_reverse (cfg : Config) (hw : Readings) (st st' : State)
      (evs : list event) :
  REVERSE cfg = false -> valid32 (SensorValue st) = true ->
  (SENSOR cfg = SENSOR_DHT_HUMIDITY /\ isnan (dht_humidity hw) = true
   \/ SENSOR cfg = SENSOR_DHT_TEMPERATURE /\ isnan (dht_temperature hw) = true) ->
  loop cfg hw st = Some (st', evs) -> SensorValue st' = SensorValue st.
Proof.
  intros Hr Hv Hs H. destruct (loop_steps cfg hw st st' evs H) as (wr & _ & _ & Hst & _).
  rewrite Hst. unfold invert. rewrite Hr. unfold read_sensor.
  destruct Hs as [[Hs Hn]|[Hs Hn]]; rewrite Hs; cbn [Z.eqb SENSOR_DHT_HUMIDITY
    SENSOR_DHT_TEMPERATURE SENSOR_BUTTON Pos.eqb fst].
  - destruct (dht_humidity hw); try discriminate Hn. unfold readDhtHumidity. cbn [isnan].
    apply f32_f64_roundtrip. assumption.
  - destruct (dht_temperature hw); try discriminate Hn. reflexivity.
Qed.

(** * Further properties *)

(** ** Rounding and representable bounds *)

(** An inequality between two scaled integers does not depend on the
    common unit. *)
Lemma pow2_rebase (a b ea eb c1 c2 : Z) :
  c1 <= ea -> c1 <= eb -> c2 <= ea -> c2 <= eb ->
  a * 2 ^ (ea - c1) <= b * 2 ^ (eb - c1) -> a * 2 ^ (ea - c2) <= b * 2 ^ (eb - c2).
Proof.
  intros H1 H2 H3 H4 H.
  set (c := Z.min c1 c2).
  assert (Hc : a * 2 ^ (ea - c) <= b * 2 ^ (eb - c)).
  { replace (ea - c) with ((ea - c1) + (c1 - c)) by lia.
    replace (eb - c) with ((eb - c1) + (c1 - c)) by lia.
    rewrite !pow2_add by (unfold c; lia).
    pose proof (Z.pow_pos_nonneg 2 (c1 - c) ltac:(lia) ltac:(unfold c; lia)). nia. }
  replace (ea - c) with ((ea - c2) + (c2 - c)) in Hc by lia.
  replace (eb - c) with ((eb - c2) + (c2 - c)) in Hc by lia.
  rewrite !pow2_add in Hc by (unfold c; lia).
  pose proof (Z.pow_pos_nonneg 2 (c2 - c) ltac:(lia) ltac:(unfold c; lia)). nia.
Qed.

Section RepresentableBounds.
Variables prec emax : Z.
Hypothesis prec_pos : 0 < prec.
Hypothesis prec_lt_emax : prec < emax.

Local Abbreviation emin := (emin prec emax).
Local Abbreviation fexp := (fexp prec emax).
Local Abbreviation valid := (valid_binary prec emax).

(** Rounding never falls below a representable number that the exact
    value reaches. *)
Lemma round_aux_ge_repr (s : bool) (m e : Z) (l : location) (mb : positive) (eb : Z) :
  0 < m -> e <= fexp (Zdigits2 m + e) ->
  valid (S754_finite false mb eb) = true ->
  (e <= eb -> Zpos mb * 2 ^ (eb - e) <= m) ->
  let x := binary_round_aux prec emax s m e l in
  mag_ge prec emax (Zpos mb * 2 ^ (eb - emin)) x /\ valid x = true /\ sign_is s x.
Proof.
  intros Hm He HB Hb x.
  destruct (binary_round_aux_spec prec emax prec_pos s m e l Hm He)
    as (m2 & Hm2 & Hex & Hm2hi & Hnorm & Hx).
  set (et := fexp (Zdigits2 m + e)) in *. set (n := et - e) in *.
  assert (Hn : 0 <= n) by (unfold n; lia).
  apply (valid_facts prec emax) in HB as ([Heb1 Heb2] & Hbhi & Hblo).
  pose proof (Z.pow_pos_nonneg 2 n ltac:(lia) Hn) as Hpn.
  pose proof (Z.pow_pos_nonneg 2 (prec - 1) ltac:(lia) ltac:(lia)) as Hp1.
  assert (Hpp : 2 ^ prec = 2 * 2 ^ (prec - 1)).
  { replace prec with (1 + (prec - 1)) at 1 by lia. rewrite pow2_add by lia. reflexivity. }
  assert (Hq0 : 0 <= m / 2 ^ n) by (apply Z.div_pos; lia).
  assert (Hetmin : emin <= et) by (unfold et, SpecFloat.fexp; lia).
  assert (Hv : et = emin \/ 2 ^ (prec - 1) <= m2).
  { destruct (Z.eq_dec et emin); [left; assumption|right].
    apply Hnorm. unfold et, SpecFloat.fexp in *. lia. }
  assert (Hkey : Zpos mb * 2 ^ (eb - emin) <= m2 * 2 ^ (et - emin)).
  { destruct (Z_lt_le_dec eb et) as [Hlt|Hge].
    - destruct Hv as [Hv|Hv]; [lia|].
      replace (et - emin) with ((eb - emin) + (et - eb)) by lia. rewrite pow2_add by lia.
      pose proof (Z.pow_pos_nonneg 2 (eb - emin) ltac:(lia) ltac:(lia)) as Hpe.
      assert (2 <= 2 ^ (et - eb)) by (change 2 with (2 ^ 1) at 1; apply pow2_le; lia).
      assert (Zpos mb <= m2 * 2 ^ (et - eb)) by nia.
      rewrite (Z.mul_comm (2 ^ (eb - emin))), Z.mul_assoc.
      apply Z.mul_le_mono_nonneg_r; lia.
    - specialize (Hb ltac:(lia)).
      replace (eb - e) with ((eb - et) + n) in Hb by (unfold n; lia).
      rewrite pow2_add in Hb by lia.
      pose proof (Z.pow_pos_nonneg 2 (eb - et) ltac:(lia) ltac:(lia)) as Hpe.
      assert (Zpos mb * 2 ^ (eb - et) <= m / 2 ^ n) by (apply Z.div_le_lower_bound; lia).
      replace (eb - emin) with ((eb - et) + (et - emin)) by lia. rewrite pow2_add by lia.
      pose proof (Z.pow_pos_nonneg 2 (et - emin) ltac:(lia) ltac:(lia)). nia. }
  unfold x. rewrite Hx.
  destruct (pack_valid prec emax prec_pos s m2 et ltac:(lia) ltac:(lia) Hv) as [Hval Hsg].
  split; [|split; assumption].
  pose proof (Z.pow_pos_nonneg 2 (eb - emin) ltac:(lia) ltac:(lia)) as Hpb.
  destruct (pack_cases prec emax prec_pos s m2 et ltac:(lia))
    as [[H0 _]|[(m' & e' & Hp & He' & Hm')|[Hpos Hp]]].
  - exfalso. subst m2. lia.
  - rewrite Hp. cbn [mag_ge]. rewrite Hm' in Hkey.
    replace (e' - emin) with ((e' - et) + (et - emin)) by lia. rewrite pow2_add by lia. lia.
  - rewrite Hp. exact I.
Qed.

Lemma round_ge_repr (s : bool) (m : positive) (e : Z) (mb : positive) (eb b : Z) :
  valid (S754_finite false mb eb) = true ->
  b <= e -> b <= eb -> Zpos mb * 2 ^ (eb - b) <= Zpos m * 2 ^ (e - b) ->
  let x := binary_round prec emax s m e in
  mag_ge prec emax (Zpos mb * 2 ^ (eb - emin)) x /\ valid x = true /\ sign_is s x.
Proof.
  intros HB Hbe Hbeb H. unfold binary_round.
  pose proof (shl_align_spec prec emax m e) as Hs.
  destruct (shl_align m e (fexp (Zpos (digits2_pos m) + e))) as [mz ez].
  destruct Hs as (Hez & Hmz & Hfe & _ & _).
  apply round_aux_ge_repr; try assumption; try lia.
  intros Hle. rewrite Hmz.
  apply (pow2_rebase (Zpos mb) (Zpos m) eb e b ez); lia.
Qed.

End RepresentableBounds.

Section RepresentableOperations.
Variables prec emax : Z.
Hypothesis prec_pos : 0 < prec.
Hypothesis prec_lt_emax : prec < emax.

Local Abbreviation emin := (emin prec emax).
Local Abbreviation fexp := (fexp prec emax).
Local Abbreviation valid := (valid_binary prec emax).

Lemma SFmul_ge_repr (s1 s2 : bool) (m1 m2 : positive) (e1 e2 : Z) (mb : positive) (eb b : Z) :
  2 ^ (prec - 1) <= Zpos m1 ->
  valid (S754_finite false mb eb) = true ->
  b <= e1 + e2 -> b <= eb ->
  Zpos mb * 2 ^ (eb - b) <= Zpos m1 * Zpos m2 * 2 ^ (e1 + e2 - b) ->
  let x := SFmul prec emax (S754_finite s1 m1 e1) (S754_finite s2 m2 e2) in
  mag_ge prec emax (Zpos mb * 2 ^ (eb - emin)) x /\ valid x = true /\ sign_is (xorb s1 s2) x.
Proof.
  intros Hn HB Hb1 Hb2 H x. unfold x. cbn [SFmul].
  pose proof (Z.pow_pos_nonneg 2 (prec - 1) ltac:(lia) ltac:(lia)) as Hp.
  assert (Hfe : e1 + e2 <= fexp (Zdigits2 (Zpos (m1 * m2)) + (e1 + e2))).
  { pose proof (Zdigits2_gt (Zpos (m1 * m2)) (prec - 1) ltac:(lia)) as Hg.
    rewrite Pos2Z.inj_mul in Hg. specialize (Hg ltac:(nia)).
    rewrite Pos2Z.inj_mul. unfold SpecFloat.fexp. lia. }
  apply (round_aux_ge_repr prec emax prec_pos); try assumption; try lia.
  intros Hle. rewrite Pos2Z.inj_mul.
  pose proof (pow2_rebase (Zpos mb) (Zpos m1 * Zpos m2) eb (e1 + e2) b (e1 + e2)
                ltac:(lia) ltac:(lia) ltac:(lia) ltac:(lia) H) as H'.
  rewrite Z.sub_diag, Z.mul_1_r in H'. exact H'.
Qed.

Lemma SFdiv_ge_repr (s1 s2 : bool) (m1 m2 : positive) (e1 e2 : Z) (mb : positive) (eb : Z) :
  let d1 := Zpos (digits2_pos m1) in
  let sh := 2 * prec - d1 in
  let e' := e1 - e2 - sh in
  d1 <= prec -> Zpos (digits2_pos m2) = prec -> emin <= e' ->
  valid (S754_finite false mb eb) = true ->
  (e' <= eb -> Zpos mb * 2 ^ (eb - e') * Zpos m2 <= Zpos m1 * 2 ^ sh) ->
  let x := SFdiv prec emax (S754_finite s1 m1 e1) (S754_finite s2 m2 e2) in
  mag_ge prec emax (Zpos mb * 2 ^ (eb - emin)) x /\ valid x = true /\ sign_is (xorb s1 s2) x.
Proof.
  intros d1 sh e' Hd1 Hd2 He' HB Hb x.
  destruct (SFdiv_finite prec emax prec_pos s1 s2 m1 m2 e1 e2 Hd1 Hd2 He') as (Hx & Hq & Hfe).
  fold d1 sh e' in Hx, Hq, Hfe.
  set (q := Zpos m1 * 2 ^ sh / Zpos m2) in *.
  pose proof (Z.pow_pos_nonneg 2 (prec - 1) ltac:(lia) ltac:(lia)) as Hp.
  unfold x. rewrite Hx.
  apply (round_aux_ge_repr prec emax prec_pos); try assumption; try lia.
  intros Hle. unfold q. apply Z.div_le_lower_bound; [lia|].
  specialize (Hb Hle). lia.
Qed.

(** Two valid positive numbers that compare equal are the same datum. *)
Lemma SFcompare_eq_inv (m1 m2 : positive) (e1 e2 : Z) :
  SFcompare (S754_finite false m1 e1) (S754_finite false m2 e2) = Some Eq ->
  m1 = m2 /\ e1 = e2.
Proof.
  cbn [SFcompare]. intros H. injection H as H.
  destruct (Z.compare_spec e1 e2) as [He|He|He]; try discriminate H.
  split; [|assumption]. apply Pos.compare_eq. exact H.
Qed.

(** The upper half of a clamp, at and above the bound. *)
Lemma clamp_hi (mh : positive) (eh : Z) (x : spec_float) :
  valid (S754_finite false mh eh) = true -> valid x = true -> sign_is false x ->
  mag_ge prec emax (Zpos mh * 2 ^ (eh - emin)) x ->
  SFltb x (S754_zero false) = false
  /\ (if SFltb (S754_finite false mh eh) x then S754_finite false mh eh else x)
     = S754_finite false mh eh.
Proof.
  intros Hh Hx Hs Hge.
  destruct x as [s|s| |s m e]; cbn [mag_ge sign_is] in Hge, Hs; try contradiction; subst s.
  - split; reflexivity.
  - split; [reflexivity|]. unfold SFltb.
    pose proof (SFcompare_pos prec emax prec_pos mh m eh e Hh Hx) as Hc. cbn [Zmag] in Hc.
    destruct (Z.compare_spec (Zpos mh * 2 ^ (eh - emin)) (Zpos m * 2 ^ (e - emin))) as [Heq|Hlt|Hgt].
    + rewrite Hc. apply SFcompare_eq_inv in Hc as [-> ->]. reflexivity.
    + rewrite Hc. reflexivity.
    + lia.
Qed.

(** The same bound read as a comparison. *)
Lemma mag_ge_leb (mh : positive) (eh : Z) (x : spec_float) :
  valid (S754_finite false mh eh) = true -> valid x = true -> sign_is false x ->
  mag_ge prec emax (Zpos mh * 2 ^ (eh - emin)) x ->
  SFleb (S754_finite false mh eh) x = true.
Proof.
  intros Hh Hx Hs Hge.
  destruct x as [s|s| |s m e]; cbn [mag_ge sign_is] in Hge, Hs; try contradiction; subst s.
  - reflexivity.
  - unfold SFleb. rewrite (SFcompare_pos prec emax prec_pos mh m eh e Hh Hx). cbn [Zmag].
    destruct (Z.compare_spec (Zpos mh * 2 ^ (eh - emin)) (Zpos m * 2 ^ (e - emin)));
      try reflexivity. lia.
Qed.

Lemma leb_mag_ge (mh : positive) (eh : Z) (x : spec_float) :
  valid (S754_finite false mh eh) = true -> valid x = true ->
  SFleb (S754_finite false mh eh) x = true ->
  sign_is false x /\ mag_ge prec emax (Zpos mh * 2 ^ (eh - emin)) x.
Proof.
  intros Hh Hx Hle.
  destruct x as [s|s| |s m e]; try discriminate Hle.
  - destruct s; [discriminate Hle|]. split; [reflexivity|exact I].
  - destruct s; [discriminate Hle|]. split; [reflexivity|].
    unfold SFleb in Hle. rewrite (SFcompare_pos prec emax prec_pos mh m eh e Hh Hx) in Hle.
    cbn [Zmag mag_ge] in *.
    destruct (Z.compare_spec (Zpos mh * 2 ^ (eh - emin)) (Zpos m * 2 ^ (e - emin)));
      try discriminate Hle; lia.
Qed.

End RepresentableOperations.

(** ** Signs *)

Lemma is_negative_lt0 (x : spec_float) : is_negative x -> flt x f0 = true.
Proof. destruct x as [s|s| |s m e]; try contradiction; destruct s; try contradiction; reflexivity. Qed.

Lemma sign_true_cases (x : spec_float) :
  sign_is true x -> x = S754_zero true \/ is_negative x.
Proof.
  destruct x as [s|s| |s m e]; cbn [sign_is]; try contradiction; intros ->;
    [left; reflexivity|right; exact I|right; exact I].
Qed.

Lemma fge_pow2_sign_true (k : Z) (x : spec_float) :
  fge_pow2 k x -> sign_is true x -> is_negative x.
Proof.
  destruct x as [s|s| |s m e]; cbn [fge_pow2 sign_is]; try contradiction; intros _ ->; exact I.
Qed.

Lemma shl_align_fst (m : positive) (e ez : Z) :
  ez <= e -> Zpos (fst (shl_align m e ez)) = Zpos m * 2 ^ (e - ez).
Proof.
  intros H. unfold shl_align. destruct (ez - e) as [|p|p] eqn:E; cbn [fst]; try lia.
  - replace (e - ez) with 0 by lia. lia.
  - rewrite iter_xO. f_equal. f_equal. lia.
Qed.

Lemma SFsub_finite (prec emax : Z) (sx sy : bool) (mx my : positive) (ex ey : Z) :
  let ez := Z.min ex ey in
  SFsub prec emax (S754_finite sx mx ex) (S754_finite sy my ey)
  = binary_normalize prec emax
      (cond_Zopp sx (Zpos mx * 2 ^ (ex - ez)) - cond_Zopp sy (Zpos my * 2 ^ (ey - ez))) ez false.
Proof.
  intros ez. cbn [SFsub]. fold ez. rewrite !shl_align_fst by (unfold ez; lia). reflexivity.
Qed.

(** ** Start-up against the cycle *)

Ltac split_selectors :=
  repeat match goal with
         | |- context [?x =? ?y] => destruct (x =? y)
         | H : context [?x =? ?y] |- _ => destruct (x =? y)
         end.

Ltac in_cases H :=
  cbn in H; repeat (destruct H as [H|H]; [try discriminate H|]); try contradiction.

Lemma write_actuator_events (cfg : Config) (v : f32) (wr : list event) :
  write_actuator cfg v = Some wr ->
  wr = (if ACTUATOR cfg =? ACTUATOR_7SEG then
          match scaled v with Some n => digits7 (clamp9999 n) | None => [] end
        else if ACTUATOR cfg =? ACTUATOR_BUZZ then [EvAnalogWrite ACTUATOR_BUZZ_PIN (scale255 v)]
        else if ACTUATOR cfg =? ACTUATOR_LED then
          match to_int (scale255 v) with Some c => [EvSetColorRGB 0 c c c] | None => [] end
        else []).
Proof.
  unfold write_actuator, write7Seg, writeBuzz, writeLed.
  destruct (ACTUATOR cfg =? ACTUATOR_7SEG).
  { destruct (scaled v); intros E; [injection E as <-; reflexivity|discriminate E]. }
  destruct (ACTUATOR cfg =? ACTUATOR_BUZZ); [intros E; injection E as <-; reflexivity|].
  destruct (ACTUATOR cfg =? ACTUATOR_LED).
  { destruct (to_int (scale255 v)); intros E; [injection E as <-; reflexivity|discriminate E]. }
  intros E; injection E as <-; reflexivity.
Qed.

(** X10: whatever a cycle of [loop] uses, [setup] has prepared: a pin
    that is read was set to INPUT, the pin that [analogWrite] drives was
    set to OUTPUT, the DHT driver was started before a humidity or
    temperature read, the display was initialised (init, brightness,
    point off, in this order, as the last calls of [setup]) before a
    digit is shown, and the LED chain before a colour is set. *)
Theorem setup_covers_loop (cfg : Config) (hw : Readings) (st st' : State) (evs : list event) :
  loop cfg hw st = Some (st', evs) ->
  (forall p, In (EvDigitalRead p) evs \/ In (EvAnalogRead p) evs ->
             In (InPinMode p INPUT) (setup cfg))
  /\ (forall p v, In (EvAnalogWrite p v) evs -> In (InPinMode p OUTPUT) (setup cfg))
  /\ (In EvReadHumidity evs \/ In EvReadTemperature evs -> In InDhtBegin (setup cfg))
  /\ (forall i d, In (EvDisplay i d) evs ->
        exists pre, setup cfg
                    = pre ++ [InTm1637Init; InTm1637Set BRIGHT_TYPICAL; InTm1637Point POINT_OFF])
  /\ (forall l r g b, In (EvSetColorRGB l r g b) evs -> In InLedsInit (setup cfg)).
Proof.
  intros H. destruct (loop_steps cfg hw st st' evs H) as (wr & Hwr & -> & _).
  apply write_actuator_events in Hwr. subst wr.
  unfold read_sensor, setup.
  set (v := invert cfg _). clearbody v.
  destruct (scaled v) as [n|]; destruct (to_int (scale255 v)) as [c|];
    unfold digits7; split_selectors; cbn [snd app];
    (split; [intros p [Hin|Hin]; in_cases Hin; injection Hin as <-; cbn; tauto|]);
    (split; [intros p w Hin; in_cases Hin; injection Hin as <- _; cbn; tauto|]);
    (split; [intros [Hin|Hin]; in_cases Hin; cbn; tauto|]);
    (split; [intros i d Hin; in_cases Hin; eexists; cbn [app];
             first [exact (eq_sym (app_nil_l _)) | exact (eq_refl : _ = [_] ++ _)] |]);
    intros l r g b Hin; in_cases Hin; cbn; tauto.
Qed.

Lemma setup_covers_loop_witness :
  (forall p, In (EvDigitalRead p) [EvAnalogRead A2; EvAnalogWrite A0 f0; EvDelay 10]
             \/ In (EvAnalogRead p) [EvAnalogRead A2; EvAnalogWrite A0 f0; EvDelay 10] ->
             In (InPinMode p INPUT) (setup shipped))
  /\ (forall p v, In (EvAnalogWrite p v) [EvAnalogRead A2; EvAnalogWrite A0 f0; EvDelay 10] ->
                  In (InPinMode p OUTPUT) (setup shipped))
  /\ (In EvReadHumidity [EvAnalogRead A2; EvAnalogWrite A0 f0; EvDelay 10]
      \/ In EvReadTemperature [EvAnalogRead A2; EvAnalogWrite A0 f0; EvDelay 10] ->
      In InDhtBegin (setup shipped))
  /\ (forall i d, In (EvDisplay i d) [EvAnalogRead A2; EvAnalogWrite A0 f0; EvDelay 10] ->
        exists pre, setup shipped
                    = pre ++ [InTm1637Init; InTm1637Set BRIGHT_TYPICAL; InTm1637Point POINT_OFF])
  /\ (forall l r g b, In (EvSetColorRGB l r g b) [EvAnalogRead A2; EvAnalogWrite A0 f0; EvDelay 10] ->
                      In InLedsInit (setup shipped)).
Proof.
  apply (setup_covers_loop shipped quiet (init_state PUBLISH_WAIT)
           {| SensorValue := f0; PublishWaitCount := 100 |}
           [EvAnalogRead A2; EvAnalogWrite A0 f0; EvDelay 10]).
  vm_compute. reflexivity.
Defined.

(** X11: conversely, [setup] prepares nothing that the cycle does not
    use: a pin set to INPUT is read in every cycle, the pin set to OUTPUT
    is written, a started DHT driver is read, an initialised display or
    LED chain is drawn on; nothing at all is prepared for the ultrasonic
    ranger, which has no [case] in [setup]; and [setup] makes at most four
    calls. *)
Theorem setup_only_selected (cfg : Config) (hw : Readings) (st st' : State) (evs : list event) :
  loop cfg hw st = Some (st', evs) ->
  (forall p, In (InPinMode p INPUT) (setup cfg) ->
             In (EvDigitalRead p) evs \/ In (EvAnalogRead p) evs)
  /\ (forall p, In (InPinMode p OUTPUT) (setup cfg) -> exists v, In (EvAnalogWrite p v) evs)
  /\ (In InDhtBegin (setup cfg) -> In EvReadHumidity evs \/ In EvReadTemperature evs)
  /\ (In InTm1637Init (setup cfg) -> exists d, In (EvDisplay 0 d) evs)
  /\ (In InLedsInit (setup cfg) -> exists c, In (EvSetColorRGB 0 c c c) evs)
  /\ (In EvMeasureInCentimeters evs ->
      forall p m, In (InPinMode p m) (setup cfg) -> p = ACTUATOR_BUZZ_PIN /\ m = OUTPUT)
  /\ (length (setup cfg) <= 4)%nat.
Proof.
  intros H. destruct (loop_steps cfg hw st st' evs H) as (wr & Hwr & -> & _).
  pose proof Hwr as Hdef.
  apply write_actuator_events in Hwr. subst wr.
  unfold write_actuator, write7Seg, writeLed in Hdef.
  unfold read_sensor, setup.
  set (v := invert cfg _) in *. clearbody v.
  destruct (scaled v) as [n|]; destruct (to_int (scale255 v)) as [c|];
    unfold digits7; split_selectors; try discriminate Hdef; cbn [snd app];
    (split; [intros p Hin; in_cases Hin; injection Hin as <-; cbn; tauto|]);
    (split; [intros p Hin; in_cases Hin; injection Hin as <-; eexists; cbn; eauto|]);
    (split; [intros Hin; in_cases Hin; cbn; tauto|]);
    (split; [intros Hin; in_cases Hin; eexists; cbn; eauto|]);
    (split; [intros Hin; in_cases Hin; eexists; cbn; eauto|]);
    (split; [intros Hin p m Hs; in_cases Hin; in_cases Hs; injection Hs as <- <-; split; reflexivity|]);
    cbn; lia.
Qed.

(** X12: the pins the sketch names for the selected sensor and the
    selected actuator overlap exactly for the button with the LED chain
    (both on D4) and for the DHT probe or the ultrasonic ranger with the
    display (both on D2); every other pairing uses disjoint pins. *)
Theorem pins_shared (cfg : Config) :
  (exists p, In p (sensor_pins (SENSOR cfg)) /\ In p (actuator_pins (ACTUATOR cfg)))
  <-> (SENSOR cfg = SENSOR_BUTTON /\ ACTUATOR cfg = ACTUATOR_LED)
      \/ ((SENSOR cfg = SENSOR_DHT_HUMIDITY \/ SENSOR cfg = SENSOR_DHT_TEMPERATURE
           \/ SENSOR cfg = SENSOR_ULTRASONIC)
          /\ ACTUATOR cfg = ACTUATOR_7SEG).
Proof.
  split.
  - unfold sensor_pins, actuator_pins. intros (p & Hs & Ha). revert Hs Ha.
    repeat match goal with
           | |- context [?x =? ?y] => destruct (Z.eqb_spec x y)
           end; intros Hs Ha; in_cases Hs; in_cases Ha; subst p; try discriminate Ha; tauto.
  - intros [[H1 H2]|[H1 H2]]; rewrite H2.
    + rewrite H1. exists D4. split; cbn; tauto.
    + exists D2. destruct H1 as [H1|[H1|H1]]; rewrite H1; split; cbn; tauto.
Qed.

Lemma setup_only_selected_witness :
  (forall p, In (InPinMode p INPUT) (setup shipped) ->
             In (EvDigitalRead p) [EvAnalogRead A2; EvAnalogWrite A0 f0; EvDelay 10]
             \/ In (EvAnalogRead p) [EvAnalogRead A2; EvAnalogWrite A0 f0; EvDelay 10])
  /\ (forall p, In (InPinMode p OUTPUT) (setup shipped) ->
                exists v, In (EvAnalogWrite p v) [EvAnalogRead A2; EvAnalogWrite A0 f0; EvDelay 10])
  /\ (In InDhtBegin (setup shipped) ->
      In EvReadHumidity [EvAnalogRead A2; EvAnalogWrite A0 f0; EvDelay 10]
      \/ In EvReadTemperature [EvAnalogRead A2; EvAnalogWrite A0 f0; EvDelay 10])
  /\ (In InTm1637Init (setup shipped) ->
      exists d, In (EvDisplay 0 d) [EvAnalogRead A2; EvAnalogWrite A0 f0; EvDelay 10])
  /\ (In InLedsInit (setup shipped) ->
      exists c, In (EvSetColorRGB 0 c c c) [EvAnalogRead A2; EvAnalogWrite A0 f0; EvDelay 10])
  /\ (In EvMeasureInCentimeters [EvAnalogRead A2; EvAnalogWrite A0 f0; EvDelay 10] ->
      forall p m, In (InPinMode p m) (setup shipped) -> p = ACTUATOR_BUZZ_PIN /\ m = OUTPUT)
  /\ (length (setup shipped) <= 4)%nat.
Proof.
  apply (setup_only_selected shipped quiet (init_state PUBLISH_WAIT)
           {| SensorValue := f0; PublishWaitCount := 100 |}
           [EvAnalogRead A2; EvAnalogWrite A0 f0; EvDelay 10]).
  vm_compute. reflexivity.
Defined.

(** ** What a cycle never stores *)


Lemma invert_not_nan (cfg : Config) (v : f32) : v <> S754_nan -> invert cfg v <> S754_nan.
Proof.
  intros Hv. unfold invert. destruct (REVERSE cfg); [|assumption].
  unfold f32_sub. change f1 with (S754_finite false 8388608 (-23)).
  apply SFsub_finite_l_not_nan; [reflexivity|assumption].
Qed.





(** ** A stale value under the invert flag *)

Lemma read_nothing_keeps (cfg : Config) (hw : Readings) (prev : f32) :
  reads_nothing cfg hw -> valid32 prev = true -> fst (read_sensor cfg hw prev) = prev.
Proof.
  intros Hn Hv. unfold read_sensor.
  destruct Hn as [(H1 & H2 & H3 & H4 & H5 & H6)|[[Hs Hn]|[Hs Hn]]].
  - destruct (Z.eqb_spec (SENSOR cfg) SENSOR_BUTTON); [contradiction|].
    destruct (Z.eqb_spec (SENSOR cfg) SENSOR_DHT_HUMIDITY); [contradiction|].
    destruct (Z.eqb_spec (SENSOR cfg) SENSOR_DHT_TEMPERATURE); [contradiction|].
    destruct (Z.eqb_spec (SENSOR cfg) SENSOR_LIGHT); [contradiction|].
    destruct (Z.eqb_spec (SENSOR cfg) SENSOR_ROTARY); [contradiction|].
    destruct (Z.eqb_spec (SENSOR cfg) SENSOR_ULTRASONIC); [contradiction|]. reflexivity.
  - rewrite Hs. cbn [Z.eqb SENSOR_DHT_HUMIDITY SENSOR_BUTTON Pos.eqb fst].
    destruct (dht_humidity hw); try discriminate Hn. unfold readDhtHumidity. cbn [isnan].
    apply f32_f64_roundtrip. assumption.
  - rewrite Hs. cbn [Z.eqb SENSOR_DHT_HUMIDITY SENSOR_DHT_TEMPERATURE SENSOR_BUTTON Pos.eqb fst].
    destruct (dht_temperature hw); try discriminate Hn. reflexivity.
Qed.

Lemma canonical_f0 : canonical f0. Proof. split; reflexivity. Qed.
Lemma canonical_f1 : canonical f1. Proof. split; reflexivity. Qed.

Lemma stale_run (cfg : Config) (hws : list Readings) :
  REVERSE cfg = true -> Forall (reads_nothing cfg) hws ->
  forall st, SensorValue st = f0 \/ SensorValue st = f1 ->
  exists st' evs, run cfg hws st = Some (st', evs)
    /\ SensorValue st' = if Nat.even (length hws) then SensorValue st
                         else f32_sub f1 (SensorValue st).
Proof.
  intros Hr. induction 1 as [|hw rest Hn _ IH]; intros st Hst.
  - exists st, []. split; reflexivity.
  - assert (Hv : valid32 (SensorValue st) = true) by (destruct Hst as [->| ->]; reflexivity).
    pose proof (read_nothing_keeps cfg hw (SensorValue st) Hn Hv) as Hk.
    assert (Hc : canonical (invert cfg (SensorValue st))).
    { apply invert_canonical. destruct Hst as [->| ->]; [apply canonical_f0|apply canonical_f1]. }
    pose proof (write_actuator_defined cfg _ Hc) as Hw.
    cbn [run]. unfold loop.
    destruct (read_sensor cfg hw (SensorValue st)) as [c rd]. cbn [fst] in Hk. subst c.
    destruct (write_actuator cfg (invert cfg (SensorValue st))) as [wr|]; [|congruence].
    set (st1 := {| SensorValue := invert cfg (SensorValue st);
                   PublishWaitCount := PublishWaitCount st |}).
    assert (E1 : SensorValue st1 = f32_sub f1 (SensorValue st)).
    { unfold st1, invert. rewrite Hr. reflexivity. }
    destruct (IH st1) as (st2 & evs2 & H2 & Hs2).
    { rewrite E1. destruct Hst as [->| ->]; [right|left]; reflexivity. }
    rewrite H2. eexists _, _. split; [reflexivity|].
    rewrite Hs2, E1. cbn [length]. rewrite Nat.even_succ, <- Nat.negb_even.
    destruct (Nat.even (length rest)); cbn [negb]; [reflexivity|].
    destruct Hst as [->| ->]; reflexivity.
Qed.

(** X16: with the invert flag set, a cycle that reads nothing afresh
    -- no sensor selected, or the selected DHT read failing -- inverts
    the stored value again: from process start the stored and rendered
    value alternates 1, 0, 1, 0, ... for as long as that lasts. *)
Theorem stale_value_alternates (cfg : Config) (hws : list Readings) (W : Z) :
  REVERSE cfg = true -> Forall (reads_nothing cfg) hws ->
  exists st' evs, run cfg hws (init_state W) = Some (st', evs)
    /\ SensorValue st' = if Nat.even (length hws) then f0 else f1.
Proof.
  intros Hr Hn. destruct (stale_run cfg hws Hr Hn (init_state W) ltac:(left; reflexivity))
    as (st' & evs & H & Hs).
  exists st', evs. split; [assumption|]. rewrite Hs.
  destruct (Nat.even (length hws)); reflexivity.
Qed.

Lemma stale_value_alternates_witness :
  exists st' evs, run nothing_reversed [quiet; quiet; quiet] (init_state PUBLISH_WAIT) = Some (st', evs)
    /\ SensorValue st' = if Nat.even (length [quiet; quiet; quiet]) then f0 else f1.
Proof.
  apply (stale_value_alternates nothing_reversed [quiet; quiet; quiet] PUBLISH_WAIT).
  - reflexivity.
  - repeat (apply Forall_cons; [left; repeat split; discriminate|]). apply Forall_nil.
Defined.

(** ** Saturation of the renderers *)

Lemma SFmul_sign (prec emax : Z) (s1 s2 : bool) (m1 m2 : positive) (e1 e2 : Z) :
  0 < prec -> 2 ^ (prec - 1) <= Zpos m1 ->
  let x := SFmul prec emax (S754_finite s1 m1 e1) (S754_finite s2 m2 e2) in
  valid_binary prec emax x = true /\ sign_is (xorb s1 s2) x /\ exp_ge (e1 + e2) x.
Proof.
  intros Hprec Hn x. unfold x. cbn [SFmul].
  pose proof (Z.pow_pos_nonneg 2 (prec - 1) ltac:(lia) ltac:(lia)) as Hp.
  apply (round_aux_valid prec emax Hprec); [lia|].
  pose proof (Zdigits2_gt (Zpos (m1 * m2)) (prec - 1) ltac:(lia)) as Hg.
  rewrite Pos2Z.inj_mul in Hg. specialize (Hg ltac:(nia)).
  rewrite Pos2Z.inj_mul. unfold SpecFloat.fexp. lia.
Qed.

(** [1 <= x], read on the mantissa and exponent, in any unit. *)
Lemma ge1_finite (x : f32) :
  valid32 x = true -> fle f1 x = true ->
  x = S754_infinity false
  \/ exists m e, x = S754_finite false m e
       /\ forall c, c <= 0 -> c <= e -> 2 ^ (- c) <= Zpos m * 2 ^ (e - c).
Proof.
  intros Hv Hle. change f1 with (S754_finite false 8388608 (-23)) in Hle.
  destruct (leb_mag_ge prec32 emax32 prec32_pos 8388608 (-23) x eq_refl Hv Hle) as [Hs Hge].
  destruct x as [s|s| |s m e]; cbn [sign_is mag_ge] in Hs, Hge; try contradiction; subst s.
  - left. reflexivity.
  - right. exists m, e. split; [reflexivity|]. intros c Hc Hce.
    apply (valid_facts prec32 emax32) in Hv as ([He1 _] & _).
    pose proof (pow2_rebase 8388608 (Zpos m) (-23) e (SpecFloat.emin prec32 emax32) (-23 + c)
                  ltac:(fmt_lia) He1 ltac:(lia) ltac:(lia) Hge) as H.
    replace (-23 - (-23 + c)) with (- c) in H by lia.
    change 8388608 with (2 ^ 23) in H.
    replace (e - (-23 + c)) with ((e - c) + 23) in H by lia.
    rewrite (pow2_add (e - c) 23) in H by lia.
    pose proof (Z.pow_pos_nonneg 2 (- c) ltac:(lia) ltac:(lia)).
    pose proof (Z.pow_pos_nonneg 2 (e - c) ltac:(lia) ltac:(lia)).
    change (2 ^ 23) with 8388608 in H. nia.
Qed.

Lemma le0_cases (x : f32) :
  fle x f0 = true -> (exists s, x = S754_zero s) \/ is_negative x.
Proof.
  destruct x as [s|s| |s m e]; intros H; try discriminate H.
  - left. eauto.
  - destruct s; [right; exact I|discriminate H].
  - destruct s; [right; exact I|discriminate H].
Qed.

Lemma scale255_top (v : f32) :
  valid32 v = true -> fle f1 v = true -> scale255 v = f255.
Proof.
  intros Hv Hle. destruct (ge1_finite v Hv Hle) as [->|(m & e & -> & Hge)]; [reflexivity|].
  destruct (f32_to_f64_finite false m e Hv) as (m' & Hr & Hm' & Hj & Hd).
  set (j := prec64 - Zpos (digits2_pos m)) in *.
  pose proof Hv as Hv'. apply (valid_facts prec32 emax32) in Hv' as ([He1 He2] & Hhi & Hlo).
  unfold SpecFloat.emin, prec32, emax32 in He1, He2.
  assert (Hjhi : j <= 52) by (unfold j, prec64; lia).
  pose proof (digits2_pos_bounds m') as [Hlo' Hhi']. rewrite Hd in Hlo', Hhi'.
  unfold scale255. rewrite Hr.
  change d255 with (S754_finite false 8972014882652160 (-45)).
  destruct (SFmul_ge_repr prec64 emax64 prec64_pos false false m' 8972014882652160
              (e - j) (-45) 8972014882652160 (-45) (-300)) as (HP1 & HP2 & HP3);
    try assumption; try reflexivity; try lia.
  { specialize (Hge (-255) ltac:(lia) ltac:(lia)).
    replace (-45 - -300) with 255 by lia. replace (e - j + -45 - -300) with (e - j + 255) by lia.
    replace (- -255) with 255 in Hge by lia. replace (e - -255) with (e + 255) in Hge by lia.
    assert (Hs : Zpos m' * 2 ^ (e - j + 255) = Zpos m * 2 ^ (e + 255)).
    { rewrite Hm', <- Z.mul_assoc, <- pow2_add by lia. f_equal. f_equal. lia. }
    rewrite (Z.mul_comm (Zpos m')), <- Z.mul_assoc, Hs.
    apply Z.mul_le_mono_nonneg_l; lia. }
  unfold f64_mul.
  destruct (SFmul prec64 emax64 (S754_finite false m' (e - j))
              (S754_finite false 8972014882652160 (-45))) as [sP|sP| |sP mP eP];
    cbn [mag_ge sign_is xorb] in HP1, HP3; try contradiction; subst sP; [reflexivity|].
  cbn [f64_to_f32].
  pose proof HP2 as HvP. apply (valid_facts prec64 emax64) in HvP as ([HeP1 _] & _).
  destruct (round_ge_repr prec32 emax32 prec32_pos false mP eP 16711680 (-16)
              (SpecFloat.emin prec64 emax64)) as (HX1 & HX2 & HX3);
    try assumption; try reflexivity; try fmt_lia.
  destruct (clamp_hi prec32 emax32 prec32_pos 16711680 (-16) _ eq_refl HX2 HX3 HX1) as [H0 H1].
  change f0 with (S754_zero false). change f255 with (S754_finite false 16711680 (-16)).
  unfold flt. rewrite H0. exact H1.
Qed.

Lemma scale255_bottom (v : f32) :
  valid32 v = true -> fle v f0 = true ->
  scale255 v = f0 \/ scale255 v = S754_zero true.
Proof.
  intros Hv Hle. destruct (le0_cases v Hle) as [[s ->]|Hneg].
  - destruct s; [right|left]; reflexivity.
  - destruct v as [s|s| |s m e]; try contradiction; destruct s; try contradiction.
    + left. reflexivity.
    + destruct (f32_to_f64_finite true m e Hv) as (m' & Hr & Hm' & Hj & Hd).
      set (j := prec64 - Zpos (digits2_pos m)) in *.
      pose proof (digits2_pos_bounds m') as [Hlo' Hhi']. rewrite Hd in Hlo', Hhi'.
      unfold scale255. rewrite Hr.
      change d255 with (S754_finite false 8972014882652160 (-45)).
      destruct (SFmul_sign prec64 emax64 true false m' 8972014882652160 (e - j) (-45)
                  prec64_pos Hlo') as (HP2 & HP3 & _).
      unfold f64_mul.
      destruct (SFmul prec64 emax64 (S754_finite true m' (e - j))
                  (S754_finite false 8972014882652160 (-45))) as [sP|sP| |sP mP eP];
        cbn [sign_is xorb] in HP3; try contradiction; subst sP.
      * right. reflexivity.
      * left. reflexivity.
      * cbn [f64_to_f32].
        destruct (round_valid prec32 emax32 prec32_pos true mP eP) as (_ & HX3 & _).
        destruct (sign_true_cases _ HX3) as [->|Hn]; [right; reflexivity|left].
        rewrite (is_negative_lt0 _ Hn). reflexivity.
Qed.

(** X7: the two scaling renderers saturate exactly: for every value of
    at least 1 (plus infinity included) [writeBuzz] passes a duty of
    exactly 255 and [writeLed] sets R = G = B = 255; for every value of at
    most 0 (minus infinity and both zeros included) [writeLed] sets
    0, 0, 0 and the duty that [writeBuzz] passes is a zero. *)
Theorem writers_saturate (hi lo : f32) :
  valid32 hi = true -> fle f1 hi = true ->
  valid32 lo = true -> fle lo f0 = true ->
  writeBuzz hi = Some [EvAnalogWrite ACTUATOR_BUZZ_PIN f255]
  /\ writeLed hi = Some [EvSetColorRGB 0 255 255 255]
  /\ writeLed lo = Some [EvSetColorRGB 0 0 0 0]
  /\ exists duty, writeBuzz lo = Some [EvAnalogWrite ACTUATOR_BUZZ_PIN duty]
                  /\ to_int duty = Some 0.
Proof.
  intros Hvh Hh Hvl Hl. unfold writeBuzz, writeLed.
  rewrite (scale255_top hi Hvh Hh). split; [reflexivity|]. split; [reflexivity|].
  destruct (scale255_bottom lo Hvl Hl) as [-> | ->]; (split; [reflexivity|]);
    eexists; (split; [reflexivity|reflexivity]).
Qed.

Lemma writers_saturate_witness :
  writeBuzz (S754_infinity false) = Some [EvAnalogWrite ACTUATOR_BUZZ_PIN f255]
  /\ writeLed (S754_infinity false) = Some [EvSetColorRGB 0 255 255 255]
  /\ writeLed (f32_of_int (- 4)) = Some [EvSetColorRGB 0 0 0 0]
  /\ exists duty, writeBuzz (f32_of_int (- 4)) = Some [EvAnalogWrite ACTUATOR_BUZZ_PIN duty]
                  /\ to_int duty = Some 0.
Proof. apply (writers_saturate (S754_infinity false) (f32_of_int (- 4))); reflexivity. Defined.

(** ** The seven-segment scaling beyond the canonical interval *)

Lemma int_round_trip (s : bool) (p : positive) :
  Zpos p < 2 ^ 31 ->
  to_int (binary_round prec64 emax64 s p 0) = Some (cond_Zopp s (Zpos p)).
Proof.
  intros Hp. pose proof (digits2_pos_bounds p) as [Hlo Hhi].
  assert (Hd : Zpos (digits2_pos p) <= 31) by (apply (Zdigits2_le (Zpos p)); lia).
  destruct (round_exact prec64 emax64 prec64_pos s p 0) as (m' & Hr & Hm').
  { fmt_lia. }
  { fmt_lia. }
  rewrite Hr.
  assert (Hf : SpecFloat.fexp prec64 emax64 (Zpos (digits2_pos p) + 0) = Zpos (digits2_pos p) - 53).
  { fmt_lia. }
  rewrite Hf in *. set (d := Zpos (digits2_pos p)) in *.
  cbn [to_int]. destruct (Z.leb_spec 0 (d - 53)); [lia|].
  replace (0 - (d - 53)) with (53 - d) in Hm' by lia. replace (- (d - 53)) with (53 - d) by lia.
  rewrite Hm', Z.div_mul by (pose proof (Z.pow_pos_nonneg 2 (53 - d) ltac:(lia) ltac:(lia)); lia).
  apply int_range_some. change (2 ^ 31) with 2147483648 in Hp. destruct s; cbn [cond_Zopp]; lia.
Qed.

(** [(int)round(x)] for a [double] of magnitude at most [2 ^ 30]. *)
Lemma round_to_int_gen (x : f64) :
  valid64 x = true -> fle_pow2 30 x ->
  exists n, to_int (f64_round x) = Some n
    /\ - 2 ^ 30 <= n <= 2 ^ 30
    /\ (sign_is false x ->
        0 <= n /\ forall N, mag_ge prec64 emax64 (N * 2 ^ 1074) x -> N <= n)
    /\ (sign_is true x -> n <= 0).
Proof.
  intros Hv Hle. destruct x as [s|s| |s m e]; cbn [fle_pow2] in Hle; try contradiction.
  - exists 0. split; [reflexivity|]. split; [lia|]. split; [|intros _; lia].
    intros _. split; [lia|]. intros N HN. contradiction HN.
  - destruct Hle as [He Hm]. cbn [f64_round sign_is mag_ge].
    unfold SpecFloat.emin, prec64, emax64.
    pose proof (Z.pow_pos_nonneg 2 1074 ltac:(lia) ltac:(lia)) as H1074.
    apply (valid_facts prec64 emax64) in Hv as ([He1 _] & _).
    unfold SpecFloat.emin, prec64, emax64 in He1.
    destruct (Z.leb_spec 0 e) as [Hpos|Hneg].
    + cbn [to_int]. destruct (Z.leb_spec 0 e); [|lia].
      pose proof (Z.pow_pos_nonneg 2 e ltac:(lia) Hpos) as Hpe.
      assert (Ht : Zpos m * 2 ^ e <= 2 ^ 30).
      { replace 30 with ((30 - e) + e) at 1 by lia. rewrite pow2_add by lia. nia. }
      change (2 ^ 30) with 1073741824 in *.
      exists (cond_Zopp s (Zpos m * 2 ^ e)). split.
      { apply int_range_some. destruct s; cbn [cond_Zopp]; lia. }
      split; [destruct s; cbn [cond_Zopp]; lia|]. split.
      * intros ->. cbn [cond_Zopp]. split; [lia|]. intros N HN.
        replace (e - (3 - 1024 - 53)) with (e + 1074) in HN by lia.
        rewrite pow2_add in HN by lia. nia.
      * intros ->. cbn [cond_Zopp]. lia.
    + set (n := - e). set (q := Zpos m / 2 ^ n). set (r := Zpos m mod 2 ^ n).
      pose proof (Z.pow_pos_nonneg 2 n ltac:(lia) ltac:(unfold n; lia)) as Hpn.
      pose proof (Z.div_mod (Zpos m) (2 ^ n) ltac:(lia)) as Hdm. fold q r in Hdm.
      pose proof (Z.mod_pos_bound (Zpos m) (2 ^ n) ltac:(lia)) as Hr. fold r in Hr.
      assert (Hq0 : 0 <= q) by (apply Z.div_pos; lia).
      assert (Hs : 2 ^ (30 - e) = 2 ^ 30 * 2 ^ n).
      { rewrite <- pow2_add by (unfold n; lia). f_equal; unfold n; lia. }
      rewrite Hs in Hm. change (2 ^ 30) with 1073741824 in *.
      set (q' := if 2 ^ n <=? 2 * r then q + 1 else q).
      assert (Hq' : q <= q' <= 1073741824).
      { unfold q'. destruct (Z.leb_spec (2 ^ n) (2 * r)); nia. }
      assert (HN : forall N, N * 2 ^ 1074 <= Zpos m * 2 ^ (e - (3 - 1024 - 53)) -> N <= q').
      { intros N HN. replace (e - (3 - 1024 - 53)) with (1074 - n) in HN by (unfold n; lia).
        assert (Hsp : 2 ^ 1074 = 2 ^ (1074 - n) * 2 ^ n).
        { rewrite <- pow2_add by (unfold n; lia). f_equal. lia. }
        pose proof (Z.pow_pos_nonneg 2 (1074 - n) ltac:(lia) ltac:(unfold n; lia)) as Hpp.
        rewrite Hsp in HN.
        assert (N * 2 ^ n <= Zpos m) by nia.
        assert (N <= q) by (unfold q; apply Z.div_le_lower_bound; lia). lia. }
      destruct q' as [|p|p] eqn:Eq; try lia.
      * exists 0. split; [destruct s; reflexivity|]. split; [lia|]. split; [|intros _; lia].
        intros _. split; [lia|]. exact HN.
      * exists (cond_Zopp s (Zpos p)). split.
        { destruct s; cbn [cond_Zopp binary_normalize]; [apply (int_round_trip true)
                                                         |apply (int_round_trip false)]; lia. }
        split; [destruct s; cbn [cond_Zopp]; lia|]. split.
        -- intros ->. cbn [cond_Zopp]. split; [lia|]. exact HN.
        -- intros ->. cbn [cond_Zopp]. lia.
Qed.

(** The quotient [value * 100000.0 / 10.0] for [|value| <= 2 ^ 16]. *)
Lemma scaled_quotient (s : bool) (m : positive) (e : Z) :
  valid32 (S754_finite s m e) = true -> fle_pow2 16 (S754_finite s m e) ->
  let Q := f64_div (f64_mul (f32_to_f64 (S754_finite s m e)) d100000) d10 in
  valid64 Q = true /\ fle_pow2 30 Q /\ sign_is s Q
  /\ (s = false -> fle f1 (S754_finite s m e) = true ->
      mag_ge prec64 emax64 (10000 * 2 ^ 1074) Q).
Proof.
  intros Hv [He Hm] Q.
  destruct (f32_to_f64_finite s m e Hv) as (m' & Hr & Hm' & Hj & Hd).
  set (j := prec64 - Zpos (digits2_pos m)) in *.
  pose proof Hv as Hv'. apply (valid_facts prec32 emax32) in Hv' as ([He1 He2] & Hhi & Hlo).
  unfold SpecFloat.emin, prec32, emax32 in He1, He2.
  assert (Hjhi : j <= 52) by (unfold j, prec64; lia).
  pose proof (digits2_pos_bounds m') as [Hlo' Hhi']. rewrite Hd in Hlo', Hhi'.
  unfold Q. rewrite Hr.
  change d100000 with (S754_finite false 6871947673600000 (-36)).
  destruct (SFmul_le_pow2 prec64 emax64 prec64_pos prec64_lt_emax s false m'
              6871947673600000 (e - j) (-36) 16 17) as (HB1 & HB2 & HB3 & HB4).
  { exact Hlo'. }
  { cbn [fle_pow2]. split; [lia|]. rewrite Hm'. replace (16 - (e - j)) with ((16 - e) + j) by lia.
    rewrite pow2_add by lia. pose proof (Z.pow_pos_nonneg 2 j ltac:(lia) ltac:(lia)). nia. }
  { cbn. lia. }
  { fmt_lia. }
  { fmt_lia. }
  assert (HP : s = false -> fle f1 (S754_finite s m e) = true ->
               mag_ge prec64 emax64 (6871947673600000 * 2 ^ (-36 - SpecFloat.emin prec64 emax64))
                 (SFmul prec64 emax64 (S754_finite s m' (e - j))
                    (S754_finite false 6871947673600000 (-36)))).
  { intros -> Hle.
    destruct (ge1_finite _ Hv Hle) as [Hinf|(m0 & e0 & Heq & Hge)]; [discriminate Hinf|].
    injection Heq as <- <-.
    apply (SFmul_ge_repr prec64 emax64 prec64_pos false false m' 6871947673600000
              (e - j) (-36) 6871947673600000 (-36) (-291)); try assumption; try reflexivity; try lia.
    specialize (Hge (-255) ltac:(lia) ltac:(lia)).
    replace (-36 - -291) with 255 by lia. replace (e - j + -36 - -291) with (e - j + 255) by lia.
    replace (- -255) with 255 in Hge by lia. replace (e - -255) with (e + 255) in Hge by lia.
    assert (Hs : Zpos m' * 2 ^ (e - j + 255) = Zpos m * 2 ^ (e + 255)).
    { rewrite Hm', <- Z.mul_assoc, <- pow2_add by lia. f_equal. f_equal. lia. }
    rewrite (Z.mul_comm (Zpos m')), <- Z.mul_assoc, Hs.
    apply Z.mul_le_mono_nonneg_l; lia. }
  unfold f64_mul.
  destruct (SFmul prec64 emax64 (S754_finite s m' (e - j)) (S754_finite false 6871947673600000 (-36)))
    as [sB|sB| |sB mB eB]; cbn [fle_pow2 sign_is xorb exp_ge] in HB1, HB3, HB4; try contradiction.
  - rewrite xorb_false_r in HB3. subst sB.
    split; [reflexivity|]. split; [exact I|]. split; [destruct s; reflexivity|].
    intros Hs Hle. exact (HP Hs Hle).
  - rewrite xorb_false_r in HB3. subst sB.
    destruct HB1 as [HeB HmB]. change (16 + 17) with 33 in HeB, HmB.
    pose proof HB2 as HvB. apply (valid_facts prec64 emax64) in HvB as ([HeB1 HeB2] & HhiB & HloB).
    pose proof (digits2_pos_bounds mB) as [HdloB HdhiB].
    assert (HdB : Zpos (digits2_pos mB) <= 53) by (apply (Zdigits2_le (Zpos mB)); [lia|exact HhiB]).
    assert (HdB2 : Zpos (digits2_pos mB) + eB <= 34).
    { assert (Zpos mB < 2 ^ (34 - eB)).
      { replace (34 - eB) with ((33 - eB) + 1) by lia. rewrite pow2_add by lia.
        change (2 ^ 1) with 2. pose proof (Z.pow_pos_nonneg 2 (33 - eB) ltac:(lia) ltac:(lia)). lia. }
      pose proof (Zdigits2_le (Zpos mB) (34 - eB) ltac:(lia) H). cbn [Zdigits2] in H0. lia. }
    change d10 with (S754_finite false 5629499534213120 (-49)).
    pose proof (SFdiv_le_pow2 prec64 emax64 prec64_pos prec64_lt_emax s false mB
                  5629499534213120 eB (-49) 30) as HC.
    cbv zeta in HC. set (dB := Zpos (digits2_pos mB)) in *.
    unfold prec64, emax64, SpecFloat.emin in HC.
    specialize (HC ltac:(lia) ltac:(reflexivity) ltac:(lia) ltac:(lia) ltac:(lia) ltac:(lia)).
    destruct HC as (HC1 & HC2 & HC3 & _).
    { replace (30 - (eB - -49 - (2 * 53 - dB))) with ((33 - eB) + (106 - dB - 52)) by lia.
      rewrite pow2_add by lia. replace (2 * 53 - dB) with ((106 - dB - 52) + 52) by lia.
      rewrite (pow2_add (106 - dB - 52) 52) by lia.
      pose proof (Z.pow_pos_nonneg 2 (106 - dB - 52) ltac:(lia) ltac:(lia)).
      pose proof (Z.pow_pos_nonneg 2 (33 - eB) ltac:(lia) ltac:(lia)).
      change (2 ^ 52) with 4503599627370496. nia. }
    rewrite xorb_false_r in HC3.
    unfold f64_div. split; [assumption|]. split; [assumption|]. split; [assumption|].
    intros Hs Hle. specialize (HP Hs Hle). cbn [mag_ge] in HP.
    unfold SpecFloat.emin, prec64, emax64 in HP.
    replace (eB - (3 - 1024 - 53)) with (eB + 1074) in HP by lia.
    change (6871947673600000 * 2 ^ (-36 - (3 - 1024 - 53))) with (100000 * 2 ^ 1074) in HP.
    pose proof (SFdiv_ge_repr prec64 emax64 prec64_pos s false mB 5629499534213120 eB (-49)
                  5497558138880000 (-39)) as HD.
    cbv zeta in HD. fold dB in HD. unfold prec64, emax64, SpecFloat.emin in HD.
    specialize (HD ltac:(lia) ltac:(reflexivity) ltac:(lia) ltac:(reflexivity)).
    destruct HD as (HD1 & _).
    { intros He'.
      pose proof (pow2_rebase 100000 (Zpos mB) 0 eB (-1074) (eB - (2 * 53 - dB))
                    ltac:(lia) ltac:(lia) ltac:(lia) ltac:(lia)) as Hrb.
      replace (0 - -1074) with 1074 in Hrb by lia.
      replace (eB - -1074) with (eB + 1074) in Hrb by lia.
      specialize (Hrb HP).
      replace (eB - (eB - (2 * 53 - dB))) with (2 * 53 - dB) in Hrb by lia.
      replace (0 - (eB - (2 * 53 - dB))) with (39 + (-39 - (eB - -49 - (2 * 53 - dB))) + 49) in Hrb by lia.
      rewrite !pow2_add in Hrb by lia.
      change (2 ^ 39) with 549755813888 in Hrb. change (2 ^ 49) with 562949953421312 in Hrb.
      pose proof (Z.pow_pos_nonneg 2 (-39 - (eB - -49 - (2 * 53 - dB))) ltac:(lia) ltac:(lia)).
      nia. }
    change (10000 * 2 ^ 1074) with (5497558138880000 * 2 ^ (-39 - (3 - 1024 - 53))).
    exact HD1.
Qed.

Lemma scaled_range (value : f32) :
  valid32 value = true -> fle_pow2 16 value ->
  exists n, scaled value = Some n
    /\ - 2 ^ 30 <= n <= 2 ^ 30
    /\ (fle f1 value = true -> 10000 <= n)
    /\ (fle value f0 = true -> n <= 0).
Proof.
  intros Hv Hle. destruct value as [s|s| |s m e]; cbn [fle_pow2] in Hle; try contradiction.
  - exists 0. split; [destruct s; reflexivity|]. split; [lia|]. split; [|intros _; lia].
    intros H. destruct s; discriminate H.
  - destruct (scaled_quotient s m e Hv Hle) as (HQ1 & HQ2 & HQ3 & HQ4).
    destruct (round_to_int_gen _ HQ1 HQ2) as (n & Hn & Hr & Hpos & Hneg).
    exists n. split; [exact Hn|]. split; [assumption|]. split.
    + intros H1. destruct s; [discriminate H1|].
      destruct (Hpos HQ3) as [_ HN]. apply HN. apply HQ4; [reflexivity|assumption].
    + intros H0. destruct s; [|discriminate H0]. apply Hneg. assumption.
Qed.

(** ** Saturation of the clamping calibrations *)

Lemma fge_pow2_mag_ge (prec emax k : Z) (x : spec_float) :
  valid_binary prec emax x = true -> emin prec emax <= k -> fge_pow2 k x ->
  mag_ge prec emax (2 ^ (k - emin prec emax)) x.
Proof.
  intros Hv Hk Hx. destruct x as [s|s| |s m e]; cbn [fge_pow2 mag_ge] in *; try contradiction.
  - exact I.
  - exact (fge_pow2_mag prec emax k s m e Hv Hk Hx).
Qed.

Lemma is_negative_not_gt1 (x : spec_float) : is_negative x -> flt f1 x = false.
Proof. destruct x as [s|s| |s m e]; try contradiction; destruct s; try contradiction; reflexivity. Qed.

(** The two clamps on a value that is at least one, and on a negative
    one. *)
Lemma clamp01_top (x : f32) :
  valid32 x = true -> sign_is false x -> mag_ge prec32 emax32 (2 ^ 149) x -> clamp01 x = f1.
Proof.
  intros Hv Hs Hge.
  destruct (clamp_hi prec32 emax32 prec32_pos 8388608 (-23) x eq_refl Hv Hs Hge) as [H0 H1].
  unfold clamp01, flt. change f0 with (S754_zero false).
  change f1 with (S754_finite false 8388608 (-23)). rewrite H0. exact H1.
Qed.

Lemma clamp01_negative (x : f32) : is_negative x -> clamp01 x = f0.
Proof. intros H. unfold clamp01. rewrite (is_negative_lt0 x H). reflexivity. Qed.

Lemma clamp10_top (x : f32) :
  valid32 x = true -> sign_is false x -> mag_ge prec32 emax32 (2 ^ 149) x ->
  (if flt f1 x then f1 else if flt x f0 then f0 else x) = f1.
Proof.
  intros Hv Hs Hge.
  destruct (clamp_hi prec32 emax32 prec32_pos 8388608 (-23) x eq_refl Hv Hs Hge) as [H0 H1].
  unfold flt. change f0 with (S754_zero false).
  change f1 with (S754_finite false 8388608 (-23)) in *.
  destruct (SFltb (S754_finite false 8388608 (-23)) x); [reflexivity|].
  rewrite H0. exact H1.
Qed.

Lemma clamp10_negative (x : f32) :
  is_negative x -> (if flt f1 x then f1 else if flt x f0 then f0 else x) = f0.
Proof.
  intros H. rewrite (is_negative_not_gt1 x H), (is_negative_lt0 x H). reflexivity.
Qed.

(** [(float)n] for [n >= N], against the [float] that holds [N]. *)
Lemma f32_of_int_ge (p : positive) (mb : positive) (eb : Z) (N : Z) :
  valid32 (S754_finite false mb eb) = true -> eb <= 0 ->
  Zpos mb = N * 2 ^ (- eb) -> N <= Zpos p ->
  let x := f32_of_int (Zpos p) in
  mag_ge prec32 emax32 (N * 2 ^ 149) x /\ valid32 x = true /\ sign_is false x.
Proof.
  intros HB Heb Hmb HN x. unfold x, f32_of_int. cbn [binary_normalize].
  pose proof HB as HB'. apply (valid_facts prec32 emax32) in HB' as ([Hb1 _] & _).
  unfold SpecFloat.emin, prec32, emax32 in Hb1.
  destruct (round_ge_repr prec32 emax32 prec32_pos false p 0 mb eb eb HB ltac:(lia) ltac:(lia))
    as (H1 & H2 & H3).
  { rewrite Z.sub_diag, Z.mul_1_r, Hmb. replace (0 - eb) with (- eb) by lia.
    pose proof (Z.pow_pos_nonneg 2 (- eb) ltac:(lia) ltac:(lia)). nia. }
  split; [|split; assumption].
  replace (N * 2 ^ 149) with (Zpos mb * 2 ^ (eb - SpecFloat.emin prec32 emax32)); [exact H1|].
  rewrite Hmb, <- Z.mul_assoc, <- pow2_add by fmt_lia. f_equal. f_equal. fmt_lia.
Qed.

(** A [float] of at least [N], divided as a [double] by the literal that
    holds [N], is at least one. *)
Lemma div_const_ge1 (mA : positive) (eA : Z) (N : Z) (mD : positive) (eD : Z) :
  valid32 (S754_finite false mA eA) = true ->
  N * 2 ^ 149 <= Zpos mA * 2 ^ (eA + 149) ->
  Zpos mD = N * 2 ^ (- eD) -> - 60 <= eD <= 0 -> Zpos (digits2_pos mD) = prec64 ->
  let C := f64_div (f32_to_f64 (S754_finite false mA eA)) (S754_finite false mD eD) in
  mag_ge prec64 emax64 (2 ^ 1074) C /\ valid64 C = true /\ sign_is false C.
Proof.
  intros Hv Hge HmD HeD HdD C.
  destruct (f32_to_f64_finite false mA eA Hv) as (m' & Hr & Hm' & Hj & Hd).
  set (j := prec64 - Zpos (digits2_pos mA)) in *.
  pose proof Hv as Hv'. apply (valid_facts prec32 emax32) in Hv' as ([He1 He2] & Hhi & Hlo).
  unfold SpecFloat.emin, prec32, emax32 in He1, He2.
  assert (Hjhi : j <= 52) by (unfold j, prec64; lia).
  unfold C. rewrite Hr.
  pose proof (SFdiv_ge_repr prec64 emax64 prec64_pos false false m' mD (eA - j) eD
                4503599627370496 (-52)) as HC.
  cbv zeta in HC. rewrite Hd in HC. unfold prec64, emax64, SpecFloat.emin in HC.
  replace (2 * 53 - 53) with 53 in HC by lia.
  specialize (HC ltac:(lia) HdD ltac:(lia) ltac:(reflexivity)).
  destruct HC as (HC1 & HC2 & HC3).
  { intros He'.
    pose proof (pow2_rebase N (Zpos mA) 0 eA (-149) (eA - j - 53)
                  ltac:(lia) ltac:(lia) ltac:(lia) ltac:(lia)) as Hrb.
    replace (0 - -149) with 149 in Hrb by lia. replace (eA - -149) with (eA + 149) in Hrb by lia.
    specialize (Hrb Hge).
    replace (eA - (eA - j - 53)) with (j + 53) in Hrb by lia.
    rewrite (pow2_add j 53) in Hrb by lia. rewrite Hm'.
    replace (0 - (eA - j - 53)) with ((-52 - (eA - j - eD - 53)) + (- eD) + 52) in Hrb by lia.
    rewrite !pow2_add in Hrb by lia. rewrite HmD.
    change 4503599627370496 with (2 ^ 52).
    pose proof (Z.pow_pos_nonneg 2 (-52 - (eA - j - eD - 53)) ltac:(lia) ltac:(lia)).
    pose proof (Z.pow_pos_nonneg 2 (- eD) ltac:(lia) ltac:(lia)).
    pose proof (Z.pow_pos_nonneg 2 j ltac:(lia) ltac:(lia)).
    change (2 ^ 52) with 4503599627370496 in *. change (2 ^ 53) with 9007199254740992 in *.
    nia. }
  split; [|split; assumption]. exact HC1.
Qed.

(** The same quotient for a negative [float] of magnitude at least one:
    it is negative and does not underflow. *)
Lemma div_const_negative (mA : positive) (eA : Z) (mD : positive) (eD : Z) :
  valid32 (S754_finite true mA eA) = true -> fge_pow2 0 (S754_finite true mA eA) ->
  Zpos mD < 2 ^ 53 -> - 60 <= eD <= 0 -> Zpos (digits2_pos mD) = prec64 ->
  let C := f64_div (f32_to_f64 (S754_finite true mA eA)) (S754_finite false mD eD) in
  fge_pow2 (eD - 53) C /\ valid64 C = true /\ sign_is true C.
Proof.
  intros Hv HA1 HmD HeD HdD C.
  destruct (f32_to_f64_finite true mA eA Hv) as (m' & Hr & Hm' & Hj & Hd).
  set (j := prec64 - Zpos (digits2_pos mA)) in *.
  pose proof Hv as Hv'. apply (valid_facts prec32 emax32) in Hv' as ([He1 He2] & Hhi & Hlo).
  unfold SpecFloat.emin, prec32, emax32 in He1, He2.
  assert (Hjhi : j <= 52) by (unfold j, prec64; lia).
  unfold C. rewrite Hr.
  pose proof (SFdiv_ge_pow2 prec64 emax64 prec64_pos prec64_lt_emax true false m' mD
                (eA - j) eD (eD - 53)) as HC.
  cbv zeta in HC. rewrite Hd in HC. unfold prec64, emax64, SpecFloat.emin in HC.
  replace (2 * 53 - 53) with 53 in HC by lia.
  specialize (HC ltac:(lia) HdD ltac:(lia) ltac:(lia)).
  apply HC.
  destruct (Z_lt_le_dec (eD - 53) (eA - j - eD - 53)) as [|Hle]; [left; assumption|right].
  replace (eD - 53 - (eA - j - eD - 53)) with (j + (2 * eD - eA)) by lia.
  cbn [fge_pow2] in HA1. rewrite Hm'.
  pose proof (Z.pow_pos_nonneg 2 j ltac:(lia) ltac:(lia)) as Hpj.
  assert (H2 : 2 ^ (j + (2 * eD - eA)) <= Zpos mA * 2 ^ j).
  { destruct (Z_lt_le_dec eA 0) as [Hneg|Hpos].
    - destruct HA1 as [Hlt|Hge]; [lia|].
      assert (2 ^ (j + (2 * eD - eA)) <= 2 ^ (j + (0 - eA))) by (apply pow2_le; lia).
      rewrite (pow2_add j (0 - eA)) in H by lia. nia.
    - assert (2 ^ (j + (2 * eD - eA)) <= 2 ^ j) by (apply pow2_le; lia). nia. }
  change (2 ^ 53) with 9007199254740992 in *.
  pose proof (Z.pow_pos_nonneg 2 (j + (2 * eD - eA)) ltac:(lia) ltac:(lia)). nia.
Qed.

Lemma f64_to_f32_ge1 (C : f64) :
  valid64 C = true -> sign_is false C -> mag_ge prec64 emax64 (2 ^ 1074) C ->
  let x := f64_to_f32 C in
  valid32 x = true /\ sign_is false x /\ mag_ge prec32 emax32 (2 ^ 149) x.
Proof.
  intros Hv Hs Hge x. unfold x.
  destruct C as [s|s| |s m e]; cbn [sign_is mag_ge] in Hs, Hge; try contradiction; subst s.
  - repeat split.
  - cbn [f64_to_f32].
    pose proof Hv as Hv'. apply (valid_facts prec64 emax64) in Hv' as ([He1 _] & _).
    destruct (round_ge_repr prec32 emax32 prec32_pos false m e 8388608 (-23)
                (SpecFloat.emin prec64 emax64)) as (H1 & H2 & H3);
      try assumption; try reflexivity; try fmt_lia.
    repeat split; assumption.
Qed.

Lemma f64_to_f32_negative (C : f64) (k : Z) :
  - 126 <= k -> fge_pow2 k C -> sign_is true C -> is_negative (f64_to_f32 C).
Proof.
  intros Hk Hge Hs.
  destruct C as [s|s| |s m e]; cbn [sign_is fge_pow2] in Hs, Hge; try contradiction; subst s.
  - exact I.
  - cbn [f64_to_f32].
    destruct (round_ge_pow2 prec32 emax32 prec32_pos prec32_lt_emax true m e k) as (H1 & _ & H3);
      try assumption; try fmt_lia.
    exact (fge_pow2_sign_true k _ H1 H3).
Qed.

(** *** The ranger *)

Lemma readUltrasonic_far (cm : Z) : 100 <= cm -> readUltrasonic cm = f1.
Proof.
  intros Hcm. destruct cm as [|p|p]; try lia.
  unfold readUltrasonic, readUltrasonic_of.
  destruct (f32_of_int_ge p 13107200 (-17) 100 eq_refl ltac:(lia) eq_refl Hcm) as (HA1 & HA2 & HA3).
  destruct (f32_of_int (Zpos p)) as [sA|sA| |sA mA eA];
    cbn [mag_ge sign_is] in HA1, HA3; try contradiction; subst sA; [reflexivity|].
  unfold SpecFloat.emin, prec32, emax32 in HA1.
  replace (eA - (3 - 128 - 24)) with (eA + 149) in HA1 by lia.
  change d100 with (S754_finite false 7036874417766400 (-46)).
  destruct (div_const_ge1 mA eA 100 7036874417766400 (-46) HA2 HA1 eq_refl ltac:(lia) eq_refl)
    as (HC1 & HC2 & HC3).
  destruct (f64_to_f32_ge1 _ HC2 HC3 HC1) as (HX1 & HX2 & HX3).
  apply clamp10_top; assumption.
Qed.

Lemma f32_of_int_negative (p : positive) :
  let x := f32_of_int (Zneg p) in
  x = S754_infinity true
  \/ exists m e, x = S754_finite true m e /\ valid32 x = true /\ fge_pow2 0 x.
Proof.
  intros x. unfold x, f32_of_int. cbn [binary_normalize].
  destruct (round_ge_pow2 prec32 emax32 prec32_pos prec32_lt_emax true p 0 0) as (H1 & H2 & H3).
  { fmt_lia. }
  { right. cbn. lia. }
  destruct (binary_round prec32 emax32 true p 0) as [s|s| |s m e];
    cbn [fge_pow2 sign_is] in H1, H3; try contradiction; subst s.
  - left. reflexivity.
  - right. exists m, e. repeat split; assumption.
Qed.

Lemma readUltrasonic_near (cm : Z) : cm <= 0 -> readUltrasonic cm = f0.
Proof.
  intros Hcm. destruct cm as [|p|p]; try lia; [reflexivity|].
  unfold readUltrasonic, readUltrasonic_of.
  destruct (f32_of_int_negative p) as [->|(mA & eA & -> & HA2 & HA1)]; [reflexivity|].
  change d100 with (S754_finite false 7036874417766400 (-46)).
  destruct (div_const_negative mA eA 7036874417766400 (-46) HA2 HA1 ltac:(reflexivity)
              ltac:(lia) eq_refl) as (HC1 & HC2 & HC3).
  apply clamp10_negative. apply (f64_to_f32_negative _ (-46 - 53)); [lia|assumption|assumption].
Qed.

(** *** The light sensor *)

(** [1.0 - C] for [C >= 1] is zero or negative; for [C <= 0] it is at
    least one. *)
Lemma one_minus_ge1 (C : f64) :
  valid64 C = true -> sign_is false C -> mag_ge prec64 emax64 (2 ^ 1074) C ->
  let D := f64_sub d1 C in
  D = S754_zero false \/ (fge_pow2 (-52) D /\ sign_is true D).
Proof.
  intros Hv Hs Hge D. unfold D, f64_sub.
  change d1 with (S754_finite false 4503599627370496 (-52)).
  destruct C as [s|s| |s m e]; cbn [sign_is mag_ge] in Hs, Hge; try contradiction; subst s.
  - right. split; [exact I|reflexivity].
  - apply (valid_facts prec64 emax64) in Hv as ([He1 He2] & Hhi & Hlo).
    unfold SpecFloat.emin, prec64, emax64 in *.
    replace (e - (3 - 1024 - 53)) with (e + 1074) in Hge by lia.
    assert (He : - 52 <= e).
    { destruct (Z_le_gt_dec (-52) e) as [|Hgt]; [assumption|exfalso].
      assert (2 ^ (53 + (e + 1074)) <= 2 ^ 1074) by (apply pow2_le; lia).
      rewrite pow2_add in H by lia.
      pose proof (Z.pow_pos_nonneg 2 (e + 1074) ltac:(lia) ltac:(lia)). nia. }
    rewrite SFsub_finite. replace (Z.min (-52) e) with (-52) by lia. cbn [cond_Zopp].
    replace (-52 - -52) with 0 by lia. rewrite Z.pow_0_r, Z.mul_1_r.
    assert (Hm : 4503599627370496 <= Zpos m * 2 ^ (e - -52)).
    { pose proof (pow2_rebase 1 (Zpos m) 0 e (-1074) (-52) ltac:(lia) ltac:(lia) ltac:(lia)
                    ltac:(lia)) as Hrb.
      replace (0 - -1074) with 1074 in Hrb by lia. replace (e - -1074) with (e + 1074) in Hrb by lia.
      specialize (Hrb ltac:(lia)). change (1 * 2 ^ (0 - -52)) with 4503599627370496 in Hrb.
      exact Hrb. }
    destruct (4503599627370496 - Zpos m * 2 ^ (e - -52)) as [|d|d] eqn:Ed; try lia.
    + left. reflexivity.
    + right. cbn [binary_normalize].
      destruct (round_ge_pow2 prec64 emax64 prec64_pos prec64_lt_emax true d (-52) (-52))
        as (H1 & _ & H3).
      { fmt_lia. }
      { right. cbn. lia. }
      split; assumption.
Qed.

Lemma one_minus_le0 (C : f64) :
  valid64 C = true -> sign_is true C ->
  let D := f64_sub d1 C in
  valid64 D = true /\ sign_is false D /\ mag_ge prec64 emax64 (2 ^ 1074) D.
Proof.
  intros Hv Hs D. unfold D, f64_sub.
  change d1 with (S754_finite false 4503599627370496 (-52)).
  destruct C as [s|s| |s m e]; cbn [sign_is] in Hs; try contradiction; subst s.
  - repeat split. cbn. unfold SpecFloat.emin, prec64, emax64. vm_compute. discriminate.
  - repeat split.
  - apply (valid_facts prec64 emax64) in Hv as ([He1 He2] & Hhi & Hlo).
    unfold SpecFloat.emin, prec64, emax64 in *.
    rewrite SFsub_finite. set (ez := Z.min (-52) e). cbn [cond_Zopp].
    pose proof (Z.pow_pos_nonneg 2 (-52 - ez) ltac:(lia) ltac:(unfold ez; lia)) as Hp1.
    pose proof (Z.pow_pos_nonneg 2 (e - ez) ltac:(lia) ltac:(unfold ez; lia)) as Hp2.
    destruct (4503599627370496 * 2 ^ (-52 - ez) - - (Zpos m * 2 ^ (e - ez))) as [|d|d] eqn:Ed;
      try lia.
    cbn [binary_normalize].
    destruct (round_ge_repr prec64 emax64 prec64_pos false d ez 4503599627370496 (-52) ez)
      as (H1 & H2 & H3); try reflexivity; try (unfold ez; lia).
    { rewrite Z.sub_diag, Z.mul_1_r. lia. }
    repeat split; assumption.
Qed.

Lemma readLight_bright (raw : Z) : 1023 <= raw -> readLight raw = f0.
Proof.
  intros Hraw. destruct raw as [|p|p]; try lia.
  unfold readLight.
  destruct (f32_of_int_ge p 16760832 (-14) 1023 eq_refl ltac:(lia) eq_refl Hraw)
    as (HA1 & HA2 & HA3).
  destruct (f32_of_int (Zpos p)) as [sA|sA| |sA mA eA];
    cbn [mag_ge sign_is] in HA1, HA3; try contradiction; subst sA; [reflexivity|].
  unfold SpecFloat.emin, prec32, emax32 in HA1.
  replace (eA - (3 - 128 - 24)) with (eA + 149) in HA1 by lia.
  change d1023 with (S754_finite false 8998403161718784 (-43)).
  destruct (div_const_ge1 mA eA 1023 8998403161718784 (-43) HA2 HA1 eq_refl ltac:(lia) eq_refl)
    as (HC1 & HC2 & HC3).
  destruct (one_minus_ge1 _ HC2 HC3 HC1) as [-> | [HD1 HD3]]; [reflexivity|].
  apply clamp01_negative. apply (f64_to_f32_negative _ (-52)); [lia|assumption|assumption].
Qed.

Lemma readLight_dark (raw : Z) : raw <= 0 -> readLight raw = f1.
Proof.
  intros Hraw. destruct raw as [|p|p]; try lia; [reflexivity|].
  unfold readLight.
  destruct (f32_of_int_negative p) as [->|(mA & eA & -> & HA2 & HA1)]; [reflexivity|].
  change d1023 with (S754_finite false 8998403161718784 (-43)).
  destruct (div_const_negative mA eA 8998403161718784 (-43) HA2 HA1 ltac:(reflexivity)
              ltac:(lia) eq_refl) as (HC1 & HC2 & HC3).
  destruct (one_minus_le0 _ HC2 HC3) as (HD2 & HD3 & HD1).
  destruct (f64_to_f32_ge1 _ HD2 HD3 HD1) as (HX1 & HX2 & HX3).
  apply clamp01_top; assumption.
Qed.

(** *** The temperature probe *)

(** A negative [float] of magnitude at least [2 ^ k], divided by
    [TEMP_RANGE], stays negative. *)
Lemma div_range_negative (X : f32) (k : Z) :
  - 121 <= k -> valid32 X = true -> fge_pow2 k X -> sign_is true X ->
  is_negative (f32_div X (f32_of_int TEMP_RANGE)).
Proof.
  intros Hk Hv HX1 HX3. change (f32_of_int TEMP_RANGE) with (S754_finite false 10485760 (-19)).
  destruct X as [s|s| |s mX eX]; cbn [fge_pow2 sign_is] in HX1, HX3; try contradiction; subst s.
  - exact I.
  - pose proof Hv as Hv'. apply (valid_facts prec32 emax32) in Hv' as ([He1 He2] & Hhi & Hlo).
    unfold SpecFloat.emin, prec32, emax32 in He1, He2, Hhi.
    pose proof (digits2_pos_bounds mX) as [Hdlo Hdhi].
    assert (Hd : Zpos (digits2_pos mX) <= 24) by (apply (Zdigits2_le (Zpos mX)); [lia|exact Hhi]).
    set (dX := Zpos (digits2_pos mX)) in *.
    assert (Hmag : k < dX + eX).
    { destruct HX1 as [Hlt|Hge]; [lia|].
      destruct (Z_lt_le_dec k (dX + eX)) as [|Hc]; [assumption|exfalso].
      assert (2 ^ dX <= 2 ^ (k - eX)) by (apply pow2_le; lia). lia. }
    pose proof (SFdiv_ge_pow2 prec32 emax32 prec32_pos prec32_lt_emax true false mX 10485760
                  eX (-19) (k - 5)) as HC.
    cbv zeta in HC. fold dX in HC. unfold prec32, emax32, SpecFloat.emin in HC.
    specialize (HC ltac:(lia) ltac:(reflexivity) ltac:(lia) ltac:(lia)).
    destruct HC as (HC1 & _ & HC3).
    { destruct (Z_lt_le_dec (k - 5) (eX - -19 - (2 * 24 - dX))) as [|Hle]; [left; assumption|right].
      replace (k - 5 - (eX - -19 - (2 * 24 - dX))) with (k + 24 - eX - dX) by lia.
      replace (2 * 24 - dX) with (48 - dX) by lia.
      pose proof (Z.pow_pos_nonneg 2 (k + 24 - eX - dX) ltac:(lia) ltac:(lia)) as Hpt.
      pose proof (Z.pow_pos_nonneg 2 (48 - dX) ltac:(lia) ltac:(lia)) as Hpd.
      assert (H1 : 2 ^ (k + 24 - eX - dX) * 2 ^ 24 <= Zpos mX * 2 ^ (48 - dX)).
      { rewrite <- pow2_add by lia.
        destruct HX1 as [Hlt|Hge].
        - assert (2 ^ (k + 24 - eX - dX + 24) <= 2 ^ (48 - dX)) by (apply pow2_le; lia). nia.
        - destruct (Z_lt_le_dec (k - eX) 0).
          + assert (2 ^ (k + 24 - eX - dX + 24) <= 2 ^ (48 - dX)) by (apply pow2_le; lia). nia.
          + replace (k + 24 - eX - dX + 24) with ((k - eX) + (48 - dX)) by lia.
            rewrite pow2_add by lia. nia. }
      change (2 ^ 24) with 16777216 in H1. nia. }
    unfold f32_div. exact (fge_pow2_sign_true _ _ HC1 HC3).
Qed.

Lemma readDhtTemperature_hot (raw previousValue : f32) :
  valid32 raw = true -> fle (f32_of_int (TEMP_MIN + TEMP_RANGE)) raw = true ->
  readDhtTemperature raw previousValue = f1.
Proof.
  intros Hv Hle. change (f32_of_int (TEMP_MIN + TEMP_RANGE)) with (S754_finite false 15728640 (-19)) in Hle.
  destruct (leb_mag_ge prec32 emax32 prec32_pos 15728640 (-19) raw eq_refl Hv Hle) as [Hs Hge].
  destruct raw as [s|s| |s m e]; cbn [sign_is mag_ge] in Hs, Hge; try contradiction; subst s;
    [reflexivity|].
  unfold readDhtTemperature. cbn [isnan].
  change (f32_of_int TEMP_MIN) with (S754_finite false 10485760 (-20)).
  change (f32_of_int TEMP_RANGE) with (S754_finite false 10485760 (-19)).
  pose proof Hv as Hv'. apply (valid_facts prec32 emax32) in Hv' as ([He1 He2] & Hhi & Hlo).
  unfold SpecFloat.emin, prec32, emax32 in He1, He2, Hhi, Hge.
  replace (e - (3 - 128 - 24)) with (e + 149) in Hge by lia.
  change (15728640 * 2 ^ (-19 - (3 - 128 - 24))) with (30 * 2 ^ 149) in Hge.
  assert (He : - 19 <= e).
  { destruct (Z_le_gt_dec (-19) e) as [|Hgt]; [assumption|exfalso].
    assert (2 ^ (e + 149) <= 2 ^ 129) by (apply pow2_le; lia).
    change (2 ^ 149) with (2 ^ 20 * 2 ^ 129) in Hge. change (2 ^ 24) with 16777216 in Hhi.
    change (2 ^ 20) with 1048576 in Hge.
    pose proof (Z.pow_pos_nonneg 2 129 ltac:(lia) ltac:(lia)).
    pose proof (Z.pow_pos_nonneg 2 (e + 149) ltac:(lia) ltac:(lia)). nia. }
  unfold f32_sub. rewrite SFsub_finite. replace (Z.min e (-20)) with (-20) by lia.
  cbn [cond_Zopp]. replace (-20 - -20) with 0 by lia. rewrite Z.pow_0_r, Z.mul_1_r.
  assert (Hm : 31457280 <= Zpos m * 2 ^ (e - -20)).
  { pose proof (pow2_rebase 30 (Zpos m) 0 e (-149) (-20) ltac:(lia) ltac:(lia) ltac:(lia)
                  ltac:(lia)) as Hrb.
    replace (0 - -149) with 149 in Hrb by lia. replace (e - -149) with (e + 149) in Hrb by lia.
    specialize (Hrb Hge). change (30 * 2 ^ (0 - -20)) with 31457280 in Hrb. exact Hrb. }
  destruct (Zpos m * 2 ^ (e - -20) - 10485760) as [|d|d] eqn:Ed; try lia.
  cbn [binary_normalize].
  destruct (round_ge_repr prec32 emax32 prec32_pos false d (-20) 10485760 (-19) (-20))
    as (HX1 & HX2 & HX3); try reflexivity; try lia.
  destruct (binary_round prec32 emax32 false d (-20)) as [sX|sX| |sX mX eX];
    cbn [mag_ge sign_is] in HX1, HX3; try contradiction; subst sX; [reflexivity|].
  pose proof HX2 as HvX. apply (valid_facts prec32 emax32) in HvX as ([HeX1 HeX2] & HhiX & HloX).
  unfold SpecFloat.emin, prec32, emax32 in HeX1, HeX2, HhiX, HX1.
  replace (eX - (3 - 128 - 24)) with (eX + 149) in HX1 by lia.
  change (10485760 * 2 ^ (-19 - (3 - 128 - 24))) with (20 * 2 ^ 149) in HX1.
  pose proof (digits2_pos_bounds mX) as [Hdlo Hdhi].
  assert (Hd : Zpos (digits2_pos mX) <= 24) by (apply (Zdigits2_le (Zpos mX)); [lia|exact HhiX]).
  set (dX := Zpos (digits2_pos mX)) in *.
  assert (Hmag : 5 <= dX + eX).
  { destruct (Z_le_gt_dec 5 (dX + eX)) as [|Hgt]; [assumption|exfalso].
    assert (2 ^ (dX + (eX + 149)) <= 2 ^ 153) by (apply pow2_le; lia).
    rewrite pow2_add in H by lia. change (2 ^ 153) with (16 * 2 ^ 149) in H.
    pose proof (Z.pow_pos_nonneg 2 149 ltac:(lia) ltac:(lia)).
    pose proof (Z.pow_pos_nonneg 2 (eX + 149) ltac:(lia) ltac:(lia)). nia. }
  pose proof (SFdiv_ge_repr prec32 emax32 prec32_pos false false mX 10485760 eX (-19)
                8388608 (-23)) as HY.
  cbv zeta in HY. fold dX in HY. unfold prec32, emax32, SpecFloat.emin in HY.
  specialize (HY ltac:(lia) ltac:(reflexivity) ltac:(lia) ltac:(reflexivity)).
  destruct HY as (HY1 & HY2 & HY3).
  { intros He'.
    pose proof (pow2_rebase 20 (Zpos mX) 0 eX (-149) (eX - (2 * 24 - dX))
                  ltac:(lia) ltac:(lia) ltac:(lia) ltac:(lia)) as Hrb.
    replace (0 - -149) with 149 in Hrb by lia. replace (eX - -149) with (eX + 149) in Hrb by lia.
    specialize (Hrb HX1).
    replace (eX - (eX - (2 * 24 - dX))) with (2 * 24 - dX) in Hrb by lia.
    replace (0 - (eX - (2 * 24 - dX))) with ((-23 - (eX - -19 - (2 * 24 - dX))) + 42) in Hrb by lia.
    rewrite pow2_add in Hrb by lia. change (2 ^ 42) with 4398046511104 in Hrb.
    pose proof (Z.pow_pos_nonneg 2 (-23 - (eX - -19 - (2 * 24 - dX))) ltac:(lia) ltac:(lia)).
    nia. }
  apply clamp01_top; assumption.
Qed.

Lemma readDhtTemperature_cold (raw previousValue : f32) :
  valid32 raw = true -> fle raw (f32_of_int TEMP_MIN) = true ->
  readDhtTemperature raw previousValue = f0.
Proof.
  intros Hv Hle. change (f32_of_int TEMP_MIN) with (S754_finite false 10485760 (-20)) in Hle.
  destruct raw as [s|s| |s m e]; try discriminate Hle.
  - destruct s; reflexivity.
  - destruct s; [reflexivity|discriminate Hle].
  - unfold readDhtTemperature. cbn [isnan].
    change (f32_of_int TEMP_MIN) with (S754_finite false 10485760 (-20)).
    pose proof Hv as Hv'. apply (valid_facts prec32 emax32) in Hv' as ([He1 He2] & Hhi & Hlo).
    unfold SpecFloat.emin, prec32, emax32 in He1, He2, Hhi, Hlo.
    unfold f32_sub. rewrite SFsub_finite. set (ez := Z.min e (-20)).
    destruct s; cbn [cond_Zopp].
    + (* a negative reading *)
      pose proof (Z.pow_pos_nonneg 2 (e - ez) ltac:(lia) ltac:(unfold ez; lia)) as Hp1.
      pose proof (Z.pow_pos_nonneg 2 (-20 - ez) ltac:(lia) ltac:(unfold ez; lia)) as Hp2.
      destruct (- (Zpos m * 2 ^ (e - ez)) - 10485760 * 2 ^ (-20 - ez)) as [|d|d] eqn:Ed; try lia.
      cbn [binary_normalize].
      destruct (round_ge_pow2 prec32 emax32 prec32_pos prec32_lt_emax true d ez 3)
        as (HX1 & HX2 & HX3).
      { fmt_lia. }
      { right. replace (3 - ez) with (23 + (-20 - ez)) by (unfold ez; lia).
        rewrite pow2_add by (unfold ez; lia). change (2 ^ 23) with 8388608. lia. }
      apply clamp01_negative. apply (div_range_negative _ 3); try assumption; lia.
    + (* a reading between zero and TEMP_MIN *)
      unfold fle, SFleb in Hle.
      rewrite (SFcompare_pos prec32 emax32 prec32_pos) in Hle by (assumption || reflexivity).
      cbn [Zmag] in Hle. unfold SpecFloat.emin, prec32, emax32 in Hle.
      assert (Hmag : Zpos m * 2 ^ (e + 149) <= 10 * 2 ^ 149).
      { replace (e - (3 - 128 - 24)) with (e + 149) in Hle by lia.
        change (10485760 * 2 ^ (-20 - (3 - 128 - 24))) with (10 * 2 ^ 149) in Hle.
        destruct (Z.compare_spec (Zpos m * 2 ^ (e + 149)) (10 * 2 ^ 149)); try lia; discriminate. }
      clear Hle.
      assert (He : e <= - 20).
      { destruct (Z_le_gt_dec e (-20)) as [|Hgt]; [assumption|exfalso].
        specialize (Hlo ltac:(lia)). change (2 ^ (24 - 1)) with 8388608 in Hlo.
        assert (2 ^ 130 <= 2 ^ (e + 149)) by (apply pow2_le; lia).
        change (2 ^ 149) with (524288 * 2 ^ 130) in Hmag.
        pose proof (Z.pow_pos_nonneg 2 130 ltac:(lia) ltac:(lia)). nia. }
      replace ez with e by (unfold ez; lia). rewrite Z.sub_diag, Z.pow_0_r, Z.mul_1_r.
      assert (Hm : Zpos m <= 10485760 * 2 ^ (-20 - e)).
      { pose proof (pow2_rebase (Zpos m) 10 e 0 (-149) e ltac:(lia) ltac:(lia) ltac:(lia)
                      ltac:(lia)) as Hrb.
        replace (0 - -149) with 149 in Hrb by lia. replace (e - -149) with (e + 149) in Hrb by lia.
        specialize (Hrb Hmag). rewrite Z.sub_diag, Z.mul_1_r in Hrb.
        replace (0 - e) with (20 + (-20 - e)) in Hrb by lia.
        rewrite pow2_add in Hrb by lia. change (2 ^ 20) with 1048576 in Hrb. lia. }
      pose proof (Z.pow_pos_nonneg 2 (-20 - e) ltac:(lia) ltac:(lia)) as Hp2.
      destruct (Zpos m - 10485760 * 2 ^ (-20 - e)) as [|d|d] eqn:Ed; try lia.
      * reflexivity.
      * cbn [binary_normalize].
        destruct (round_ge_pow2 prec32 emax32 prec32_pos prec32_lt_emax true d e (-20))
          as (HX1 & HX2 & HX3).
        { fmt_lia. }
        { right. destruct (Z.eq_dec e (-20)) as [->|Hne].
          - cbn. lia.
          - assert (2 <= 2 ^ (-20 - e)) by (change 2 with (2 ^ 1) at 1; apply pow2_le; lia).
            change (2 ^ 24) with 16777216 in Hhi. lia. }
        apply clamp01_negative. apply (div_range_negative _ (-20)); try assumption; lia.
Qed.

(** ** The rotary sensor loses no precision *)

Lemma valid32_intro (s : bool) (m : positive) (e : Z) :
  - 149 <= e <= 104 -> 2 ^ 23 <= Zpos m < 2 ^ 24 -> valid32 (S754_finite s m e) = true.
Proof.
  intros He Hm. cbn [valid32 valid_binary]. unfold bounded. apply andb_true_iff. split.
  - apply (canonical_intro prec32 emax32 prec32_pos); [fmt_lia|exact (proj2 Hm)|right; exact (proj1 Hm)].
  - apply Z.leb_le. fmt_lia.
Qed.

(** Division of a [double] by 4096.0 only moves the exponent. *)
Lemma div4096_exact (s : bool) (m : positive) (e : Z) :
  Zpos (digits2_pos m) = prec64 -> - 1000 <= e <= 900 ->
  f64_div (S754_finite s m e) d4096 = S754_finite s m (e - 12).
Proof.
  intros Hd He. change d4096 with (S754_finite false 4503599627370496 (-40)).
  pose proof (digits2_pos_bounds m) as [Hlo Hhi]. rewrite Hd in Hlo, Hhi.
  unfold prec64 in Hlo, Hhi.
  pose proof (SFdiv_finite prec64 emax64 prec64_pos s false m 4503599627370496 e (-40)) as H.
  cbv zeta in H. rewrite Hd in H. unfold prec64, emax64, SpecFloat.emin in H.
  replace (2 * 53 - 53) with 53 in H by lia.
  specialize (H ltac:(lia) ltac:(reflexivity) ltac:(lia)). destruct H as (Hx & Hq & Hfe).
  change 4503599627370496 with (2 ^ 52) in Hx, Hq, Hfe.
  assert (Hq2 : Zpos m * 2 ^ 53 / 2 ^ 52 = 2 * Zpos m).
  { change (2 ^ 53) with (2 * 2 ^ 52). rewrite Z.mul_assoc, Z.div_mul by lia. lia. }
  assert (Hr2 : (Zpos m * 2 ^ 53) mod 2 ^ 52 = 0).
  { change (2 ^ 53) with (2 * 2 ^ 52). rewrite Z.mul_assoc. apply Z.mod_mul. lia. }
  rewrite Hq2 in Hx, Hq, Hfe. rewrite Hr2, new_location_0, xorb_false_r in Hx.
  unfold f64_div, prec64, emax64. change 4503599627370496 with (2 ^ 52). rewrite Hx.
  destruct (binary_round_aux_spec 53 1024 ltac:(lia) s (2 * Zpos m) (e - -40 - 53) loc_Exact
              ltac:(lia) Hfe) as (m2 & Hm2 & Hex & Hm2hi & Hnorm & Hp).
  assert (Hdq : Zdigits2 (2 * Zpos m) = 54).
  { apply Z.le_antisymm.
    - apply Zdigits2_le; [lia|]. change (2 ^ 54) with (2 * 2 ^ 53). lia.
    - pose proof (Zdigits2_gt (2 * Zpos m) 53 ltac:(lia)) as Hg.
      change (2 ^ 53) with (2 * 2 ^ 52) in Hg. specialize (Hg ltac:(lia)). lia. }
  rewrite Hdq in *.
  assert (Hf : SpecFloat.fexp 53 1024 (54 + (e - -40 - 53)) = e - 12).
  { unfold SpecFloat.fexp, SpecFloat.emin. lia. }
  rewrite Hf in *. replace (e - 12 - (e - -40 - 53)) with 1 in * by lia.
  change (2 ^ 1) with 2 in *.
  assert (E2 : m2 = Zpos m).
  { rewrite Hex; [|reflexivity|].
    - rewrite Z.mul_comm, Z.div_mul; lia.
    - rewrite Z.mul_comm. apply Z.mod_mul. lia. }
  rewrite Hp, E2. unfold pack.
  destruct (Z.eqb_spec (Zpos m) (2 ^ 53)) as [Heq|_]; [lia|].
  cbn [finish]. destruct (Z.leb_spec (e - 12) (1024 - 53)); [reflexivity|lia].
Qed.

Lemma rotary_exact_form (p : positive) :
  26 <= Zpos p < 2 ^ 24 ->
  exists m e, readRotary (Zpos p) = S754_finite false m e
    /\ valid32 (S754_finite false m e) = true
    /\ 4096 * (Zpos m * 2 ^ (e + 149)) = Zpos p * 2 ^ 149.
Proof.
  intros Hp. unfold readRotary, f32_of_int. cbn [binary_normalize].
  pose proof (digits2_pos_bounds p) as [Hdlo Hdhi].
  assert (Hd : Zpos (digits2_pos p) <= 24) by (apply (Zdigits2_le (Zpos p)); lia).
  assert (Hd5 : 5 <= Zpos (digits2_pos p)).
  { pose proof (Zdigits2_gt (Zpos p) 4 ltac:(lia) ltac:(cbn; lia)) as Hg. cbn [Zdigits2] in Hg. lia. }
  set (d := Zpos (digits2_pos p)) in *.
  destruct (round_exact prec32 emax32 prec32_pos false p 0) as (mA & HA & HmA).
  { fmt_lia. }
  { fmt_lia. }
  assert (Hf : SpecFloat.fexp prec32 emax32 (Zpos (digits2_pos p) + 0) = d - 24).
  { fold d. fmt_lia. }
  rewrite Hf in HA, HmA. replace (0 - (d - 24)) with (24 - d) in HmA by lia.
  rewrite HA.
  pose proof (Z.pow_pos_nonneg 2 (24 - d) ltac:(lia) ltac:(lia)) as Hp24.
  assert (HmA2 : 2 ^ 23 <= Zpos mA < 2 ^ 24).
  { rewrite HmA. split.
    - replace 23 with ((d - 1) + (24 - d)) by lia. rewrite pow2_add by lia. nia.
    - replace 24 with (d + (24 - d)) at 2 by lia. rewrite pow2_add by lia. nia. }
  assert (HvA : valid32 (S754_finite false mA (d - 24)) = true) by (apply valid32_intro; lia).
  assert (Hval : Zpos mA * 2 ^ (d - 24 + 149) = Zpos p * 2 ^ 149).
  { rewrite HmA, <- Z.mul_assoc, <- pow2_add by lia. f_equal. f_equal. lia. }
  (* the reading is not in the dead zone *)
  assert (Hnlt : flt (S754_finite false mA (d - 24)) f26 = false).
  { apply le_not_lt. change f26 with (S754_finite false 13631488 (-19)).
    apply (mag_ge_leb prec32 emax32 prec32_pos); try assumption; try reflexivity.
    cbn [mag_ge]. unfold SpecFloat.emin, prec32, emax32.
    replace (d - 24 - (3 - 128 - 24)) with (d - 24 + 149) by lia. rewrite Hval.
    change (13631488 * 2 ^ (-19 - (3 - 128 - 24))) with (26 * 2 ^ 149).
    pose proof (Z.pow_pos_nonneg 2 149 ltac:(lia) ltac:(lia)). nia. }
  rewrite Hnlt.
  (* float -> double, the division, double -> float *)
  destruct (f32_to_f64_finite false mA (d - 24) HvA) as (m' & Hr & Hm' & Hj & Hdm').
  set (j := prec64 - Zpos (digits2_pos mA)) in *.
  assert (Hjhi : j <= 52) by (unfold j, prec64; lia).
  rewrite Hr, (div4096_exact false m' (d - 24 - j) Hdm' ltac:(lia)).
  assert (HvR : valid32 (S754_finite false mA (d - 24 - 12)) = true) by (apply valid32_intro; lia).
  destruct (f32_to_f64_finite false mA (d - 24 - 12) HvR) as (m'' & Hr' & Hm'' & _ & _).
  fold j in Hr', Hm''.
  assert (m'' = m') by (apply Pos2Z.inj; lia). subst m''.
  replace (d - 24 - j - 12) with (d - 24 - 12 - j) by lia.
  rewrite <- Hr', (f32_f64_roundtrip _ HvR).
  exists mA, (d - 24 - 12). split; [reflexivity|]. split; [assumption|].
  rewrite <- Hval.
  replace (d - 24 + 149) with ((d - 24 - 12 + 149) + 12) by lia.
  rewrite (pow2_add (d - 24 - 12 + 149) 12) by lia. change (2 ^ 12) with 4096. lia.
Qed.

(** Comparison of two negative numbers is comparison of their
    magnitudes, the other way round. *)
Lemma SFcompare_neg (m1 m2 : positive) (e1 e2 : Z) :
  SFcompare (S754_finite true m1 e1) (S754_finite true m2 e2)
  = SFcompare (S754_finite false m2 e2) (S754_finite false m1 e1).
Proof.
  cbn [SFcompare]. f_equal. rewrite (Z.compare_antisym e1 e2).
  destruct (e1 ?= e2); cbn [CompOpp]; try reflexivity.
  change (Pos.compare_cont Eq m1 m2) with (m1 ?= m2)%positive.
  change (Pos.compare_cont Eq m2 m1) with (m2 ?= m1)%positive.
  rewrite (Pos.compare_antisym m1 m2). reflexivity.
Qed.

Lemma mag_le_pow16 (s : bool) (m : positive) (e : Z) :
  valid32 (S754_finite s m e) = true ->
  SFleb (S754_finite false m e) (S754_finite false 8388608 (-7)) = true ->
  fle_pow2 16 (S754_finite s m e).
Proof.
  intros Hv Hle.
  assert (Hv' : valid32 (S754_finite false m e) = true) by exact Hv.
  unfold SFleb in Hle.
  rewrite (SFcompare_pos prec32 emax32 prec32_pos) in Hle by (assumption || reflexivity).
  apply (valid_facts prec32 emax32) in Hv' as ([He1 He2] & Hhi & Hlo).
  cbn [Zmag] in Hle. unfold SpecFloat.emin, prec32, emax32 in *.
  assert (Hmag : Zpos m * 2 ^ (e + 149) <= 2 ^ 165).
  { replace (e - (3 - 128 - 24)) with (e + 149) in Hle by lia.
    change (8388608 * 2 ^ (-7 - (3 - 128 - 24))) with (2 ^ 165) in Hle.
    destruct (Z.compare_spec (Zpos m * 2 ^ (e + 149)) (2 ^ 165)); try lia; discriminate. }
  assert (He16 : e <= 16).
  { destruct (Z_le_gt_dec e 16) as [|Hgt]; [assumption|exfalso].
    assert (2 ^ 165 < 2 ^ (e + 149)) by (apply pow2_lt; lia). nia. }
  cbn [fle_pow2]. split; [assumption|].
  pose proof (Z.pow_pos_nonneg 2 (e + 149) ltac:(lia) ltac:(lia)) as Hp.
  assert (Hs : 2 ^ 165 = 2 ^ (e + 149) * 2 ^ (16 - e)).
  { rewrite <- pow2_add by lia. f_equal. lia. }
  rewrite Hs in Hmag. nia.
Qed.

Lemma between_pow16 (v : f32) :
  valid32 v = true ->
  between (f32_of_int (- 65536)) (f32_of_int 65536) v = true -> fle_pow2 16 v.
Proof.
  intros Hv Hb. unfold between in Hb. apply andb_true_iff in Hb as [Hlo Hhi].
  change (f32_of_int 65536) with (S754_finite false 8388608 (-7)) in Hhi.
  change (f32_of_int (- 65536)) with (S754_finite true 8388608 (-7)) in Hlo.
  destruct v as [s|s| |s m e].
  - exact I.
  - destruct s; [discriminate Hlo|discriminate Hhi].
  - discriminate Hlo.
  - destruct s.
    + apply mag_le_pow16; [assumption|]. unfold fle, SFleb in *.
      rewrite SFcompare_neg in Hlo. exact Hlo.
    + apply mag_le_pow16; assumption.
Qed.

Lemma le_trans_65536 (v : f32) :
  fle f1 v = true -> fle (f32_of_int (- 65536)) v = true.
Proof. destruct v as [s|s| |s m e]; try discriminate; destruct s; try discriminate; reflexivity. Qed.

Lemma ge_trans_65536 (v : f32) :
  fle v f0 = true -> fle v (f32_of_int 65536) = true.
Proof. destruct v as [s|s| |s m e]; try discriminate; destruct s; try discriminate; reflexivity. Qed.

(** X8: [write7Seg] saturates: it shows 9, 9, 9, 9 for every value
    from 1 up to 65536 and 0, 0, 0, 0 for every value from -65536 up to
    0, the conversion to [int] being defined throughout. *)
Theorem write7Seg_saturates (hi lo : f32) :
  valid32 hi = true -> fle f1 hi = true -> fle hi (f32_of_int 65536) = true ->
  valid32 lo = true -> fle (f32_of_int (- 65536)) lo = true -> fle lo f0 = true ->
  write7Seg hi = Some [EvDisplay 0 9; EvDisplay 1 9; EvDisplay 2 9; EvDisplay 3 9]
  /\ write7Seg lo = Some [EvDisplay 0 0; EvDisplay 1 0; EvDisplay 2 0; EvDisplay 3 0].
Proof.
  intros Hvh H1 H2 Hvl H3 H4. split.
  - assert (Hb : fle_pow2 16 hi).
    { apply between_pow16; [assumption|]. unfold between.
      rewrite (le_trans_65536 hi H1), H2. reflexivity. }
    destruct (scaled_range hi Hvh Hb) as (n & Hn & _ & Hge & _). specialize (Hge H1).
    unfold write7Seg. rewrite Hn. unfold clamp9999.
    destruct (Z.ltb_spec 9999 n); [reflexivity|lia].
  - assert (Hb : fle_pow2 16 lo).
    { apply between_pow16; [assumption|]. unfold between.
      rewrite H3, (ge_trans_65536 lo H4). reflexivity. }
    destruct (scaled_range lo Hvl Hb) as (n & Hn & _ & _ & Hle). specialize (Hle H4).
    unfold write7Seg. rewrite Hn. unfold clamp9999.
    destruct (Z.ltb_spec 9999 n); [lia|]. destruct (Z.ltb_spec n 0); [reflexivity|].
    replace n with 0 by lia. reflexivity.
Qed.

Lemma write7Seg_saturates_witness :
  write7Seg (f32_of_int 2) = Some [EvDisplay 0 9; EvDisplay 1 9; EvDisplay 2 9; EvDisplay 3 9]
  /\ write7Seg (f32_of_int (- 3))
     = Some [EvDisplay 0 0; EvDisplay 1 0; EvDisplay 2 0; EvDisplay 3 0].
Proof. apply (write7Seg_saturates (f32_of_int 2) (f32_of_int (- 3))); reflexivity. Defined.

(** X9: [write7Seg] is defined -- its conversion to [int] stays
    inside the range of [int] -- for every value of magnitude at most
    65536, not only on [0, 1]; the scaled integer lies within 2^30 of
    zero.  At 262144 the conversion is undefined. *)
Theorem write7Seg_defined_range (value : f32) :
  valid32 value = true ->
  between (f32_of_int (- 65536)) (f32_of_int 65536) value = true ->
  (exists n, scaled value = Some n /\ - 2 ^ 30 <= n <= 2 ^ 30
             /\ write7Seg value = Some (digits7 (clamp9999 n)))
  /\ write7Seg (f32_of_int 262144) = None.
Proof.
  intros Hv Hb. split; [|reflexivity].
  destruct (scaled_range value Hv (between_pow16 value Hv Hb)) as (n & Hn & Hr & _).
  exists n. split; [assumption|]. split; [assumption|]. unfold write7Seg. rewrite Hn. reflexivity.
Qed.

Lemma write7Seg_defined_range_witness :
  (exists n, scaled (f32_of_int (- 65536)) = Some n /\ - 2 ^ 30 <= n <= 2 ^ 30
             /\ write7Seg (f32_of_int (- 65536)) = Some (digits7 (clamp9999 n)))
  /\ write7Seg (f32_of_int 262144) = None.
Proof. apply (write7Seg_defined_range (f32_of_int (- 65536))); reflexivity. Defined.

(** X4: [readUltrasonic] saturates as its comment says: every range
    of 100 cm or more (one metre and beyond) gives exactly 1.0, and every
    range of 0 or less gives exactly 0.0. *)
Theorem readUltrasonic_saturates (near far : Z) :
  near <= 0 -> 100 <= far -> readUltrasonic near = f0 /\ readUltrasonic far = f1.
Proof.
  intros Hn Hf. split; [apply readUltrasonic_near|apply readUltrasonic_far]; assumption.
Qed.

Lemma readUltrasonic_saturates_witness :
  readUltrasonic (- 7) = f0 /\ readUltrasonic 517 = f1.
Proof. apply (readUltrasonic_saturates (- 7) 517); lia. Defined.

(** X3: [readLight] saturates: every raw reading of 1023 or more
    gives exactly 0.0 and every raw reading of 0 or less gives exactly
    1.0. *)
Theorem readLight_saturates (dark bright : Z) :
  dark <= 0 -> 1023 <= bright -> readLight dark = f1 /\ readLight bright = f0.
Proof.
  intros Hd Hb. split; [apply readLight_dark|apply readLight_bright]; assumption.
Qed.

Lemma readLight_saturates_witness :
  readLight (- 1) = f1 /\ readLight 4095 = f0.
Proof. apply (readLight_saturates (- 1) 4095); lia. Defined.

(** X5: [readDhtTemperature] saturates as its comment says: every
    temperature up to TEMP_MIN (minus infinity included) gives exactly
    0.0 and every temperature from TEMP_MIN + TEMP_RANGE on (plus infinity
    included) gives exactly 1.0, whatever the previous value. *)
Theorem readDhtTemperature_saturates (cold hot previousValue : f32) :
  valid32 cold = true -> fle cold (f32_of_int TEMP_MIN) = true ->
  valid32 hot = true -> fle (f32_of_int (TEMP_MIN + TEMP_RANGE)) hot = true ->
  readDhtTemperature cold previousValue = f0 /\ readDhtTemperature hot previousValue = f1.
Proof.
  intros Hvc Hc Hvh Hh. split;
    [apply readDhtTemperature_cold|apply readDhtTemperature_hot]; assumption.
Qed.

Lemma readDhtTemperature_saturates_witness :
  readDhtTemperature (f32_of_int 7) f_0_12345 = f0
  /\ readDhtTemperature (f32_of_int 31) f_0_12345 = f1.
Proof.
  apply (readDhtTemperature_saturates (f32_of_int 7) (f32_of_int 31) f_0_12345); reflexivity.
Defined.

(** X6: above its dead zone [readRotary] loses no precision: for
    every raw reading from 26 up to 2^24 - 1 the returned [float] is
    exactly raw / 4096 (here: 4096 times its magnitude, in units of
    2^-149, is raw * 2^149), so the function is strictly increasing
    there. *)
Theorem readRotary_exact (raw raw' : Z) :
  26 <= raw -> raw < raw' -> raw' < 2 ^ 24 ->
  4096 * Zmag prec32 emax32 (readRotary raw) = raw * 2 ^ 149
  /\ 4096 * Zmag prec32 emax32 (readRotary raw') = raw' * 2 ^ 149
  /\ flt (readRotary raw) (readRotary raw') = true.
Proof.
  intros H1 H2 H3.
  destruct raw as [|p|p]; try lia. destruct raw' as [|p'|p']; try lia.
  destruct (rotary_exact_form p ltac:(lia)) as (m & e & Hr & Hv & Hx).
  destruct (rotary_exact_form p' ltac:(lia)) as (m' & e' & Hr' & Hv' & Hx').
  rewrite Hr, Hr'. cbn [Zmag]. unfold SpecFloat.emin, prec32, emax32.
  replace (e - (3 - 128 - 24)) with (e + 149) by lia.
  replace (e' - (3 - 128 - 24)) with (e' + 149) by lia.
  split; [assumption|]. split; [assumption|].
  unfold flt, SFltb. rewrite (SFcompare_pos prec32 emax32 prec32_pos) by assumption.
  cbn [Zmag]. unfold SpecFloat.emin, prec32, emax32.
  replace (e - (3 - 128 - 24)) with (e + 149) by lia.
  replace (e' - (3 - 128 - 24)) with (e' + 149) by lia.
  pose proof (Z.pow_pos_nonneg 2 149 ltac:(lia) ltac:(lia)) as Hp.
  destruct (Z.compare_spec (Zpos m * 2 ^ (e + 149)) (Zpos m' * 2 ^ (e' + 149))); try reflexivity; nia.
Qed.

Lemma readRotary_exact_witness :
  4096 * Zmag prec32 emax32 (readRotary 26) = 26 * 2 ^ 149
  /\ 4096 * Zmag prec32 emax32 (readRotary 4095) = 4095 * 2 ^ 149
  /\ flt (readRotary 26) (readRotary 4095) = true.
Proof. apply (readRotary_exact 26 4095); [lia|lia|reflexivity]. Defined.

(** ** A whole cycle at the ends of the range *)

Lemma readRotary_dead (raw : Z) : raw < 26 -> readRotary raw = f0.
Proof.
  intros H. destruct (Z_lt_le_dec raw 0) as [Hneg|Hpos].
  - destruct raw as [|p|p]; try lia. apply rotary_negative.
  - unfold readRotary.
    rewrite (forall_range (fun raw => flt (f32_of_int raw) f26) 26 eq_refl raw ltac:(lia)).
    reflexivity.
Qed.

Lemma read_sensor_zero (cfg : Config) (hw : Readings) (prev : f32) :
  reads_zero cfg hw -> fst (read_sensor cfg hw prev) = f0.
Proof.
  unfold read_sensor.
  intros [[Hs H]|[[Hs H]|[[Hs H]|[[Hs H]|[[Hs H]|[Hs [Hv H]]]]]]]; rewrite Hs;
    cbn [Z.eqb Pos.eqb SENSOR_BUTTON SENSOR_LIGHT SENSOR_ROTARY SENSOR_ULTRASONIC
         SENSOR_DHT_HUMIDITY SENSOR_DHT_TEMPERATURE fst].
  - unfold readButton. destruct (Z.eqb_spec (digital_level hw) HIGH); [contradiction|reflexivity].
  - rewrite H. vm_compute. reflexivity.
  - apply readLight_bright. assumption.
  - apply readRotary_dead. assumption.
  - apply readUltrasonic_near. assumption.
  - apply readDhtTemperature_cold; assumption.
Qed.

Lemma read_sensor_one (cfg : Config) (hw : Readings) (prev : f32) :
  reads_one cfg hw -> fst (read_sensor cfg hw prev) = f1.
Proof.
  unfold read_sensor.
  intros [[Hs H]|[[Hs H]|[[Hs H]|[[Hs H]|[[Hs H]|[Hs [Hv H]]]]]]]; rewrite Hs;
    cbn [Z.eqb Pos.eqb SENSOR_BUTTON SENSOR_LIGHT SENSOR_ROTARY SENSOR_ULTRASONIC
         SENSOR_DHT_HUMIDITY SENSOR_DHT_TEMPERATURE fst].
  - unfold readButton. rewrite H. reflexivity.
  - rewrite H. vm_compute. reflexivity.
  - apply readLight_dark. assumption.
  - rewrite H. vm_compute. reflexivity.
  - apply readUltrasonic_far. assumption.
  - apply readDhtTemperature_hot; assumption.
Qed.

Lemma loop_at_value (cfg : Config) (hw : Readings) (st : State) (c : f32) :
  fst (read_sensor cfg hw (SensorValue st)) = c -> canonical c ->
  exists wr,
    write_actuator cfg (invert cfg c) = Some wr
    /\ loop cfg hw st
       = Some ({| SensorValue := invert cfg c; PublishWaitCount := PublishWaitCount st |},
               snd (read_sensor cfg hw (SensorValue st)) ++ wr ++ [EvDelay INTERVAL]).
Proof.
  intros Hc Hcan. pose proof (write_actuator_defined cfg _ (invert_canonical cfg c Hcan)) as Hw.
  unfold loop. destruct (read_sensor cfg hw (SensorValue st)) as [c' rd]. cbn [fst snd] in *.
  subst c'. destruct (write_actuator cfg (invert cfg c)) as [wr|]; [|congruence].
  exists wr. split; reflexivity.
Qed.

(** X15: a whole cycle at the ends of the range, for each of the six
    sensors.  When the selected sensor reads the bottom of its range the
    cycle stores and renders 0.0, or 1.0 with the invert flag; when it
    reads the top it stores and renders 1.0, or 0.0 with the flag; in
    both cases the cycle completes on every actuator. *)
Theorem loop_at_the_ends (cfg : Config) (top : bool) (hw : Readings) (st : State) :
  (if top then reads_one cfg hw else reads_zero cfg hw) ->
  let v := if xorb top (REVERSE cfg) then f1 else f0 in
  exists wr,
    write_actuator cfg v = Some wr
    /\ loop cfg hw st
       = Some ({| SensorValue := v; PublishWaitCount := PublishWaitCount st |},
               snd (read_sensor cfg hw (SensorValue st)) ++ wr ++ [EvDelay INTERVAL]).
Proof.
  intros Hend v. destruct top.
  - destruct (loop_at_value cfg hw st f1 (read_sensor_one cfg hw _ Hend) canonical_f1)
      as (wr & Hw & Hl).
    replace (invert cfg f1) with v in Hw, Hl
      by (unfold v, invert; destruct (REVERSE cfg); reflexivity).
    exists wr. split; assumption.
  - destruct (loop_at_value cfg hw st f0 (read_sensor_zero cfg hw _ Hend) canonical_f0)
      as (wr & Hw & Hl).
    replace (invert cfg f0) with v in Hw, Hl
      by (unfold v, invert; destruct (REVERSE cfg); reflexivity).
    exists wr. split; assumption.
Qed.

Lemma loop_at_the_ends_witness :
  (let v := if xorb false (REVERSE rotary_reversed) then f1 else f0 in
   exists wr,
     write_actuator rotary_reversed v = Some wr
     /\ loop rotary_reversed quiet (init_state PUBLISH_WAIT)
        = Some ({| SensorValue := v;
                   PublishWaitCount := PublishWaitCount (init_state PUBLISH_WAIT) |},
                snd (read_sensor rotary_reversed quiet (SensorValue (init_state PUBLISH_WAIT)))
                ++ wr ++ [EvDelay INTERVAL]))
  /\ (let v := if xorb true (REVERSE humidity_plain) then f1 else f0 in
      exists wr,
        write_actuator humidity_plain v = Some wr
        /\ loop humidity_plain saturated_air (init_state PUBLISH_WAIT)
           = Some ({| SensorValue := v;
                      PublishWaitCount := PublishWaitCount (init_state PUBLISH_WAIT) |},
                   snd (read_sensor humidity_plain saturated_air
                          (SensorValue (init_state PUBLISH_WAIT)))
                   ++ wr ++ [EvDelay INTERVAL])).
Proof.
  split.
  - apply (loop_at_the_ends rotary_reversed false quiet (init_state PUBLISH_WAIT)).
    right. right. right. left. split; [reflexivity|cbn; lia].
  - apply (loop_at_the_ends humidity_plain true saturated_air (init_state PUBLISH_WAIT)).
    right. left. split; reflexivity.
Defined.

Lemma run_total_witness :
  exists st' evs, run shipped [quiet; quiet] (init_state PUBLISH_WAIT) = Some (st', evs)
                  /\ canonical (SensorValue st')
                  /\ PublishWaitCount st' = PublishWaitCount (init_state PUBLISH_WAIT)
                  /\ (forall x, ~ In (EvPublish x) evs).
Proof.
  apply (run_total shipped [quiet; quiet]).
  - repeat (apply Forall_cons; [split; [intros _; cbn; lia|intros H; discriminate H]|]).
    apply Forall_nil.
  - split; reflexivity.
Defined.

(** X17: with the invert flag clear, cycles that read nothing afresh
    -- no sensor selected, or the selected DHT read failing -- leave the
    stored value and the throttle counter exactly as they were, over any
    number of cycles. *)
Theorem memory_kept_over_run (cfg : Config) (hws : list Readings) (st st' : State)
        (evs : list event) :
  REVERSE cfg = false -> valid32 (SensorValue st) = true ->
  Forall (reads_nothing cfg) hws ->
  run cfg hws st = Some (st', evs) ->
  SensorValue st' = SensorValue st /\ PublishWaitCount st' = PublishWaitCount st.
Proof.
  intros Hr Hv Hn. revert st st' evs Hv.
  induction Hn as [|hw rest Hhw _ IH]; intros st st' evs Hv H.
  - cbn in H. injection H as <- _. split; reflexivity.
  - cbn [run] in H. destruct (loop cfg hw st) as [[st1 evs1]|] eqn:E1; [|discriminate H].
    destruct (run cfg rest st1) as [[st2 evs2]|] eqn:E2; [|discriminate H].
    injection H as <- _.
    destruct (loop_steps cfg hw st st1 evs1 E1) as (_ & _ & _ & Hs & Hp & _).
    unfold invert in Hs. rewrite Hr, (read_nothing_keeps cfg hw _ Hhw Hv) in Hs.
    destruct (IH st1 st2 evs2 ltac:(rewrite Hs; exact Hv) E2) as [H1 H2].
    split; congruence.
Qed.

Lemma memory_kept_over_run_witness :
  SensorValue {| SensorValue := f_0_12345; PublishWaitCount := 100 |}
  = SensorValue {| SensorValue := f_0_12345; PublishWaitCount := 100 |}
  /\ PublishWaitCount {| SensorValue := f_0_12345; PublishWaitCount := 100 |}
     = PublishWaitCount {| SensorValue := f_0_12345; PublishWaitCount := 100 |}.
Proof.
  apply (memory_kept_over_run humidity_plain [probe_failed; probe_failed]
           {| SensorValue := f_0_12345; PublishWaitCount := 100 |}
           {| SensorValue := f_0_12345; PublishWaitCount := 100 |}
           [EvReadHumidity; EvAnalogWrite ACTUATOR_BUZZ_PIN (scale255 f_0_12345); EvDelay INTERVAL;
            EvReadHumidity; EvAnalogWrite ACTUATOR_BUZZ_PIN (scale255 f_0_12345); EvDelay INTERVAL]).
  - reflexivity.
  - reflexivity.
  - repeat (apply Forall_cons; [right; left; split; reflexivity|]). apply Forall_nil.
  - vm_compute. reflexivity.
Defined.

(** ** Rounding is monotone *)

Lemma cell_eq (N D q r : Z) :
  0 <= r < D -> N = q * D + r -> cell N D = 2 * q + (if r =? 0 then 0 else 1).
Proof.
  intros Hr HN. unfold cell.
  assert (Hq : N / D = q) by (symmetry; apply Z.div_unique with r; lia).
  assert (Hm : N mod D = r) by (symmetry; apply Z.mod_unique with q; lia).
  rewrite Hq, Hm. reflexivity.
Qed.

Lemma cell_cell (N D K : Z) :
  0 < D -> 0 < K -> cell (cell N D) (2 * K) = cell N (D * K).
Proof.
  intros HD HK.
  pose proof (Z.div_mod N D ltac:(lia)) as HN.
  pose proof (Z.mod_pos_bound N D HD) as Hr.
  set (q := N / D) in *. set (r := N mod D) in *.
  pose proof (Z.div_mod q K ltac:(lia)) as Hq.
  pose proof (Z.mod_pos_bound q K HK) as Hqr.
  set (qq := q / K) in *. set (qr := q mod K) in *.
  rewrite (cell_eq N D q r Hr ltac:(lia)).
  rewrite (cell_eq N (D * K) qq (D * qr + r)); [| nia | nia].
  rewrite (cell_eq _ (2 * K) qq (2 * qr + (if r =? 0 then 0 else 1)));
    [|destruct (r =? 0); lia|destruct (r =? 0); lia].
  f_equal.
  destruct (Z.eqb_spec r 0) as [Hr0|Hr0].
  - subst r. rewrite Hr0, Z.add_0_r, Z.add_0_r.
    destruct (Z.eqb_spec (2 * qr) 0), (Z.eqb_spec (D * qr) 0); try reflexivity; nia.
  - destruct (Z.eqb_spec (2 * qr + 1) 0), (Z.eqb_spec (D * qr + r) 0); try reflexivity; nia.
Qed.

Lemma cell_mono (N1 D1 N2 D2 : Z) :
  0 < D1 -> 0 < D2 -> N1 * D2 <= N2 * D1 -> cell N1 D1 <= cell N2 D2.
Proof.
  intros H1 H2 H. unfold cell.
  pose proof (Z.div_mod N1 D1 ltac:(lia)) as E1.
  pose proof (Z.mod_pos_bound N1 D1 H1) as R1.
  pose proof (Z.div_mod N2 D2 ltac:(lia)) as E2.
  pose proof (Z.mod_pos_bound N2 D2 H2) as R2.
  set (q1 := N1 / D1) in *. set (r1 := N1 mod D1) in *.
  set (q2 := N2 / D2) in *. set (r2 := N2 mod D2) in *.
  assert (Hq : q1 <= q2).
  { destruct (Z_lt_le_dec q2 q1) as [Hlt|]; [exfalso|assumption].
    assert (H3 : (q2 + 1) * (D1 * D2) <= q1 * (D1 * D2)) by (apply Z.mul_le_mono_nonneg_r; nia).
    assert (H4 : q1 * D1 * D2 <= N1 * D2) by (apply Z.mul_le_mono_nonneg_r; lia).
    assert (H5 : N2 * D1 < (q2 + 1) * D2 * D1) by (apply Z.mul_lt_mono_pos_r; lia).
    lia. }
  destruct (Z.eq_dec q1 q2) as [Heq|Hne].
  - destruct (Z.eqb_spec r2 0) as [Hr2|Hr2]; destruct (Z.eqb_spec r1 0) as [Hr1|Hr1]; try lia; nia.
  - destruct (r1 =? 0), (r2 =? 0); lia.
Qed.

Lemma cell_bounds (N D m : Z) :
  0 < D -> 4 * m <= cell N D <= 4 * m + 3 -> 2 * m * D <= N < (2 * m + 2) * D.
Proof.
  intros HD H. unfold cell in H.
  pose proof (Z.div_mod N D ltac:(lia)) as E.
  pose proof (Z.mod_pos_bound N D HD) as R.
  set (q := N / D) in *. set (r := N mod D) in *.
  assert (2 * m <= q <= 2 * m + 1) by (revert H; destruct (r =? 0); lia).
  nia.
Qed.

Lemma code_bounds (mrs : shr_record) : 4 * shr_m mrs <= code mrs <= 4 * shr_m mrs + 3.
Proof. destruct mrs as [m [|] [|]]; unfold code; cbn [shr_m shr_r shr_s Z.b2z]; lia. Qed.

Lemma code_of_loc_exact (m : Z) : code (shr_record_of_loc m loc_Exact) = cell (2 * m) 1.
Proof.
  unfold code, cell. cbn [shr_record_of_loc shr_m shr_r shr_s Z.b2z].
  rewrite Z.div_1_r, Z.mod_1_r, Z.eqb_refl. lia.
Qed.

Lemma shr_1_code (mrs : shr_record) :
  0 <= shr_m mrs -> code (shr_1 mrs) = cell (code mrs) 4.
Proof.
  destruct mrs as [m r s]. cbn [shr_m]. intros Hm.
  pose proof (Z.div_mod m 2 ltac:(lia)) as E.
  pose proof (Z.mod_pos_bound m 2 ltac:(lia)) as R.
  assert (Hc : code (shr_1 (Build_shr_record m r s))
               = 4 * (m / 2) + 2 * (m mod 2) + Z.b2z (r || s)).
  { unfold code. destruct m as [|p|p]; [reflexivity| |lia].
    destruct p as [p|p|]; cbn [shr_1 shr_m shr_r shr_s].
    - assert (A : Z.pos p~1 / 2 = Z.pos p) by (symmetry; apply Z.div_unique with 1; lia).
      assert (B : Z.pos p~1 mod 2 = 1) by (symmetry; apply Z.mod_unique with (Z.pos p); lia).
      rewrite A, B. cbn [Z.b2z]. lia.
    - assert (A : Z.pos p~0 / 2 = Z.pos p) by (symmetry; apply Z.div_unique with 0; lia).
      assert (B : Z.pos p~0 mod 2 = 0) by (symmetry; apply Z.mod_unique with (Z.pos p); lia).
      rewrite A, B. cbn [Z.b2z]. lia.
    - reflexivity. }
  rewrite Hc. unfold code at 1. cbn [shr_m shr_r shr_s].
  rewrite (cell_eq _ 4 m (2 * Z.b2z r + Z.b2z s));
    [|destruct r, s; cbn [Z.b2z]; lia|lia].
  destruct (Z.eqb_spec (2 * Z.b2z r + Z.b2z s) 0); destruct r, s; cbn [Z.b2z orb] in *; lia.
Qed.

Lemma code_cell_self (mrs : shr_record) : code mrs = cell (code mrs) 2.
Proof.
  unfold code. destruct mrs as [m r s]. cbn [shr_m shr_r shr_s].
  rewrite (cell_eq _ 2 (2 * m + Z.b2z r) (Z.b2z s)); [|destruct s; cbn; lia|lia].
  destruct (Z.eqb_spec (Z.b2z s) 0); destruct s; cbn [Z.b2z] in *; lia.
Qed.

Lemma shr_iter_code (n : nat) (mrs : shr_record) :
  0 <= shr_m mrs -> code (Nat.iter n shr_1 mrs) = cell (code mrs) (2 * 2 ^ Z.of_nat n).
Proof.
  intros Hm. induction n as [|n IH].
  - change (Nat.iter 0 shr_1 mrs) with mrs. change (2 * 2 ^ Z.of_nat 0) with 2.
    apply code_cell_self.
  - rewrite Nat.iter_succ, shr_1_code.
    + rewrite IH. change 4 with (2 * 2).
      rewrite cell_cell by (try apply Z.mul_pos_pos; try apply Z.pow_pos_nonneg; lia).
      f_equal. rewrite Nat2Z.inj_succ, Z.pow_succ_r by lia. lia.
    + rewrite shr_iter_m by assumption.
      apply Z.div_pos; [assumption|apply Z.pow_pos_nonneg; lia].
Qed.

Lemma shr_code (m e n : Z) (l : location) :
  0 <= m -> 0 <= n ->
  exists mrs, shr (shr_record_of_loc m l) e n = (mrs, e + n)
    /\ shr_m mrs = m / 2 ^ n
    /\ code mrs = cell (code (shr_record_of_loc m l)) (2 * 2 ^ n).
Proof.
  intros Hm Hn. destruct n as [|p|p]; [| |lia].
  - exists (shr_record_of_loc m l). cbn [shr]. rewrite Z.add_0_r, shr_m_record, Z.div_1_r.
    repeat split. apply (shr_iter_code 0). rewrite shr_m_record. assumption.
  - exists (iter_pos shr_1 p (shr_record_of_loc m l)). cbn [shr].
    split; [reflexivity|]. rewrite iter_pos_nat.
    rewrite <- (positive_nat_Z p). split.
    + rewrite shr_iter_m; rewrite shr_m_record; [reflexivity|assumption].
    + apply shr_iter_code. rewrite shr_m_record. assumption.
Qed.

(** Rounding to nearest even respects the order of the codes. *)
Lemma rne_code_mono (a b : shr_record) :
  code a <= code b ->
  round_nearest_even (shr_m a) (loc_of_shr_record a)
  <= round_nearest_even (shr_m b) (loc_of_shr_record b).
Proof.
  intros H.
  pose proof (rne_bounds (shr_m a) (loc_of_shr_record a)) as Ha.
  pose proof (rne_bounds (shr_m b) (loc_of_shr_record b)) as Hb.
  pose proof (code_bounds a) as Ca. pose proof (code_bounds b) as Cb.
  destruct (Z_lt_le_dec (shr_m a) (shr_m b)) as [Hlt|Hge]; [lia|].
  assert (Heq : shr_m a = shr_m b) by lia.
  destruct a as [ma ra sa], b as [mb rb sb]. cbn [shr_m] in *. subst mb.
  unfold code in H. cbn [shr_m shr_r shr_s] in H.
  destruct ra, sa, rb, sb; cbn [Z.b2z] in H; try lia;
    cbn [loc_of_shr_record round_nearest_even]; try lia;
    destruct (Z.even ma); lia.
Qed.

Section Monotone.
Variables prec emax : Z.
Hypothesis prec_pos : 0 < prec.
Hypothesis prec_lt_emax : prec < emax.

Local Abbreviation emin := (emin prec emax).
Local Abbreviation fexp := (fexp prec emax).
Local Abbreviation valid := (valid_binary prec emax).

(** The rounding step in normal form, with the rounded mantissa given by
    the code of the shifted input. *)
Lemma binary_round_aux_code (m e : Z) (l : location) (N D : Z) :
  0 < m -> e <= fexp (Zdigits2 m + e) ->
  0 < D -> code (shr_record_of_loc m l) = cell N D ->
  let et := fexp (Zdigits2 m + e) in
  exists mrs,
    let m2 := round_nearest_even (shr_m mrs) (loc_of_shr_record mrs) in
    code mrs = cell N (D * 2 ^ (et - e))
    /\ 0 <= m2 <= 2 ^ prec
    /\ (et = emin \/ 2 ^ (prec - 1) <= m2)
    /\ forall s, binary_round_aux prec emax s m e l = pack prec emax s m2 et.
Proof.
  intros Hm He HD Hc et. set (n := et - e).
  assert (Hn : 0 <= n) by (unfold n, et; lia).
  destruct (shr_code m e n l ltac:(lia) Hn) as (mrs & Hshr & Hmrs & Hcode).
  exists mrs. cbv zeta.
  set (m2 := round_nearest_even (shr_m mrs) (loc_of_shr_record mrs)).
  pose proof (rne_bounds (shr_m mrs) (loc_of_shr_record mrs)) as Hb. fold m2 in Hb.
  rewrite Hmrs in Hb.
  pose proof (Zdigits2_bounds m Hm) as [Hdlo Hdhi].
  pose proof (Zdigits2_pos m Hm) as Hdpos.
  pose proof (Z.pow_pos_nonneg 2 n ltac:(lia) Hn) as Hpn.
  assert (Hq0 : 0 <= m / 2 ^ n) by (apply Z.div_pos; lia).
  assert (Hq : m / 2 ^ n < 2 ^ prec).
  { apply Z.div_lt_upper_bound; [assumption|]. rewrite <- Z.pow_add_r by lia.
    eapply Z.lt_le_trans; [exact Hdhi|]. apply Z.pow_le_mono_r; [lia|].
    unfold n, et. pose proof (fexp_ge prec emax (Zdigits2 m + e)). lia. }
  split.
  { rewrite Hcode, Hc. apply cell_cell; lia. }
  split; [lia|]. split.
  { destruct (Z.eq_dec et emin) as [|Hne]; [left; assumption|right].
    assert (Hf : et = Zdigits2 m + e - prec) by (unfold et, SpecFloat.fexp in *; lia).
    apply Z.le_trans with (m / 2 ^ n); [|lia].
    apply Z.div_le_lower_bound; [assumption|]. rewrite <- Z.pow_add_r by lia.
    replace (n + (prec - 1)) with (Zdigits2 m - 1) by (unfold n; lia). assumption. }
  intros s. unfold binary_round_aux. unfold shr_fexp at 1. fold et. fold n.
  rewrite Hshr. replace (e + n) with et by (unfold n; lia).
  apply second_shift; [assumption|lia|apply fexp_ge_emin].
Qed.

Lemma Zord_pack (s : bool) (m e : Z) :
  0 <= m <= 2 ^ prec -> emin <= e -> (e = emin \/ 2 ^ (prec - 1) <= m) ->
  Zord prec emax (pack prec emax s m e)
  = cond_Zopp s (Z.min (m * 2 ^ (e - emin)) (2 ^ (emax - emin))).
Proof.
  intros Hm He Hn.
  pose proof (Z.pow_pos_nonneg 2 (prec - 1) ltac:(lia) ltac:(lia)) as Hp1.
  pose proof (Z.pow_pos_nonneg 2 (e - emin) ltac:(lia) ltac:(lia)) as Hpe.
  assert (Hpp : 2 ^ prec = 2 * 2 ^ (prec - 1)).
  { replace prec with (1 + (prec - 1)) at 1 by lia. rewrite pow2_add by lia. reflexivity. }
  assert (Hemin : emin < emax - prec) by (unfold SpecFloat.emin; lia).
  assert (Hlow : forall k, k <= emax - prec -> 2 ^ prec * 2 ^ (k - emin) <= 2 ^ (emax - emin)).
  { intros k Hk. destruct (Z_lt_le_dec k emin).
    - rewrite (Z.pow_neg_r 2 (k - emin)) by lia. rewrite Z.mul_0_r. apply Z.pow_nonneg. lia.
    - rewrite <- pow2_add by lia. apply pow2_le. lia. }
  assert (Hhigh : forall k, emax - prec < k -> 2 ^ (emax - emin) <= 2 ^ (prec - 1) * 2 ^ (k - emin)).
  { intros k Hk. rewrite <- pow2_add by lia. apply pow2_le. lia. }
  unfold pack. destruct (Z.eqb_spec m (2 ^ prec)) as [->|Hne].
  - unfold finish. destruct (2 ^ (prec - 1)) as [|p|p] eqn:E; try lia.
    assert (Hv : Zpos p * 2 ^ (e + 1 - emin) = 2 ^ prec * 2 ^ (e - emin)).
    { replace (e + 1 - emin) with (1 + (e - emin)) by lia. rewrite pow2_add by lia.
      change (2 ^ 1) with 2. lia. }
    destruct (Z.leb_spec (e + 1) (emax - prec)) as [Hb|Hb].
    + unfold Zord. rewrite Hv. f_equal. pose proof (Hlow e ltac:(lia)). lia.
    + unfold Zord. f_equal. pose proof (Hhigh (e + 1) ltac:(lia)). lia.
  - unfold finish. destruct m as [|p|p]; [|  |lia].
    + unfold Zord. rewrite Z.mul_0_l, Z.min_l by (apply Z.pow_nonneg; lia).
      destruct s; reflexivity.
    + destruct (Z.leb_spec e (emax - prec)) as [Hb|Hb]; unfold Zord; f_equal.
      * pose proof (Hlow e Hb). nia.
      * destruct Hn as [->|Hn]; [lia|]. pose proof (Hhigh e Hb). nia.
Qed.

Lemma Zord_round_aux_sign (s : bool) (m e : Z) (l : location) :
  0 < m -> e <= fexp (Zdigits2 m + e) ->
  Zord prec emax (binary_round_aux prec emax s m e l)
  = cond_Zopp s (Zord prec emax (binary_round_aux prec emax false m e l))
  /\ 0 <= Zord prec emax (binary_round_aux prec emax false m e l) <= 2 ^ (emax - emin).
Proof.
  intros Hm He.
  destruct (binary_round_aux_code m e l (code (shr_record_of_loc m l)) 2 Hm He ltac:(lia)
              (code_cell_self _)) as (mrs & _ & Hb & Hn & Hx).
  pose proof (fexp_ge_emin prec emax (Zdigits2 m + e)) as Hfe.
  rewrite !Hx, !Zord_pack by assumption. cbn [cond_Zopp]. split; [reflexivity|].
  pose proof (Z.pow_pos_nonneg 2 (fexp (Zdigits2 m + e) - emin) ltac:(lia) ltac:(lia)).
  pose proof (Z.pow_pos_nonneg 2 (emax - emin) ltac:(lia) ltac:(unfold SpecFloat.emin; lia)).
  split; [apply Z.min_glb; nia|apply Z.le_min_r].
Qed.

(** Two located inputs in the order of the numbers they stand for round
    to results in the same order. *)
Lemma round_aux_mono (m1 e1 : Z) (l1 : location) (N1 D1 : Z)
      (m2 e2 : Z) (l2 : location) (N2 D2 b : Z) :
  0 < m1 -> e1 <= fexp (Zdigits2 m1 + e1) ->
  0 < D1 -> code (shr_record_of_loc m1 l1) = cell N1 D1 ->
  0 < m2 -> e2 <= fexp (Zdigits2 m2 + e2) ->
  0 < D2 -> code (shr_record_of_loc m2 l2) = cell N2 D2 ->
  b <= e1 -> b <= e2 ->
  N1 * D2 * 2 ^ (e1 - b) <= N2 * D1 * 2 ^ (e2 - b) ->
  Zord prec emax (binary_round_aux prec emax false m1 e1 l1)
  <= Zord prec emax (binary_round_aux prec emax false m2 e2 l2).
Proof.
  intros Hm1 He1 HD1 Hc1 Hm2 He2 HD2 Hc2 Hb1 Hb2 Hle.
  destruct (binary_round_aux_code m1 e1 l1 N1 D1 Hm1 He1 HD1 Hc1) as (r1 & Hr1 & Hb1' & Hn1 & Hx1).
  destruct (binary_round_aux_code m2 e2 l2 N2 D2 Hm2 He2 HD2 Hc2) as (r2 & Hr2 & Hb2' & Hn2 & Hx2).
  cbv zeta in *.
  set (et1 := fexp (Zdigits2 m1 + e1)) in *. set (et2 := fexp (Zdigits2 m2 + e2)) in *.
  set (v1 := round_nearest_even (shr_m r1) (loc_of_shr_record r1)) in *.
  set (v2 := round_nearest_even (shr_m r2) (loc_of_shr_record r2)) in *.
  assert (Het1 : emin <= et1) by apply fexp_ge_emin.
  assert (Het2 : emin <= et2) by apply fexp_ge_emin.
  rewrite Hx1, Hx2, !Zord_pack by assumption. cbn [cond_Zopp].
  apply Z.min_le_compat_r.
  pose proof (Z.pow_pos_nonneg 2 (e1 - b) ltac:(lia) ltac:(lia)) as HP1.
  pose proof (Z.pow_pos_nonneg 2 (e2 - b) ltac:(lia) ltac:(lia)) as HP2.
  (* the magnitudes are ordered *)
  assert (Hmag : Zdigits2 m1 + e1 <= Zdigits2 m2 + e2).
  { pose proof (code_bounds (shr_record_of_loc m1 l1)) as C1. rewrite shr_m_record, Hc1 in C1.
    pose proof (code_bounds (shr_record_of_loc m2 l2)) as C2. rewrite shr_m_record, Hc2 in C2.
    apply cell_bounds in C1; [|assumption]. apply cell_bounds in C2; [|assumption].
    pose proof (Zdigits2_bounds m1 Hm1) as [Hlo1 Hhi1].
    pose proof (Zdigits2_bounds m2 Hm2) as [Hlo2 Hhi2].
    pose proof (Zdigits2_pos m1 Hm1) as Hd1. pose proof (Zdigits2_pos m2 Hm2) as Hd2.
    destruct (Z_lt_le_dec (Zdigits2 m2 + e2) (Zdigits2 m1 + e1)) as [Hlt|]; [exfalso|assumption].
    assert (A : (m2 + 1) * 2 ^ (e2 - b) <= m1 * 2 ^ (e1 - b)).
    { apply Z.le_trans with (2 ^ Zdigits2 m2 * 2 ^ (e2 - b)); [apply Z.mul_le_mono_nonneg_r; lia|].
      apply Z.le_trans with (2 ^ (Zdigits2 m1 - 1) * 2 ^ (e1 - b));
        [|apply Z.mul_le_mono_nonneg_r; lia].
      rewrite <- !pow2_add by lia. apply pow2_le. lia. }
    assert (B : N2 * D1 * 2 ^ (e2 - b) < (2 * m2 + 2) * D2 * D1 * 2 ^ (e2 - b)).
    { apply Z.mul_lt_mono_pos_r; [assumption|]. apply Z.mul_lt_mono_pos_r; lia. }
    assert (C : 2 * m1 * D1 * D2 * 2 ^ (e1 - b) <= N1 * D2 * 2 ^ (e1 - b)).
    { apply Z.mul_le_mono_nonneg_r; [lia|]. apply Z.mul_le_mono_nonneg_r; lia. }
    assert (E : (2 * m2 + 2) * D2 * D1 * 2 ^ (e2 - b) <= 2 * m1 * D1 * D2 * 2 ^ (e1 - b)).
    { replace ((2 * m2 + 2) * D2 * D1 * 2 ^ (e2 - b))
        with (2 * D1 * D2 * ((m2 + 1) * 2 ^ (e2 - b))) by ring.
      replace (2 * m1 * D1 * D2 * 2 ^ (e1 - b)) with (2 * D1 * D2 * (m1 * 2 ^ (e1 - b))) by ring.
      apply Z.mul_le_mono_nonneg_l; [|assumption]. nia. }
    lia. }
  assert (Het : et1 <= et2) by (apply fexp_mono; assumption).
  destruct (Z.eq_dec et1 et2) as [Heq|Hne].
  - rewrite <- Heq in *. clear Heq.
    apply Z.mul_le_mono_nonneg_r; [apply Z.pow_nonneg; lia|].
    apply rne_code_mono. rewrite Hr1, Hr2.
    pose proof (Z.pow_pos_nonneg 2 (et1 - e1) ltac:(lia) ltac:(lia)) as Hq1.
    pose proof (Z.pow_pos_nonneg 2 (et1 - e2) ltac:(lia) ltac:(lia)) as Hq2.
    pose proof (Z.pow_pos_nonneg 2 (et1 - b) ltac:(lia) ltac:(lia)) as Hq.
    apply cell_mono; [nia|nia|].
    assert (F1 : 2 ^ (e1 - b) * 2 ^ (et1 - e1) = 2 ^ (et1 - b))
      by (rewrite <- pow2_add by lia; f_equal; lia).
    assert (F2 : 2 ^ (e2 - b) * 2 ^ (et1 - e2) = 2 ^ (et1 - b))
      by (rewrite <- pow2_add by lia; f_equal; lia).
    apply (Z.mul_le_mono_pos_r _ _ (2 ^ (et1 - b)) Hq).
    replace (N1 * (D2 * 2 ^ (et1 - e2)) * 2 ^ (et1 - b))
      with (N1 * D2 * 2 ^ (e1 - b) * (2 ^ (et1 - e1) * 2 ^ (et1 - e2)))
      by (rewrite <- F1; ring).
    replace (N2 * (D1 * 2 ^ (et1 - e1)) * 2 ^ (et1 - b))
      with (N2 * D1 * 2 ^ (e2 - b) * (2 ^ (et1 - e1) * 2 ^ (et1 - e2)))
      by (rewrite <- F2; ring).
    apply Z.mul_le_mono_nonneg_r; [nia|assumption].
  - destruct Hn2 as [Hn2|Hn2]; [lia|].
    pose proof (Z.pow_pos_nonneg 2 (prec - 1) ltac:(lia) ltac:(lia)) as Hp1.
    pose proof (Z.pow_pos_nonneg 2 (et1 - emin) ltac:(lia) ltac:(lia)) as Hq1.
    assert (Hpp : 2 ^ prec = 2 ^ (prec - 1) * 2).
    { replace prec with ((prec - 1) + 1) at 1 by lia. rewrite pow2_add by lia. reflexivity. }
    assert (Hs : 2 * 2 ^ (et1 - emin) <= 2 ^ (et2 - emin)).
    { change 2 with (2 ^ 1) at 1. rewrite <- pow2_add by lia. apply pow2_le. lia. }
    apply Z.le_trans with (2 ^ prec * 2 ^ (et1 - emin)); [apply Z.mul_le_mono_nonneg_r; lia|].
    apply Z.le_trans with (2 ^ (prec - 1) * 2 ^ (et2 - emin)); [rewrite Hpp; nia|].
    apply Z.mul_le_mono_nonneg_r; [apply Z.pow_nonneg|]; lia.
Qed.

(** ** The order of the numbers, read on [Zord] *)

Lemma Zord_finite_bounds (s : bool) (m : positive) (e : Z) :
  valid (S754_finite s m e) = true ->
  0 < Zpos m * 2 ^ (e - emin) < 2 ^ (emax - emin).
Proof.
  intros Hv. apply valid_facts in Hv as ([He1 He2] & Hhi & _).
  pose proof (Z.pow_pos_nonneg 2 (e - emin) ltac:(lia) ltac:(lia)) as Hp.
  split; [lia|].
  apply Z.lt_le_trans with (2 ^ prec * 2 ^ (e - emin)); [apply Z.mul_lt_mono_pos_r; lia|].
  rewrite <- pow2_add by lia. apply pow2_le. lia.
Qed.

Lemma Zord_bounds (x : spec_float) :
  valid x = true -> - 2 ^ (emax - emin) <= Zord prec emax x <= 2 ^ (emax - emin).
Proof.
  intros Hv.
  pose proof (Z.pow_pos_nonneg 2 (emax - emin) ltac:(lia) ltac:(unfold SpecFloat.emin; lia)) as Hp.
  destruct x as [s|s| |s m e]; cbn [Zord]; try lia.
  - destruct s; cbn [cond_Zopp]; lia.
  - pose proof (Zord_finite_bounds s m e Hv). destruct s; cbn [cond_Zopp]; lia.
Qed.

Lemma SFcompare_Zord (x y : spec_float) :
  valid x = true -> valid y = true -> x <> S754_nan -> y <> S754_nan ->
  SFcompare x y = Some (Zord prec emax x ?= Zord prec emax y).
Proof.
  intros Hx Hy Nx Ny.
  pose proof (Z.pow_pos_nonneg 2 (emax - emin) ltac:(lia) ltac:(unfold SpecFloat.emin; lia)) as Hp.
  destruct x as [sx|sx| |sx mx ex]; [| |congruence|];
    destruct y as [sy|sy| |sy my ey]; try congruence.
  all: try pose proof (Zord_finite_bounds sx mx ex Hx) as Bx.
  all: try pose proof (Zord_finite_bounds sy my ey Hy) as By.
  9: { destruct sx, sy.
    - rewrite SFcompare_neg, (SFcompare_pos prec emax prec_pos) by assumption.
      cbn [Zmag Zord cond_Zopp]. f_equal. rewrite Z.compare_opp. reflexivity.
    - cbn [SFcompare Zord cond_Zopp]. f_equal. symmetry. apply Z.compare_lt_iff. lia.
    - cbn [SFcompare Zord cond_Zopp]. f_equal. symmetry. apply Z.compare_gt_iff. lia.
    - rewrite (SFcompare_pos prec emax prec_pos) by assumption. reflexivity. }
  all: destruct sx, sy; cbn [SFcompare Zord cond_Zopp]; f_equal; symmetry;
    first [apply Z.compare_eq_iff; lia | apply Z.compare_lt_iff; lia
          | apply Z.compare_gt_iff; lia].
Qed.

Lemma SFleb_Zord (x y : spec_float) :
  valid x = true -> valid y = true -> x <> S754_nan -> y <> S754_nan ->
  SFleb x y = (Zord prec emax x <=? Zord prec emax y).
Proof.
  intros Hx Hy Nx Ny. unfold SFleb, Z.leb. rewrite (SFcompare_Zord x y Hx Hy Nx Ny).
  destruct (_ ?= _); reflexivity.
Qed.

Lemma SFltb_Zord (x y : spec_float) :
  valid x = true -> valid y = true -> x <> S754_nan -> y <> S754_nan ->
  SFltb x y = (Zord prec emax x <? Zord prec emax y).
Proof.
  intros Hx Hy Nx Ny. unfold SFltb, Z.ltb. rewrite (SFcompare_Zord x y Hx Hy Nx Ny).
  destruct (_ ?= _); reflexivity.
Qed.

End Monotone.

(** ** Monotone operations *)

Lemma new_location_code (q D k : Z) :
  0 < D -> 0 <= k < D ->
  code (shr_record_of_loc q (new_location D k)) = cell (2 * (q * D + k)) D.
Proof.
  intros HD Hk.
  rewrite (cell_eq _ D (2 * q + (if D <=? 2 * k then 1 else 0))
             (if D <=? 2 * k then 2 * k - D else 2 * k));
    [|destruct (Z.leb_spec D (2 * k)); lia|destruct (Z.leb_spec D (2 * k)); lia].
  unfold new_location. destruct (Z.even D) eqn:Ev.
  - unfold new_location_even. destruct (Z.eqb_spec k 0) as [->|Hk0].
    + change (2 * 0) with 0. destruct (Z.leb_spec D 0); [lia|]. rewrite Z.eqb_refl.
      unfold code; cbn [shr_record_of_loc shr_m shr_r shr_s Z.b2z]. lia.
    + destruct (Z.compare_spec (2 * k) D) as [H|H|H]; destruct (Z.leb_spec D (2 * k)); try lia;
        unfold code; cbn [shr_record_of_loc shr_m shr_r shr_s Z.b2z].
      * destruct (Z.eqb_spec (2 * k - D) 0); lia.
      * destruct (Z.eqb_spec (2 * k) 0); lia.
      * destruct (Z.eqb_spec (2 * k - D) 0); lia.
  - unfold new_location_odd. destruct (Z.eqb_spec k 0) as [->|Hk0].
    + change (2 * 0) with 0. destruct (Z.leb_spec D 0); [lia|]. rewrite Z.eqb_refl.
      unfold code; cbn [shr_record_of_loc shr_m shr_r shr_s Z.b2z]. lia.
    + assert (Hodd : Z.odd D = true) by (rewrite <- Z.negb_even, Ev; reflexivity).
      apply Z.odd_spec in Hodd. destruct Hodd as [a Ha].
      destruct (Z.compare_spec (2 * k + 1) D) as [H|H|H]; destruct (Z.leb_spec D (2 * k)); try lia;
        unfold code; cbn [shr_record_of_loc shr_m shr_r shr_s Z.b2z].
      * destruct (Z.eqb_spec (2 * k) 0); lia.
      * destruct (Z.eqb_spec (2 * k) 0); lia.
      * destruct (Z.eqb_spec (2 * k - D) 0); lia.
Qed.

Section OrderLift.
Variables prec emax prec' emax' : Z.
Hypothesis prec_pos : 0 < prec.
Hypothesis prec_lt_emax : prec < emax.
Hypothesis prec_pos' : 0 < prec'.
Hypothesis prec_lt_emax' : prec' < emax'.

Local Abbreviation emin := (emin prec emax).
Local Abbreviation valid := (valid_binary prec emax).
Local Abbreviation top' := (2 ^ (emax' - SpecFloat.emin prec' emax')).

(** A function that commutes with the sign and is monotone on the
    positive numbers is monotone on the whole line. *)
Lemma lift_mono (k : Z) (f : spec_float -> spec_float) :
  (forall s, Zord prec' emax' (f (S754_zero s)) = 0) ->
  (forall s, Zord prec' emax' (f (S754_infinity s)) = cond_Zopp s top') ->
  (forall s m e, valid (S754_finite s m e) = true -> k <= e ->
     Zord prec' emax' (f (S754_finite s m e))
     = cond_Zopp s (Zord prec' emax' (f (S754_finite false m e)))
     /\ 0 <= Zord prec' emax' (f (S754_finite false m e)) <= top') ->
  (forall m1 e1 m2 e2,
     valid (S754_finite false m1 e1) = true -> valid (S754_finite false m2 e2) = true ->
     k <= e1 -> k <= e2 ->
     Zpos m1 * 2 ^ (e1 - emin) <= Zpos m2 * 2 ^ (e2 - emin) ->
     Zord prec' emax' (f (S754_finite false m1 e1))
     <= Zord prec' emax' (f (S754_finite false m2 e2))) ->
  forall x y, valid x = true -> valid y = true -> x <> S754_nan -> y <> S754_nan ->
    exp_ge k x -> exp_ge k y ->
    Zord prec emax x <= Zord prec emax y ->
    Zord prec' emax' (f x) <= Zord prec' emax' (f y).
Proof.
  intros Hz Hi Hs Hm x y Vx Vy Nx Ny Kx Ky Hle.
  pose proof (Z.pow_pos_nonneg 2 (emax - emin) ltac:(lia) ltac:(unfold SpecFloat.emin; lia)) as Ht.
  pose proof (Z.pow_pos_nonneg 2 (emax' - SpecFloat.emin prec' emax') ltac:(lia)
                ltac:(unfold SpecFloat.emin; lia)) as Ht'.
  destruct x as [sx|sx| |sx mx ex]; [| |congruence|];
    destruct y as [sy|sy| |sy my ey]; try congruence.
  all: try pose proof (Zord_finite_bounds prec emax prec_pos sx mx ex Vx) as Bx.
  all: try pose proof (Zord_finite_bounds prec emax prec_pos sy my ey Vy) as By.
  all: try pose proof (Hs sx mx ex Vx Kx) as [Sx Rx].
  all: try pose proof (Hs sy my ey Vy Ky) as [Sy Ry].
  all: rewrite ?Hz, ?Hi, ?Sx, ?Sy.
  9: { destruct sx, sy; cbn [Zord cond_Zopp] in *; try lia.
       - pose proof (Hm my ey mx ex Vy Vx Ky Kx ltac:(lia)). lia.
       - pose proof (Hm mx ex my ey Vx Vy Kx Ky ltac:(lia)). lia. }
  all: destruct sx, sy; cbn [Zord cond_Zopp] in *; lia.
Qed.

End OrderLift.

Section OperationsMonotone.
Variables prec emax : Z.
Hypothesis prec_pos : 0 < prec.
Hypothesis prec_lt_emax : prec < emax.

Local Abbreviation emin := (emin prec emax).
Local Abbreviation fexp := (fexp prec emax).
Local Abbreviation valid := (valid_binary prec emax).
Local Abbreviation top := (2 ^ (emax - emin)).

Lemma binary_round_sign (s : bool) (m : positive) (e : Z) :
  Zord prec emax (binary_round prec emax s m e)
  = cond_Zopp s (Zord prec emax (binary_round prec emax false m e))
  /\ 0 <= Zord prec emax (binary_round prec emax false m e) <= top.
Proof.
  unfold binary_round.
  pose proof (shl_align_spec prec emax m e) as H.
  destruct (shl_align m e (fexp (Zpos (digits2_pos m) + e))) as [mz ez].
  destruct H as (Hez & Hmz & Hfe & _ & _).
  apply (Zord_round_aux_sign prec emax prec_pos prec_lt_emax); [lia|assumption].
Qed.

(** Rounding an integer times a power of two is monotone. *)
Lemma binary_round_mono (m1 m2 : positive) (e1 e2 b : Z) :
  b <= e1 -> b <= e2 -> Zpos m1 * 2 ^ (e1 - b) <= Zpos m2 * 2 ^ (e2 - b) ->
  Zord prec emax (binary_round prec emax false m1 e1)
  <= Zord prec emax (binary_round prec emax false m2 e2).
Proof.
  intros Hb1 Hb2 Hle. unfold binary_round.
  pose proof (shl_align_spec prec emax m1 e1) as H1.
  destruct (shl_align m1 e1 (fexp (Zpos (digits2_pos m1) + e1))) as [mz1 ez1].
  destruct H1 as (Hez1 & Hmz1 & Hfe1 & _ & _).
  pose proof (shl_align_spec prec emax m2 e2) as H2.
  destruct (shl_align m2 e2 (fexp (Zpos (digits2_pos m2) + e2))) as [mz2 ez2].
  destruct H2 as (Hez2 & Hmz2 & Hfe2 & _ & _).
  set (c := Z.min b (Z.min ez1 ez2)).
  apply (round_aux_mono prec emax prec_pos prec_lt_emax (Zpos mz1) ez1 loc_Exact (2 * Zpos mz1) 1
           (Zpos mz2) ez2 loc_Exact (2 * Zpos mz2) 1 c);
    try lia; try assumption; try apply code_of_loc_exact.
  assert (H : Zpos m1 * 2 ^ (e1 - c) <= Zpos m2 * 2 ^ (e2 - c)).
  { apply (pow2_rebase (Zpos m1) (Zpos m2) e1 e2 b c); lia. }
  assert (E1 : Zpos mz1 * 2 ^ (ez1 - c) = Zpos m1 * 2 ^ (e1 - c)).
  { rewrite Hmz1, <- Z.mul_assoc, <- pow2_add by lia. f_equal. f_equal. lia. }
  assert (E2 : Zpos mz2 * 2 ^ (ez2 - c) = Zpos m2 * 2 ^ (e2 - c)).
  { rewrite Hmz2, <- Z.mul_assoc, <- pow2_add by lia. f_equal. f_equal. lia. }
  lia.
Qed.

Lemma SFmul_fexp (m mc : positive) (e ec : Z) :
  2 ^ (prec - 1) <= Zpos mc ->
  e + ec <= fexp (Zdigits2 (Zpos (m * mc)) + (e + ec)).
Proof.
  intros Hn.
  pose proof (Z.pow_pos_nonneg 2 (prec - 1) ltac:(lia) ltac:(lia)) as Hp.
  pose proof (Zdigits2_gt (Zpos (m * mc)) (prec - 1) ltac:(lia)) as Hg.
  rewrite Pos2Z.inj_mul in Hg. specialize (Hg ltac:(nia)).
  rewrite Pos2Z.inj_mul. unfold SpecFloat.fexp. lia.
Qed.

(** Multiplication by a positive normal constant. *)
Lemma SFmul_const_sign (mc : positive) (ec : Z) (s : bool) (m : positive) (e : Z) :
  2 ^ (prec - 1) <= Zpos mc ->
  let f x := SFmul prec emax x (S754_finite false mc ec) in
  Zord prec emax (f (S754_finite s m e)) = cond_Zopp s (Zord prec emax (f (S754_finite false m e)))
  /\ 0 <= Zord prec emax (f (S754_finite false m e)) <= top.
Proof.
  intros Hn f. unfold f. cbn [SFmul xorb]. rewrite xorb_false_r.
  apply (Zord_round_aux_sign prec emax prec_pos prec_lt_emax); [lia|apply SFmul_fexp; assumption].
Qed.

Lemma SFmul_const_mono (mc : positive) (ec : Z) (m1 m2 : positive) (e1 e2 : Z) :
  2 ^ (prec - 1) <= Zpos mc ->
  emin <= e1 -> emin <= e2 ->
  Zpos m1 * 2 ^ (e1 - emin) <= Zpos m2 * 2 ^ (e2 - emin) ->
  Zord prec emax (SFmul prec emax (S754_finite false m1 e1) (S754_finite false mc ec))
  <= Zord prec emax (SFmul prec emax (S754_finite false m2 e2) (S754_finite false mc ec)).
Proof.
  intros Hn He1 He2 Hle. cbn [SFmul xorb].
  apply (round_aux_mono prec emax prec_pos prec_lt_emax
           (Zpos (m1 * mc)) (e1 + ec) loc_Exact (2 * Zpos (m1 * mc)) 1
           (Zpos (m2 * mc)) (e2 + ec) loc_Exact (2 * Zpos (m2 * mc)) 1 (emin + ec));
    try lia; try (apply SFmul_fexp; assumption); try apply code_of_loc_exact.
  replace (e1 + ec - (emin + ec)) with (e1 - emin) by lia.
  replace (e2 + ec - (emin + ec)) with (e2 - emin) by lia.
  rewrite !Pos2Z.inj_mul. nia.
Qed.

(** Division by a positive normal constant, for numerators that are
    normal and not too small. *)
Lemma SFdiv_const_sign (mc : positive) (ec : Z) (s : bool) (m : positive) (e : Z) :
  Zpos (digits2_pos mc) = prec ->
  valid (S754_finite s m e) = true -> emin < e -> emin <= e - ec - prec ->
  let f x := SFdiv prec emax x (S754_finite false mc ec) in
  Zord prec emax (f (S754_finite s m e)) = cond_Zopp s (Zord prec emax (f (S754_finite false m e)))
  /\ 0 <= Zord prec emax (f (S754_finite false m e)) <= top.
Proof.
  intros Hdc Hv Hn He f. unfold f.
  apply (valid_facts prec emax) in Hv as (Hev & Hhi & Hlo). specialize (Hlo Hn).
  assert (Hd : Zpos (digits2_pos m) = prec).
  { apply Z.le_antisymm; [apply (Zdigits2_le (Zpos m)); lia|].
    pose proof (Zdigits2_gt (Zpos m) (prec - 1) ltac:(lia) Hlo) as Hg. cbn [Zdigits2] in Hg. lia. }
  pose proof (SFdiv_finite prec emax prec_pos s false m mc e ec) as H1.
  pose proof (SFdiv_finite prec emax prec_pos false false m mc e ec) as H2.
  cbv zeta in H1, H2. rewrite Hd in H1, H2.
  replace (2 * prec - prec) with prec in H1, H2 by lia.
  destruct (H1 ltac:(lia) Hdc He) as (E1 & Hq & Hfe).
  destruct (H2 ltac:(lia) Hdc He) as (E2 & _ & _).
  rewrite E1, E2, xorb_false_r. cbn [xorb].
  apply (Zord_round_aux_sign prec emax prec_pos prec_lt_emax); [|assumption].
  pose proof (Z.pow_pos_nonneg 2 (prec - 1) ltac:(lia) ltac:(lia)). lia.
Qed.

Lemma SFdiv_const_mono (mc : positive) (ec : Z) (m1 m2 : positive) (e1 e2 : Z) :
  Zpos (digits2_pos mc) = prec ->
  valid (S754_finite false m1 e1) = true -> valid (S754_finite false m2 e2) = true ->
  emin < e1 -> emin < e2 -> emin <= e1 - ec - prec -> emin <= e2 - ec - prec ->
  Zpos m1 * 2 ^ (e1 - emin) <= Zpos m2 * 2 ^ (e2 - emin) ->
  Zord prec emax (SFdiv prec emax (S754_finite false m1 e1) (S754_finite false mc ec))
  <= Zord prec emax (SFdiv prec emax (S754_finite false m2 e2) (S754_finite false mc ec)).
Proof.
  intros Hdc Hv1 Hv2 Hn1 Hn2 He1 He2 Hle.
  apply (valid_facts prec emax) in Hv1 as (Hev1 & Hhi1 & Hlo1). specialize (Hlo1 Hn1).
  apply (valid_facts prec emax) in Hv2 as (Hev2 & Hhi2 & Hlo2). specialize (Hlo2 Hn2).
  assert (Hd : forall m, Zpos m < 2 ^ prec -> 2 ^ (prec - 1) <= Zpos m -> Zpos (digits2_pos m) = prec).
  { intros m Hhi Hlo. apply Z.le_antisymm; [apply (Zdigits2_le (Zpos m)); lia|].
    pose proof (Zdigits2_gt (Zpos m) (prec - 1) ltac:(lia) Hlo) as Hg. cbn [Zdigits2] in Hg. lia. }
  pose proof (SFdiv_finite prec emax prec_pos false false m1 mc e1 ec) as H1.
  pose proof (SFdiv_finite prec emax prec_pos false false m2 mc e2 ec) as H2.
  cbv zeta in H1, H2. rewrite (Hd m1 Hhi1 Hlo1) in H1. rewrite (Hd m2 Hhi2 Hlo2) in H2.
  replace (2 * prec - prec) with prec in H1, H2 by lia.
  destruct (H1 ltac:(lia) Hdc He1) as (E1 & Hq1 & Hfe1).
  destruct (H2 ltac:(lia) Hdc He2) as (E2 & Hq2 & Hfe2).
  rewrite E1, E2. cbn [xorb].
  pose proof (Z.pow_pos_nonneg 2 (prec - 1) ltac:(lia) ltac:(lia)) as Hp1.
  pose proof (Z.pow_pos_nonneg 2 prec ltac:(lia) ltac:(lia)) as Hp.
  pose proof (Z.div_mod (Zpos m1 * 2 ^ prec) (Zpos mc) ltac:(lia)) as Dm1.
  pose proof (Z.div_mod (Zpos m2 * 2 ^ prec) (Zpos mc) ltac:(lia)) as Dm2.
  pose proof (Z.mod_pos_bound (Zpos m1 * 2 ^ prec) (Zpos mc) ltac:(lia)) as R1.
  pose proof (Z.mod_pos_bound (Zpos m2 * 2 ^ prec) (Zpos mc) ltac:(lia)) as R2.
  apply (round_aux_mono prec emax prec_pos prec_lt_emax
           _ (e1 - ec - prec) _ (2 * (Zpos m1 * 2 ^ prec)) (Zpos mc)
           _ (e2 - ec - prec) _ (2 * (Zpos m2 * 2 ^ prec)) (Zpos mc) (emin - ec - prec));
    try lia; try assumption.
  - rewrite new_location_code by lia. f_equal. lia.
  - rewrite new_location_code by lia. f_equal. lia.
  - replace (e1 - ec - prec - (emin - ec - prec)) with (e1 - emin) by lia.
    replace (e2 - ec - prec - (emin - ec - prec)) with (e2 - emin) by lia.
    nia.
Qed.

(** Division by a positive normal constant is monotone on the
    numerators of exponent at least [k]. *)
Lemma SFdiv_mono (mc : positive) (ec k : Z) (x y : spec_float) :
  Zpos (digits2_pos mc) = prec -> emin < k -> emin <= k - ec - prec ->
  valid x = true -> valid y = true -> x <> S754_nan -> y <> S754_nan ->
  exp_ge k x -> exp_ge k y ->
  Zord prec emax x <= Zord prec emax y ->
  Zord prec emax (SFdiv prec emax x (S754_finite false mc ec))
  <= Zord prec emax (SFdiv prec emax y (S754_finite false mc ec)).
Proof.
  intros Hdc Hk1 Hk2 Vx Vy Nx Ny Kx Ky.
  apply (lift_mono prec emax prec emax prec_pos prec_lt_emax prec_pos prec_lt_emax
           k (fun x => SFdiv prec emax x (S754_finite false mc ec))); try assumption.
  - reflexivity.
  - intros s. cbn [SFdiv]. rewrite xorb_false_r. reflexivity.
  - intros s m e V K.
    apply (SFdiv_const_sign mc ec s m e Hdc V); lia.
  - intros m1 e1 m2 e2 V1 V2 K1 K2 H.
    apply SFdiv_const_mono; try assumption; lia.
Qed.

End OperationsMonotone.

(** ** The conversions and the arithmetic of the sketch are monotone *)

Lemma valid_exp_ge (prec emax : Z) (x : spec_float) :
  0 < prec -> prec < emax ->
  valid_binary prec emax x = true -> exp_ge (SpecFloat.emin prec emax) x.
Proof.
  intros Hp Hpe Hv. destruct x as [s|s| |s m e]; cbn [exp_ge]; try exact I.
  apply (valid_facts prec emax) in Hv. lia.
Qed.

Lemma f32_to_f64_valid (x : f32) : valid64 (f32_to_f64 x) = true.
Proof.
  destruct x as [s|s| |s m e]; try reflexivity. cbn [f32_to_f64].
  apply (round_valid prec64 emax64 prec64_pos).
Qed.

Lemma fle_not_nan (x y : spec_float) : fle x y = true -> x <> S754_nan /\ y <> S754_nan.
Proof.
  unfold fle, SFleb. intros H. split; intros ->; [discriminate H|].
  destruct x; discriminate H.
Qed.

Lemma fle_Zord32 (x y : f32) :
  valid32 x = true -> valid32 y = true -> x <> S754_nan -> y <> S754_nan ->
  fle x y = true <-> Zord prec32 emax32 x <= Zord prec32 emax32 y.
Proof.
  intros Vx Vy Nx Ny. unfold fle.
  rewrite (SFleb_Zord prec32 emax32 prec32_pos prec32_lt_emax x y Vx Vy Nx Ny).
  apply Z.leb_le.
Qed.

Lemma f32_to_f64_mono (x y : f32) :
  valid32 x = true -> valid32 y = true -> x <> S754_nan -> y <> S754_nan ->
  Zord prec32 emax32 x <= Zord prec32 emax32 y ->
  Zord prec64 emax64 (f32_to_f64 x) <= Zord prec64 emax64 (f32_to_f64 y).
Proof.
  intros Vx Vy Nx Ny.
  apply (lift_mono prec32 emax32 prec64 emax64 prec32_pos prec32_lt_emax prec64_pos prec64_lt_emax
           (SpecFloat.emin prec32 emax32) f32_to_f64); try assumption;
    try (apply valid_exp_ge; [exact prec32_pos|exact prec32_lt_emax|assumption]).
  - reflexivity.
  - reflexivity.
  - intros s m e _ _. apply (binary_round_sign prec64 emax64 prec64_pos prec64_lt_emax).
  - intros m1 e1 m2 e2 V1 V2 _ _ H. cbn [f32_to_f64].
    apply (valid_facts prec32 emax32) in V1, V2.
    apply (binary_round_mono prec64 emax64 prec64_pos prec64_lt_emax m1 m2 e1 e2
             (SpecFloat.emin prec32 emax32)); [lia|lia|assumption].
Qed.

Lemma f64_to_f32_mono (x y : f64) :
  valid64 x = true -> valid64 y = true -> x <> S754_nan -> y <> S754_nan ->
  Zord prec64 emax64 x <= Zord prec64 emax64 y ->
  Zord prec32 emax32 (f64_to_f32 x) <= Zord prec32 emax32 (f64_to_f32 y).
Proof.
  intros Vx Vy Nx Ny.
  apply (lift_mono prec64 emax64 prec32 emax32 prec64_pos prec64_lt_emax prec32_pos prec32_lt_emax
           (SpecFloat.emin prec64 emax64) f64_to_f32); try assumption;
    try (apply valid_exp_ge; [exact prec64_pos|exact prec64_lt_emax|assumption]).
  - reflexivity.
  - reflexivity.
  - intros s m e _ _. apply (binary_round_sign prec32 emax32 prec32_pos prec32_lt_emax).
  - intros m1 e1 m2 e2 V1 V2 _ _ H. cbn [f64_to_f32].
    apply (valid_facts prec64 emax64) in V1, V2.
    apply (binary_round_mono prec32 emax32 prec32_pos prec32_lt_emax m1 m2 e1 e2
             (SpecFloat.emin prec64 emax64)); [lia|lia|assumption].
Qed.

(** Multiplication of a [double] by a positive normal constant. *)
Lemma f64_mul_valid (x : f64) (mc : positive) (ec : Z) :
  2 ^ (prec64 - 1) <= Zpos mc ->
  valid64 (f64_mul x (S754_finite false mc ec)) = true.
Proof.
  intros Hn. destruct x as [s|s| |s m e]; try reflexivity.
  unfold f64_mul. cbn [SFmul].
  apply (round_aux_valid prec64 emax64 prec64_pos); [lia|].
  apply (SFmul_fexp prec64 emax64 prec64_pos); assumption.
Qed.

Lemma f64_mul_mono (mc : positive) (ec : Z) (x y : f64) :
  2 ^ (prec64 - 1) <= Zpos mc ->
  valid64 x = true -> valid64 y = true -> x <> S754_nan -> y <> S754_nan ->
  Zord prec64 emax64 x <= Zord prec64 emax64 y ->
  Zord prec64 emax64 (f64_mul x (S754_finite false mc ec))
  <= Zord prec64 emax64 (f64_mul y (S754_finite false mc ec)).
Proof.
  intros Hn Vx Vy Nx Ny.
  apply (lift_mono prec64 emax64 prec64 emax64 prec64_pos prec64_lt_emax prec64_pos prec64_lt_emax
           (SpecFloat.emin prec64 emax64) (fun x => f64_mul x (S754_finite false mc ec)));
    try assumption;
    try (apply valid_exp_ge; [exact prec64_pos|exact prec64_lt_emax|assumption]).
  - reflexivity.
  - intros s. unfold f64_mul. cbn [SFmul]. rewrite xorb_false_r. reflexivity.
  - intros s m e _ _.
    apply (SFmul_const_sign prec64 emax64 prec64_pos prec64_lt_emax mc ec s m e Hn).
  - intros m1 e1 m2 e2 V1 V2 _ _ H.
    apply (valid_facts prec64 emax64) in V1, V2.
    apply (SFmul_const_mono prec64 emax64 prec64_pos prec64_lt_emax); try assumption; lia.
Qed.

(** A clamp keeps the order, whichever bound it tests first. *)
Lemma clamp_mono (lo hi x y : f32) :
  valid32 lo = true -> valid32 hi = true -> lo <> S754_nan -> hi <> S754_nan ->
  Zord prec32 emax32 lo <= Zord prec32 emax32 hi ->
  valid32 x = true -> valid32 y = true -> x <> S754_nan -> y <> S754_nan ->
  Zord prec32 emax32 x <= Zord prec32 emax32 y ->
  Zord prec32 emax32 (if flt x lo then lo else if flt hi x then hi else x)
  <= Zord prec32 emax32 (if flt y lo then lo else if flt hi y then hi else y)
  /\ Zord prec32 emax32 (if flt hi x then hi else if flt x lo then lo else x)
     <= Zord prec32 emax32 (if flt hi y then hi else if flt y lo then lo else y).
Proof.
  intros Vl Vh Nl Nh Hlh Vx Vy Nx Ny Hxy. unfold flt.
  rewrite !(SFltb_Zord prec32 emax32 prec32_pos prec32_lt_emax) by assumption.
  split;
    repeat match goal with
           | |- context [?a <? ?b] => destruct (Z.ltb_spec a b)
           end; lia.
Qed.

Lemma scale255_arg_mono (v1 v2 : f32) :
  valid32 v1 = true -> valid32 v2 = true -> v1 <> S754_nan -> v2 <> S754_nan ->
  Zord prec32 emax32 v1 <= Zord prec32 emax32 v2 ->
  Zord prec32 emax32 (f64_to_f32 (f64_mul (f32_to_f64 v1) d255))
  <= Zord prec32 emax32 (f64_to_f32 (f64_mul (f32_to_f64 v2) d255)).
Proof.
  intros V1 V2 N1 N2 H.
  change d255 with (S754_finite false 8972014882652160 (-45)).
  assert (Hn : 2 ^ (prec64 - 1) <= 8972014882652160) by (vm_compute; discriminate).
  apply f64_to_f32_mono; try (apply f64_mul_valid; assumption);
    try (apply SFmul_finite_not_nan, f32_to_f64_not_nan; assumption).
  apply f64_mul_mono; try assumption; try apply f32_to_f64_valid;
    try (apply f32_to_f64_not_nan; assumption).
  apply f32_to_f64_mono; assumption.
Qed.

Lemma scale255_Zord_mono (v1 v2 : f32) :
  valid32 v1 = true -> valid32 v2 = true -> v1 <> S754_nan -> v2 <> S754_nan ->
  Zord prec32 emax32 v1 <= Zord prec32 emax32 v2 ->
  Zord prec32 emax32 (scale255 v1) <= Zord prec32 emax32 (scale255 v2).
Proof.
  intros V1 V2 N1 N2 H. unfold scale255.
  apply (clamp_mono f0 f255 (f64_to_f32 (f64_mul (f32_to_f64 v1) d255))
           (f64_to_f32 (f64_mul (f32_to_f64 v2) d255))).
  - reflexivity.
  - reflexivity.
  - discriminate.
  - discriminate.
  - apply Z.leb_le. vm_compute. reflexivity.
  - apply f64_to_f32_valid.
  - apply f64_to_f32_valid.
  - apply scale255_not_nan_arg; assumption.
  - apply scale255_not_nan_arg; assumption.
  - apply scale255_arg_mono; assumption.
Qed.

(** Truncation to [int] of a duty between 0 and 255, read on [Zord]. *)
Lemma to_int_Zord (x : f32) :
  valid32 x = true -> between f0 f255 x = true ->
  to_int x = Some (Zord prec32 emax32 x / 2 ^ 149).
Proof.
  intros Hv Hb. destruct (to_int_0_255 x Hv Hb) as (c & Hc & Hr).
  rewrite Hc. f_equal.
  unfold between in Hb. apply andb_true_iff in Hb as [H0 _].
  destruct x as [s|s| |s m e]; try discriminate Hc.
  - cbn in Hc. injection Hc as <-. reflexivity.
  - destruct s; [discriminate H0|].
    apply (valid_facts prec32 emax32) in Hv as ([He1 He2] & _).
    unfold SpecFloat.emin, prec32, emax32 in He1.
    cbn [to_int cond_Zopp] in Hc.
    destruct (_ && _) in Hc; [|discriminate Hc]. injection Hc as <-.
    cbn [Zord cond_Zopp]. unfold SpecFloat.emin, prec32, emax32.
    replace (e - (3 - 128 - 24)) with (e + 149) by lia.
    destruct (Z.leb_spec 0 e) as [Hpos|Hneg].
    + rewrite pow2_add, Z.mul_assoc, Z.div_mul by lia. reflexivity.
    + replace 149 with ((e + 149) + (- e)) at 2 by lia.
      rewrite (pow2_add (e + 149) (- e)), (Z.mul_comm (2 ^ (e + 149)) (2 ^ (- e))) by lia.
      rewrite Z.div_mul_cancel_r; try reflexivity; apply Z.pow_nonzero; lia.
Qed.

Section NormalizeMonotone.
Variables prec emax : Z.
Hypothesis prec_pos : 0 < prec.
Hypothesis prec_lt_emax : prec < emax.

(** Rounding a signed integer times a power of two is monotone. *)
Lemma binary_normalize_mono (M1 e1 M2 e2 b : Z) (z1 z2 : bool) :
  b <= e1 -> b <= e2 -> M1 * 2 ^ (e1 - b) <= M2 * 2 ^ (e2 - b) ->
  Zord prec emax (binary_normalize prec emax M1 e1 z1)
  <= Zord prec emax (binary_normalize prec emax M2 e2 z2).
Proof.
  intros Hb1 Hb2 Hle.
  pose proof (Z.pow_pos_nonneg 2 (e1 - b) ltac:(lia) ltac:(lia)) as HP1.
  pose proof (Z.pow_pos_nonneg 2 (e2 - b) ltac:(lia) ltac:(lia)) as HP2.
  assert (Hs : forall s p e,
             Zord prec emax (binary_round prec emax s p e)
             = cond_Zopp s (Zord prec emax (binary_round prec emax false p e))
             /\ 0 <= Zord prec emax (binary_round prec emax false p e))
    by (intros s p e; split; apply (binary_round_sign prec emax prec_pos prec_lt_emax s p e)).
  assert (Hpos : forall p P, 0 < P -> 0 < Zpos p * P) by (intros; apply Z.mul_pos_pos; lia).
  assert (Hneg : forall p P, 0 < P -> Zneg p * P < 0) by (intros; apply Z.mul_neg_pos; lia).
  destruct M1 as [|p1|p1], M2 as [|p2|p2]; cbn [binary_normalize Zord].
  - lia.
  - exact (proj2 (Hs false p2 e2)).
  - pose proof (Hneg p2 _ HP2). lia.
  - pose proof (Hpos p1 _ HP1). lia.
  - apply (binary_round_mono prec emax prec_pos prec_lt_emax p1 p2 e1 e2 b); assumption.
  - pose proof (Hneg p2 _ HP2). pose proof (Hpos p1 _ HP1). lia.
  - destruct (Hs true p1 e1) as [-> H0]. cbn [cond_Zopp]. lia.
  - destruct (Hs true p1 e1) as [-> H0]. destruct (Hs false p2 e2) as [_ H0']. cbn [cond_Zopp]. lia.
  - destruct (Hs true p1 e1) as [-> _]. destruct (Hs true p2 e2) as [-> _]. cbn [cond_Zopp].
    assert (Zord prec emax (binary_round prec emax false p2 e2)
            <= Zord prec emax (binary_round prec emax false p1 e1)); [|lia].
    apply (binary_round_mono prec emax prec_pos prec_lt_emax p2 p1 e2 e1 b); try assumption.
    change (Zneg p1) with (- Zpos p1) in Hle. change (Zneg p2) with (- Zpos p2) in Hle. lia.
Qed.

Lemma binary_normalize_valid (M e : Z) (z : bool) :
  valid_binary prec emax (binary_normalize prec emax M e z) = true.
Proof.
  destruct M; cbn [binary_normalize]; [reflexivity| |]; apply (round_valid prec emax prec_pos).
Qed.

End NormalizeMonotone.

Lemma exp_ge_weaken (a b : Z) (x : spec_float) : a <= b -> exp_ge b x -> exp_ge a x.
Proof. intros H. destruct x; cbn [exp_ge]; lia || trivial. Qed.

Lemma f32_of_int_valid (n : Z) : valid32 (f32_of_int n) = true.
Proof. apply (binary_normalize_valid prec32 emax32 prec32_pos). Qed.

Lemma f32_of_int_mono (n1 n2 : Z) :
  n1 <= n2 -> Zord prec32 emax32 (f32_of_int n1) <= Zord prec32 emax32 (f32_of_int n2).
Proof.
  intros H. apply (binary_normalize_mono prec32 emax32 prec32_pos prec32_lt_emax n1 0 n2 0 0); lia.
Qed.

(** A [double] that comes from a [float] is normal, with an exponent of
    at least -201. *)
Lemma f32_to_f64_exp_ge (x : f32) : valid32 x = true -> exp_ge (- 201) (f32_to_f64 x).
Proof.
  intros Hv. destruct x as [s|s| |s m e]; try exact I.
  destruct (f32_to_f64_finite s m e Hv) as (m' & Hr & Hm' & Hj & Hd). rewrite Hr. cbn [exp_ge].
  apply (valid_facts prec32 emax32) in Hv as ([He1 _] & _).
  pose proof (digits2_pos_bounds m). unfold SpecFloat.emin, prec32, emax32, prec64 in *.
  assert (0 < Zpos (digits2_pos m)) by lia. lia.
Qed.

Lemma f64_mul_exp_ge (k : Z) (x : f64) (mc : positive) (ec : Z) :
  2 ^ (prec64 - 1) <= Zpos mc -> exp_ge k x ->
  exp_ge (k + ec) (f64_mul x (S754_finite false mc ec)).
Proof.
  intros Hn Hk. destruct x as [s|s| |s m e]; try exact I. cbn [exp_ge] in Hk.
  unfold f64_mul. cbn [SFmul].
  apply (exp_ge_weaken _ (e + ec)); [lia|].
  apply (round_aux_valid prec64 emax64 prec64_pos); [lia|].
  apply (SFmul_fexp prec64 emax64 prec64_pos); assumption.
Qed.

(** Division of a [double] by a positive normal constant is monotone on
    the numerators of exponent at least [k]. *)
Lemma f64_div_mono (mc : positive) (ec k : Z) (x y : f64) :
  Zpos (digits2_pos mc) = prec64 ->
  SpecFloat.emin prec64 emax64 < k -> SpecFloat.emin prec64 emax64 <= k - ec - prec64 ->
  valid64 x = true -> valid64 y = true -> x <> S754_nan -> y <> S754_nan ->
  exp_ge k x -> exp_ge k y ->
  Zord prec64 emax64 x <= Zord prec64 emax64 y ->
  Zord prec64 emax64 (f64_div x (S754_finite false mc ec))
  <= Zord prec64 emax64 (f64_div y (S754_finite false mc ec)).
Proof. exact (SFdiv_mono prec64 emax64 prec64_pos prec64_lt_emax mc ec k x y). Qed.

Lemma digits_normal (mc : positive) :
  2 ^ 52 <= Zpos mc < 2 ^ 53 -> Zpos (digits2_pos mc) = prec64.
Proof.
  intros [Hlo Hhi]. apply Z.le_antisymm; [apply (Zdigits2_le (Zpos mc)); [lia|exact Hhi]|].
  pose proof (Zdigits2_gt (Zpos mc) 52 ltac:(lia) Hlo) as Hg. cbn [Zdigits2] in Hg.
  unfold prec64. lia.
Qed.

(** The calibration [x / c] of a [float], through [double]. *)
Lemma div_calibration_mono (mc : positive) (ec : Z) (x y : f32) :
  2 ^ 52 <= Zpos mc < 2 ^ 53 -> ec <= 0 ->
  valid32 x = true -> valid32 y = true -> x <> S754_nan -> y <> S754_nan ->
  Zord prec32 emax32 x <= Zord prec32 emax32 y ->
  Zord prec32 emax32 (f64_to_f32 (f64_div (f32_to_f64 x) (S754_finite false mc ec)))
  <= Zord prec32 emax32 (f64_to_f32 (f64_div (f32_to_f64 y) (S754_finite false mc ec))).
Proof.
  intros Hmc Hec Vx Vy Nx Ny H.
  apply f64_to_f32_mono; try apply (SFdiv_valid prec64 emax64 prec64_pos);
    try (apply SFdiv_finite_not_nan, f32_to_f64_not_nan; assumption).
  apply (f64_div_mono mc ec (- 201)); try apply f32_to_f64_valid;
    try (apply f32_to_f64_not_nan; assumption);
    try (apply f32_to_f64_exp_ge; assumption);
    try (apply digits_normal; assumption);
    try (unfold SpecFloat.emin, prec64, emax64; lia).
  apply f32_to_f64_mono; assumption.
Qed.

Lemma div_calibration_not_nan (c : f64) (mc : positive) (ec : Z) (x : f32) :
  c = S754_finite false mc ec -> x <> S754_nan ->
  f64_to_f32 (f64_div (f32_to_f64 x) c) <> S754_nan.
Proof.
  intros -> Hx. apply f64_to_f32_not_nan, SFdiv_finite_not_nan, f32_to_f64_not_nan. assumption.
Qed.

Lemma readUltrasonic_of_mono (x y : f32) :
  valid32 x = true -> valid32 y = true -> x <> S754_nan -> y <> S754_nan ->
  Zord prec32 emax32 x <= Zord prec32 emax32 y ->
  Zord prec32 emax32 (readUltrasonic_of x) <= Zord prec32 emax32 (readUltrasonic_of y).
Proof.
  intros Vx Vy Nx Ny H. unfold readUltrasonic_of.
  apply (clamp_mono f0 f1 (f64_to_f32 (f64_div (f32_to_f64 x) d100))
           (f64_to_f32 (f64_div (f32_to_f64 y) d100))).
  - reflexivity.
  - reflexivity.
  - discriminate.
  - discriminate.
  - apply Z.leb_le. vm_compute. reflexivity.
  - apply f64_to_f32_valid.
  - apply f64_to_f32_valid.
  - apply (div_calibration_not_nan d100 7036874417766400 (-46)); [reflexivity|assumption].
  - apply (div_calibration_not_nan d100 7036874417766400 (-46)); [reflexivity|assumption].
  - change d100 with (S754_finite false 7036874417766400 (-46)).
    apply div_calibration_mono; try assumption; [|lia].
    split; [apply Z.leb_le|apply Z.ltb_lt]; vm_compute; reflexivity.
Qed.

(** The dead zone of the rotary sensor keeps the order. *)
Lemma dead_zone_mono (a b : f32) :
  valid32 a = true -> valid32 b = true -> a <> S754_nan -> b <> S754_nan ->
  Zord prec32 emax32 a <= Zord prec32 emax32 b ->
  let g v := if flt v f26 then f0 else v in
  valid32 (g a) = true /\ valid32 (g b) = true /\ g a <> S754_nan /\ g b <> S754_nan
  /\ Zord prec32 emax32 (g a) <= Zord prec32 emax32 (g b).
Proof.
  intros Va Vb Na Nb H g. unfold g, flt.
  assert (H26 : 0 < Zord prec32 emax32 f26) by (apply Z.ltb_lt; vm_compute; reflexivity).
  assert (V26 : valid32 f26 = true) by reflexivity.
  assert (N26 : f26 <> S754_nan) by discriminate.
  rewrite !(SFltb_Zord prec32 emax32 prec32_pos prec32_lt_emax) by assumption.
  destruct (Z.ltb_spec (Zord prec32 emax32 a) (Zord prec32 emax32 f26));
    destruct (Z.ltb_spec (Zord prec32 emax32 b) (Zord prec32 emax32 f26));
    repeat split; try assumption; try reflexivity; try discriminate;
    change (Zord prec32 emax32 f0) with 0; lia.
Qed.

Lemma readRotary_Zord_mono (raw1 raw2 : Z) :
  raw1 <= raw2 ->
  Zord prec32 emax32 (readRotary raw1) <= Zord prec32 emax32 (readRotary raw2).
Proof.
  intros H. unfold readRotary.
  destruct (dead_zone_mono (f32_of_int raw1) (f32_of_int raw2)
              (f32_of_int_valid raw1) (f32_of_int_valid raw2)
              (f32_of_int_not_nan raw1) (f32_of_int_not_nan raw2)
              (f32_of_int_mono raw1 raw2 H)) as (V1 & V2 & N1 & N2 & Hm).
  change d4096 with (S754_finite false 4503599627370496 (-40)).
  apply div_calibration_mono; try assumption; [|lia].
  split; [apply Z.leb_le|apply Z.ltb_lt]; vm_compute; reflexivity.
Qed.

(** ** The more the value is, the louder the buzzer *)

Lemma between_not_nan (lo hi x : spec_float) : between lo hi x = true -> x <> S754_nan.
Proof.
  unfold between. intros H. apply andb_true_iff in H as [H _].
  apply (fle_not_nan lo x H).
Qed.

(** X18: the two analog writers are monotone.  Of two values, the
    larger never gets the smaller duty: the [float] passed to
    [analogWrite] and the level given to the three LED channels both grow
    with the value, over all numbers (infinities included). *)
Theorem writers_monotone (v1 v2 : f32) :
  valid32 v1 = true -> valid32 v2 = true -> fle v1 v2 = true ->
  fle (scale255 v1) (scale255 v2) = true
  /\ exists c1 c2,
       writeLed v1 = Some [EvSetColorRGB 0 c1 c1 c1]
       /\ writeLed v2 = Some [EvSetColorRGB 0 c2 c2 c2]
       /\ 0 <= c1 <= c2 /\ c2 <= 255.
Proof.
  intros V1 V2 Hle. destruct (fle_not_nan v1 v2 Hle) as [N1 N2].
  pose proof (proj1 (fle_Zord32 v1 v2 V1 V2 N1 N2) Hle) as Hz.
  pose proof (scale255_Zord_mono v1 v2 V1 V2 N1 N2 Hz) as Hm.
  pose proof (scale255_between v1 N1) as B1. pose proof (scale255_between v2 N2) as B2.
  pose proof (scale255_valid v1) as W1. pose proof (scale255_valid v2) as W2.
  split.
  - apply fle_Zord32; try assumption; eapply between_not_nan; eassumption.
  - destruct (to_int_0_255 _ W1 B1) as (c1 & Hc1 & R1).
    destruct (to_int_0_255 _ W2 B2) as (c2 & Hc2 & R2).
    exists c1, c2. unfold writeLed. rewrite Hc1, Hc2.
    split; [reflexivity|]. split; [reflexivity|].
    pose proof (to_int_Zord _ W1 B1) as E1. pose proof (to_int_Zord _ W2 B2) as E2.
    assert (F1 : c1 = Zord prec32 emax32 (scale255 v1) / 2 ^ 149) by congruence.
    assert (F2 : c2 = Zord prec32 emax32 (scale255 v2) / 2 ^ 149) by congruence.
    split; [split; [lia|]|lia].
    rewrite F1, F2. apply Z.div_le_mono; [apply Z.pow_pos_nonneg; lia|assumption].
Qed.

Lemma writers_monotone_witness :
  fle (scale255 f_0_12345) (scale255 f1) = true
  /\ exists c1 c2,
       writeLed f_0_12345 = Some [EvSetColorRGB 0 c1 c1 c1]
       /\ writeLed f1 = Some [EvSetColorRGB 0 c2 c2 c2]
       /\ 0 <= c1 <= c2 /\ c2 <= 255.
Proof. apply (writers_monotone f_0_12345 f1); reflexivity. Defined.

(** ** Monotone calibrations *)

Lemma readDhtHumidity_Zord_mono (h1 h2 p1 p2 : f32) :
  valid32 h1 = true -> valid32 h2 = true -> h1 <> S754_nan -> h2 <> S754_nan ->
  Zord prec32 emax32 h1 <= Zord prec32 emax32 h2 ->
  Zord prec32 emax32 (readDhtHumidity h1 p1) <= Zord prec32 emax32 (readDhtHumidity h2 p2).
Proof.
  intros V1 V2 N1 N2 H. unfold readDhtHumidity.
  replace (isnan h1) with false by (destruct h1; try reflexivity; congruence).
  replace (isnan h2) with false by (destruct h2; try reflexivity; congruence).
  change d100 with (S754_finite false 7036874417766400 (-46)).
  apply div_calibration_mono; try assumption; [|lia].
  split; [apply Z.leb_le|apply Z.ltb_lt]; vm_compute; reflexivity.
Qed.

(** X19: the sensors that only scale their reading are monotone: a
    longer range, a further turn of the knob and a higher humidity never
    give a smaller value -- over all integers, and over all numbers the
    probe can answer. *)
Theorem scaling_sensors_monotone (cm1 cm2 raw1 raw2 : Z) (h1 h2 p1 p2 : f32) :
  cm1 <= cm2 -> raw1 <= raw2 ->
  valid32 h1 = true -> valid32 h2 = true -> fle h1 h2 = true ->
  fle (readUltrasonic cm1) (readUltrasonic cm2) = true
  /\ fle (readRotary raw1) (readRotary raw2) = true
  /\ fle (readDhtHumidity h1 p1) (readDhtHumidity h2 p2) = true.
Proof.
  intros Hcm Hraw V1 V2 Hh. destruct (fle_not_nan h1 h2 Hh) as [N1 N2].
  split; [|split].
  - apply fle_Zord32; try apply readUltrasonic_valid;
      try (apply in01_not_nan, readUltrasonic_in01).
    unfold readUltrasonic.
    apply readUltrasonic_of_mono; try apply f32_of_int_valid; try apply f32_of_int_not_nan.
    apply f32_of_int_mono. assumption.
  - assert (Hn : forall raw, readRotary raw <> S754_nan).
    { intros raw. unfold readRotary.
      apply (div_calibration_not_nan d4096 4503599627370496 (-40)); [reflexivity|].
      destruct (flt (f32_of_int raw) f26); [discriminate|apply f32_of_int_not_nan]. }
    apply fle_Zord32; try apply f64_to_f32_valid; try apply Hn.
    apply readRotary_Zord_mono. assumption.
  - assert (Hn : forall h p, h <> S754_nan -> readDhtHumidity h p <> S754_nan).
    { intros h p Hx. unfold readDhtHumidity.
      replace (isnan h) with false by (destruct h; try reflexivity; congruence).
      apply (div_calibration_not_nan d100 7036874417766400 (-46)); [reflexivity|assumption]. }
    apply fle_Zord32; try apply f64_to_f32_valid; try (apply Hn; assumption).
    apply readDhtHumidity_Zord_mono; try assumption.
    apply fle_Zord32; assumption.
Qed.

Lemma scaling_sensors_monotone_witness :
  fle (readUltrasonic 30) (readUltrasonic 31) = true
  /\ fle (readRotary 25) (readRotary 26) = true
  /\ fle (readDhtHumidity (f32_of_int 40) f0) (readDhtHumidity h100 f0) = true.
Proof.
  apply (scaling_sensors_monotone 30 31 25 26 (f32_of_int 40) h100 f0 f0);
    try lia; reflexivity.
Defined.

(** ** The display shows a larger number for a larger value *)

Lemma to_int_of_int (s : bool) (p : positive) (n : Z) :
  Zpos p < 2 ^ 53 ->
  to_int (binary_round prec64 emax64 s p 0) = Some n -> n = cond_Zopp s (Zpos p).
Proof.
  intros Hp. pose proof (digits2_pos_bounds p) as [Hlo Hhi].
  assert (Hd : Zpos (digits2_pos p) <= 53) by (apply (Zdigits2_le (Zpos p)); lia).
  destruct (round_exact prec64 emax64 prec64_pos s p 0) as (m' & Hr & Hm').
  { fmt_lia. }
  { fmt_lia. }
  rewrite Hr.
  assert (Hf : SpecFloat.fexp prec64 emax64 (Zpos (digits2_pos p) + 0) = Zpos (digits2_pos p) - 53).
  { fmt_lia. }
  rewrite Hf in *. set (d := Zpos (digits2_pos p)) in *.
  replace (0 - (d - 53)) with (53 - d) in Hm' by lia.
  pose proof (Z.pow_pos_nonneg 2 (53 - d) ltac:(lia) ltac:(lia)) as Hpp.
  cbn [to_int]. destruct (Z.leb_spec 0 (d - 53)) as [H0|H0].
  - assert (E : d = 53) by lia. rewrite E in *. change (2 ^ (53 - 53)) with 1 in Hm'.
    rewrite Hm', Z.mul_1_r, Z.mul_1_r. destruct (_ && _); [|discriminate].
    intros H. injection H as <-. reflexivity.
  - replace (- (d - 53)) with (53 - d) by lia. rewrite Hm', Z.div_mul by lia.
    destruct (_ && _); [|discriminate]. intros H. injection H as <-. reflexivity.
Qed.

(** Rounding half away from zero, as one quotient. *)
Lemma half_away_quot (m n : Z) :
  0 <= m -> 0 <= n ->
  (if 2 ^ n <=? 2 * (m mod 2 ^ n) then m / 2 ^ n + 1 else m / 2 ^ n)
  = (2 * m + 2 ^ n) / (2 * 2 ^ n).
Proof.
  intros Hm Hn. pose proof (Z.pow_pos_nonneg 2 n ltac:(lia) Hn) as Hp.
  pose proof (Z.div_mod m (2 ^ n) ltac:(lia)) as E.
  pose proof (Z.mod_pos_bound m (2 ^ n) Hp) as R.
  set (q := m / 2 ^ n) in *. set (r := m mod 2 ^ n) in *.
  destruct (Z.leb_spec (2 ^ n) (2 * r)).
  - apply Z.div_unique with (2 * r - 2 ^ n); nia.
  - apply Z.div_unique with (2 * r + 2 ^ n); nia.
Qed.

(** What [(int) round(x)] is, read on the place of [x]. *)
Lemma round_int_Zord (s : bool) (m : positive) (e n : Z) :
  valid64 (S754_finite s m e) = true ->
  to_int (f64_round (S754_finite s m e)) = Some n ->
  n = cond_Zopp s ((2 * (Zpos m * 2 ^ (e + 1074)) + 2 ^ 1074) / (2 * 2 ^ 1074)).
Proof.
  intros Hv. pose proof Hv as Hv'.
  apply (valid_facts prec64 emax64) in Hv' as ([He1 He2] & Hhi & _).
  unfold SpecFloat.emin, prec64, emax64 in He1, He2, Hhi.
  pose proof (Z.pow_pos_nonneg 2 1074 ltac:(lia) ltac:(lia)) as H1074.
  cbn [f64_round]. destruct (Z.leb_spec 0 e) as [Hpos|Hneg].
  - cbn [to_int]. destruct (Z.leb_spec 0 e); [|lia].
    destruct (_ && _); [|discriminate]. intros Hs.
    assert (En : n = cond_Zopp s (Zpos m * 2 ^ e)) by congruence. rewrite En. f_equal.
    apply Z.div_unique with (2 ^ 1074); [lia|].
    rewrite (pow2_add e 1074) by lia. ring.
  - set (k := - e).
    pose proof (Z.pow_pos_nonneg 2 k ltac:(lia) ltac:(unfold k; lia)) as Hpk.
    pose proof (Z.pow_pos_nonneg 2 (e + 1074) ltac:(lia) ltac:(lia)) as Hpe.
    assert (Hq : (2 * (Zpos m * 2 ^ (e + 1074)) + 2 ^ 1074) / (2 * 2 ^ 1074)
                 = (2 * Zpos m + 2 ^ k) / (2 * 2 ^ k)).
    { replace 1074 with (k + (e + 1074)) at 2 3 by (unfold k; lia).
      rewrite (pow2_add k (e + 1074)) by (unfold k; lia).
      replace (2 * (Zpos m * 2 ^ (e + 1074)) + 2 ^ k * 2 ^ (e + 1074))
        with ((2 * Zpos m + 2 ^ k) * 2 ^ (e + 1074)) by ring.
      replace (2 * (2 ^ k * 2 ^ (e + 1074))) with (2 * 2 ^ k * 2 ^ (e + 1074)) by ring.
      apply Z.div_mul_cancel_r; lia. }
    rewrite Hq, <- (half_away_quot (Zpos m) k) by (unfold k; lia).
    set (q' := if 2 ^ k <=? 2 * (Zpos m mod 2 ^ k) then Zpos m / 2 ^ k + 1 else Zpos m / 2 ^ k).
    assert (Hq' : 0 <= q' < 2 ^ 53).
    { pose proof (Z.div_mod (Zpos m) (2 ^ k) ltac:(lia)) as E.
      pose proof (Z.mod_pos_bound (Zpos m) (2 ^ k) Hpk) as R.
      assert (Hk2 : 2 <= 2 ^ k).
      { change 2 with (2 ^ 1) at 1. apply pow2_le. unfold k. lia. }
      assert (0 <= Zpos m / 2 ^ k) by (apply Z.div_pos; lia).
      assert (2 * (Zpos m / 2 ^ k) <= Zpos m) by nia.
      unfold q'. destruct (_ <=? _); lia. }
    destruct q' as [|p|p] eqn:Eq; try lia.
    + cbn [cond_Zopp binary_normalize to_int]. destruct s; cbn; congruence.
    + replace (cond_Zopp s (Zpos p)) with (if s then Zneg p else Zpos p) at 1
        by (destruct s; reflexivity).
      destruct s; cbn [binary_normalize]; apply to_int_of_int; lia.
Qed.

Lemma round_int_mono (x y : f64) (n1 n2 : Z) :
  valid64 x = true -> valid64 y = true ->
  to_int (f64_round x) = Some n1 -> to_int (f64_round y) = Some n2 ->
  Zord prec64 emax64 x <= Zord prec64 emax64 y -> n1 <= n2.
Proof.
  intros Vx Vy Hx Hy Hle.
  pose proof (Z.pow_pos_nonneg 2 1074 ltac:(lia) ltac:(lia)) as H1074.
  assert (Hnn : forall m e, 0 <= (2 * (Zpos m * 2 ^ (e + 1074)) + 2 ^ 1074) / (2 * 2 ^ 1074)).
  { intros m e. apply Z.div_pos; [|lia].
    pose proof (Z.pow_nonneg 2 (e + 1074) ltac:(lia)). nia. }
  destruct x as [sx|sx| |sx mx ex]; try discriminate Hx;
    destruct y as [sy|sy| |sy my ey]; try discriminate Hy.
  - cbn in Hx, Hy. injection Hx as <-. injection Hy as <-. lia.
  - cbn in Hx. injection Hx as <-. rewrite (round_int_Zord sy my ey n2 Vy Hy).
    pose proof (Zord_finite_bounds prec64 emax64 prec64_pos sy my ey Vy) as By.
    destruct sy; cbn [Zord cond_Zopp] in *; [lia|apply Hnn].
  - cbn in Hy. injection Hy as <-. rewrite (round_int_Zord sx mx ex n1 Vx Hx).
    pose proof (Zord_finite_bounds prec64 emax64 prec64_pos sx mx ex Vx) as Bx.
    pose proof (Hnn mx ex).
    destruct sx; cbn [Zord cond_Zopp] in *; lia.
  - rewrite (round_int_Zord sx mx ex n1 Vx Hx), (round_int_Zord sy my ey n2 Vy Hy).
    pose proof (Zord_finite_bounds prec64 emax64 prec64_pos sx mx ex Vx) as Bx.
    pose proof (Zord_finite_bounds prec64 emax64 prec64_pos sy my ey Vy) as By.
    pose proof (Hnn mx ex). pose proof (Hnn my ey).
    cbn [Zord] in Hle. unfold SpecFloat.emin, prec64, emax64 in Hle, Bx, By.
    replace (ex - (3 - 1024 - 53)) with (ex + 1074) in * by lia.
    replace (ey - (3 - 1024 - 53)) with (ey + 1074) in * by lia.
    destruct sx, sy; cbn [cond_Zopp] in *; try lia.
    + assert ((2 * (Zpos my * 2 ^ (ey + 1074)) + 2 ^ 1074) / (2 * 2 ^ 1074)
              <= (2 * (Zpos mx * 2 ^ (ex + 1074)) + 2 ^ 1074) / (2 * 2 ^ 1074)); [|lia].
      apply Z.div_le_mono; lia.
    + apply Z.div_le_mono; lia.
Qed.

Lemma scaled_mono (v1 v2 : f32) (n1 n2 : Z) :
  valid32 v1 = true -> valid32 v2 = true -> v1 <> S754_nan -> v2 <> S754_nan ->
  Zord prec32 emax32 v1 <= Zord prec32 emax32 v2 ->
  scaled v1 = Some n1 -> scaled v2 = Some n2 -> n1 <= n2.
Proof.
  intros V1 V2 N1 N2 H S1 S2. unfold scaled in S1, S2.
  change d100000 with (S754_finite false 6871947673600000 (-36)) in S1, S2.
  change d10 with (S754_finite false 5629499534213120 (-49)) in S1, S2.
  assert (Hn : 2 ^ (prec64 - 1) <= 6871947673600000) by (apply Z.leb_le; vm_compute; reflexivity).
  refine (round_int_mono _ _ n1 n2 _ _ S1 S2 _); try apply (SFdiv_valid prec64 emax64 prec64_pos).
  apply (f64_div_mono 5629499534213120 (-49) (- 237));
    try (apply f64_mul_valid; assumption);
    try (apply SFmul_finite_not_nan, f32_to_f64_not_nan; assumption);
    try (apply (f64_mul_exp_ge (- 201)); [assumption|apply f32_to_f64_exp_ge; assumption]);
    try (unfold SpecFloat.emin, prec64, emax64; lia).
  - apply digits_normal. split; [apply Z.leb_le|apply Z.ltb_lt]; vm_compute; reflexivity.
  - apply f64_mul_mono; try assumption; try apply f32_to_f64_valid;
      try (apply f32_to_f64_not_nan; assumption).
    apply f32_to_f64_mono; assumption.
Qed.

Lemma clamp9999_mono (a b : Z) : a <= b -> 0 <= clamp9999 a <= clamp9999 b /\ clamp9999 b <= 9999.
Proof.
  intros H. unfold clamp9999.
  destruct (Z.ltb_spec 9999 a), (Z.ltb_spec 9999 b), (Z.ltb_spec a 0), (Z.ltb_spec b 0); lia.
Qed.

(** X20: the display is monotone.  Of two values within the range where
    the conversion to [int] is defined, the larger never shows the
    smaller number. *)
Theorem write7Seg_monotone (v1 v2 : f32) :
  valid32 v1 = true -> valid32 v2 = true ->
  between (f32_of_int (- 65536)) (f32_of_int 65536) v1 = true ->
  between (f32_of_int (- 65536)) (f32_of_int 65536) v2 = true ->
  fle v1 v2 = true ->
  exists n1 n2,
    write7Seg v1 = Some (digits7 n1) /\ write7Seg v2 = Some (digits7 n2)
    /\ 0 <= n1 <= n2 /\ n2 <= 9999.
Proof.
  intros V1 V2 B1 B2 Hle. destruct (fle_not_nan v1 v2 Hle) as [N1 N2].
  pose proof (proj1 (fle_Zord32 v1 v2 V1 V2 N1 N2) Hle) as Hz.
  destruct (scaled_range v1 V1 (between_pow16 v1 V1 B1)) as (a & Ha & _).
  destruct (scaled_range v2 V2 (between_pow16 v2 V2 B2)) as (b & Hb & _).
  pose proof (scaled_mono v1 v2 a b V1 V2 N1 N2 Hz Ha Hb) as Hab.
  exists (clamp9999 a), (clamp9999 b). unfold write7Seg. rewrite Ha, Hb.
  split; [reflexivity|]. split; [reflexivity|].
  pose proof (clamp9999_mono a b Hab). lia.
Qed.

Lemma write7Seg_monotone_witness :
  exists n1 n2,
    write7Seg f_0_12345 = Some (digits7 n1) /\ write7Seg f1 = Some (digits7 n2)
    /\ 0 <= n1 <= n2 /\ n2 <= 9999.
Proof. apply (write7Seg_monotone f_0_12345 f1); reflexivity. Defined.

(** ** Subtraction is monotone *)

Lemma cond_Zopp_mul (s : bool) (a b : Z) : cond_Zopp s a * b = cond_Zopp s (a * b).
Proof. destruct s; cbn [cond_Zopp]; ring. Qed.

Section SubtractionMonotone.
Variables prec emax : Z.
Hypothesis prec_pos : 0 < prec.
Hypothesis prec_lt_emax : prec < emax.

Local Abbreviation emin := (emin prec emax).
Local Abbreviation fexp := (fexp prec emax).
Local Abbreviation valid := (valid_binary prec emax).
Local Abbreviation top := (2 ^ (emax - emin)).

(** Rounding a number of the format returns it. *)
Lemma binary_round_valid_id (s : bool) (m : positive) (e : Z) :
  valid (S754_finite s m e) = true -> binary_round prec emax s m e = S754_finite s m e.
Proof.
  intros Hv. pose proof Hv as Hv'. apply (valid_facts prec emax) in Hv' as ([He1 He2] & _).
  cbn [valid_binary] in Hv. unfold bounded in Hv. apply andb_true_iff in Hv as [Hc _].
  unfold canonical_mantissa in Hc. apply Z.eqb_eq in Hc.
  destruct (round_exact prec emax prec_pos s m e) as (m' & Hr & Hm'); try lia.
  rewrite Hr, Hc. rewrite Hc, Z.sub_diag, Z.mul_1_r in Hm'. congruence.
Qed.

Lemma normalize_valid_id (s : bool) (m : positive) (e : Z) (z : bool) :
  valid (S754_finite s m e) = true ->
  binary_normalize prec emax (cond_Zopp s (Zpos m)) e z = S754_finite s m e.
Proof.
  intros Hv. destruct s; cbn [cond_Zopp Z.opp binary_normalize]; apply binary_round_valid_id; exact Hv.
Qed.

(** The difference of two finite numbers is the rounding of the exact
    difference. *)
Lemma SFsub_form (x y : spec_float) :
  valid x = true -> valid y = true -> is_finite x -> is_finite y ->
  exists M e z,
    emin <= e
    /\ Zord prec emax (SFsub prec emax x y) = Zord prec emax (binary_normalize prec emax M e z)
    /\ M * 2 ^ (e - emin) = Zord prec emax x - Zord prec emax y.
Proof.
  intros Vx Vy Fx Fy.
  destruct x as [sx|sx| |sx mx ex]; try contradiction;
    destruct y as [sy|sy| |sy my ey]; try contradiction.
  - exists 0, emin, false. split; [lia|]. split; [|reflexivity].
    destruct sx, sy; reflexivity.
  - pose proof Vy as Vy'. apply (valid_facts prec emax) in Vy' as ([He1 _] & _).
    exists (cond_Zopp (negb sy) (Zpos my)), ey, false. split; [lia|]. split.
    + rewrite normalize_valid_id by exact Vy. reflexivity.
    + rewrite cond_Zopp_mul. cbn [Zord]. destruct sy; cbn [cond_Zopp negb]; lia.
  - pose proof Vx as Vx'. apply (valid_facts prec emax) in Vx' as ([He1 _] & _).
    exists (cond_Zopp sx (Zpos mx)), ex, false. split; [lia|]. split.
    + rewrite normalize_valid_id by exact Vx. reflexivity.
    + rewrite cond_Zopp_mul. cbn [Zord]. lia.
  - pose proof Vx as Vx'. apply (valid_facts prec emax) in Vx' as ([Hx1 _] & _).
    pose proof Vy as Vy'. apply (valid_facts prec emax) in Vy' as ([Hy1 _] & _).
    rewrite SFsub_finite. set (ez := Z.min ex ey).
    exists (cond_Zopp sx (Zpos mx * 2 ^ (ex - ez)) - cond_Zopp sy (Zpos my * 2 ^ (ey - ez))), ez, false.
    split; [unfold ez; lia|]. split; [reflexivity|].
    rewrite Z.mul_sub_distr_r, !cond_Zopp_mul, <- !Z.mul_assoc, <- !pow2_add by (unfold ez; lia).
    cbn [Zord]. f_equal; f_equal; f_equal; f_equal; lia.
Qed.

Lemma SFsub_is_valid (x y : spec_float) :
  valid x = true -> valid y = true -> valid (SFsub prec emax x y) = true.
Proof.
  intros Vx Vy.
  destruct x as [sx|sx| |sx mx ex], y as [sy|sy| |sy my ey]; try reflexivity;
    try (destruct sx, sy; reflexivity); try assumption.
  cbn [SFsub]. apply (binary_normalize_valid prec emax prec_pos).
Qed.

Lemma SFsub_mono_finite (x1 y1 x2 y2 : spec_float) :
  valid x1 = true -> valid y1 = true -> valid x2 = true -> valid y2 = true ->
  is_finite x1 -> is_finite y1 -> is_finite x2 -> is_finite y2 ->
  Zord prec emax x1 <= Zord prec emax x2 -> Zord prec emax y2 <= Zord prec emax y1 ->
  Zord prec emax (SFsub prec emax x1 y1) <= Zord prec emax (SFsub prec emax x2 y2).
Proof.
  intros Vx1 Vy1 Vx2 Vy2 Fx1 Fy1 Fx2 Fy2 Hx Hy.
  destruct (SFsub_form x1 y1 Vx1 Vy1 Fx1 Fy1) as (M1 & e1 & z1 & He1 & -> & HM1).
  destruct (SFsub_form x2 y2 Vx2 Vy2 Fx2 Fy2) as (M2 & e2 & z2 & He2 & -> & HM2).
  apply (binary_normalize_mono prec emax prec_pos prec_lt_emax M1 e1 M2 e2 emin); lia.
Qed.

Lemma Zord_infinite (x : spec_float) :
  valid x = true -> x <> S754_nan ->
  (top <= Zord prec emax x -> x = S754_infinity false)
  /\ (Zord prec emax x <= - top -> x = S754_infinity true).
Proof.
  intros Vx Nx.
  pose proof (Z.pow_pos_nonneg 2 (emax - emin) ltac:(lia) ltac:(unfold SpecFloat.emin; lia)) as Ht.
  destruct x as [s|s| |s m e]; try congruence; cbn [Zord].
  - lia.
  - destruct s; cbn [cond_Zopp]; split; intros; try reflexivity; lia.
  - pose proof (Zord_finite_bounds prec emax prec_pos s m e Vx).
    destruct s; cbn [cond_Zopp]; lia.
Qed.

Lemma is_finite_cases (x : spec_float) :
  x <> S754_nan -> is_finite x \/ exists s, x = S754_infinity s.
Proof.
  destruct x as [s|s| |s m e]; intros H; try congruence;
    [left; exact I|right; exists s; reflexivity|left; exact I].
Qed.

(** [x - c] grows with [x]. *)
Lemma SFsub_const_r_mono (s : bool) (m : positive) (e : Z) (x y : spec_float) :
  valid (S754_finite s m e) = true ->
  valid x = true -> valid y = true -> x <> S754_nan -> y <> S754_nan ->
  Zord prec emax x <= Zord prec emax y ->
  Zord prec emax (SFsub prec emax x (S754_finite s m e))
  <= Zord prec emax (SFsub prec emax y (S754_finite s m e)).
Proof.
  intros Vc Vx Vy Nx Ny H. set (c := S754_finite s m e) in *.
  pose proof (Zord_bounds prec emax prec_pos prec_lt_emax _ (SFsub_is_valid x c Vx Vc)) as Bx.
  pose proof (Zord_bounds prec emax prec_pos prec_lt_emax _ (SFsub_is_valid y c Vy Vc)) as By.
  pose proof (Zord_bounds prec emax prec_pos prec_lt_emax x Vx) as Bx'.
  pose proof (Zord_bounds prec emax prec_pos prec_lt_emax y Vy) as By'.
  destruct (is_finite_cases x Nx) as [Fx|[sx ->]]; destruct (is_finite_cases y Ny) as [Fy|[sy ->]].
  - apply SFsub_mono_finite; try assumption; try exact I. lia.
  - destruct sy; [|cbn [SFsub c Zord cond_Zopp] in *; lia].
    rewrite (proj2 (Zord_infinite x Vx Nx)) by (cbn [Zord cond_Zopp] in H; lia). lia.
  - destruct sx; [cbn [SFsub c Zord cond_Zopp] in *; lia|].
    rewrite (proj1 (Zord_infinite y Vy Ny)) by (cbn [Zord cond_Zopp] in H; lia). lia.
  - destruct sx, sy; cbn [SFsub c Zord cond_Zopp] in *; lia.
Qed.

(** [c - x] shrinks as [x] grows. *)
Lemma SFsub_const_l_anti (s : bool) (m : positive) (e : Z) (x y : spec_float) :
  valid (S754_finite s m e) = true ->
  valid x = true -> valid y = true -> x <> S754_nan -> y <> S754_nan ->
  Zord prec emax x <= Zord prec emax y ->
  Zord prec emax (SFsub prec emax (S754_finite s m e) y)
  <= Zord prec emax (SFsub prec emax (S754_finite s m e) x).
Proof.
  intros Vc Vx Vy Nx Ny H. set (c := S754_finite s m e) in *.
  pose proof (Zord_bounds prec emax prec_pos prec_lt_emax _ (SFsub_is_valid c x Vc Vx)) as Bx.
  pose proof (Zord_bounds prec emax prec_pos prec_lt_emax _ (SFsub_is_valid c y Vc Vy)) as By.
  destruct (is_finite_cases x Nx) as [Fx|[sx ->]]; destruct (is_finite_cases y Ny) as [Fy|[sy ->]].
  - apply SFsub_mono_finite; try assumption; try exact I. lia.
  - destruct sy; [|cbn [SFsub c Zord cond_Zopp negb] in *; lia].
    rewrite (proj2 (Zord_infinite x Vx Nx)) by (cbn [Zord cond_Zopp] in H; lia). lia.
  - destruct sx; [cbn [SFsub c Zord cond_Zopp negb] in *; lia|].
    rewrite (proj1 (Zord_infinite y Vy Ny)) by (cbn [Zord cond_Zopp] in H; lia). lia.
  - destruct sx, sy; cbn [SFsub c Zord cond_Zopp negb] in *; lia.
Qed.

End SubtractionMonotone.

(** ** The sensors with an offset *)

Lemma clamp01_mono (x y : f32) :
  valid32 x = true -> valid32 y = true -> x <> S754_nan -> y <> S754_nan ->
  Zord prec32 emax32 x <= Zord prec32 emax32 y ->
  Zord prec32 emax32 (clamp01 x) <= Zord prec32 emax32 (clamp01 y).
Proof.
  intros Vx Vy Nx Ny H. unfold clamp01.
  apply (clamp_mono f0 f1 x y); try assumption; try reflexivity; try discriminate.
Qed.

Lemma clamp01_not_nan (x : f32) : x <> S754_nan -> clamp01 x <> S754_nan.
Proof.
  intros H. unfold clamp01. destruct (flt x f0); [discriminate|].
  destruct (flt f1 x); [discriminate|assumption].
Qed.

Lemma readLight_arg_not_nan (raw : Z) :
  f64_to_f32 (f64_sub d1 (f64_div (f32_to_f64 (f32_of_int raw)) d1023)) <> S754_nan.
Proof.
  apply f64_to_f32_not_nan. change d1 with (S754_finite false 4503599627370496 (-52)).
  apply (SFsub_finite_l_not_nan prec64 emax64); [exact prec64_pos|].
  change d1023 with (S754_finite false 8998403161718784 (-43)).
  apply SFdiv_finite_not_nan, f32_to_f64_not_nan, f32_of_int_not_nan.
Qed.

Lemma readLight_Zord_anti (raw1 raw2 : Z) :
  raw1 <= raw2 ->
  Zord prec32 emax32 (readLight raw2) <= Zord prec32 emax32 (readLight raw1).
Proof.
  intros H. unfold readLight.
  apply clamp01_mono; try apply f64_to_f32_valid; try apply readLight_arg_not_nan.
  pose proof (f32_of_int_valid raw1) as V1. pose proof (f32_of_int_valid raw2) as V2.
  pose proof (f32_of_int_not_nan raw1) as N1. pose proof (f32_of_int_not_nan raw2) as N2.
  pose proof (f32_of_int_mono raw1 raw2 H) as Hm.
  set (a := f32_of_int raw1) in *. set (b := f32_of_int raw2) in *. clearbody a b.
  change d1 with (S754_finite false 4503599627370496 (-52)).
  change d1023 with (S754_finite false 8998403161718784 (-43)).
  assert (Vq : forall x, valid64 (f64_div (f32_to_f64 x) (S754_finite false 8998403161718784 (-43)))
                         = true) by (intros; apply (SFdiv_valid prec64 emax64 prec64_pos)).
  assert (Nq : forall x, x <> S754_nan ->
                         f64_div (f32_to_f64 x) (S754_finite false 8998403161718784 (-43))
                         <> S754_nan)
    by (intros; apply SFdiv_finite_not_nan, f32_to_f64_not_nan; assumption).
  apply f64_to_f32_mono;
    try (apply (SFsub_is_valid prec64 emax64 prec64_pos); [reflexivity|apply Vq]);
    try (apply (SFsub_finite_l_not_nan prec64 emax64); [exact prec64_pos|apply Nq; assumption]).
  apply (SFsub_const_l_anti prec64 emax64 prec64_pos prec64_lt_emax);
    try reflexivity; try apply Vq; try (apply Nq; assumption).
  apply (f64_div_mono 8998403161718784 (-43) (- 201)); try apply f32_to_f64_valid;
    try (apply f32_to_f64_not_nan; assumption);
    try (apply f32_to_f64_exp_ge; assumption);
    try (unfold SpecFloat.emin, prec64, emax64; lia).
  - apply digits_normal. split; [apply Z.leb_le|apply Z.ltb_lt]; vm_compute; reflexivity.
  - apply f32_to_f64_mono; assumption.
Qed.

(** The offset temperature is zero or at least [2 ^ -20] in magnitude. *)
Lemma temperature_offset_exp_ge (x : f32) :
  valid32 x = true -> exp_ge (- 43) (f32_sub x (f32_of_int TEMP_MIN)).
Proof.
  intros Hv. change (f32_of_int TEMP_MIN) with (S754_finite false 10485760 (-20)).
  destruct x as [s|s| |s m e]; try exact I.
  - cbn. lia.
  - pose proof Hv as Hv'. apply (valid_facts prec32 emax32) in Hv' as ([He1 He2] & Hhi & Hlo).
    unfold SpecFloat.emin, prec32, emax32 in He1, He2, Hhi, Hlo.
    unfold f32_sub. rewrite SFsub_finite. set (ez := Z.min e (-20)).
    set (M := cond_Zopp s (Zpos m * 2 ^ (e - ez)) - cond_Zopp false (10485760 * 2 ^ (-20 - ez))).
    assert (Hgen : forall sg p, exp_ge (ez + 1 - 24) (binary_round prec32 emax32 sg p ez))
      by (intros sg p; apply (round_valid prec32 emax32 prec32_pos)).
    destruct (Z_le_gt_dec (-20) e) as [Hbig|Hsmall].
    + assert (Ez : ez = -20) by (unfold ez; lia).
      destruct M as [|p|p]; cbn [binary_normalize]; try exact I;
        apply (exp_ge_weaken _ (ez + 1 - 24)); try apply Hgen; lia.
    + assert (Ez : ez = e) by (unfold ez; lia).
      assert (HM : 2 ^ (1 - ez) <= Z.abs M).
      { unfold M. rewrite Ez, Z.sub_diag, Z.mul_1_r. cbn [cond_Zopp].
        replace (-20 - e) with (20 + (- e - 40)) by lia.
        assert (2 ^ 24 <= 2 ^ (3 - e)) by (apply pow2_le; lia).
        assert (E1 : 10485760 * 2 ^ (-20 - e) = 10 * 2 ^ (- e)).
        { replace (- e) with (20 + (-20 - e)) by lia. rewrite pow2_add by lia.
          change (2 ^ 20) with 1048576. lia. }
        assert (E2 : 2 ^ (3 - e) = 8 * 2 ^ (- e)).
        { replace (3 - e) with (3 + (- e)) by lia. rewrite pow2_add by lia. reflexivity. }
        assert (E3 : 2 ^ (1 - e) = 2 * 2 ^ (- e)).
        { replace (1 - e) with (1 + (- e)) by lia. rewrite pow2_add by lia. reflexivity. }
        replace (20 + (- e - 40)) with (-20 - e) by lia. rewrite E1, E3.
        pose proof (Z.pow_pos_nonneg 2 (- e) ltac:(lia) ltac:(lia)).
        destruct s; cbn [cond_Zopp]; lia. }
      assert (Hr : forall sg p, 2 ^ (1 - ez) <= Zpos p ->
                   exp_ge (- 43) (binary_round prec32 emax32 sg p ez)).
      { intros sg p Hp.
        destruct (round_ge_pow2 prec32 emax32 prec32_pos prec32_lt_emax sg p ez 1)
          as (G1 & G2 & _).
        { unfold SpecFloat.emin, prec32, emax32. lia. }
        { right. assumption. }
        destruct (binary_round prec32 emax32 sg p ez) as [s'|s'| |s' m' e']; try exact I.
        cbn [exp_ge]. cbn [fge_pow2] in G1.
        apply (valid_facts prec32 emax32) in G2 as (_ & Hhi' & _).
        unfold prec32 in Hhi'.
        destruct G1 as [G1|G1]; [lia|].
        assert (1 - e' < 24); [|lia].
        destruct (Z_lt_le_dec (1 - e') 0); [lia|]. apply pow2_lt_inv; lia. }
      destruct M as [|p|p]; cbn [binary_normalize]; try exact I; apply Hr;
        cbn [Z.abs] in HM; exact HM.
Qed.

Lemma readDhtTemperature_Zord_mono (t1 t2 p1 p2 : f32) :
  valid32 t1 = true -> valid32 t2 = true -> t1 <> S754_nan -> t2 <> S754_nan ->
  Zord prec32 emax32 t1 <= Zord prec32 emax32 t2 ->
  Zord prec32 emax32 (readDhtTemperature t1 p1)
  <= Zord prec32 emax32 (readDhtTemperature t2 p2).
Proof.
  intros V1 V2 N1 N2 H. unfold readDhtTemperature.
  replace (isnan t1) with false by (destruct t1; try reflexivity; congruence).
  replace (isnan t2) with false by (destruct t2; try reflexivity; congruence).
  pose proof (temperature_offset_exp_ge t1 V1) as K1.
  pose proof (temperature_offset_exp_ge t2 V2) as K2.
  change (f32_of_int TEMP_MIN) with (S754_finite false 10485760 (-20)) in *.
  change (f32_of_int TEMP_RANGE) with (S754_finite false 10485760 (-19)).
  assert (Vs : forall t, valid32 t = true ->
                         valid32 (f32_sub t (S754_finite false 10485760 (-20))) = true)
    by (intros; apply (SFsub_is_valid prec32 emax32 prec32_pos); [assumption|reflexivity]).
  assert (Ns : forall t, t <> S754_nan -> f32_sub t (S754_finite false 10485760 (-20)) <> S754_nan)
    by (intros; apply (SFsub_finite_r_not_nan prec32 emax32); [exact prec32_pos|assumption]).
  apply clamp01_mono; try apply (SFdiv_valid prec32 emax32 prec32_pos);
    try (apply SFdiv_finite_not_nan, Ns; assumption).
  apply (SFdiv_mono prec32 emax32 prec32_pos prec32_lt_emax 10485760 (-19) (- 43));
    try (apply Vs; assumption); try (apply Ns; assumption); try assumption;
    try (unfold SpecFloat.emin, prec32, emax32; lia); try reflexivity.
  apply (SFsub_const_r_mono prec32 emax32 prec32_pos prec32_lt_emax); try assumption; reflexivity.
Qed.

Lemma readDhtTemperature_not_nan (t p : f32) :
  t <> S754_nan -> readDhtTemperature t p <> S754_nan.
Proof.
  intros Ht. unfold readDhtTemperature.
  replace (isnan t) with false by (destruct t; try reflexivity; congruence).
  apply clamp01_not_nan.
  change (f32_of_int TEMP_RANGE) with (S754_finite false 10485760 (-19)).
  change (f32_of_int TEMP_MIN) with (S754_finite false 10485760 (-20)).
  apply SFdiv_finite_not_nan.
  apply (SFsub_finite_r_not_nan prec32 emax32); [exact prec32_pos|assumption].
Qed.

Lemma readLight_valid (raw : Z) : valid32 (readLight raw) = true.
Proof. unfold readLight. apply clamp01_valid, f64_to_f32_valid. Qed.

Lemma readLight_not_nan (raw : Z) : readLight raw <> S754_nan.
Proof. unfold readLight. apply clamp01_not_nan, readLight_arg_not_nan. Qed.

(** X21: the two sensors with an offset keep the order too.  More
    light on the sensor (a larger raw reading) never gives a larger value,
    and a higher temperature never gives a smaller one -- over all
    integers and all numbers the probe can answer. *)
Theorem offset_sensors_monotone (raw1 raw2 : Z) (t1 t2 p1 p2 : f32) :
  raw1 <= raw2 ->
  valid32 t1 = true -> valid32 t2 = true -> fle t1 t2 = true ->
  fle (readLight raw2) (readLight raw1) = true
  /\ fle (readDhtTemperature t1 p1) (readDhtTemperature t2 p2) = true.
Proof.
  intros Hraw V1 V2 Ht. destruct (fle_not_nan t1 t2 Ht) as [N1 N2]. split.
  - apply fle_Zord32; try apply readLight_valid; try apply readLight_not_nan.
    apply readLight_Zord_anti. assumption.
  - apply fle_Zord32; try (apply readDhtTemperature_not_nan; assumption).
    + unfold readDhtTemperature.
      replace (isnan t1) with false by (destruct t1; try reflexivity; congruence).
      apply clamp01_valid, (SFdiv_valid prec32 emax32 prec32_pos).
    + unfold readDhtTemperature.
      replace (isnan t2) with false by (destruct t2; try reflexivity; congruence).
      apply clamp01_valid, (SFdiv_valid prec32 emax32 prec32_pos).
    + apply readDhtTemperature_Zord_mono; try assumption. apply fle_Zord32; assumption.
Qed.

Lemma offset_sensors_monotone_witness :
  fle (readLight 513) (readLight 512) = true
  /\ fle (readDhtTemperature (f32_of_int 19) f0) (readDhtTemperature (f32_of_int 21) f0) = true.
Proof.
  apply (offset_sensors_monotone 512 513 (f32_of_int 19) (f32_of_int 21) f0 f0);
    try lia; reflexivity.
Defined.

(** ** A whole cycle keeps the order of the readings *)

Lemma readDhtTemperature_number_valid (t p : f32) :
  t <> S754_nan -> valid32 (readDhtTemperature t p) = true.
Proof.
  intros Ht. unfold readDhtTemperature.
  replace (isnan t) with false by (destruct t; try reflexivity; congruence).
  apply clamp01_valid, (SFdiv_valid prec32 emax32 prec32_pos).
Qed.

Lemma readDhtHumidity_number_not_nan (h p : f32) :
  h <> S754_nan -> readDhtHumidity h p <> S754_nan.
Proof.
  intros Hx. unfold readDhtHumidity.
  replace (isnan h) with false by (destruct h; try reflexivity; congruence).
  apply (div_calibration_not_nan d100 7036874417766400 (-46)); [reflexivity|assumption].
Qed.

Lemma readRotary_not_nan (raw : Z) : readRotary raw <> S754_nan.
Proof.
  unfold readRotary.
  apply (div_calibration_not_nan d4096 4503599627370496 (-40)); [reflexivity|].
  destruct (flt (f32_of_int raw) f26); [discriminate|apply f32_of_int_not_nan].
Qed.

Lemma read_sensor_mono (cfg : Config) (hw1 hw2 : Readings) (p1 p2 : f32) :
  reading_le cfg hw1 hw2 ->
  let a := fst (read_sensor cfg hw1 p1) in
  let b := fst (read_sensor cfg hw2 p2) in
  valid32 a = true /\ valid32 b = true /\ a <> S754_nan /\ b <> S754_nan
  /\ (if SENSOR cfg =? SENSOR_LIGHT
      then Zord prec32 emax32 b <= Zord prec32 emax32 a
      else Zord prec32 emax32 a <= Zord prec32 emax32 b).
Proof.
  unfold read_sensor.
  intros [[Hs H]|[[Hs (V1 & V2 & H)]|[[Hs (V1 & V2 & H)]|[[Hs H]|[[Hs H]|[Hs H]]]]]]; rewrite Hs;
    cbn [Z.eqb Pos.eqb SENSOR_BUTTON SENSOR_LIGHT SENSOR_ROTARY SENSOR_ULTRASONIC
         SENSOR_DHT_HUMIDITY SENSOR_DHT_TEMPERATURE fst]; cbv zeta.
  - unfold readButton.
    destruct (Z.eqb_spec (digital_level hw1) HIGH) as [E1|E1];
      destruct (Z.eqb_spec (digital_level hw2) HIGH) as [E2|E2];
      try (exfalso; apply E2, H, E1);
      repeat split; try discriminate; apply Z.leb_le; vm_compute; reflexivity.
  - destruct (fle_not_nan _ _ H) as [N1 N2].
    split; [apply f64_to_f32_valid|]. split; [apply f64_to_f32_valid|].
    split; [apply readDhtHumidity_number_not_nan; assumption|].
    split; [apply readDhtHumidity_number_not_nan; assumption|].
    apply readDhtHumidity_Zord_mono; try assumption. apply fle_Zord32; assumption.
  - destruct (fle_not_nan _ _ H) as [N1 N2].
    split; [apply readDhtTemperature_number_valid; assumption|].
    split; [apply readDhtTemperature_number_valid; assumption|].
    split; [apply readDhtTemperature_not_nan; assumption|].
    split; [apply readDhtTemperature_not_nan; assumption|].
    apply readDhtTemperature_Zord_mono; try assumption. apply fle_Zord32; assumption.
  - split; [apply readLight_valid|]. split; [apply readLight_valid|].
    split; [apply readLight_not_nan|]. split; [apply readLight_not_nan|].
    apply readLight_Zord_anti. assumption.
  - split; [apply f64_to_f32_valid|]. split; [apply f64_to_f32_valid|].
    split; [apply readRotary_not_nan|]. split; [apply readRotary_not_nan|].
    apply readRotary_Zord_mono. assumption.
  - split; [apply readUltrasonic_valid|]. split; [apply readUltrasonic_valid|].
    split; [apply in01_not_nan, readUltrasonic_in01|].
    split; [apply in01_not_nan, readUltrasonic_in01|].
    unfold readUltrasonic.
    apply readUltrasonic_of_mono; try apply f32_of_int_valid; try apply f32_of_int_not_nan.
    apply f32_of_int_mono. assumption.
Qed.

Lemma invert_valid (cfg : Config) (v : f32) : valid32 v = true -> valid32 (invert cfg v) = true.
Proof.
  intros Hv. unfold invert. destruct (REVERSE cfg); [|assumption].
  apply (SFsub_is_valid prec32 emax32 prec32_pos); [reflexivity|assumption].
Qed.

(** X22: a whole cycle is monotone in the raw reading of the selected
    sensor.  Of two cycles, the one whose selected sensor gives the larger
    raw reading stores the larger value and computes the larger duty for
    the analog writers -- except on the light sensor, whose calibration
    [1 - raw / 1023] falls as the raw count rises, so that the larger raw
    reading stores the smaller value.  The invert flag turns either order
    round. *)
Theorem cycle_monotone (cfg : Config) (hw1 hw2 : Readings) (st1 st2 st1' st2' : State)
        (ev1 ev2 : list event) :
  reading_le cfg hw1 hw2 ->
  loop cfg hw1 st1 = Some (st1', ev1) -> loop cfg hw2 st2 = Some (st2', ev2) ->
  if xorb (REVERSE cfg) (SENSOR cfg =? SENSOR_LIGHT)
  then fle (SensorValue st2') (SensorValue st1') = true
       /\ fle (scale255 (SensorValue st2')) (scale255 (SensorValue st1')) = true
  else fle (SensorValue st1') (SensorValue st2') = true
       /\ fle (scale255 (SensorValue st1')) (scale255 (SensorValue st2')) = true.
Proof.
  intros Hle L1 L2.
  destruct (loop_steps cfg hw1 st1 st1' ev1 L1) as (_ & _ & _ & -> & _).
  destruct (loop_steps cfg hw2 st2 st2' ev2 L2) as (_ & _ & _ & -> & _).
  destruct (read_sensor_mono cfg hw1 hw2 (SensorValue st1) (SensorValue st2) Hle)
    as (Va & Vb & Na & Nb & Hab).
  set (a := fst (read_sensor cfg hw1 (SensorValue st1))) in *.
  set (b := fst (read_sensor cfg hw2 (SensorValue st2))) in *.
  pose proof (invert_valid cfg a Va) as Via. pose proof (invert_valid cfg b Vb) as Vib.
  pose proof (invert_not_nan cfg a Na) as Nia. pose proof (invert_not_nan cfg b Nb) as Nib.
  assert (Hs : forall x y, valid32 x = true -> valid32 y = true -> x <> S754_nan -> y <> S754_nan ->
               Zord prec32 emax32 x <= Zord prec32 emax32 y ->
               fle x y = true /\ fle (scale255 x) (scale255 y) = true).
  { intros x y Vx Vy Nx Ny Hxy. split; [apply fle_Zord32; assumption|].
    apply fle_Zord32; try apply scale255_valid;
      try (eapply between_not_nan, scale255_between; assumption).
    apply scale255_Zord_mono; assumption. }
  unfold invert in *.
  destruct (SENSOR cfg =? SENSOR_LIGHT); destruct (REVERSE cfg); cbn [xorb].
  - apply Hs; try assumption. change f1 with (S754_finite false 8388608 (-23)).
    apply (SFsub_const_l_anti prec32 emax32 prec32_pos prec32_lt_emax); try assumption.
    reflexivity.
  - apply Hs; assumption.
  - apply Hs; try assumption. change f1 with (S754_finite false 8388608 (-23)).
    apply (SFsub_const_l_anti prec32 emax32 prec32_pos prec32_lt_emax); try assumption.
    reflexivity.
  - apply Hs; assumption.
Qed.

Lemma cycle_monotone_witness :
  if xorb (REVERSE light_led_reversed) (SENSOR light_led_reversed =? SENSOR_LIGHT)
  then fle (SensorValue {| SensorValue := f1; PublishWaitCount := PUBLISH_WAIT |})
           (SensorValue {| SensorValue := f0; PublishWaitCount := PUBLISH_WAIT |}) = true
       /\ fle (scale255 (SensorValue {| SensorValue := f1; PublishWaitCount := PUBLISH_WAIT |}))
              (scale255 (SensorValue {| SensorValue := f0; PublishWaitCount := PUBLISH_WAIT |}))
          = true
  else fle (SensorValue {| SensorValue := f0; PublishWaitCount := PUBLISH_WAIT |})
           (SensorValue {| SensorValue := f1; PublishWaitCount := PUBLISH_WAIT |}) = true
       /\ fle (scale255 (SensorValue {| SensorValue := f0; PublishWaitCount := PUBLISH_WAIT |}))
              (scale255 (SensorValue {| SensorValue := f1; PublishWaitCount := PUBLISH_WAIT |}))
          = true.
Proof.
  apply (cycle_monotone light_led_reversed quiet bright
           (init_state PUBLISH_WAIT) (init_state PUBLISH_WAIT)
           {| SensorValue := f0; PublishWaitCount := PUBLISH_WAIT |}
           {| SensorValue := f1; PublishWaitCount := PUBLISH_WAIT |}
           [EvAnalogRead SENSOR_LIGHT_PIN; EvSetColorRGB 0 0 0 0; EvDelay INTERVAL]
           [EvAnalogRead SENSOR_LIGHT_PIN; EvSetColorRGB 0 255 255 255; EvDelay INTERVAL]).
  - right. right. right. left. split; [reflexivity|cbn; lia].
  - vm_compute. reflexivity.
  - vm_compute. reflexivity.
Defined.

(** ** The publish throttle and its text buffer *)

Lemma wrap_int_small (n : Z) : - 2 ^ 31 <= n < 2 ^ 31 -> wrap_int n = n.
Proof.
  intros H. unfold wrap_int. change (2 ^ 32) with (2 * 2 ^ 31).
  rewrite Z.mod_small; lia.
Qed.

(** *** The text fits for the numbers between -10 and 100 *)

Lemma dec_digits_fuel_spec (fuel : nat) :
  forall k, 1 <= k -> Z.log2 k <= Z.of_nat fuel ->
  1 <= dec_digits_fuel fuel k
  /\ 10 ^ (dec_digits_fuel fuel k - 1) <= k < 10 ^ dec_digits_fuel fuel k.
Proof.
  induction fuel as [|fuel IH]; intros k Hk Hl.
  - assert (k = 1).
    { destruct (Z.eq_dec k 1) as [|Hne]; [assumption|exfalso].
      assert (1 <= Z.log2 k) by (apply Z.log2_le_pow2; [lia|change (2 ^ 1) with 2; lia]).
      cbn in Hl. lia. }
    subst k. cbn. lia.
  - cbn [dec_digits_fuel]. destruct (Z.ltb_spec k 10) as [Hlt|Hge].
    + change (10 ^ (1 - 1)) with 1. change (10 ^ 1) with 10. lia.
    + pose proof (Z.div_mod k 10 ltac:(lia)) as E.
      pose proof (Z.mod_pos_bound k 10 ltac:(lia)) as R.
      assert (Hq : 1 <= k / 10) by lia.
      assert (Hlq : Z.log2 (k / 10) <= Z.of_nat fuel).
      { pose proof (Z.div_mod k 2 ltac:(lia)) as E2.
        pose proof (Z.mod_pos_bound k 2 ltac:(lia)) as R2.
        assert (H1 : Z.log2 (k / 10) <= Z.log2 (k / 2)) by (apply Z.log2_le_mono; lia).
        assert (H2 : Z.log2 (2 * (k / 2)) <= Z.log2 k) by (apply Z.log2_le_mono; lia).
        rewrite Z.log2_double in H2 by lia. lia. }
      destruct (IH (k / 10) Hq Hlq) as (Hd & Hlo & Hhi).
      set (d := dec_digits_fuel fuel (k / 10)) in *.
      replace (1 + d - 1) with (1 + (d - 1)) by lia.
      rewrite !Z.pow_add_r by lia. change (10 ^ 1) with 10. lia.
Qed.

Lemma dec_digits_spec (k : Z) :
  1 <= k -> 1 <= dec_digits k /\ 10 ^ (dec_digits k - 1) <= k < 10 ^ dec_digits k.
Proof.
  intros Hk. apply dec_digits_fuel_spec; [assumption|].
  rewrite Z2Nat.id by apply Z.log2_nonneg. lia.
Qed.

Lemma dec_digits_le (k d : Z) :
  0 <= k -> 1 <= d -> (dec_digits k <=? d) = (k <? 10 ^ d).
Proof.
  intros Hk Hd. destruct (Z.eq_dec k 0) as [->|Hne].
  - change (dec_digits 0) with 1.
    pose proof (Z.pow_pos_nonneg 10 d ltac:(lia) ltac:(lia)).
    destruct (Z.leb_spec 1 d), (Z.ltb_spec 0 (10 ^ d)); try reflexivity; lia.
  - destruct (dec_digits_spec k ltac:(lia)) as (H1 & Hlo & Hhi).
    destruct (Z.leb_spec (dec_digits k) d) as [Hle|Hgt]; destruct (Z.ltb_spec k (10 ^ d)) as [Hlt|Hge];
      try reflexivity; exfalso.
    + assert (10 ^ dec_digits k <= 10 ^ d) by (apply Z.pow_le_mono_r; lia). lia.
    + assert (10 ^ d <= 10 ^ (dec_digits k - 1)) by (apply Z.pow_le_mono_r; lia). lia.
Qed.

(** [micro m e] against an integer bound, with both sides counted in
    units of [2 ^ -149]. *)
Lemma micro_ge (m : positive) (e K : Z) :
  - 149 <= e -> K * 2 ^ 149 <= Zpos m * 1000000 * 2 ^ (e + 149) -> K <= micro m e.
Proof.
  intros He H. unfold micro.
  pose proof (Z.pow_pos_nonneg 2 (e + 149) ltac:(lia) ltac:(lia)) as HP.
  destruct (Z.leb_spec 0 e) as [Hpos|Hneg].
  - rewrite (Z.add_comm e 149), (pow2_add 149 e) in H by lia.
    pose proof (Z.pow_pos_nonneg 2 149 ltac:(lia) ltac:(lia)).
    pose proof (Z.pow_pos_nonneg 2 e ltac:(lia) ltac:(lia)). nia.
  - pose proof (Z.pow_pos_nonneg 2 (- e) ltac:(lia) ltac:(lia)) as HD.
    assert (E : 2 ^ 149 = 2 ^ (- e) * 2 ^ (e + 149))
      by (rewrite <- pow2_add by lia; f_equal; lia).
    rewrite E in H.
    assert (HN : K * 2 ^ (- e) <= Zpos m * 1000000).
    { apply (Z.mul_le_mono_pos_r _ _ (2 ^ (e + 149)) HP). lia. }
    assert (Hq : K <= Zpos m * 1000000 / 2 ^ (- e)) by (apply Z.div_le_lower_bound; lia).
    cbv zeta. destruct (_ || _); lia.
Qed.

Lemma micro_lt (m : positive) (e K : Z) :
  - 149 <= e -> 2 * (Zpos m * 1000000 * 2 ^ (e + 149)) < (2 * K - 1) * 2 ^ 149 ->
  micro m e < K.
Proof.
  intros He H. unfold micro.
  pose proof (Z.pow_pos_nonneg 2 (e + 149) ltac:(lia) ltac:(lia)) as HP.
  destruct (Z.leb_spec 0 e) as [Hpos|Hneg].
  - rewrite (Z.add_comm e 149), (pow2_add 149 e) in H by lia.
    pose proof (Z.pow_pos_nonneg 2 149 ltac:(lia) ltac:(lia)).
    pose proof (Z.pow_pos_nonneg 2 e ltac:(lia) ltac:(lia)). nia.
  - pose proof (Z.pow_pos_nonneg 2 (- e) ltac:(lia) ltac:(lia)) as HD.
    assert (E : 2 ^ 149 = 2 ^ (- e) * 2 ^ (e + 149))
      by (rewrite <- pow2_add by lia; f_equal; lia).
    rewrite E in H.
    assert (HN : 2 * (Zpos m * 1000000) < (2 * K - 1) * 2 ^ (- e)).
    { apply (Z.mul_lt_mono_pos_r (2 ^ (e + 149)) _ _ HP). lia. }
    pose proof (Z.div_mod (Zpos m * 1000000) (2 ^ (- e)) ltac:(lia)) as Dm.
    pose proof (Z.mod_pos_bound (Zpos m * 1000000) (2 ^ (- e)) HD) as R.
    cbv zeta.
    set (q := Zpos m * 1000000 / 2 ^ (- e)) in *.
    set (r := (Zpos m * 1000000) mod 2 ^ (- e)) in *.
    destruct (Z.ltb_spec (2 ^ (- e)) (2 * r)); cbn [orb].
    + nia.
    + destruct (Z.eqb_spec (2 ^ (- e)) (2 * r)); cbn [andb]; [destruct (Z.odd q)|]; nia.
Qed.

(** A [float] below a bound [c * 2 ^ g], [c] of 24 bits, stays a whole
    step [2 ^ g] below it. *)
Lemma below_step (s : bool) (m : positive) (e c g : Z) :
  valid32 (S754_finite s m e) = true ->
  - 149 <= g -> 2 ^ 23 <= c - 1 ->
  Zpos m * 2 ^ (e + 149) < c * 2 ^ (g + 149) ->
  Zpos m * 2 ^ (e + 149) <= (c - 1) * 2 ^ (g + 149).
Proof.
  intros Hv Hg Hc Hlt.
  apply (valid_facts prec32 emax32) in Hv as ([He1 He2] & Hhi & _).
  unfold SpecFloat.emin, prec32, emax32 in He1, He2, Hhi.
  pose proof (Z.pow_pos_nonneg 2 (g + 149) ltac:(lia) ltac:(lia)) as HG.
  destruct (Z_le_gt_dec g e) as [Hge|Hsmall].
  - replace (e + 149) with ((e - g) + (g + 149)) in * by lia.
    rewrite (pow2_add (e - g) (g + 149)) in * by lia.
    rewrite Z.mul_assoc in *.
    assert (Zpos m * 2 ^ (e - g) < c) by nia. nia.
  - pose proof (Z.pow_pos_nonneg 2 (e + 149) ltac:(lia) ltac:(lia)) as HE.
    assert (H1 : Zpos m * 2 ^ (e + 149) < 2 ^ 24 * 2 ^ (e + 149)) by nia.
    assert (H2 : 2 * 2 ^ (e + 149) <= 2 ^ (g + 149)).
    { change 2 with (2 ^ 1) at 1. rewrite <- pow2_add by lia. apply pow2_le. lia. }
    change (2 ^ 24) with (2 ^ 23 * 2) in H1. nia.
Qed.

Lemma micro_nonneg (m : positive) (e : Z) : - 149 <= e -> 0 <= micro m e.
Proof.
  intros He. apply micro_ge; [assumption|].
  pose proof (Z.pow_pos_nonneg 2 (e + 149) ltac:(lia) ltac:(lia)). lia.
Qed.

(** The text of a finite number fits the buffer exactly when the number
    lies strictly between -10 and 100. *)
Lemma fits_valueStr_finite (x : f32) :
  valid32 x = true -> is_finite x ->
  fits_valueStr x = flt (f32_of_int (- 10)) x && flt x (f32_of_int 100).
Proof.
  intros Hv Hf.
  change (f32_of_int (- 10)) with (S754_finite true 10485760 (-20)).
  change (f32_of_int 100) with (S754_finite false 13107200 (-17)).
  destruct x as [s|s| |s m e]; try contradiction.
  - destruct s; reflexivity.
  - pose proof Hv as Hv'. apply (valid_facts prec32 emax32) in Hv' as ([He1 He2] & Hhi & _).
    unfold SpecFloat.emin, prec32, emax32 in He1, He2, Hhi.
    unfold flt. rewrite !(SFltb_Zord prec32 emax32 prec32_pos prec32_lt_emax)
      by (assumption || reflexivity || discriminate).
    cbn [Zord]. unfold SpecFloat.emin, prec32, emax32.
    replace (e - (3 - 128 - 24)) with (e + 149) by lia.
    change (-20 - (3 - 128 - 24)) with 129. change (-17 - (3 - 128 - 24)) with 132.
    pose proof (Z.pow_pos_nonneg 2 (e + 149) ltac:(lia) ltac:(lia)) as HP.
    pose proof (Z.pow_pos_nonneg 2 129 ltac:(lia) ltac:(lia)) as H129.
    pose proof (Z.pow_pos_nonneg 2 132 ltac:(lia) ltac:(lia)) as H132.
    assert (E149a : 2 ^ 149 = 1048576 * 2 ^ 129) by reflexivity.
    assert (E149b : 2 ^ 149 = 131072 * 2 ^ 132) by reflexivity.
    pose proof (micro_nonneg m e ltac:(lia)) as Hm0.
    assert (Hi0 : 0 <= micro m e / 1000000) by (apply Z.div_pos; lia).
    unfold fits_valueStr, sprintf_f, VALUE_STR_SIZE.
    set (Z0 := Zpos m * 2 ^ (e + 149)) in *.
    destruct s; cbn [cond_Zopp].
    + (* negative: one digit before the point *)
      replace ((1 + dec_digits (micro m e / 1000000) + 7 + 1 <=? 10))
        with (dec_digits (micro m e / 1000000) <=? 1)
        by (destruct (Z.leb_spec (dec_digits (micro m e / 1000000)) 1),
                     (Z.leb_spec (1 + dec_digits (micro m e / 1000000) + 7 + 1) 10);
            try reflexivity; lia).
      rewrite dec_digits_le by lia. change (10 ^ 1) with 10.
      replace (- Z0 <? 13107200 * 2 ^ 132) with true
        by (symmetry; apply Z.ltb_lt; lia).
      rewrite andb_true_r.
      destruct (Z.ltb_spec (- (10485760 * 2 ^ 129)) (- Z0)) as [Hlt|Hge].
      * apply Z.ltb_lt. apply Z.div_lt_upper_bound; [lia|].
        apply micro_lt; [lia|].
        pose proof (below_step true m e 10485760 (-20) Hv ltac:(lia) ltac:(lia)) as Hs.
        change (-20 + 149) with 129 in Hs. fold Z0 in Hs. specialize (Hs ltac:(lia)).
        replace (Zpos m * 1000000 * 2 ^ (e + 149)) with (1000000 * Z0) by (unfold Z0; ring). lia.
      * apply Z.ltb_ge. apply Z.div_le_lower_bound; [lia|].
        apply micro_ge; [lia|].
        replace (Zpos m * 1000000 * 2 ^ (e + 149)) with (1000000 * Z0) by (unfold Z0; ring). lia.
    + (* positive: two digits before the point *)
      replace ((0 + dec_digits (micro m e / 1000000) + 7 + 1 <=? 10))
        with (dec_digits (micro m e / 1000000) <=? 2)
        by (destruct (Z.leb_spec (dec_digits (micro m e / 1000000)) 2),
                     (Z.leb_spec (0 + dec_digits (micro m e / 1000000) + 7 + 1) 10);
            try reflexivity; lia).
      rewrite dec_digits_le by lia. change (10 ^ 2) with 100.
      replace (- (10485760 * 2 ^ 129) <? Z0) with true
        by (symmetry; apply Z.ltb_lt; lia).
      rewrite andb_true_l.
      destruct (Z.ltb_spec Z0 (13107200 * 2 ^ 132)) as [Hlt|Hge].
      * apply Z.ltb_lt. apply Z.div_lt_upper_bound; [lia|].
        apply micro_lt; [lia|].
        pose proof (below_step false m e 13107200 (-17) Hv ltac:(lia) ltac:(lia)) as Hs.
        change (-17 + 149) with 132 in Hs. fold Z0 in Hs. specialize (Hs ltac:(lia)).
        replace (Zpos m * 1000000 * 2 ^ (e + 149)) with (1000000 * Z0) by (unfold Z0; ring). lia.
      * apply Z.ltb_ge. apply Z.div_le_lower_bound; [lia|].
        apply micro_ge; [lia|].
        replace (Zpos m * 1000000 * 2 ^ (e + 149)) with (1000000 * Z0) by (unfold Z0; ring). lia.
Qed.

(** *** The throttle *)

Lemma publishNumber_W_step (W : Z) (number : f32) (c : Z) :
  0 <= W < 2 ^ 31 - 1 -> 0 <= c <= W ->
  publishNumber_W W number c
  = if c =? W then (if fits_valueStr number then Some (0, [EvPublish number]) else None)
    else Some (c + 1, []).
Proof.
  intros HW Hc. unfold publishNumber_W. rewrite wrap_int_small by lia.
  destruct (Z.eqb_spec c W) as [->|Hne].
  - destruct (Z.ltb_spec W (W + 1)); [reflexivity|lia].
  - destruct (Z.ltb_spec W (c + 1)); [lia|reflexivity].
Qed.

(** A run that starts with the counter at [c] and formats only numbers
    that fit. *)
Lemma publish_run_law (W : Z) (numbers : list f32) :
  0 <= W < 2 ^ 31 - 1 ->
  forall c, 0 <= c <= W ->
  (forall j, (j < length numbers)%nat -> (c + Z.of_nat j + 1) mod (W + 1) = 0 ->
             fits_valueStr (nth j numbers f0) = true) ->
  exists out,
    publish_run W numbers c = Some (out, (c + Z.of_nat (length numbers)) mod (W + 1))
    /\ (forall k, (k < length numbers)%nat ->
          nth k out []
          = if (c + Z.of_nat k + 1) mod (W + 1) =? 0 then [EvPublish (nth k numbers f0)] else [])
    /\ Z.of_nat (length (concat out)) = (c + Z.of_nat (length numbers)) / (W + 1).
Proof.
  intros HW. induction numbers as [|x rest IH]; intros c Hc Hfit.
  - exists []. cbn [publish_run length Z.of_nat concat]. rewrite Z.add_0_r.
    rewrite (Z.div_small c (W + 1)), (Z.mod_small c (W + 1)) by lia.
    split; [reflexivity|]. split; [|reflexivity]. intros k Hk. cbn in Hk. lia.
  - cbn [publish_run]. rewrite (publishNumber_W_step W x c HW Hc).
    destruct (Z.eqb_spec c W) as [->|Hne].
    + assert (Hx : fits_valueStr x = true).
      { apply (Hfit 0%nat); [cbn; lia|].
        replace (W + Z.of_nat 0 + 1) with (1 * (W + 1)) by lia. apply Z.mod_mul. lia. }
      rewrite Hx.
      destruct (IH 0 ltac:(lia)) as (out & Hrun & Hnth & Hcnt).
      { intros j Hj Hm. apply (Hfit (S j)); [cbn; lia|].
        replace (W + Z.of_nat (S j) + 1) with (0 + Z.of_nat j + 1 + 1 * (W + 1)) by lia.
        rewrite Z.mod_add by lia. assumption. }
      rewrite Hrun. exists ([EvPublish x] :: out). split; [|split].
      * f_equal. f_equal. cbn [length].
        replace (W + Z.of_nat (S (length rest))) with (0 + Z.of_nat (length rest) + 1 * (W + 1))
          by lia.
        rewrite Z.mod_add by lia. reflexivity.
      * intros k Hk. destruct k as [|k]; cbn [nth].
        -- replace (W + Z.of_nat 0 + 1) with (1 * (W + 1)) by lia.
           rewrite Z.mod_mul by lia. reflexivity.
        -- rewrite Hnth by (cbn in Hk; lia).
           replace (W + Z.of_nat (S k) + 1) with (0 + Z.of_nat k + 1 + 1 * (W + 1)) by lia.
           rewrite Z.mod_add by lia. reflexivity.
      * cbn [concat]. rewrite length_app, Nat2Z.inj_add, Hcnt.
        change (Z.of_nat (length [EvPublish x])) with 1. cbn [length].
        replace (W + Z.of_nat (S (length rest))) with (0 + Z.of_nat (length rest) + 1 * (W + 1))
          by lia.
        rewrite Z.div_add by lia. lia.
    + destruct (IH (c + 1) ltac:(lia)) as (out & Hrun & Hnth & Hcnt).
      { intros j Hj Hm. apply (Hfit (S j)); [cbn; lia|].
        replace (c + Z.of_nat (S j) + 1) with (c + 1 + Z.of_nat j + 1) by lia. assumption. }
      rewrite Hrun. exists ([] :: out). split; [|split].
      * f_equal. f_equal. cbn [length]. f_equal. lia.
      * intros k Hk. destruct k as [|k]; cbn [nth].
        -- replace (c + Z.of_nat 0 + 1) with (c + 1) by lia.
           rewrite Z.mod_small by lia. destruct (Z.eqb_spec (c + 1) 0); [lia|reflexivity].
        -- rewrite Hnth by (cbn in Hk; lia).
           replace (c + 1 + Z.of_nat k + 1) with (c + Z.of_nat (S k) + 1) by lia. reflexivity.
      * cbn [concat app length]. rewrite Hcnt. f_equal. lia.
Qed.

(** C1, as stated, fails: the counter starts at the window, so the very
    first call after start already publishes. *)
Lemma first_call_publishes :
  ~ (forall k, (k < 100)%nat ->
       option_map (fun r => nth k (fst r) [])
         (publish_run PUBLISH_WAIT (repeat f1 101)
            (PublishWaitCount (init_state PUBLISH_WAIT)))
       = Some []).
Proof.
  intros H. specialize (H 0%nat ltac:(lia)). vm_compute in H. discriminate H.
Qed.

(** C1 (amended): from process start (counter equal to the window W),
    and while the numbers that get published are ones whose text fits
    [valueStr], call number k+1 publishes its value exactly when k is a
    multiple of W+1 -- so call 1 publishes, the next W calls emit nothing,
    and the pattern has period W+1; a publishing call resets the counter
    to zero and any other call leaves it incremented.  The text fits for
    the zeros and every number strictly between -10 and 100; a publishing
    call with any other finite number writes past the end of [valueStr],
    which is undefined. *)
Theorem publish_throttle_law (W : Z) (numbers : list f32) (k : nat) :
  0 <= W < 2 ^ 31 - 1 -> (k < length numbers)%nat ->
  (forall j, (j < length numbers)%nat -> Z.of_nat j mod (W + 1) = 0 ->
             fits_valueStr (nth j numbers f0) = true) ->
  (exists out c',
      publish_run W numbers (PublishWaitCount (init_state W)) = Some (out, c')
      /\ nth k out []
         = if Z.of_nat k mod (W + 1) =? 0 then [EvPublish (nth k numbers f0)] else [])
  /\ (forall number c, 0 <= c <= W ->
        publishNumber_W W number c
        = if c =? W
          then (if fits_valueStr number then Some (0, [EvPublish number]) else None)
          else Some (c + 1, []))
  /\ (forall number, valid32 number = true -> is_finite number ->
        fits_valueStr number
        = flt (f32_of_int (- 10)) number && flt number (f32_of_int 100)).
Proof.
  intros HW Hk Hfit. split; [|split].
  - cbn [init_state PublishWaitCount].
    destruct (publish_run_law W numbers HW W ltac:(lia)) as (out & Hrun & Hnth & _).
    { intros j Hj Hm. apply Hfit; [assumption|].
      replace (W + Z.of_nat j + 1) with (Z.of_nat j + 1 * (W + 1)) in Hm by lia.
      rewrite Z.mod_add in Hm by lia. assumption. }
    exists out, ((W + Z.of_nat (length numbers)) mod (W + 1)). split; [assumption|].
    rewrite (Hnth k Hk).
    replace (W + Z.of_nat k + 1) with (Z.of_nat k + 1 * (W + 1)) by lia.
    rewrite Z.mod_add by lia. reflexivity.
  - intros number c Hc. apply publishNumber_W_step; assumption.
  - intros number Hv Hf. apply fits_valueStr_finite; assumption.
Qed.

Lemma publish_throttle_law_witness :
  (exists out c',
      publish_run 2 [f0; f1; f0; f1] (PublishWaitCount (init_state 2)) = Some (out, c')
      /\ nth 3 out []
         = if Z.of_nat 3 mod (2 + 1) =? 0 then [EvPublish (nth 3 [f0; f1; f0; f1] f0)] else [])
  /\ (forall number c, 0 <= c <= 2 ->
        publishNumber_W 2 number c
        = if c =? 2
          then (if fits_valueStr number then Some (0, [EvPublish number]) else None)
          else Some (c + 1, []))
  /\ (forall number, valid32 number = true -> is_finite number ->
        fits_valueStr number
        = flt (f32_of_int (- 10)) number && flt number (f32_of_int 100)).
Proof.
  apply (publish_throttle_law 2 [f0; f1; f0; f1] 3); [lia|cbn; lia|].
  intros j Hj _. do 4 (destruct j as [|j]; [reflexivity|]). cbn in Hj. lia.
Defined.

(** ** The publish throttle over many calls *)

(** X1: over any number n of successive calls of [publishNumber] that
    begin with the counter at c, 0 <= c <= W, and that publish only
    numbers whose text fits [valueStr], exactly (c + n) / (W + 1) calls
    publish -- never more than one call in W + 1 -- and the counter ends
    at (c + n) mod (W + 1), inside [0, W]; it never leaves that range, so
    the [int] never wraps. *)
Theorem publish_rate (W : Z) (numbers : list f32) (c : Z) :
  0 <= W < 2 ^ 31 - 1 -> 0 <= c <= W ->
  (forall j, (j < length numbers)%nat -> (c + Z.of_nat j + 1) mod (W + 1) = 0 ->
             fits_valueStr (nth j numbers f0) = true) ->
  let n := Z.of_nat (length numbers) in
  exists out c',
    publish_run W numbers c = Some (out, c')
    /\ Z.of_nat (length (concat out)) = (c + n) / (W + 1)
    /\ c' = (c + n) mod (W + 1)
    /\ 0 <= c' <= W
    /\ (W + 1) * Z.of_nat (length (concat out)) <= n + W.
Proof.
  intros HW Hc Hfit n.
  destruct (publish_run_law W numbers HW c Hc Hfit) as (out & Hrun & _ & Hcnt).
  fold n in Hrun, Hcnt. exists out, ((c + n) mod (W + 1)).
  split; [assumption|]. split; [assumption|]. split; [reflexivity|].
  pose proof (Z.mod_pos_bound (c + n) (W + 1) ltac:(lia)) as Hm.
  split; [lia|]. rewrite Hcnt.
  pose proof (Z.mul_div_le (c + n) (W + 1) ltac:(lia)). lia.
Qed.

Lemma publish_rate_witness :
  let n := Z.of_nat (length [f0; f1; f0; f1; f0]) in
  exists out c',
    publish_run 2 [f0; f1; f0; f1; f0] 2 = Some (out, c')
    /\ Z.of_nat (length (concat out)) = (2 + n) / (2 + 1)
    /\ c' = (2 + n) mod (2 + 1)
    /\ 0 <= c' <= 2
    /\ (2 + 1) * Z.of_nat (length (concat out)) <= n + 2.
Proof.
  apply (publish_rate 2 [f0; f1; f0; f1; f0] 2); [lia|lia|].
  intros j Hj _. do 5 (destruct j as [|j]; [reflexivity|]). cbn in Hj. lia.
Defined.

Lemma publish_run_every_call (W : Z) (numbers : list f32) :
  - 2 ^ 31 <= W <= 0 ->
  forall c, c = W \/ c = 0 ->
  publish_run W numbers c
  = if forallb fits_valueStr numbers
    then Some (map (fun number => [EvPublish number]) numbers,
               match numbers with [] => c | _ => 0 end)
    else None.
Proof.
  intros HW. induction numbers as [|x rest IH]; intros c Hc.
  - reflexivity.
  - cbn [publish_run map forallb]. unfold publishNumber_W.
    rewrite wrap_int_small by lia.
    destruct (Z.ltb_spec W (c + 1)) as [_|Hge]; [|lia].
    destruct (fits_valueStr x); [|reflexivity]. cbn [andb].
    rewrite (IH 0 ltac:(right; reflexivity)).
    destruct (forallb fits_valueStr rest); [|reflexivity].
    destruct rest; reflexivity.
Qed.

(** X2: a window W that is zero or negative disables the throttle:
    from process start every call of [publishNumber] formats and publishes
    its number.  The run is defined exactly when the text of every number
    fits [valueStr]; one number of ten characters or more and it writes
    past the end of the buffer. *)
Theorem publish_window_not_positive (W : Z) (numbers : list f32) :
  - 2 ^ 31 <= W <= 0 ->
  publish_run W numbers (PublishWaitCount (init_state W))
  = if forallb fits_valueStr numbers
    then Some (map (fun number => [EvPublish number]) numbers,
               match numbers with [] => W | _ => 0 end)
    else None.
Proof.
  intros HW. apply publish_run_every_call; [assumption|left; reflexivity].
Qed.

Lemma publish_window_not_positive_witness :
  publish_run (-3) [f0; h100; f0] (PublishWaitCount (init_state (-3)))
  = if forallb fits_valueStr [f0; h100; f0]
    then Some (map (fun number => [EvPublish number]) [f0; h100; f0],
               match [f0; h100; f0] with [] => -3 | _ => 0 end)
    else None.
Proof. apply (publish_window_not_positive (-3) [f0; h100; f0]). lia. Defined.

(** ** Rounding depends on the value only *)

Section RoundingValue.
Variables prec emax : Z.
Hypothesis prec_pos : 0 < prec.
Hypothesis prec_lt_emax : prec < emax.

Local Abbreviation emin := (emin prec emax).
Local Abbreviation fexp := (fexp prec emax).
Local Abbreviation valid := (valid_binary prec emax).

Lemma round_aux_value (m1 e1 : Z) (l1 : location) (N1 D1 : Z)
      (m2 e2 : Z) (l2 : location) (N2 D2 b : Z) :
  0 < m1 -> e1 <= fexp (Zdigits2 m1 + e1) ->
  0 < D1 -> code (shr_record_of_loc m1 l1) = cell N1 D1 ->
  0 < m2 -> e2 <= fexp (Zdigits2 m2 + e2) ->
  0 < D2 -> code (shr_record_of_loc m2 l2) = cell N2 D2 ->
  b <= e1 -> b <= e2 ->
  N1 * D2 * 2 ^ (e1 - b) = N2 * D1 * 2 ^ (e2 - b) ->
  Zord prec emax (binary_round_aux prec emax false m1 e1 l1)
  = Zord prec emax (binary_round_aux prec emax false m2 e2 l2).
Proof.
  intros Hm1 He1 HD1 Hc1 Hm2 He2 HD2 Hc2 Hb1 Hb2 Heq. apply Z.le_antisymm.
  - apply (round_aux_mono prec emax prec_pos prec_lt_emax m1 e1 l1 N1 D1 m2 e2 l2 N2 D2 b);
      try assumption. lia.
  - apply (round_aux_mono prec emax prec_pos prec_lt_emax m2 e2 l2 N2 D2 m1 e1 l1 N1 D1 b);
      try assumption. lia.
Qed.

(** An integer of at most [prec] bits times a power of two in range is
    rounded to itself. *)
Lemma binary_round_Zord_exact (p : positive) (e : Z) :
  fexp (Zpos (digits2_pos p) + e) <= e -> fexp (Zpos (digits2_pos p) + e) <= emax - prec ->
  Zord prec emax (binary_round prec emax false p e) = Zpos p * 2 ^ (e - emin).
Proof.
  intros H1 H2. destruct (round_exact prec emax prec_pos false p e H1 H2) as (m' & Hr & Hm').
  rewrite Hr. cbn [Zord cond_Zopp]. rewrite Hm', <- Z.mul_assoc.
  pose proof (fexp_ge_emin prec emax (Zpos (digits2_pos p) + e)).
  rewrite <- pow2_add by lia. f_equal. f_equal. lia.
Qed.

(** A rounding step whose input stands for such a number returns it. *)
Lemma round_aux_exact (m e : Z) (l : location) (N D : Z) (p : positive) (ep b : Z) :
  0 < m -> e <= fexp (Zdigits2 m + e) ->
  0 < D -> code (shr_record_of_loc m l) = cell N D ->
  fexp (Zpos (digits2_pos p) + ep) <= ep -> fexp (Zpos (digits2_pos p) + ep) <= emax - prec ->
  b <= e -> b <= ep ->
  N * 2 ^ (e - b) = 2 * Zpos p * D * 2 ^ (ep - b) ->
  Zord prec emax (binary_round_aux prec emax false m e l) = Zpos p * 2 ^ (ep - emin).
Proof.
  intros Hm He HD Hc H1 H2 Hb1 Hb2 Heq.
  rewrite <- (binary_round_Zord_exact p ep H1 H2). unfold binary_round.
  pose proof (shl_align_spec prec emax p ep) as Hs.
  destruct (shl_align p ep (fexp (Zpos (digits2_pos p) + ep))) as [mz ez].
  destruct Hs as (Hez & Hmz & Hfe & _ & _).
  set (c := Z.min b ez).
  apply (round_aux_value m e l N D (Zpos mz) ez loc_Exact (2 * Zpos mz) 1 c);
    try assumption; try lia; try apply code_of_loc_exact.
  assert (E1 : 2 ^ (e - c) = 2 ^ (e - b) * 2 ^ (b - c))
    by (rewrite <- pow2_add by lia; f_equal; lia).
  assert (E2 : Zpos mz * 2 ^ (ez - c) = Zpos p * 2 ^ (ep - b) * 2 ^ (b - c)).
  { rewrite Hmz, <- !Z.mul_assoc, <- !pow2_add by lia. f_equal. f_equal. lia. }
  rewrite Z.mul_1_r, E1, Z.mul_assoc, Heq.
  replace (2 * Zpos mz * D * 2 ^ (ez - c)) with (2 * D * (Zpos mz * 2 ^ (ez - c))) by ring.
  rewrite E2. ring.
Qed.

(** A valid number whose place is [+- V], [0 < V] below the top, is
    finite with that sign and magnitude. *)
Lemma Zord_finite_inv (s : bool) (x : spec_float) (V : Z) :
  valid x = true -> 0 < V < 2 ^ (emax - emin) ->
  Zord prec emax x = cond_Zopp s V ->
  exists m e, x = S754_finite s m e /\ Zpos m * 2 ^ (e - emin) = V.
Proof.
  intros Hv HV Hx. destruct x as [s'|s'| |s' m e]; cbn [Zord] in Hx.
  - destruct s; cbn [cond_Zopp] in Hx; lia.
  - destruct s, s'; cbn [cond_Zopp] in Hx; lia.
  - destruct s; cbn [cond_Zopp] in Hx; lia.
  - pose proof (Zord_finite_bounds prec emax prec_pos s' m e Hv) as B.
    exists m, e. destruct s, s'; cbn [cond_Zopp] in Hx; try lia; split; try reflexivity; lia.
Qed.

End RoundingValue.

(** ** [value * 100000.0 / 10.0] is [value x 10000], exactly *)

Lemma nearest_half_up_scale (num den k : Z) :
  0 < den -> 0 < k -> nearest_half_up (num * k) (den * k) = nearest_half_up num den.
Proof.
  intros Hd Hk. unfold nearest_half_up.
  replace (2 * (num * k) + den * k) with ((2 * num + den) * k) by ring.
  replace (2 * (den * k)) with (2 * den * k) by ring.
  apply Z.div_mul_cancel_r; lia.
Qed.

Lemma scaled_double_exact (s : bool) (m : positive) (e : Z) :
  valid32 (S754_finite s m e) = true ->
  exists mQ eQ,
    f64_div (f64_mul (f32_to_f64 (S754_finite s m e)) d100000) d10 = S754_finite s mQ eQ
    /\ valid64 (S754_finite s mQ eQ) = true
    /\ Zpos mQ * 2 ^ (eQ + 1074) = Zpos m * 10000 * 2 ^ (e + 1074).
Proof.
  intros Hv.
  destruct (f32_to_f64_finite s m e Hv) as (m' & Hr & Hm' & Hj & Hd).
  set (j := prec64 - Zpos (digits2_pos m)) in *.
  pose proof Hv as Hv'. apply (valid_facts prec32 emax32) in Hv' as ([He1 He2] & Hhi & _).
  unfold SpecFloat.emin, prec32, emax32 in He1, He2, Hhi.
  pose proof (digits2_pos_bounds m) as [Hdlo Hdhi].
  assert (Hjhi : j <= 52) by (unfold j, prec64; lia).
  pose proof (f32_to_f64_exp_ge _ Hv) as Kx. rewrite Hr in Kx. cbn [exp_ge] in Kx.
  change d100000 with (S754_finite false 6871947673600000 (-36)).
  change d10 with (S754_finite false 5629499534213120 (-49)).
  assert (Hn : 2 ^ (prec64 - 1) <= 6871947673600000) by (apply Z.leb_le; vm_compute; reflexivity).
  pose proof (Z.pow_pos_nonneg 2 (e + 1074) ltac:(lia) ltac:(lia)) as HP.
  assert (Htop : forall c, 0 < c <= 100000 ->
             0 < Zpos m * c * 2 ^ (e + 1074) < 2 ^ (emax64 - SpecFloat.emin prec64 emax64)).
  { intros c Hc. split; [nia|]. unfold SpecFloat.emin, prec64, emax64.
    apply Z.lt_le_trans with (2 ^ 24 * 2 ^ 17 * 2 ^ (e + 1074)).
    - apply Z.mul_lt_mono_pos_r; [assumption|]. change (2 ^ 17) with 131072. nia.
    - rewrite <- !pow2_add by lia. apply pow2_le. lia. }
  assert (Hdig : forall c : positive, Zpos c <= 100000 ->
             Zpos (digits2_pos (m * c)) <= 41).
  { intros c Hc. apply (Zdigits2_le (Zpos (m * c))); [lia|].
    rewrite Pos2Z.inj_mul. change (2 ^ 41) with (2 ^ 24 * 131072). nia. }
  (* the product *)
  rewrite Hr.
  set (B := f64_mul (S754_finite s m' (e - j)) (S754_finite false 6871947673600000 (-36))).
  assert (VB : valid64 B = true) by (apply f64_mul_valid; assumption).
  assert (KB : exp_ge (- 201 + - 36) B).
  { apply f64_mul_exp_ge; [assumption|]. cbn [exp_ge]. assumption. }
  assert (ZB : Zord prec64 emax64 B = cond_Zopp s (Zpos m * 100000 * 2 ^ (e + 1074))).
  { unfold B, f64_mul. cbn [SFmul]. rewrite xorb_false_r.
    destruct (Zord_round_aux_sign prec64 emax64 prec64_pos prec64_lt_emax s
                (Zpos (m' * 6871947673600000)) (e - j + -36) loc_Exact) as [-> _];
      [lia|apply (SFmul_fexp prec64 emax64 prec64_pos); assumption|].
    f_equal.
    pose proof (Hdig 100000%positive ltac:(lia)) as Hd41.
    rewrite (round_aux_exact prec64 emax64 prec64_pos prec64_lt_emax
               (Zpos (m' * 6871947673600000)) (e - j + -36) loc_Exact
               (2 * Zpos (m' * 6871947673600000)) 1 (m * 100000) e (e - j + -36)).
    - rewrite Pos2Z.inj_mul. unfold SpecFloat.emin, prec64, emax64. f_equal; lia.
    - lia.
    - apply (SFmul_fexp prec64 emax64 prec64_pos); assumption.
    - lia.
    - apply code_of_loc_exact.
    - unfold SpecFloat.fexp, SpecFloat.emin, prec64, emax64. lia.
    - unfold SpecFloat.fexp, SpecFloat.emin, prec64, emax64. lia.
    - lia.
    - lia.
    - rewrite Z.sub_diag, Z.pow_0_r, Z.mul_1_r, !Pos2Z.inj_mul, Hm'.
      replace (e - (e - j + -36)) with (j + 36) by lia. rewrite pow2_add by lia.
      change 6871947673600000 with (100000 * 2 ^ 36). ring. }
  destruct (Zord_finite_inv prec64 emax64 prec64_pos s B _ VB (Htop 100000 ltac:(lia)) ZB)
    as (mB & eB & EB & HB).
  unfold SpecFloat.emin, prec64, emax64 in HB.
  replace (eB - (3 - 1024 - 53)) with (eB + 1074) in HB by lia.
  rewrite EB in VB, KB |- *. cbn [exp_ge] in KB.
  (* the quotient *)
  set (Q := f64_div (S754_finite s mB eB) (S754_finite false 5629499534213120 (-49))).
  assert (VQ : valid64 Q = true) by apply (SFdiv_valid prec64 emax64 prec64_pos).
  assert (Hd10 : Zpos (digits2_pos 5629499534213120) = prec64) by reflexivity.
  assert (ZQ : Zord prec64 emax64 Q = cond_Zopp s (Zpos m * 10000 * 2 ^ (e + 1074))).
  { unfold Q.
    pose proof VB as VB'. apply (valid_facts prec64 emax64) in VB' as (_ & HhiB & HloB).
    unfold SpecFloat.emin, prec64, emax64 in HhiB, HloB. specialize (HloB ltac:(lia)).
    assert (HdB : Zpos (digits2_pos mB) = 53)
      by (apply digits_normal; change (53 - 1) with 52 in HloB; lia).
    pose proof (SFdiv_finite prec64 emax64 prec64_pos s false mB 5629499534213120 eB (-49))
      as HS.
    cbv zeta in HS. rewrite HdB in HS. unfold prec64 in HS.
    replace (2 * 53 - 53) with 53 in HS by lia.
    destruct (HS ltac:(lia) ltac:(reflexivity)
                 ltac:(unfold SpecFloat.emin, emax64; lia)) as (ES & Hq & Hfe).
    unfold f64_div, prec64. rewrite ES, xorb_false_r.
    pose proof (Z.pow_pos_nonneg 2 (53 - 1) ltac:(lia) ltac:(lia)) as H52.
    destruct (Zord_round_aux_sign 53 emax64 ltac:(lia) ltac:(unfold emax64; lia) s
                (Zpos mB * 2 ^ 53 / 5629499534213120) (eB - -49 - 53)
                (new_location 5629499534213120 ((Zpos mB * 2 ^ 53) mod 5629499534213120)))
      as [-> _]; [lia|exact Hfe|].
    f_equal.
    pose proof (Z.div_mod (Zpos mB * 2 ^ 53) 5629499534213120 ltac:(lia)) as Dm.
    pose proof (Z.mod_pos_bound (Zpos mB * 2 ^ 53) 5629499534213120 ltac:(lia)) as Rm.
    pose proof (Hdig 10000%positive ltac:(lia)) as Hd41.
    rewrite (round_aux_exact 53 emax64 ltac:(lia) ltac:(unfold emax64; lia)
               _ (eB - -49 - 53) _
               (2 * (Zpos mB * 2 ^ 53)) 5629499534213120 (m * 10000) e (- 1127)).
    - rewrite Pos2Z.inj_mul. unfold SpecFloat.emin, emax64. f_equal; lia.
    - pose proof (Z.pow_pos_nonneg 2 (53 - 1) ltac:(lia) ltac:(lia)). lia.
    - exact Hfe.
    - lia.
    - rewrite new_location_code by lia. f_equal. lia.
    - unfold SpecFloat.fexp, SpecFloat.emin, emax64. lia.
    - unfold SpecFloat.fexp, SpecFloat.emin, emax64. lia.
    - lia.
    - lia.
    - replace (eB - -49 - 53 - -1127) with ((eB + 1074) + 49) by lia.
      replace (e - -1127) with ((e + 1074) + 53) by lia.
      rewrite !pow2_add by lia. rewrite Pos2Z.inj_mul.
      replace (2 * (Zpos mB * 2 ^ 53) * (2 ^ (eB + 1074) * 2 ^ 49))
        with (2 * (Zpos mB * 2 ^ (eB + 1074)) * (2 ^ 53 * 2 ^ 49)) by ring.
      rewrite HB, (pow2_add (e + 1074) 53) by lia. change 5629499534213120 with (5 * 2 ^ 50).
      change (2 ^ 53) with (8 * 2 ^ 50). change (2 ^ 49) with 562949953421312.
      change (2 ^ 50) with 1125899906842624. ring. }
  destruct (Zord_finite_inv prec64 emax64 prec64_pos s Q _ VQ (Htop 10000 ltac:(lia)) ZQ)
    as (mQ & eQ & EQ & HQ).
  unfold SpecFloat.emin, prec64, emax64 in HQ.
  replace (eQ - (3 - 1024 - 53)) with (eQ + 1074) in HQ by lia.
  exists mQ, eQ. split; [exact EQ|]. split; [rewrite <- EQ; exact VQ|exact HQ].
Qed.

(** Whenever the conversion to [int] is defined, the code's
    [(int) round(value * 100000.0 / 10.0)] is the specification's
    [round(value x 10000)]. *)
Lemma scaled_is_spec (value : f32) (n : Z) :
  valid32 value = true -> scaled value = Some n -> n = spec_round_x10000 value.
Proof.
  intros Hv Hn. destruct value as [s|s| |s m e]; try discriminate Hn.
  - destruct s; cbn in Hn; injection Hn as <-; reflexivity.
  - destruct (scaled_double_exact s m e Hv) as (mQ & eQ & EQ & VQ & HQ).
    unfold scaled in Hn. rewrite EQ in Hn.
    rewrite (round_int_Zord s mQ eQ n VQ Hn), HQ. cbn [spec_round_x10000]. f_equal.
    apply (valid_facts prec32 emax32) in Hv as ([He1 _] & _).
    unfold SpecFloat.emin, prec32, emax32 in He1.
    pose proof (Z.pow_pos_nonneg 2 1074 ltac:(lia) ltac:(lia)) as H1074.
    destruct (Z.leb_spec 0 e) as [Hpos|Hneg].
    + symmetry. apply Z.div_unique with (2 ^ 1074); [lia|].
      rewrite (pow2_add e 1074) by lia. ring.
    + rewrite <- (nearest_half_up_scale (Zpos m * 10000) (2 ^ (- e)) (2 ^ (e + 1074)))
        by (apply Z.pow_pos_nonneg; lia).
      unfold nearest_half_up. rewrite <- pow2_add by lia.
      replace (- e + (e + 1074)) with 1074 by lia. reflexivity.
Qed.

(** The value picked is the nearest integer, the upper one at a tie. *)
Lemma nearest_half_up_spec (num den : Z) :
  0 < den ->
  2 * den * nearest_half_up num den - den <= 2 * num
  /\ 2 * num < 2 * den * nearest_half_up num den + den.
Proof.
  intros Hd. unfold nearest_half_up.
  pose proof (Z.div_mod (2 * num + den) (2 * den) ltac:(lia)) as E.
  pose proof (Z.mod_pos_bound (2 * num + den) (2 * den) ltac:(lia)) as R. lia.
Qed.

(** C4 (amended): [write7Seg] shows 9,9,9,9 for 1.0, 0,0,0,0 for 0.0 and
    1,2,3,5 for 0.12345.  For every value of magnitude at most 65536 the
    conversion to [int] is defined and the four digits shown, most
    significant first, are those of round(value x 10000) clamped to
    [0, 9999], where the product is exact and [round] takes a tie away
    from zero; the same holds for any value at which the conversion is
    defined. *)
Theorem write7Seg_digits (value : f32) :
  valid32 value = true ->
  between (f32_of_int (- 65536)) (f32_of_int 65536) value = true ->
  write7Seg f1 = Some [EvDisplay 0 9; EvDisplay 1 9; EvDisplay 2 9; EvDisplay 3 9]
  /\ write7Seg f0 = Some [EvDisplay 0 0; EvDisplay 1 0; EvDisplay 2 0; EvDisplay 3 0]
  /\ write7Seg f_0_12345
     = Some [EvDisplay 0 1; EvDisplay 1 2; EvDisplay 2 3; EvDisplay 3 5]
  /\ spec_round_x10000 f_0_12345 = 1235
  /\ scaled value = Some (spec_round_x10000 value)
  /\ (let c := Z.max 0 (Z.min 9999 (spec_round_x10000 value)) in
      write7Seg value
      = Some [EvDisplay 0 (c / 1000 mod 10); EvDisplay 1 (c / 100 mod 10);
              EvDisplay 2 (c / 10 mod 10); EvDisplay 3 (c mod 10)]
      /\ c = (c / 1000 mod 10) * 1000 + (c / 100 mod 10) * 100
             + (c / 10 mod 10) * 10 + c mod 10)
  /\ (forall v : f32,
        valid32 v = true ->
        write7Seg v
        = option_map
            (fun _ => let c := Z.max 0 (Z.min 9999 (spec_round_x10000 v)) in
                      [EvDisplay 0 (c / 1000 mod 10); EvDisplay 1 (c / 100 mod 10);
                       EvDisplay 2 (c / 10 mod 10); EvDisplay 3 (c mod 10)])
            (scaled v)).
Proof.
  intros Hv Hb.
  split; [vm_compute; reflexivity|]. split; [vm_compute; reflexivity|].
  split; [vm_compute; reflexivity|]. split; [vm_compute; reflexivity|].
  assert (Hconv : forall c, 0 <= c <= 9999 ->
            Z.rem (Z.quot c 1000) 10 = c / 1000 mod 10
            /\ Z.rem (Z.quot c 100) 10 = c / 100 mod 10
            /\ Z.rem (Z.quot c 10) 10 = c / 10 mod 10 /\ Z.rem c 10 = c mod 10).
  { intros c Hc. rewrite !Z.quot_div_nonneg by lia.
    rewrite !Z.rem_mod_nonneg by (try apply Z.div_pos; lia). repeat split. }
  assert (Hshow : forall v n, scaled v = Some n ->
            write7Seg v
            = Some (let c := Z.max 0 (Z.min 9999 n) in
                    [EvDisplay 0 (c / 1000 mod 10); EvDisplay 1 (c / 100 mod 10);
                     EvDisplay 2 (c / 10 mod 10); EvDisplay 3 (c mod 10)])).
  { intros v n Hn. unfold write7Seg. rewrite Hn, clamp9999_spec. unfold digits7. cbv zeta.
    destruct (Hconv (Z.max 0 (Z.min 9999 n)) ltac:(lia)) as (-> & -> & -> & ->). reflexivity. }
  destruct (scaled_range value Hv (between_pow16 value Hv Hb)) as (n & Hn & _).
  pose proof (scaled_is_spec value n Hv Hn) as E. subst n.
  split; [exact Hn|]. split; [split|].
  - apply Hshow. exact Hn.
  - set (c := Z.max 0 (Z.min 9999 (spec_round_x10000 value))).
    pose proof (digits_recompose c ltac:(unfold c; lia)) as Hd.
    destruct (Hconv c ltac:(unfold c; lia)) as (E1 & E2 & E3 & E4).
    rewrite E1, E2, E3, E4 in Hd. exact Hd.
  - intros v Hvv. destruct (scaled v) as [n|] eqn:Hn'.
    + rewrite (Hshow v n Hn'), (scaled_is_spec v n Hvv Hn'). reflexivity.
    + unfold write7Seg. rewrite Hn'. reflexivity.
Qed.

Lemma write7Seg_digits_witness :
  write7Seg f1 = Some [EvDisplay 0 9; EvDisplay 1 9; EvDisplay 2 9; EvDisplay 3 9]
  /\ write7Seg f0 = Some [EvDisplay 0 0; EvDisplay 1 0; EvDisplay 2 0; EvDisplay 3 0]
  /\ write7Seg f_0_12345
     = Some [EvDisplay 0 1; EvDisplay 1 2; EvDisplay 2 3; EvDisplay 3 5]
  /\ spec_round_x10000 f_0_12345 = 1235
  /\ scaled f_0_12345 = Some (spec_round_x10000 f_0_12345)
  /\ (let c := Z.max 0 (Z.min 9999 (spec_round_x10000 f_0_12345)) in
      write7Seg f_0_12345
      = Some [EvDisplay 0 (c / 1000 mod 10); EvDisplay 1 (c / 100 mod 10);
              EvDisplay 2 (c / 10 mod 10); EvDisplay 3 (c mod 10)]
      /\ c = (c / 1000 mod 10) * 1000 + (c / 100 mod 10) * 100
             + (c / 10 mod 10) * 10 + c mod 10)
  /\ (forall v : f32,
        valid32 v = true ->
        write7Seg v
        = option_map
            (fun _ => let c := Z.max 0 (Z.min 9999 (spec_round_x10000 v)) in
                      [EvDisplay 0 (c / 1000 mod 10); EvDisplay 1 (c / 100 mod 10);
                       EvDisplay 2 (c / 10 mod 10); EvDisplay 3 (c mod 10)])
            (scaled v)).
Proof. apply (write7Seg_digits f_0_12345); vm_compute; reflexivity. Defined.
